(** * docker-python-nodejs: the build pipeline and the ticket automation

    A shallow embedding of [build_versions.py] and of
    [.github/scripts/jira_automation.py], and the properties of the
    version selection, the decision functions, the combination builder, the
    change detector, the builds, the Dockerfiles, the README update, the
    runs of the pipeline and the ticket automation.

    Conventions of the embedding.
    - A Python [str] is a [string]: the bytes of its UTF-8 encoding. In the
      pattern of the ticket automation [\d] is a decimal digit of any
      script, as the Unicode database of the interpreter has it. The
      patterns of the tags, the semantic versions and [str.lower] are
      written for ASCII texts.
    - [README.md] is a text file: what is written to it is read back with
      its line ends translated.
    - Code that can raise returns a [result]; code that also reads or writes
      the outside world (files, console, registry, HTTP) is a function from a
      world to a result and a world, so that what was done before an
      exception stays done.
    - Everything the scripts obtain from the network, the clock or the
      Docker engine is a field of an environment record. *)

From Stdlib Require Import Bool List Arith ZArith NArith Lia.
From Stdlib Require Import Ascii String.
From Stdlib Require Import Permutation Sorted OrderedTypeEx.
Import ListNotations.

Local Open Scope list_scope.
Local Open Scope string_scope.

(* ================================================================== *)
(** * Part I: the model *)
(* ================================================================== *)

(** ** The Python notions the scripts rely on *)

Module Py.

(** The exceptions that occur in the two scripts. [SystemExit] is what the
    builtin [exit] raises. *)
Inductive exn : Type :=
| ValueError
| TypeError
| KeyError
| AttributeError
| FileNotFoundError
| APIError
| RequestException
| OtherError
| SystemExit (code : Z).

Inductive result (A : Type) : Type :=
| Ok (a : A)
| Raise (e : exn).
Arguments Ok {A} a.
Arguments Raise {A} e.

Definition bind {A B : Type} (m : result A) (k : A -> result B) : result B :=
  match m with
  | Ok a => k a
  | Raise e => Raise e
  end.

(** The status with which the interpreter ends the process: 0 after a
    normal return, the argument of [exit], and 1 after any other uncaught
    exception. *)
Definition exit_status {A : Type} (r : result A) : Z :=
  match r with
  | Ok _ => 0%Z
  | Raise (SystemExit code) => code
  | Raise _ => 1%Z
  end.

(** [for x in l: ...] over a body that can raise. *)
Fixpoint mapM {A B : Type} (f : A -> result B) (l : list A) : result (list B) :=
  match l with
  | [] => Ok []
  | x :: xs =>
      bind (f x) (fun y => bind (mapM f xs) (fun ys => Ok (y :: ys)))
  end.

(** *** Strings *)

Definition startswith (s p : string) : bool := String.prefix p s.

Fixpoint endswith (s suffix : string) : bool :=
  (s =? suffix) ||
  match s with
  | EmptyString => false
  | String _ s' => endswith s' suffix
  end.

(** [sub in s] *)
Fixpoint contains (sub s : string) : bool :=
  String.prefix sub s ||
  match s with
  | EmptyString => false
  | String _ s' => contains sub s'
  end.

Definition is_upper (c : ascii) : bool := (("A" <=? c) && (c <=? "Z"))%char.
Definition is_lower (c : ascii) : bool := (("a" <=? c) && (c <=? "z"))%char.
Definition is_digit (c : ascii) : bool := (("0" <=? c) && (c <=? "9"))%char.

Definition lower_char (c : ascii) : ascii :=
  if is_upper c then ascii_of_N (N_of_ascii c + 32) else c.

Fixpoint lower (s : string) : string :=
  match s with
  | EmptyString => EmptyString
  | String c s' => String (lower_char c) (lower s')
  end.

Fixpoint forallb_str (p : ascii -> bool) (s : string) : bool :=
  match s with
  | EmptyString => true
  | String c s' => p c && forallb_str p s'
  end.

(** *** Characters outside ASCII

    A text is held as its UTF-8 encoding: a character of ASCII is one byte
    below 128, any other character is two to four bytes from 128 on, and
    the first byte tells how many. *)
Definition is_ascii (c : ascii) : bool := (N_of_ascii c <? 128)%N.

Definition utf8_length (c : ascii) : nat :=
  if (N_of_ascii c <? 192)%N then 1
  else if (N_of_ascii c <? 224)%N then 2
  else if (N_of_ascii c <? 240)%N then 3
  else 4.

(** The first [k] bytes of [s] and what follows them. *)
Fixpoint split_at (k : nat) (s : string) : option (string * string) :=
  match k with
  | O => Some (EmptyString, s)
  | S k' =>
      match s with
      | EmptyString => None
      | String c s' =>
          match split_at k' s' with
          | Some (a, b) => Some (String c a, b)
          | None => None
          end
      end
  end.

(** The first character of a text, as its bytes, and what follows it. *)
Definition next_char (s : string) : option (string * string) :=
  match s with
  | EmptyString => None
  | String c _ => split_at (utf8_length c) s
  end.

(** What the interpreter knows of the characters outside ASCII: which of
    them are decimal digits (the category [Nd] of its Unicode database). *)
Record Unicode : Type := {
  decimal : string -> bool
}.

(** [\d] in a pattern on [str] matches a decimal digit of any script: an
    ASCII digit, or a character outside ASCII that the database lists. *)
Definition is_decimal (db : Unicode) (ch : string) : bool :=
  match ch with
  | String c EmptyString => is_digit c
  | _ => forallb_str (fun c => negb (is_ascii c)) ch && decimal db ch
  end.

(** [\d] at the beginning of [s]: the digit and what follows it. *)
Definition digit_ahead (db : Unicode) (s : string) : option (string * string) :=
  match next_char s with
  | Some (ch, rest) => if is_decimal db ch then Some (ch, rest) else None
  | None => None
  end.

(** The text of a sequence of characters. *)
Definition glue (chars : list string) : string := fold_right append EmptyString chars.

(** [s.split(sep)] for a one-character separator: always at least one
    part. *)
Fixpoint split (sep : ascii) (s : string) : list string :=
  match s with
  | EmptyString => [EmptyString]
  | String c s' =>
      if (c =? sep)%char then EmptyString :: split sep s'
      else match split sep s' with
           | [] => [String c EmptyString]
           | p :: ps => String c p :: ps
           end
  end.

(** [int(text)] for a text of decimal digits. *)
Definition digit_value (c : ascii) : N := (N_of_ascii c - 48)%N.

Fixpoint int_acc (acc : N) (s : string) : N :=
  match s with
  | EmptyString => acc
  | String c s' => int_acc (acc * 10 + digit_value c)%N s'
  end.

Definition int (text : string) : N := int_acc 0 text.

(** A literal text at the beginning of [s]: what follows it. *)
Fixpoint match_text_lit (lit s : string) : option string :=
  match lit with
  | EmptyString => Some s
  | String p lit' =>
      match s with
      | EmptyString => None
      | String c s' => if (p =? c)%char then match_text_lit lit' s' else None
      end
  end.

(** [cmp(a, b) = (a > b) - (a < b)] *)
Definition sign (c : comparison) : Z :=
  match c with
  | Lt => (-1)%Z
  | Eq => 0%Z
  | Gt => 1%Z
  end.

(** [s.replace(old, new)] for a non-empty [old]: the occurrences are
    replaced from left to right; [skip] counts the characters of an
    occurrence that are still to be dropped. *)
Fixpoint replace_from (old new : string) (skip : nat) (s : string) : string :=
  match s with
  | EmptyString => EmptyString
  | String c s' =>
      match skip with
      | S k => replace_from old new k s'
      | O =>
          if String.prefix old s
          then new ++ replace_from old new (String.length old - 1) s'
          else String c (replace_from old new 0 s')
      end
  end.

Definition replace (s old new : string) : string := replace_from old new 0 s.

(** *** [sorted]

    [sorted(l, key=..., reverse=...)] computes the key of every element
    first, then sorts by [<] on the keys. The sort is stable, and with
    [reverse=True] it stays stable: the list is reversed, sorted, and
    reversed again. Only the result and the exceptions matter here, so the
    stable sort is written as an insertion sort: for a comparison that is
    a strict weak order every stable sort returns the same list, and as
    soon as there are two elements every element is compared at least
    once, so that a comparison that raises on an element makes the sort
    raise. *)

Section Sorted.
Context {A K : Type}.
Variable key : A -> result K.
Variable lt : K -> K -> result bool.

Fixpoint insert (x : K * A) (l : list (K * A)) : result (list (K * A)) :=
  match l with
  | [] => Ok [x]
  | y :: ys =>
      bind (lt (fst y) (fst x)) (fun b =>
        if b then bind (insert x ys) (fun r => Ok (y :: r))
        else Ok (x :: y :: ys))
  end.

Fixpoint isort (l : list (K * A)) : result (list (K * A)) :=
  match l with
  | [] => Ok []
  | x :: xs => bind (isort xs) (insert x)
  end.

Definition sorted (reverse : bool) (l : list A) : result (list A) :=
  bind (mapM (fun a => bind (key a) (fun k => Ok (k, a))) l) (fun ks =>
  bind (if reverse
        then bind (isort (rev ks)) (fun r => Ok (rev r))
        else isort ks) (fun r =>
  Ok (map snd r))).
End Sorted.

End Py.

Import Py.

Notation "x <- m ;; k" := (Py.bind m (fun x => k))
  (at level 61, m at next level, right associativity).

(** ** The semver package

    [semver.compare] of the python-semver package (2.x), which
    [build_versions.py] imports. The package is not part of the repository:
    it is written here as the package has it. Both arguments are parsed, a
    string that is not a semantic version raises [ValueError], and the
    versions are compared by major, minor and patch number and then by
    prerelease; the build part takes no part in the comparison. *)

Module semver.

Record VersionInfo : Type := {
  major : N;
  minor : N;
  patch : N;
  prerelease : option string;
  build : option string
}.

Definition is_idchar (c : ascii) : bool :=
  is_digit c || is_upper c || is_lower c || (c =? "-")%char.

Definition nonempty (s : string) : bool :=
  match s with
  | EmptyString => false
  | _ => true
  end.

Definition all_digits (s : string) : bool := nonempty s && forallb_str is_digit s.

(** [0|[1-9]\d*] *)
Definition numeric (s : string) : bool :=
  all_digits s &&
  match s with
  | String "0" (String _ _) => false
  | _ => true
  end.

(** [0|[1-9]\d*|\d*[a-zA-Z-][0-9a-zA-Z-]*] *)
Definition prerelease_identifier (s : string) : bool :=
  nonempty s && forallb_str is_idchar s && (negb (all_digits s) || numeric s).

(** [[0-9a-zA-Z-]+] *)
Definition build_identifier (s : string) : bool :=
  nonempty s && forallb_str is_idchar s.

(** [s.partition(sep)]: the text before the first [sep], and the text
    after it when there is one. *)
Fixpoint partition (sep : ascii) (s : string) : string * option string :=
  match s with
  | EmptyString => (EmptyString, None)
  | String c s' =>
      if (c =? sep)%char then (EmptyString, Some s')
      else let (a, b) := partition sep s' in (String c a, b)
  end.

(** The [$] of a Python pattern also matches before a final newline. *)
Fixpoint strip_final_newline (s : string) : string :=
  match s with
  | EmptyString => EmptyString
  | String c s' =>
      match s' with
      | EmptyString => if (c =? "010")%char then EmptyString else s
      | _ => String c (strip_final_newline s')
      end
  end.

Definition option_forall {A : Type} (p : A -> bool) (o : option A) : bool :=
  match o with
  | None => true
  | Some a => p a
  end.

(** The package's pattern
    [^(major).(minor).(patch)(?:-(prerelease))?(?:+(build))?$]: the core
    holds no [-] and no [+] and the prerelease no [+], so the first [+]
    starts the build part and the first [-] before it the prerelease. *)
Definition parse (version : string) : result VersionInfo :=
  let (core_pre, bld) := partition "+" (strip_final_newline version) in
  let (core, pre) := partition "-" core_pre in
  match split "." core with
  | [ma; mi; pa] =>
      if numeric ma && numeric mi && numeric pa
         && option_forall (fun p => forallb prerelease_identifier (split "." p)) pre
         && option_forall (fun b => forallb build_identifier (split "." b)) bld
      then Ok {| major := int ma; minor := int mi; patch := int pa;
                 prerelease := pre; build := bld |}
      else Raise ValueError
  | _ => Raise ValueError
  end.

Definition cmp_N (a b : N) : Z := sign (a ?= b)%N.
Definition cmp_nat (a b : nat) : Z := sign (a ?= b)%nat.
Definition cmp_str (a b : string) : Z := sign (a ?= b)%string.

(** [convert] and [cmp_prerelease_tag] of [_nat_cmp]: a part made of
    digits is an integer, integers come before texts. *)
Definition is_int (text : string) : bool := all_digits text.

Definition cmp_prerelease_tag (a b : string) : Z :=
  if is_int a && is_int b then cmp_N (int a) (int b)
  else if is_int a then (-1)%Z
  else if is_int b then 1%Z
  else cmp_str a b.

(** The loop of [_nat_cmp] over [zip(a_parts, b_parts)], and its [else]
    branch, which compares the lengths of the two texts. *)
Fixpoint nat_cmp_parts (a_parts b_parts : list string) (len_a len_b : nat) : Z :=
  match a_parts, b_parts with
  | sub_a :: a_rest, sub_b :: b_rest =>
      let cmp_result := cmp_prerelease_tag sub_a sub_b in
      if (cmp_result =? 0)%Z then nat_cmp_parts a_rest b_rest len_a len_b
      else cmp_result
  | _, _ => cmp_nat len_a len_b
  end.

Definition or_empty (o : option string) : string :=
  match o with
  | Some s => s
  | None => EmptyString
  end.

Definition _nat_cmp (a b : option string) : Z :=
  let a := or_empty a in
  let b := or_empty b in
  nat_cmp_parts (split "." a) (split "." b) (String.length a) (String.length b).

(** [not rc]: [None] or the empty text. *)
Definition falsy (o : option string) : bool := negb (nonempty (or_empty o)).

Definition cmp_triple (v1 v2 : N * N * N) : Z :=
  let '(a1, b1, c1) := v1 in
  let '(a2, b2, c2) := v2 in
  if negb (cmp_N a1 a2 =? 0)%Z then cmp_N a1 a2
  else if negb (cmp_N b1 b2 =? 0)%Z then cmp_N b1 b2
  else cmp_N c1 c2.

Definition compare_info (v1 v2 : VersionInfo) : Z :=
  let x := cmp_triple (major v1, minor v1, patch v1) (major v2, minor v2, patch v2) in
  if negb (x =? 0)%Z then x
  else
    let rc1 := prerelease v1 in
    let rc2 := prerelease v2 in
    let rccmp := _nat_cmp rc1 rc2 in
    if (rccmp =? 0)%Z then 0%Z
    else if falsy rc1 then 1%Z
    else if falsy rc2 then (-1)%Z
    else rccmp.

Definition compare (ver1 ver2 : string) : result Z :=
  v1 <- parse ver1 ;;
  v2 <- parse ver2 ;;
  Ok (compare_info v1 v2).

End semver.

(** ** Code with effects

    A computation over a world [W]: it returns or raises, and leaves a
    world behind in both cases. *)

Module IO.

Definition t (W A : Type) : Type := W -> result A * W.

Definition ret {W A : Type} (a : A) : t W A := fun w => (Ok a, w).

Definition raise {W A : Type} (e : exn) : t W A := fun w => (Raise e, w).

Definition bind {W A B : Type} (m : t W A) (k : A -> t W B) : t W B :=
  fun w =>
    match m w with
    | (Ok a, w') => k a w'
    | (Raise e, w') => (Raise e, w')
    end.

Definition lift {W A : Type} (r : result A) : t W A := fun w => (r, w).

(** [for x in l: body] *)
Fixpoint for_each {W A : Type} (body : A -> t W unit) (l : list A) : t W unit :=
  match l with
  | [] => ret tt
  | x :: xs => bind (body x) (fun _ => for_each body xs)
  end.

(** [if c: body] *)
Definition when {W : Type} (c : bool) (body : t W unit) : t W unit :=
  if c then body else ret tt.

(** A loop that appends what each round produces to a list. *)
Fixpoint collect {W A B : Type} (body : A -> t W (list B)) (l : list A)
    : t W (list B) :=
  match l with
  | [] => ret []
  | x :: xs =>
      bind (body x) (fun ys => bind (collect body xs) (fun zs => ret (ys ++ zs)%list))
  end.

(** [try: m except ...: handler], for the exceptions that [handler]
    takes. *)
Definition try {W A : Type} (m : t W A) (handler : exn -> option (t W A)) : t W A :=
  fun w =>
    match m w with
    | (Ok a, w') => (Ok a, w')
    | (Raise e, w') =>
        match handler e with
        | Some h => h w'
        | None => (Raise e, w')
        end
    end.

End IO.

Notation "x <~ m ;; k" := (IO.bind m (fun x => k))
  (at level 61, m at next level, right associativity).
Notation "m ;;; k" := (IO.bind m (fun _ => k))
  (at level 61, right associativity).

(** ** build_versions.py *)

Module build_versions.

Definition DEFAULT_DISTRO : string := "buster".
Definition DISTROS : list string := ["buster"; "bullseye"; "slim"; "alpine"].

(** [by_semver_key = cmp_to_key(semver.compare)]: the key of an element is
    the element, and [a < b] on keys is [semver.compare(a, b) < 0]. *)
Definition by_semver_lt (a b : string) : result bool :=
  c <- semver.compare a b ;; Ok (c <? 0)%Z.

(** A compiled pattern is used through [patch_pattern.match(tag)] only: it
    is the test it performs on a tag. *)
Definition pattern : Type := string -> bool.

Definition _latest_patch (tags : list string) (ver : string)
    (patch_pattern : pattern) (distro : string) : result string :=
  let tags := filter (fun tag => startswith tag ver
                                 && endswith tag ("-" ++ distro)
                                 && patch_pattern tag) tags in
  match tags with
  | [] => Ok ""
  | _ :: _ =>
      l <- sorted (fun tag => Ok tag) by_semver_lt true tags ;;
      Ok (hd "" l)
  end.


(** *** The data *)

(** [{"version": ..., "start": ..., "end": ...}] *)
Record ReleaseWindow : Type := {
  rw_version : string;
  rw_start : string;
  rw_end : string
}.

(** What [decide_python_versions] and [decide_nodejs_versions] return. *)
Record PythonVersion : Type := {
  p_canonical_version : string;
  p_image : string;
  p_key : string;
  p_distro : string
}.

Record NodejsVersion : Type := {
  n_canonical_version : string;
  n_key : string
}.

(** One row of the cross product. *)
Record Combination : Type := {
  key : string;
  python : string;
  python_canonical : string;
  python_image : string;
  nodejs : string;
  nodejs_canonical : string;
  distro : string
}.

(** [ver == other] on two rows. *)
Definition Combination_eqb (a b : Combination) : bool :=
  (key a =? key b) && (python a =? python b)
  && (python_canonical a =? python_canonical b)
  && (python_image a =? python_image b)
  && (nodejs a =? nodejs b)
  && (nodejs_canonical a =? nodejs_canonical b)
  && (distro a =? distro b).

(** *** The patterns of [decide_python_versions] and
    [decide_nodejs_versions]

    [^(\d+\.\d+\.\d+-<distro>)$] for a distro name written with letters
    and a tag that is an ASCII text: three runs of digits, the distro after
    the first [-], and the final newline that [$] lets through. *)
Definition patch_tag_match (distro tag : string) : bool :=
  let (core, rest) := semver.partition "-" (semver.strip_final_newline tag) in
  match split "." core, rest with
  | [a; b; c], Some d =>
      semver.all_digits a && semver.all_digits b && semver.all_digits c
      && (d =? distro)
  | _, _ => false
  end.

(** ["|".join(...)] of the patterns of the distros; the join of no pattern
    is the empty pattern, which matches every tag. *)
Definition wanted_tag_pattern (distros : list string) : pattern :=
  fun tag =>
    match distros with
    | [] => true
    | _ :: _ => existsb (fun distro => patch_tag_match distro tag) distros
    end.

(** *** [version_combinations] *)

(** [l.index(x)] *)
Fixpoint index (l : list string) (x : string) : result nat :=
  match l with
  | [] => Raise ValueError
  | y :: ys => if y =? x then Ok 0 else i <- index ys x ;; Ok (S i)
  end.

Definition int_lt (a b : nat) : result bool := Ok (Nat.ltb a b).

Definition combination (p : PythonVersion) (n : NodejsVersion) : Combination :=
  let distro := if negb (p_distro p =? DEFAULT_DISTRO) then "-" ++ p_distro p else "" in
  let key := "python" ++ p_key p ++ "-nodejs" ++ n_key n ++ distro in
  {| key := key;
     python := p_key p;
     python_canonical := p_canonical_version p;
     python_image := p_image p;
     nodejs := n_key n;
     nodejs_canonical := n_canonical_version n;
     distro := p_distro p |}.

(** The two nested loops. *)
Definition cross_product (nodejs_versions : list NodejsVersion)
    (python_versions : list PythonVersion) : list Combination :=
  flat_map (fun p => map (fun n => combination p n) nodejs_versions) python_versions.

Definition version_combinations (nodejs_versions : list NodejsVersion)
    (python_versions : list PythonVersion) : result (list Combination) :=
  let versions := cross_product nodejs_versions python_versions in
  versions <- sorted (fun v => index DISTROS (distro v)) int_lt false versions ;;
  versions <- sorted (fun v => Ok (nodejs_canonical v)) by_semver_lt true versions ;;
  versions <- sorted (fun v => Ok (python_canonical v)) by_semver_lt true versions ;;
  Ok versions.

(** *** The change detector of [build_new_or_updated] *)

(** A [dict] with text keys keeps its keys in the order of their first
    insertion; a second insertion under a key replaces the value in
    place. *)
Definition dict (V : Type) : Type := list (string * V).

Fixpoint dict_get {V : Type} (d : dict V) (k : string) : option V :=
  match d with
  | [] => None
  | (k', v) :: d' => if k' =? k then Some v else dict_get d' k
  end.

Fixpoint dict_set {V : Type} (d : dict V) (k : string) (v : V) : dict V :=
  match d with
  | [] => [(k, v)]
  | (k', v') :: d' =>
      if k' =? k then (k', v) :: d' else (k', v') :: dict_set d' k v
  end.

(** [{ver["key"]: ver for ver in versions}] *)
Definition by_key (versions : list Combination) : dict Combination :=
  fold_left (fun d ver => dict_set d (key ver) ver) versions [].

Definition is_new_or_updated (current_versions : dict Combination)
    (force : bool) (item : string * Combination) : bool :=
  let (key, ver) := item in
  let updated :=
    match dict_get current_versions key with
    | Some cur => negb (Combination_eqb ver cur)
    | None => false
    end in
  let new :=
    match dict_get current_versions key with
    | Some _ => false
    | None => true
    end in
  new || updated || force.

Definition new_or_updated (current_versions versions : list Combination)
    (force : bool) : list Combination :=
  let current_versions := by_key current_versions in
  let versions := by_key versions in
  map snd (filter (is_new_or_updated current_versions force) versions).

(** *** The README table *)

Definition newline : string := String "010" "".

Definition headings : list string :=
  ["Tag"; "Python version"; "Node.js version"; "Distro"].

Definition table_row (v : Combination) : list string :=
  ["`" ++ key v ++ "`"; python_canonical v; nodejs_canonical v; distro v].

Definition table (versions : list Combination) : string :=
  let rows := map table_row versions in
  let head := String.concat " | " headings ++ newline
              ++ String.concat " | " (map (fun _ => "---") headings) in
  let body := String.concat newline (map (String.concat " | ") rows) in
  head ++ newline ++ body ++ newline.

Definition start : string :=
  "the following table of available image tags." ++ newline.
Definition end_ : string := newline ++ "Lovely!".

(** The pattern [f"{start}(.+?){end}"], compiled with [re.DOTALL]. The
    texts of [start] and [end] are read as patterns: their letters, blanks,
    [!] and newlines stand for themselves, and the [.] of [start] stands
    for any character. *)
Fixpoint match_text (pat s : string) : option string :=
  match pat with
  | EmptyString => Some s
  | String p pat' =>
      match s with
      | EmptyString => None
      | String c s' =>
          if (p =? ".")%char || (p =? c)%char then match_text pat' s' else None
      end
  end.

(** [(.+?){end}] after the first character of the group: the shortest text
    that [end] follows, and what comes after [end]. *)
Fixpoint lazy_until (close s : string) : option (string * string) :=
  match match_text close s with
  | Some rest => Some (EmptyString, rest)
  | None =>
      match s with
      | EmptyString => None
      | String c s' =>
          match lazy_until close s' with
          | Some (g, rest) => Some (String c g, rest)
          | None => None
          end
      end
  end.

(** A match of the pattern at the beginning of [s]: group 1 and the text
    after the match. *)
Definition match_here (s : string) : option (string * string) :=
  match match_text start s with
  | Some (String c s') =>
      match lazy_until end_ s' with
      | Some (g, rest) => Some (String c g, rest)
      | None => None
      end
  | _ => None
  end.

(** [sub_pattern.sub(repl, readme)]: the matches are searched from left to
    right, each search starting where the previous match ended, and each
    match is replaced by the expansion of [repl], which may depend on
    group 1. [n] bounds the number of steps; the length of the text is
    enough. *)
Fixpoint sub_steps (n : nat) (expand : string -> string) (s : string) : string :=
  match n with
  | O => s
  | S n' =>
      match match_here s with
      | Some (g, rest) => expand g ++ sub_steps n' expand rest
      | None =>
          match s with
          | EmptyString => EmptyString
          | String c s' => String c (sub_steps n' expand s')
          end
      end
  end.

Definition sub (expand : string -> string) (s : string) : string :=
  sub_steps (String.length s) expand s.

(** *** The world of the pipeline *)

Inductive docker_call : Type :=
| Login (username password : option string)
| Build (tag dockerfile : string)
| Push (repository tag : string).

(** [README.md] is opened in text mode. Reading a text file gives the line
    ends [CR LF] and [CR] as [LF]; writing, where the line end of the system
    is [LF], stores the text as it is. *)
Fixpoint universal_newlines (s : string) : string :=
  match s with
  | EmptyString => EmptyString
  | String c s' =>
      if (c =? "013")%char
      then String "010" match s' with
                        | String "010" s'' => universal_newlines s''
                        | _ => universal_newlines s'
                        end
      else String c (universal_newlines s')
  end.

Record World : Type := {
  versions_json : option (list Combination);  (* [versions.json], when it exists *)
  readme_md : option string;                  (* what reading [README.md] gives, when it exists *)
  debug_files : list string;                  (* names of the debug Dockerfiles written *)
  console : list string;                      (* what was printed, oldest first *)
  docker : list docker_call                   (* calls on the Docker client, oldest first *)
}.

(** What the run obtains from outside. *)
Record Env : Type := {
  todays_date : string;
  getenv : string -> option string;
  (** [requests.get(...)] of the tag list of a package, of the node keys,
      of the release schedules *)
  _fetch_tags : string -> result (list string);
  _fetch_node_gpg_keys : result string;
  scrape_supported_python_versions : result (list ReleaseWindow);
  fetch_supported_nodejs_versions : result (list ReleaseWindow);
  (** [list(set(distros))]: the order is the runtime's *)
  list_of_set : list string -> list string;
  (** [docker.from_env()], [login], [images.build], [images.push] *)
  docker_from_env : result unit;
  docker_login : option string -> option string -> result unit;
  docker_build : string -> string -> result unit;
  docker_push : string -> string -> result unit;
  (** [render_dockerfile]: it reads the template file and the clock, and
      raises on a missing template, an unknown placeholder or a Node.js
      key that is not a number *)
  render_dockerfile : Combination -> string -> result string;
  (** the compilation of a replacement text that holds a backslash (an
      escape or a reference to group 1): an error, or the expansion as a
      function of group 1 *)
  re_template : string -> result (string -> string)
}.

Definition print (msg : string) : IO.t World unit :=
  fun w => (Ok tt, {| versions_json := versions_json w;
                      readme_md := readme_md w;
                      debug_files := debug_files w;
                      console := (console w ++ [msg])%list;
                      docker := docker w |}).

Definition docker_do (c : docker_call) (r : result unit) : IO.t World unit :=
  fun w => (r, {| versions_json := versions_json w;
                  readme_md := readme_md w;
                  debug_files := debug_files w;
                  console := console w;
                  docker := (docker w ++ [c])%list |}).

Definition write_versions (versions : list Combination) : IO.t World unit :=
  fun w => (Ok tt, {| versions_json := Some versions;
                      readme_md := readme_md w;
                      debug_files := debug_files w;
                      console := console w;
                      docker := docker w |}).

(** [f.write(text)] on [README.md]: the next read gives the text with its
    line ends translated. *)
Definition write_readme (text : string) : IO.t World unit :=
  fun w => (Ok tt, {| versions_json := versions_json w;
                      readme_md := Some (universal_newlines text);
                      debug_files := debug_files w;
                      console := console w;
                      docker := docker w |}).

Definition write_debug_file (name : string) : IO.t World unit :=
  fun w => (Ok tt, {| versions_json := versions_json w;
                      readme_md := readme_md w;
                      debug_files := (debug_files w ++ [name])%list;
                      console := console w;
                      docker := docker w |}).

Definition read_file {A : Type} (file : World -> option A) : IO.t World A :=
  fun w =>
    match file w with
    | Some a => (Ok a, w)
    | None => (Raise FileNotFoundError, w)
    end.

(** [f"{x}"] of a text or [None] *)
Definition str_of (o : option string) : string :=
  match o with
  | Some s => s
  | None => "None"
  end.

(** *** The functions of the pipeline *)

Definition DOCKER_IMAGE_NAME : string := "nikolaik/python-nodejs".

(** [v["start"] <= todays_date <= v["end"]] *)
Definition supported (today : string) (v : ReleaseWindow) : bool :=
  (rw_start v <=? today) && (today <=? rw_end v).

Definition decide_python_versions (env : Env) (distros : list string)
    : IO.t World (list PythonVersion) :=
  let python_wanted_tag_pattern := wanted_tag_pattern distros in
  fetched <~ IO.lift (_fetch_tags env "python") ;;
  let tags := filter python_wanted_tag_pattern fetched in
  scraped <~ IO.lift (scrape_supported_python_versions env) ;;
  let supported_versions := filter (supported (todays_date env)) scraped in
  versions <~ IO.collect (fun supported_version =>
    let ver := rw_version supported_version in
    IO.collect (fun distro =>
      canonical_image <~ IO.lift (_latest_patch tags ver python_wanted_tag_pattern distro) ;;
      if canonical_image =? ""
      then print ("Not good. ver=" ++ ver ++ " distro=" ++ distro
                  ++ " not in tags, skipping...") ;;;
           IO.ret []
      else
        let canonical_version := replace canonical_image ("-" ++ distro) "" in
        IO.ret [ {| p_canonical_version := canonical_version;
                    p_image := canonical_image;
                    p_key := ver;
                    p_distro := distro |} ]) distros) supported_versions ;;
  IO.lift (sorted (fun v => Ok (p_canonical_version v)) by_semver_lt true versions).

(** [s[1:]] *)
Definition tail_str (s : string) : string :=
  match s with
  | EmptyString => EmptyString
  | String _ s' => s'
  end.

Definition decide_nodejs_versions (env : Env) : IO.t World (list NodejsVersion) :=
  let nodejs_wanted_tag_pattern := wanted_tag_pattern [DEFAULT_DISTRO] in
  fetched <~ IO.lift (_fetch_tags env "node") ;;
  let tags := filter nodejs_wanted_tag_pattern fetched in
  schedule <~ IO.lift (fetch_supported_nodejs_versions env) ;;
  let supported_versions := filter (supported (todays_date env)) schedule in
  versions <~ IO.collect (fun supported_version =>
    let ver := tail_str (rw_version supported_version) in
    canonical_image <~ IO.lift (_latest_patch tags ver nodejs_wanted_tag_pattern DEFAULT_DISTRO) ;;
    if canonical_image =? ""
    then print ("Not good, ver=" ++ ver ++ " distro=" ++ DEFAULT_DISTRO
                ++ " not in tags, skipping...") ;;;
         IO.ret []
    else
      let canonical_version := replace canonical_image ("-" ++ DEFAULT_DISTRO) "" in
      IO.ret [ {| n_canonical_version := canonical_version; n_key := ver |} ])
    supported_versions ;;
  IO.lift (sorted (fun v => Ok (n_canonical_version v)) by_semver_lt true versions).

Definition persist_versions (versions : list Combination) (dry_run : bool)
    : IO.t World unit :=
  if dry_run then IO.ret tt else write_versions versions.

Definition load_versions : IO.t World (list Combination) := read_file versions_json.

Definition build_new_or_updated (env : Env)
    (current_versions versions : list Combination)
    (dry_run debug force : bool) : IO.t World unit :=
  let new_or_updated := new_or_updated current_versions versions force in
  match new_or_updated with
  | [] => print "No new or updated versions"
  | _ :: _ =>
      (* Login to docker hub *)
      IO.lift (docker_from_env env) ;;;
      let dockerhub_username := getenv env "DOCKERHUB_USERNAME" in
      let dockerhub_password := getenv env "DOCKERHUB_PASSWORD" in
      IO.try
        (docker_do (Login dockerhub_username dockerhub_password)
                   (docker_login env dockerhub_username dockerhub_password))
        (fun e =>
           match e with
           | APIError =>
               Some (print ("Could not login to docker hub with username:'"
                            ++ str_of dockerhub_username ++ "'.") ;;;
                     print "Is env var DOCKERHUB_USERNAME and DOCKERHUB_PASSWORD set correctly?" ;;;
                     IO.raise (SystemExit 1))
           | _ => None
           end) ;;;
      node_gpg_keys <~ IO.lift (_fetch_node_gpg_keys env) ;;
      (* Build, tag and push images *)
      IO.for_each (fun version =>
        dockerfile <~ IO.lift (render_dockerfile env version node_gpg_keys) ;;
        let tag := DOCKER_IMAGE_NAME ++ ":" ++ key version in
        let nodejs_version := nodejs_canonical version in
        let python_version := python_canonical version in
        print ("Building image " ++ key version ++ " python: " ++ python_version
               ++ " nodejs: " ++ nodejs_version ++ " ...") ;;;
        IO.when (negb dry_run)
          (docker_do (Build tag dockerfile) (docker_build env tag dockerfile)) ;;;
        IO.when debug
          (write_debug_file ("debug-" ++ key version ++ ".Dockerfile")) ;;;
        print " pushing..." ;;;
        IO.when (negb dry_run)
          (docker_do (Push DOCKER_IMAGE_NAME (key version))
                     (docker_push env DOCKER_IMAGE_NAME (key version))))
        new_or_updated
  end.

(** The replacement text is a template: without a backslash it stands for
    itself. *)
Definition compile_template (env : Env) (repl : string) : result (string -> string) :=
  if contains "\" repl then re_template env repl else Ok (fun _ => repl).

Definition update_readme_tags_table (env : Env) (versions : list Combination)
    (dry_run : bool) : IO.t World unit :=
  readme <~ read_file readme_md ;;
  let table := table versions in
  expand <~ IO.lift (compile_template env (start ++ newline ++ table ++ end_)) ;;
  let readme_new := sub expand readme in
  IO.when (negb (readme =? readme_new) && negb dry_run) (write_readme readme_new).

Definition main (env : Env) (distros : list string) (dry_run debug force : bool)
    : IO.t World unit :=
  let distros := list_of_set env distros in
  current_versions <~ load_versions ;;
  (* Use latest patch version from each minor *)
  python_versions <~ decide_python_versions env distros ;;
  (* Use latest minor version from each major *)
  nodejs_versions <~ decide_nodejs_versions env ;;
  versions <~ IO.lift (version_combinations nodejs_versions python_versions) ;;
  persist_versions versions dry_run ;;;
  update_readme_tags_table env versions dry_run ;;;
  (* Build tag and release docker images *)
  build_new_or_updated env current_versions versions dry_run debug force.

End build_versions.

Import build_versions.

(** ** build_versions.py: the Dockerfiles

    [render_dockerfile] and [_fetch_node_gpg_keys], which the pipeline above
    takes from its environment, as the script has them. *)

Module dockerfiles.

(** What the two functions obtain from outside. [int_other] is the builtin
    [int] on a text that is not a run of decimal digits: the number that it
    reads, or the exception that it raises. *)
Record Env : Type := {
  read_text : string -> result string;   (* [Path(name).read_text()] *)
  utcnow_isoformat : string;             (* [datetime.utcnow().isoformat()] *)
  int_other : string -> result Z;
  requests_get_text : string -> result string   (* [requests.get(url).text] *)
}.

(** [int(text)] *)
Definition int_of (env : Env) (text : string) : result Z :=
  if semver.all_digits text then Ok (Z.of_N (int text)) else int_other env text.

(** [s[:-n]] *)
Definition drop_last (n : nat) (s : string) : string :=
  substring 0 (String.length s - n) s.

(** The pattern [%%(.+?)%%]. Without [re.DOTALL] the [.] stands for any
    character but the line feed.

    [lazy_group s]: [(.+?)%%] after the first character of the group, the
    shortest text without line feed that [%%] follows, and what comes
    after [%%]. *)
Fixpoint lazy_group (s : string) : option (string * string) :=
  match match_text_lit "%%" s with
  | Some rest => Some (EmptyString, rest)
  | None =>
      match s with
      | EmptyString => None
      | String c s' =>
          if (c =? "010")%char then None
          else match lazy_group s' with
               | Some (g, rest) => Some (String c g, rest)
               | None => None
               end
      end
  end.

(** A match of the pattern at the beginning of [s]: group 1 and the text
    after the match. *)
Definition match_placeholder (s : string) : option (string * string) :=
  match match_text_lit "%%" s with
  | Some (String c s') =>
      if (c =? "010")%char then None
      else match lazy_group s' with
           | Some (g, rest) => Some (String c g, rest)
           | None => None
           end
  | _ => None
  end.

(** [replace_pattern.sub(repl, text)] for a function [repl] of group 1 that
    can raise: the matches are searched from left to right, each search
    starting where the previous match ended. [n] bounds the number of
    steps; the length of the text is enough. *)
Fixpoint sub_steps (n : nat) (repl : string -> result string) (s : string)
    : result string :=
  match n with
  | O => Ok s
  | S n' =>
      match match_placeholder s with
      | Some (g, rest) =>
          v <- repl g ;;
          r <- sub_steps n' repl rest ;;
          Ok (v ++ r)
      | None =>
          match s with
          | EmptyString => Ok EmptyString
          | String c s' => r <- sub_steps n' repl s' ;; Ok (String c r)
          end
      end
  end.

Definition sub (repl : string -> result string) (s : string) : result string :=
  sub_steps (String.length s) repl s.

(** The dict of the replacements: the three entries of the literal, then
    those of the row. *)
Definition replacements (npm_version now node_gpg_keys : string)
    (version : Combination) : dict string :=
  [ ("npm_version", npm_version);
    ("now", now);
    ("node_gpg_keys", node_gpg_keys);
    ("key", key version);
    ("python", python version);
    ("python_canonical", python_canonical version);
    ("python_image", python_image version);
    ("nodejs", nodejs version);
    ("nodejs_canonical", nodejs_canonical version);
    ("distro", distro version) ].

(** [replacements[matchobj.group(1).lower()]] *)
Definition repl (replacements : dict string) (group : string) : result string :=
  match dict_get replacements (lower group) with
  | Some value => Ok value
  | None => Raise KeyError
  end.

Definition render_dockerfile (env : Env) (version : Combination)
    (node_gpg_keys : string) : result string :=
  dockerfile_template <-
    read_text env ("templates/" ++ distro version ++ ".Dockerfile") ;;
  n <- int_of env (nodejs version) ;;
  let replacements :=
    replacements (if (n <? 15)%Z then "6" else "7")
                 (drop_last 7 (utcnow_isoformat env))
                 node_gpg_keys version in
  sub (repl replacements) dockerfile_template.

Definition _fetch_node_gpg_keys (env : Env) : result string :=
  let url := "https://raw.githubusercontent.com/nodejs/docker-node/master/keys/node.keys" in
  text <- requests_get_text env url ;;
  Ok (replace text newline " ").

End dockerfiles.

(** ** jira_automation.py *)

Module jira_automation.

(** What the script reads of a response: its status code, and the
    [fields.issuetype.name] and [fields.status.name] of its JSON body.
    [json = None] is a body that is not JSON; a name that is [None] is a
    field that is missing or is not a text. *)
Record Issue : Type := {
  issuetype_name : option string;
  status_name : option string
}.

Record Response : Type := {
  status_code : Z;
  json : option Issue
}.

(** The requests sent, oldest first. *)
Inductive request : Type :=
| GET (url : string)
| POST (url : string) (transition_id : string).

Record World : Type := {
  console : list string;
  requests : list request
}.

(** The ticket tracker: what [requests.get] and [requests.post] return or
    raise. *)
Record Env : Type := {
  requests_get : string -> result Response;
  requests_post : string -> string -> result Response
}.

Definition print (msg : string) : IO.t World unit :=
  fun w => (Ok tt, {| console := (console w ++ [msg])%list; requests := requests w |}).

Definition send {A : Type} (r : request) (answer : result A) : IO.t World A :=
  fun w => (answer, {| console := console w; requests := (requests w ++ [r])%list |}).

(** [response.raise_for_status()]: a status from 400 to 599 raises an
    [HTTPError], which is a [RequestException]. *)
Definition raise_for_status (response : Response) : result unit :=
  if ((400 <=? status_code response) && (status_code response <? 600))%Z
  then Raise RequestException
  else Ok tt.

Record UpdateJira : Type := {
  jira_domain : string;
  jira_token : string;
  ticket_id : option string
}.

(** The text of a status code is not modelled: the messages that print it
    are recorded without it. *)
Definition get (env : Env) (self : UpdateJira) (url : string)
    : IO.t World (option Response) :=
  IO.try
    (response <~ send (GET url) (requests_get env url) ;;
     IO.lift (raise_for_status response) ;;;
     print "Response status for get" ;;;
     IO.ret (Some response))
    (fun e =>
       match e with
       | RequestException => Some (print "Error with response" ;;; IO.ret None)
       | _ => None
       end).

Definition post (env : Env) (self : UpdateJira) (url : string) (transition_id : string)
    : IO.t World (option Response) :=
  IO.try
    (response <~ send (POST url transition_id) (requests_post env url transition_id) ;;
     IO.lift (raise_for_status response) ;;;
     print "Response status for post" ;;;
     IO.ret (Some response))
    (fun e =>
       match e with
       | RequestException => Some (print "Error with response" ;;; IO.ret None)
       | _ => None
       end).

(** [{"issue_name": issuetype, "status": status}] *)
Record TicketInfo : Type := {
  issue_name : string;
  status : string
}.

(** [response.json()], then the two names: on [None] for a response the
    attribute access raises, on a body that is not JSON [json()] raises,
    on a missing name the subscript raises. *)
Definition read_ticket (response : option Response) : result TicketInfo :=
  match response with
  | None => Raise AttributeError
  | Some r =>
      match json r with
      | None => Raise ValueError
      | Some data =>
          match issuetype_name data with
          | None => Raise KeyError
          | Some issuetype =>
              match status_name data with
              | None => Raise KeyError
              | Some status =>
                  Ok {| issue_name := lower issuetype; status := lower status |}
              end
          end
      end
  end.

Definition str_of (o : option string) : string :=
  match o with
  | Some s => s
  | None => "None"
  end.

(** The handler is [except Exception]: it takes every exception but
    [SystemExit], prints, and lets the function return [None]. *)
Definition get_ticket_info (env : Env) (self : UpdateJira)
    : IO.t World (option TicketInfo) :=
  let url := "https://" ++ jira_domain self ++ "/rest/api/2/issue/"
             ++ str_of (ticket_id self) in
  response <~ get env self url ;;
  IO.try
    (info <~ IO.lift (read_ticket response) ;; IO.ret (Some info))
    (fun e =>
       match e with
       | SystemExit _ => None
       | _ => Some (print "Error" ;;; IO.ret None)
       end).

(** [ticket_info["issue_name"]] on [None] raises [TypeError]. *)
Definition has_ticket_issue (self : UpdateJira) (ticket_info : option TicketInfo)
    : result bool :=
  let possible_ticket_issues := ["story"; "bug"] in
  match ticket_info with
  | None => Raise TypeError
  | Some info =>
      Ok (existsb (String.eqb (lower (issue_name info))) possible_ticket_issues)
  end.

Definition transitions_url (self : UpdateJira) : string :=
  "https://" ++ jira_domain self ++ "/rest/api/2/issue/"
  ++ str_of (ticket_id self) ++ "/transitions".

Definition change_status_to_in_progress (env : Env) (self : UpdateJira)
    : IO.t World unit :=
  ticket_info <~ get_ticket_info env self ;;
  is_valid_issue_type <~ IO.lift (has_ticket_issue self ticket_info) ;;
  match ticket_info with
  | Some info =>
      let url := transitions_url self in
      if is_valid_issue_type then
        if contains "backlog" (status info) then
          post env self url "121" ;;; IO.ret tt
        else if contains "selected" (status info) then
          post env self url "21" ;;; IO.ret tt
        else IO.ret tt
      else IO.ret tt
  | None => IO.ret tt
  end.

Definition change_status_to_needs_review (env : Env) (self : UpdateJira)
    : IO.t World unit :=
  ticket_info <~ get_ticket_info env self ;;
  is_valid_issue_type <~ IO.lift (has_ticket_issue self ticket_info) ;;
  match ticket_info with
  | Some info =>
      let url := transitions_url self in
      if is_valid_issue_type then
        if contains "progress" (status info) then
          post env self url "151" ;;; IO.ret tt
        else IO.ret tt
      else IO.ret tt
  | None => IO.ret tt
  end.

(** The pattern [vida[-_]?(\d{3,4})].

    [take_digits db n s]: the digits at the beginning of [s], at most
    [n]. *)
Fixpoint take_digits (db : Unicode) (n : nat) (s : string) : list string :=
  match n with
  | O => []
  | S n' =>
      match digit_ahead db s with
      | Some (d, rest) => d :: take_digits db n' rest
      | None => []
      end
  end.

(** [(\d{3,4})] at the beginning of [s]: as many digits as there are, up to
    four, and at least three. *)
Definition match_digits (db : Unicode) (s : string) : option string :=
  let d := take_digits db 4 s in
  if Nat.leb 3 (List.length d) then Some (glue d) else None.

(** [[-_]?(\d{3,4})]: with the separator when there is one, and without
    it when the digits do not follow the separator. *)
Definition match_separator_digits (db : Unicode) (s : string) : option string :=
  match s with
  | String c s' =>
      if (c =? "-")%char || (c =? "_")%char then
        match match_digits db s' with
        | Some d => Some d
        | None => match_digits db s
        end
      else match_digits db s
  | EmptyString => match_digits db s
  end.

(** The pattern at the beginning of [s]: group 1. *)
Definition match_vida (db : Unicode) (s : string) : option string :=
  match match_text_lit "vida" s with
  | Some rest => match_separator_digits db rest
  | None => None
  end.

(** [re.search]: the first position at which the pattern matches. *)
Fixpoint search (db : Unicode) (s : string) : option string :=
  match match_vida db s with
  | Some d => Some d
  | None =>
      match s with
      | EmptyString => None
      | String _ s' => search db s'
      end
  end.

Definition get_jira_ticket_id (db : Unicode) (ticket_id : string)
    : IO.t World (option string) :=
  match search db ticket_id with
  | Some vida_number =>
      let vida_branch_name := "vida-" ++ vida_number in
      print ("Adding jira ticket for " ++ vida_branch_name) ;;;
      IO.ret (Some vida_branch_name)
  | None => IO.ret None
  end.

(** [UpdateJira(jira_token, ticket_id)] *)
Definition init (db : Unicode) (jira_token : string) (ticket_id : string)
    : IO.t World UpdateJira :=
  id <~ get_jira_ticket_id db (lower ticket_id) ;;
  IO.ret {| jira_domain := "jira.aledade.com";
            jira_token := jira_token;
            ticket_id := id |}.

(** The script, from the environment variables and the parsed options
    on. An option that is not given is [None]. The two flags are declared
    with [type=bool], so the value of a flag is [bool(text)] of the text
    that follows it: true for every text but the empty one. *)
Record Args : Type := {
  branch_name : option string;
  should_review : option string;
  move_to_in_progress : option string
}.

Definition truthy (flag : option string) : bool :=
  match flag with
  | Some (String _ _) => true
  | _ => false
  end.

(** [os.environ[name]] raises [KeyError] on a variable that is not set, and
    [ticket_id.lower()] in [__init__] raises [AttributeError] on [None]. *)
Definition script (env : Env) (db : Unicode) (environ : string -> option string)
    (args : Args) : IO.t World unit :=
  match environ "PR_TITLE" with
  | None => IO.raise KeyError
  | Some pr_title =>
      match environ "JIRA_TOKEN" with
      | None => IO.raise KeyError
      | Some jira_token =>
          match branch_name args with
          | None => IO.raise AttributeError
          | Some branch_name =>
              instance <~ init db jira_token branch_name ;;
              if truthy (should_review args) then
                change_status_to_needs_review env instance
              else if truthy (move_to_in_progress args) then
                change_status_to_in_progress env instance
              else IO.ret tt
          end
      end
  end.

End jira_automation.

(* ================================================================== *)
(** * Part II: the notions the properties are stated with *)
(* ================================================================== *)

(** ** Texts *)

(** A text made of ASCII decimal digits. *)
Definition digits (d : string) : Prop := forallb_str is_digit d = true.

(** ** Sorting *)

(** The stable sort of [Py.sorted] for a comparison that does not raise. *)
Section SortedBy.
Context {A : Type}.
Variable ltb : A -> A -> bool.

Fixpoint insert_by (x : A) (l : list A) : list A :=
  match l with
  | [] => [x]
  | y :: ys => if ltb y x then y :: insert_by x ys else x :: y :: ys
  end.

Fixpoint isort_by (l : list A) : list A :=
  match l with
  | [] => []
  | x :: xs => insert_by x (isort_by xs)
  end.

Definition sorted_by (reverse : bool) (l : list A) : list A :=
  if reverse then rev (isort_by (rev l)) else isort_by l.

(** The first of the greatest elements of [x :: l]: a scan that changes its
    candidate for a strictly greater element only. *)
Definition first_max (x : A) (l : list A) : A :=
  fold_left (fun best y => if ltb best y then y else best) l x.

(** [ltb] is a strict weak order on the elements that satisfy [P]: it is
    asymmetric, and being not smaller is transitive. *)
Definition strict_weak (P : A -> Prop) : Prop :=
  (forall a b, P a -> P b -> ltb a b = true -> ltb b a = false)
  /\ (forall a b c, P a -> P b -> P c ->
                    ltb a b = false -> ltb b c = false -> ltb a c = false).

(** [a] comes before [b] in an ascending stable sort of a list in which
    [R] relates each element to the later ones: [b] is not smaller, and for
    equal keys the two are in the order of the list. *)
Definition ascending (R : A -> A -> Prop) (a b : A) : Prop :=
  ltb b a = false /\ (ltb a b = false -> R a b).

(** The same for a descending stable sort. *)
Definition descending (R : A -> A -> Prop) (a b : A) : Prop :=
  ltb a b = false /\ (ltb b a = false -> R a b).

End SortedBy.

(** A three-way comparison with the values of [cmp] is an order on the
    elements that satisfy [P]. *)
Definition cmp_order {A : Type} (P : A -> Prop) (c : A -> A -> Z) : Prop :=
  (forall a b, P a -> P b -> c b a = (- c a b)%Z)
  /\ (forall a b d, P a -> P b -> P d ->
                    (c a b <= 0)%Z -> (c b d <= 0)%Z -> (c a d <= 0)%Z).

(** Ten to the length of a text. *)
Definition pow10 (s : string) : N := (10 ^ N.of_nat (String.length s))%N.

(** ** Semantic versions *)

(** A text that [semver.parse] accepts. *)
Definition valid (s : string) : Prop := exists v, semver.parse s = Ok v.

(** [semver.compare(a, b) < 0], where the comparison returns. *)
Definition semver_ltb (a b : string) : bool :=
  match semver.compare a b with
  | Ok c => (c <? 0)%Z
  | Raise _ => false
  end.

(** What [semver.parse] returns on a valid text. *)
Definition parsed (s : string) : semver.VersionInfo :=
  match semver.parse s with
  | Ok v => v
  | Raise _ => {| semver.major := 0; semver.minor := 0; semver.patch := 0;
                  semver.prerelease := None; semver.build := None |}
  end.

(** The parts of a prerelease are identifiers. *)
Definition identifiers (parts : list string) : Prop :=
  Forall (fun p => semver.prerelease_identifier p = true) parts.

Definition well_formed (v : semver.VersionInfo) : Prop :=
  match semver.prerelease v with
  | Some p => identifiers (split "." p)
  | None => True
  end.

(** The order of prereleases: identifier by identifier, and a prerelease
    that is the beginning of another comes first. *)
Fixpoint cmp_identifiers (a b : list string) : Z :=
  match a, b with
  | [], [] => 0
  | [], _ :: _ => -1
  | _ :: _, [] => 1
  | x :: a', y :: b' =>
      if (semver.cmp_prerelease_tag x y =? 0)%Z then cmp_identifiers a' b'
      else semver.cmp_prerelease_tag x y
  end.

(** A version without prerelease comes after the same version with one. *)
Definition cmp_prerelease (a b : option string) : Z :=
  match a, b with
  | None, None => 0
  | None, Some _ => 1
  | Some _, None => -1
  | Some p, Some q => cmp_identifiers (split "." p) (split "." q)
  end.

(** The length of [sep.join(parts)], plus one. *)
Fixpoint joined_length (parts : list string) : nat :=
  match parts with
  | [] => 0
  | p :: ps => S (String.length p) + joined_length ps
  end.

(** [a] is not after [b], and [a] is before [b], in the order of
    [semver.compare]. *)
Definition semver_le (a b : string) : Prop :=
  exists c, semver.compare a b = Ok c /\ (c <= 0)%Z.

Definition semver_lt (a b : string) : Prop :=
  exists c, semver.compare a b = Ok c /\ (c < 0)%Z.

(** ** The latest patch *)

(** The tags that [_latest_patch] keeps, in the order of the tag list. *)
Definition survivors (tags : list string) (ver : string) (patch_pattern : pattern)
    (distro : string) : list string :=
  filter (fun tag => startswith tag ver && endswith tag ("-" ++ distro)
                     && patch_pattern tag) tags.

(** ** Ticket identifiers *)

Definition is_separator (sep : string) : Prop :=
  sep = "" \/ sep = "-" \/ sep = "_".

(** The text is one decimal digit: an ASCII digit, or the bytes of one
    character outside ASCII that the database lists as a decimal digit. *)
Definition digit_char (db : Unicode) (ch : string) : Prop :=
  digit_ahead db ch = Some (ch, "").

(** The text does not begin with a digit. *)
Definition no_digit_ahead (db : Unicode) (s : string) : Prop :=
  digit_ahead db s = None.

(** The text holds [vida], an optional [-] or [_], and three digits. *)
Definition has_ticket (db : Unicode) (s : string) : Prop :=
  exists pre sep d1 d2 d3 rest,
    s = pre ++ "vida" ++ sep ++ d1 ++ d2 ++ d3 ++ rest
    /\ is_separator sep
    /\ digit_char db d1 /\ digit_char db d2 /\ digit_char db d3.

(** The text begins with a run of three digits or more, of which [d] is
    the first three, or the first four when the run has four or more. *)
Definition digits_at (db : Unicode) (s d : string) : Prop :=
  exists ds rest,
    s = glue ds ++ rest
    /\ Forall (digit_char db) ds
    /\ 3 <= List.length ds <= 4
    /\ (List.length ds = 4 \/ no_digit_ahead db rest)
    /\ d = glue ds.

(** The text begins with [vida], an optional [-] or [_], and such a run of
    digits. *)
Definition ticket_at (db : Unicode) (t d : string) : Prop :=
  exists sep r,
    t = "vida" ++ sep ++ r /\ is_separator sep /\ digits_at db r d.

(** [d] is what the first ticket of the text gives: no ticket begins before
    it. *)
Definition captured (db : Unicode) (s d : string) : Prop :=
  exists pre t,
    s = pre ++ t
    /\ ticket_at db t d
    /\ forall p1 p2 d', pre = p1 ++ p2 -> p2 <> "" -> ~ ticket_at db (p2 ++ t) d'.

(** [vida-] and three or four digits. *)
Definition normalised (db : Unicode) (r : string) : Prop :=
  exists ds, r = "vida-" ++ glue ds /\ Forall (digit_char db) ds
             /\ 3 <= List.length ds <= 4.

(** What [get_jira_ticket_id] is to return on a text: [vida-] and the
    digits of the first ticket, or [None] for a text without ticket. *)
Definition identifier_of (db : Unicode) (s : string) (o : option string) : Prop :=
  match o with
  | Some r => exists d, captured db s d /\ r = "vida-" ++ d
  | None => ~ has_ticket db s
  end.

(** An interpreter that knows no digit outside ASCII, and one that knows
    the Arabic-Indic digits, U+0660 to U+0669: the byte 217 and a byte from
    160 to 169. *)
Definition ascii_digits_only : Unicode := {| decimal := fun _ => false |}.

Definition arabic_indic : Unicode :=
  {| decimal := fun ch =>
       match ch with
       | String "217" (String c EmptyString) =>
           ((160 <=? N_of_ascii c) && (N_of_ascii c <=? 169))%N
       | _ => false
       end |}.

(** The Arabic-Indic digits one, two and three. *)
Definition arabic_indic_123 : string :=
  String "217" (String "161" (String "217" (String "162" (String "217" (String "163" ""))))).

(** A tracker that cannot be reached: every request raises. *)
Definition unreachable_tracker : jira_automation.Env :=
  {| jira_automation.requests_get := fun _ => Raise RequestException;
     jira_automation.requests_post := fun _ _ => Raise RequestException |}.

(** A tracker that answers with a page that is not an issue, and accepts
    every transition. *)
Definition no_issue_tracker : jira_automation.Env :=
  {| jira_automation.requests_get := fun _ =>
       Ok {| jira_automation.status_code := 200; jira_automation.json := None |};
     jira_automation.requests_post := fun _ _ =>
       Ok {| jira_automation.status_code := 204; jira_automation.json := None |} |}.

Definition vida_123 : jira_automation.UpdateJira :=
  {| jira_automation.jira_domain := "jira.aledade.com";
     jira_automation.jira_token := "token";
     jira_automation.ticket_id := Some "vida-123" |}.

Definition quiet : jira_automation.World :=
  {| jira_automation.console := []; jira_automation.requests := [] |}.

(** No transition was posted. *)
Definition no_post (w : jira_automation.World) : Prop :=
  forall url id, ~ In (jira_automation.POST url id) (jira_automation.requests w).

(** The address that [get_ticket_info] asks for. *)
Definition issue_url (self : jira_automation.UpdateJira) : string :=
  "https://" ++ jira_automation.jira_domain self ++ "/rest/api/2/issue/"
  ++ jira_automation.str_of (jira_automation.ticket_id self).

(** An answer without an error status. *)
Definition accepted (resp : jira_automation.Response) : Prop :=
  ~ (400 <= jira_automation.status_code resp < 600)%Z.

(** The tracker raises nothing but [RequestException] on a POST. *)
Definition post_fails_softly (env : jira_automation.Env) : Prop :=
  forall url id e, jira_automation.requests_post env url id = Raise e ->
                   e = RequestException.

(** The issue types that are moved, whatever the case of their letters. *)
Definition story_or_bug (issuetype : string) : bool :=
  (lower issuetype =? "story") || (lower issuetype =? "bug").

(** The transitions that the two status changes ask for, from the names of
    the issue type and of the status as the tracker gives them. *)
Definition in_progress_transition (issuetype status : string) : list string :=
  if story_or_bug issuetype then
    if contains "backlog" (lower status) then ["121"]
    else if contains "selected" (lower status) then ["21"]
    else []
  else [].

Definition needs_review_transition (issuetype status : string) : list string :=
  if story_or_bug issuetype && contains "progress" (lower status) then ["151"]
  else [].

(** A tracker that holds one issue and accepts every transition. *)
Definition tracker_with (issuetype status : string) : jira_automation.Env :=
  {| jira_automation.requests_get := fun _ =>
       Ok {| jira_automation.status_code := 200;
             jira_automation.json :=
               Some {| jira_automation.issuetype_name := Some issuetype;
                       jira_automation.status_name := Some status |} |};
     jira_automation.requests_post := fun _ _ =>
       Ok {| jira_automation.status_code := 204; jira_automation.json := None |} |}.

(** The variables that the workflow sets. *)
Definition workflow_environ (name : string) : option string :=
  if name =? "PR_TITLE" then Some "VIDA-123 fix"
  else if name =? "JIRA_TOKEN" then Some "token"
  else None.

(** ** Resolved versions and the order of the rows *)

(** What the decision functions produce: canonical versions that are
    semantic versions, distros of the fixed list, and keys that are
    minor-version texts, without [-]. *)
Definition dash_free (s : string) : Prop :=
  forallb_str (fun c => negb (c =? "-")%char) s = true.

Definition resolved_python (p : PythonVersion) : Prop :=
  valid (p_canonical_version p) /\ In (p_distro p) DISTROS.

Definition resolved_nodejs (n : NodejsVersion) : Prop :=
  valid (n_canonical_version n).

(** The position of a distro in [DISTROS]. *)
Definition position (distro : string) : nat :=
  match index DISTROS distro with
  | Ok i => i
  | Raise _ => 0
  end.

(** The three comparisons of [version_combinations] on rows. *)
Definition by_distro (a b : Combination) : bool :=
  Nat.ltb (position (distro a)) (position (distro b)).

Definition by_nodejs (a b : Combination) : bool :=
  semver_ltb (nodejs_canonical a) (nodejs_canonical b).

Definition by_python (a b : Combination) : bool :=
  semver_ltb (python_canonical a) (python_canonical b).

(** The contract on the order of the rows: [a] stands before [b] when its
    Python version is not smaller; for the same Python version, when its
    Node.js version is not smaller; for the same Node.js version too, when
    its distro is not later in [DISTROS]; and for the same distro too, when
    [R], the order of the cross product, says so. *)
Definition contract (R : Combination -> Combination -> Prop)
    : Combination -> Combination -> Prop :=
  descending by_python (descending by_nodejs (ascending by_distro R)).



(** Sample resolved versions. *)
Definition python_3_9_buster : PythonVersion :=
  {| p_canonical_version := "3.9.2"; p_image := "3.9.2-buster";
     p_key := "3.9"; p_distro := "buster" |}.
Definition python_3_9_slim : PythonVersion :=
  {| p_canonical_version := "3.9.2"; p_image := "3.9.2-slim";
     p_key := "3.9"; p_distro := "slim" |}.
Definition python_3_10_buster : PythonVersion :=
  {| p_canonical_version := "3.10.0"; p_image := "3.10.0-buster";
     p_key := "3.10"; p_distro := "buster" |}.
Definition nodejs_16 : NodejsVersion :=
  {| n_canonical_version := "16.3.0"; n_key := "16" |}.
Definition nodejs_18 : NodejsVersion :=
  {| n_canonical_version := "18.1.0"; n_key := "18" |}.

(** ** Rows and their index *)

(** The entry of a sequence of rows under a key: the last row with that
    key. *)
Definition entry (l : list Combination) (k : string) : option Combination :=
  find (fun v => key v =? k) (rev l).

(** The keys of a dict are pairwise distinct and each row is stored under its
    own key. *)
Definition keyed (d : dict Combination) : Prop :=
  NoDup (map fst d) /\ Forall (fun kv => fst kv = key (snd kv)) d.

(** A row is new or updated against a baseline: its key is not a key of
    the baseline, or the baseline's entry under its key is another row. *)
Definition changed (B : list Combination) (c : Combination) : Prop :=
  ~ In (key c) (map key B)
  \/ exists b, entry B (key c) = Some b /\ b <> c.

(** Sample rows. *)
Definition row (python_key python_version nodejs_key nodejs_version distro : string)
    : Combination :=
  combination {| p_canonical_version := python_version;
                 p_image := python_version ++ "-" ++ distro;
                 p_key := python_key;
                 p_distro := distro |}
              {| n_canonical_version := nodejs_version; n_key := nodejs_key |}.

Definition py39_node18_old : Combination := row "3.9" "3.9.1" "18" "18.1.0" "buster".
Definition py39_node18 : Combination := row "3.9" "3.9.2" "18" "18.1.0" "buster".
Definition py38_node18 : Combination := row "3.8" "3.8.10" "18" "18.1.0" "buster".

(** ** The README *)

(** A field that can stand in a row of the table: no line feed, no
    backslash and no carriage return. *)
Definition plain_char (c : ascii) : bool :=
  negb (c =? "010")%char && (negb (c =? "\")%char && negb (c =? "013")%char).

(** A text as a read in text mode gives it holds no carriage return. *)
Definition no_cr (c : ascii) : bool := negb (c =? "013")%char.

Definition no_carriage_return (s : string) : Prop := forallb_str no_cr s = true.

Definition plain (s : string) : Prop := forallb_str plain_char s = true.

Definition plain_row (v : Combination) : Prop :=
  plain (key v) /\ plain (python_canonical v)
  /\ plain (nodejs_canonical v) /\ plain (distro v).

(** The text that replaces each match, for a table [T]. *)
Definition replacement_of (T : string) : string :=
  start ++ newline ++ T ++ end_.

Definition replacement (versions : list Combination) : string :=
  replacement_of (table versions).

(** No line of the text, after the first, begins with [L]. *)
Fixpoint no_line_with_L (s : string) : bool :=
  match s with
  | EmptyString => true
  | String c s' =>
      (if (c =? "010")%char
       then match s' with
            | String "L" _ => false
            | _ => true
            end
       else true)
      && no_line_with_L s'
  end.

(** The text does not begin with [L]. *)
Definition not_L (s : string) : Prop :=
  match s with
  | String "L" _ => False
  | _ => True
  end.

Definition no_backslash (c : ascii) : bool := negb (c =? "\")%char.

(** The world with another README. *)
Definition with_readme (text : string) (w : World) : World :=
  {| versions_json := versions_json w;
     readme_md := Some text;
     debug_files := debug_files w;
     console := console w;
     docker := docker w |}.

(** [s[k:]], when [s] has [k] characters. *)
Fixpoint skip (k : nat) (s : string) : option string :=
  match k, s with
  | O, _ => Some s
  | S k', String _ s' => skip k' s'
  | S _, EmptyString => None
  end.

(** [end] occurs in the text, and it occurs [k] characters or more after
    the beginning. *)
Definition has_end (s : string) : bool :=
  match lazy_until end_ s with
  | Some _ => true
  | None => false
  end.

Definition has_end_after (k : nat) (s : string) : bool :=
  match skip k s with
  | Some r => has_end r
  | None => false
  end.

(** The pattern matches nowhere in [pre] followed by [r], before [r]; the
    pattern matches nowhere in [r]. *)
Definition no_match_before (pre r : string) : Prop :=
  forall p1 p2, pre = p1 ++ p2 -> p2 <> "" -> match_here (p2 ++ r) = None.

Definition no_match (r : string) : Prop :=
  forall r1 r2, r = r1 ++ r2 -> match_here r2 = None.

(** ** Runs of the pipeline *)

(** A computation leaves a part [f] of the world as it found it, whether it
    returns or raises. *)
Definition keeps {A X : Type} (f : World -> X) (m : IO.t World A) : Prop :=
  forall w, f (snd (m w)) = f w.

(** Parts of the world other than the console. *)
Definition beside_console {X : Type} (f : World -> X) : Prop :=
  forall w c, f {| versions_json := versions_json w; readme_md := readme_md w;
                   debug_files := debug_files w; console := c; docker := docker w |}
              = f w.

(** The steps of [main] up to the computation of the new sequence: the
    baseline that was loaded and the new sequence. *)
Definition plan (env : Env) (distros : list string)
    : IO.t World (list Combination * list Combination) :=
  let distros := list_of_set env distros in
  current_versions <~ load_versions ;;
  python_versions <~ decide_python_versions env distros ;;
  nodejs_versions <~ decide_nodejs_versions env ;;
  versions <~ IO.lift (version_combinations nodejs_versions python_versions) ;;
  IO.ret (current_versions, versions).

(** The steps of [main] after the computation of the new sequence. *)
Definition publish (env : Env) (current_versions versions : list Combination)
    (dry_run debug force : bool) : IO.t World unit :=
  persist_versions versions dry_run ;;;
  update_readme_tags_table env versions dry_run ;;;
  build_new_or_updated env current_versions versions dry_run debug force.

Definition nothing_to_do : string := "No new or updated versions".

(** A day on which Python 3.9 and Node.js 18 are supported and Python 3.8
    is not any more, with a registry that accepts everything. *)
Definition november_2024 : Env :=
  {| todays_date := "2024-11-01";
     getenv := fun _ => None;
     _fetch_tags := fun package =>
       if package =? "python"
       then Ok ["3.8.20-buster"; "3.9.19-buster"; "3.9.20-buster"; "3.9.20-slim"]
       else Ok ["18.20.3-buster"; "18.20.4-buster"; "18.20.4-alpine"];
     _fetch_node_gpg_keys := Ok "keys";
     scrape_supported_python_versions :=
       Ok [ {| rw_version := "3.9"; rw_start := "2020-10-05"; rw_end := "2025-10" |};
            {| rw_version := "3.8"; rw_start := "2019-10-14"; rw_end := "2024-10" |} ];
     fetch_supported_nodejs_versions :=
       Ok [ {| rw_version := "v18"; rw_start := "2022-04-19"; rw_end := "2025-04-30" |} ];
     list_of_set := fun distros => distros;
     docker_from_env := Ok tt;
     docker_login := fun _ _ => Ok tt;
     docker_build := fun _ _ => Ok tt;
     docker_push := fun _ _ => Ok tt;
     render_dockerfile := fun _ _ => Ok "FROM python";
     re_template := fun _ => Raise OtherError |}.

(** The same day with a registry that refuses the login, and with an engine
    that fails to build. *)
Definition login_refused : Env :=
  {| todays_date := todays_date november_2024;
     getenv := getenv november_2024;
     _fetch_tags := _fetch_tags november_2024;
     _fetch_node_gpg_keys := _fetch_node_gpg_keys november_2024;
     scrape_supported_python_versions := scrape_supported_python_versions november_2024;
     fetch_supported_nodejs_versions := fetch_supported_nodejs_versions november_2024;
     list_of_set := list_of_set november_2024;
     docker_from_env := Ok tt;
     docker_login := fun _ _ => Raise APIError;
     docker_build := fun _ _ => Ok tt;
     docker_push := fun _ _ => Ok tt;
     render_dockerfile := render_dockerfile november_2024;
     re_template := re_template november_2024 |}.

Definition build_fails : Env :=
  {| todays_date := todays_date november_2024;
     getenv := getenv november_2024;
     _fetch_tags := _fetch_tags november_2024;
     _fetch_node_gpg_keys := _fetch_node_gpg_keys november_2024;
     scrape_supported_python_versions := scrape_supported_python_versions november_2024;
     fetch_supported_nodejs_versions := fetch_supported_nodejs_versions november_2024;
     list_of_set := list_of_set november_2024;
     docker_from_env := Ok tt;
     docker_login := fun _ _ => Ok tt;
     docker_build := fun _ _ => Raise OtherError;
     docker_push := fun _ _ => Ok tt;
     render_dockerfile := render_dockerfile november_2024;
     re_template := re_template november_2024 |}.

Definition py39_node18_now : Combination := row "3.9" "3.9.20" "18" "18.20.4" "buster".
Definition py38_node18_now : Combination := row "3.8" "3.8.20" "18" "18.20.4" "buster".

Definition readme_text : string :=
  "# Images" ++ newline ++ "See " ++ start ++ "(empty)" ++ end_ ++ newline.

(** The state a previous run left when Python 3.8 was still supported. *)
Definition after_previous_run : World :=
  {| versions_json := Some [py39_node18_now; py38_node18_now];
     readme_md := Some readme_text;
     debug_files := [];
     console := [];
     docker := [] |}.

(** The state of a checkout whose baseline is older, and of one without a
    state file. *)
Definition older_baseline : World :=
  {| versions_json := Some [py39_node18_old];
     readme_md := Some readme_text;
     debug_files := [];
     console := [];
     docker := [] |}.

Definition no_state_file : World :=
  {| versions_json := None;
     readme_md := Some readme_text;
     debug_files := [];
     console := [];
     docker := [] |}.

(** ** The decision functions *)

(** One round of the inner loop of [decide_python_versions], and one round
    of the loop of [decide_nodejs_versions]. *)
Definition resolve_python (tags : list string) (patch_pattern : pattern)
    (ver distro : string) : IO.t World (list PythonVersion) :=
  canonical_image <~ IO.lift (_latest_patch tags ver patch_pattern distro) ;;
  if canonical_image =? ""
  then print ("Not good. ver=" ++ ver ++ " distro=" ++ distro
              ++ " not in tags, skipping...") ;;;
       IO.ret []
  else
    let canonical_version := replace canonical_image ("-" ++ distro) "" in
    IO.ret [ {| p_canonical_version := canonical_version;
                p_image := canonical_image;
                p_key := ver;
                p_distro := distro |} ].

Definition resolve_nodejs (tags : list string) (patch_pattern : pattern)
    (supported_version : ReleaseWindow) : IO.t World (list NodejsVersion) :=
  let ver := tail_str (rw_version supported_version) in
  canonical_image <~ IO.lift (_latest_patch tags ver patch_pattern DEFAULT_DISTRO) ;;
  if canonical_image =? ""
  then print ("Not good, ver=" ++ ver ++ " distro=" ++ DEFAULT_DISTRO
              ++ " not in tags, skipping...") ;;;
       IO.ret []
  else
    let canonical_version := replace canonical_image ("-" ++ DEFAULT_DISTRO) "" in
    IO.ret [ {| n_canonical_version := canonical_version; n_key := ver |} ].

(** Where a resolved Python version comes from: its distro is one of the
    distros asked for, its key is the version of a release that is
    supported today, its image is a fetched tag that matches the pattern,
    begins with the key and ends with the distro, and its canonical version
    is the image without the distro. *)
Definition python_from (today : string) (fetched : list string)
    (scraped : list ReleaseWindow) (distros : list string) (v : PythonVersion) : Prop :=
  In (p_distro v) distros
  /\ (exists window, In window scraped /\ supported today window = true
                     /\ p_key v = rw_version window)
  /\ In (p_image v) fetched
  /\ wanted_tag_pattern distros (p_image v) = true
  /\ startswith (p_image v) (p_key v) = true
  /\ endswith (p_image v) ("-" ++ p_distro v) = true
  /\ p_canonical_version v = replace (p_image v) ("-" ++ p_distro v) "".

(** The same for a Node.js version: its key is the version of a supported
    release without its first character, and its image, which is not
    kept, is a fetched tag that ends with the default distro. *)
Definition nodejs_from (today : string) (fetched : list string)
    (schedule : list ReleaseWindow) (v : NodejsVersion) : Prop :=
  (exists window, In window schedule /\ supported today window = true
                  /\ n_key v = tail_str (rw_version window))
  /\ exists image,
       In image fetched
       /\ wanted_tag_pattern [DEFAULT_DISTRO] image = true
       /\ startswith image (n_key v) = true
       /\ endswith image ("-" ++ DEFAULT_DISTRO) = true
       /\ n_canonical_version v = replace image ("-" ++ DEFAULT_DISTRO) "".

(** A distro name written with lower-case letters. *)
Definition letters (s : string) : Prop := forallb_str is_lower s = true.

(** The registry lists ASCII texts only, for every package. *)
Definition ascii_text (s : string) : Prop := forallb_str is_ascii s = true.

Definition ascii_tags (env : Env) : Prop :=
  forall package tags, _fetch_tags env package = Ok tags -> Forall ascii_text tags.

(** Three runs of ASCII digits with [.] between them. *)
Definition three_numbers (s : string) : Prop :=
  exists a b c, s = a ++ "." ++ b ++ "." ++ c
                /\ semver.all_digits a = true
                /\ semver.all_digits b = true
                /\ semver.all_digits c = true.

(** The message about a version that no tag stands for. *)
Definition not_good (msg : string) : Prop := startswith msg "Not good" = true.

(** No canonical version of a later element is greater. *)
Definition newest_first {A : Type} (canonical : A -> string) (l : list A) : Prop :=
  StronglySorted (fun a b => semver_ltb (canonical a) (canonical b) = false) l.

(** ** Builds *)

(** The calls of [build_new_or_updated] on the Docker client: the login
    with the two variables of the environment, and for a row the build of
    its rendered Dockerfile under its tag and the push of its key. *)
Definition login_call (env : Env) : docker_call :=
  Login (getenv env "DOCKERHUB_USERNAME") (getenv env "DOCKERHUB_PASSWORD").

Definition image_tag (v : Combination) : string := DOCKER_IMAGE_NAME ++ ":" ++ key v.

Definition dockerfile_of (env : Env) (node_gpg_keys : string) (v : Combination)
    : string :=
  match render_dockerfile env v node_gpg_keys with
  | Ok dockerfile => dockerfile
  | Raise _ => ""
  end.

Definition build_call (env : Env) (node_gpg_keys : string) (v : Combination)
    : docker_call :=
  Build (image_tag v) (dockerfile_of env node_gpg_keys v).

Definition push_call (v : Combination) : docker_call := Push DOCKER_IMAGE_NAME (key v).

Definition debug_name (v : Combination) : string := "debug-" ++ key v ++ ".Dockerfile".

(** The client can be created and the login is accepted. *)
Definition engine_ready (env : Env) : Prop :=
  docker_from_env env = Ok tt
  /\ docker_login env (getenv env "DOCKERHUB_USERNAME")
                      (getenv env "DOCKERHUB_PASSWORD") = Ok tt.

(** The Dockerfile of a row can be rendered; the row can be rendered, built
    and pushed. *)
Definition renders (env : Env) (node_gpg_keys : string) (v : Combination) : Prop :=
  exists dockerfile, render_dockerfile env v node_gpg_keys = Ok dockerfile.

Definition builds (env : Env) (node_gpg_keys : string) (v : Combination) : Prop :=
  renders env node_gpg_keys v
  /\ docker_build env (image_tag v) (dockerfile_of env node_gpg_keys v) = Ok tt
  /\ docker_push env DOCKER_IMAGE_NAME (key v) = Ok tt.

(** A computation whose result does not depend on the world it starts
    from. *)
Definition oblivious {A : Type} (m : IO.t World A) : Prop :=
  forall w w', fst (m w) = fst (m w').

(** One round of the loop of [build_new_or_updated]. *)
Definition build_round (env : Env) (node_gpg_keys : string) (dry_run debug : bool)
    (version : Combination) : IO.t World unit :=
  dockerfile <~ IO.lift (render_dockerfile env version node_gpg_keys) ;;
  let tag := DOCKER_IMAGE_NAME ++ ":" ++ key version in
  let nodejs_version := nodejs_canonical version in
  let python_version := python_canonical version in
  print ("Building image " ++ key version ++ " python: " ++ python_version
         ++ " nodejs: " ++ nodejs_version ++ " ...") ;;;
  IO.when (negb dry_run)
    (docker_do (Build tag dockerfile) (docker_build env tag dockerfile)) ;;;
  IO.when debug
    (write_debug_file ("debug-" ++ key version ++ ".Dockerfile")) ;;;
  print " pushing..." ;;;
  IO.when (negb dry_run)
    (docker_do (Push DOCKER_IMAGE_NAME (key version))
               (docker_push env DOCKER_IMAGE_NAME (key version))).

(** The steps of [main] that compute the new sequence. *)
Definition decisions (env : Env) (distros : list string)
    : IO.t World (list Combination) :=
  python_versions <~ decide_python_versions env distros ;;
  nodejs_versions <~ decide_nodejs_versions env ;;
  IO.lift (version_combinations nodejs_versions python_versions).

(** A checkout with a baseline and the sample README. *)
Definition world_with_baseline (B : list Combination) : World :=
  {| versions_json := Some B;
     readme_md := Some readme_text;
     debug_files := [];
     console := [];
     docker := [] |}.

(** ** Dockerfiles *)

(** A text without [%], and the name of a placeholder: a text that is not
    empty and holds no [%] and no line feed. *)
Definition no_percent (s : string) : Prop :=
  forallb_str (fun c => negb (c =? "%")%char) s = true.

Definition placeholder_name (name : string) : Prop :=
  name <> ""
  /\ forallb_str (fun c => negb (c =? "%")%char && negb (c =? "010")%char) name = true.

(** The file that [render_dockerfile] reads for a row. *)
Definition template_path (version : Combination) : string :=
  "templates/" ++ distro version ++ ".Dockerfile".

(** The replacements of a row whose Node.js key reads as the number [n]. *)
Definition replacements_of (env : dockerfiles.Env) (n : Z) (node_gpg_keys : string)
    (version : Combination) : dict string :=
  dockerfiles.replacements (if (n <? 15)%Z then "6" else "7")
    (dockerfiles.drop_last 7 (dockerfiles.utcnow_isoformat env))
    node_gpg_keys version.

(** The environment with another text for every template. *)
Definition with_template (env : dockerfiles.Env) (text : string) : dockerfiles.Env :=
  {| dockerfiles.read_text := fun _ => Ok text;
     dockerfiles.utcnow_isoformat := dockerfiles.utcnow_isoformat env;
     dockerfiles.int_other := dockerfiles.int_other env;
     dockerfiles.requests_get_text := dockerfiles.requests_get_text env |}.

(** Each line feed replaced by a blank. *)
Fixpoint on_one_line (s : string) : string :=
  match s with
  | EmptyString => EmptyString
  | String c s' => String (if (c =? "010")%char then " "%char else c) (on_one_line s')
  end.

(** A checkout with one template, at a given time. *)
Definition sample_templates : dockerfiles.Env :=
  {| dockerfiles.read_text := fun name =>
       if name =? "templates/buster.Dockerfile"
       then Ok ("FROM python:%%PYTHON_IMAGE%%" ++ newline
                ++ "RUN npm i -g npm@^%%npm_version%%" ++ newline)
       else Raise FileNotFoundError;
     dockerfiles.utcnow_isoformat := "2024-11-01T12:30:45.123456";
     dockerfiles.int_other := fun _ => Raise ValueError;
     dockerfiles.requests_get_text := fun _ =>
       Ok ("4ED778F539E3634C779C87C6D7062848A1AB005C" ++ newline
           ++ "94AE36675C464D64BAFA68DD7434390BDBE9B9C5" ++ newline) |}.

(** ** The numbers of a version *)

(** The three numbers of a canonical version, and their order: by the
    first number, then the second, then the third. *)
Definition numbers (canonical : string) : N * N * N :=
  match split "." canonical with
  | [a; b; c] => (int a, int b, int c)
  | _ => (0, 0, 0)%N
  end.

Definition numbers_le (x y : N * N * N) : Prop :=
  let '(a, b, c) := x in
  let '(a', b', c') := y in
  (a < a' \/ (a = a' /\ (b < b' \/ (b = b' /\ c <= c'))))%N.

(** The characters of three numbers and of a distro name: no [+], no [-]
    and no line feed. *)
Definition plain_version_char (c : ascii) : bool :=
  negb (c =? "+")%char && negb (c =? "-")%char && negb (c =? "010")%char.

(** The canonical version of an image: the image without its distro. *)
Definition canonical_of (distro image : string) : string :=
  replace image ("-" ++ distro) "".

(** ** Returns and failures *)

(** The distro of a Python version is one of [DISTROS]. *)
Definition known_distro (p : PythonVersion) : Prop := In (p_distro p) DISTROS.

(** The canonical versions of a list are semantic versions. *)
Definition valid_pythons (pys : list PythonVersion) : Prop :=
  Forall (fun p => valid (p_canonical_version p)) pys.

Definition valid_nodejs (nodes : list NodejsVersion) : Prop :=
  Forall (fun n => valid (n_canonical_version n)) nodes.

(* ================================================================== *)
(** * Part III: the properties *)
(* ================================================================== *)

(** ** Texts *)

Lemma append_nil_r (s : string) : s ++ "" = s.
Proof. induction s as [|c s IH]; simpl; [reflexivity | now rewrite IH]. Qed.

Lemma append_assoc (a b c : string) : (a ++ b) ++ c = a ++ (b ++ c).
Proof. induction a as [|x a IH]; simpl; [reflexivity | now rewrite IH]. Qed.

Lemma length_append (a b : string) :
  String.length (a ++ b) = String.length a + String.length b.
Proof. induction a as [|x a IH]; simpl; [reflexivity | now rewrite IH]. Qed.

Lemma match_text_lit_app (lit s : string) :
  match_text_lit lit (lit ++ s) = Some s.
Proof.
  induction lit as [|c lit IH]; simpl; [reflexivity|].
  now rewrite Ascii.eqb_refl.
Qed.

Lemma match_text_lit_inv (lit s rest : string) :
  match_text_lit lit s = Some rest -> s = lit ++ rest.
Proof.
  revert s. induction lit as [|c lit IH]; intros s H; simpl in *.
  - now inversion H.
  - destruct s as [|x s]; [discriminate|].
    destruct (Ascii.eqb_spec c x) as [->|]; [|discriminate].
    now rewrite (IH _ H).
Qed.

(** ** The ticket automation *)

Section Tickets.
Import jira_automation.

Variable db : Unicode.

Lemma split_at_app (k : nat) (s a b rest : string) :
  split_at k s = Some (a, b) -> split_at k (s ++ rest) = Some (a, b ++ rest).
Proof.
  revert s a. induction k as [|k IH]; intros s a H; simpl in H.
  - inversion H; subst. reflexivity.
  - destruct s as [|c s]; [discriminate|].
    destruct (split_at k s) as [[a' b']|] eqn:E; [|discriminate].
    inversion H; subst. simpl. now rewrite (IH s a' E).
Qed.

Lemma split_at_inv (k : nat) (s a b : string) :
  split_at k s = Some (a, b) -> s = a ++ b /\ String.length a = k.
Proof.
  revert s a. induction k as [|k IH]; intros s a H; simpl in H.
  - inversion H; subst. auto.
  - destruct s as [|c s]; [discriminate|].
    destruct (split_at k s) as [[a' b']|] eqn:E; [|discriminate].
    inversion H; subst. destruct (IH s a' E) as [-> <-]. auto.
Qed.

Lemma split_at_all (a : string) : split_at (String.length a) a = Some (a, "").
Proof. induction a as [|c a IH]; simpl; [reflexivity | now rewrite IH]. Qed.

Lemma utf8_length_positive (c : ascii) : exists k, utf8_length c = S k.
Proof.
  unfold utf8_length.
  destruct (N_of_ascii c <? 192)%N; [now exists 0|].
  destruct (N_of_ascii c <? 224)%N; [now exists 1|].
  destruct (N_of_ascii c <? 240)%N; [now exists 2 | now exists 3].
Qed.

Lemma next_char_inv (s ch rest : string) :
  next_char s = Some (ch, rest) -> s = ch ++ rest /\ next_char ch = Some (ch, "").
Proof.
  destruct s as [|c s]; [discriminate|]. unfold next_char at 1. intros H.
  destruct (split_at_inv _ _ _ _ H) as [E L]. split; [exact E|].
  destruct (utf8_length_positive c) as [k Hk]. rewrite Hk in L.
  destruct ch as [|c' ch]; [discriminate|].
  simpl in E. inversion E; subst c'.
  unfold next_char. rewrite Hk, <- L. apply split_at_all.
Qed.

Lemma next_char_app (ch rest : string) :
  next_char ch = Some (ch, "") -> next_char (ch ++ rest) = Some (ch, rest).
Proof.
  destruct ch as [|c ch]; [discriminate|]. intros H.
  change (next_char (String c ch ++ rest))
    with (split_at (utf8_length c) (String c ch ++ rest)).
  change (next_char (String c ch)) with (split_at (utf8_length c) (String c ch)) in H.
  exact (split_at_app _ _ _ _ rest H).
Qed.

Lemma digit_ahead_inv (s ch rest : string) :
  digit_ahead db s = Some (ch, rest) -> s = ch ++ rest /\ digit_char db ch.
Proof.
  unfold digit_char, digit_ahead.
  destruct (next_char s) as [[a b]|] eqn:E; [|discriminate].
  destruct (is_decimal db a) eqn:D; [|discriminate].
  intros H. inversion H; subst a b.
  destruct (next_char_inv _ _ _ E) as [-> N]. split; [reflexivity|].
  now rewrite N, D.
Qed.

Lemma digit_ahead_app (ch rest : string) :
  digit_char db ch -> digit_ahead db (ch ++ rest) = Some (ch, rest).
Proof.
  unfold digit_char, digit_ahead.
  destruct (next_char ch) as [[a b]|] eqn:E; [|discriminate].
  destruct (is_decimal db a) eqn:D; [|discriminate].
  intros H. inversion H; subst a b.
  now rewrite (next_char_app ch rest E), D.
Qed.

Lemma digit_char_decimal (ch : string) :
  digit_char db ch -> ch <> "" /\ is_decimal db ch = true.
Proof.
  unfold digit_char, digit_ahead.
  destruct (next_char ch) as [[a b]|] eqn:E; [|discriminate].
  destruct (is_decimal db a) eqn:D; [|discriminate].
  intros H. inversion H; subst a b. split; [|exact D].
  intros ->. discriminate.
Qed.

Lemma digit_is_no_separator (c : ascii) :
  is_digit c = true \/ is_ascii c = false ->
  ((c =? "-")%char || (c =? "_")%char) = false /\ lower_char c = c.
Proof.
  intros H.
  destruct c as [[] [] [] [] [] [] [] []];
    (split; [reflexivity|reflexivity]) || (exfalso; destruct H as [H|H]; discriminate H).
Qed.

Lemma lower_non_ascii (ch : string) :
  forallb_str (fun c => negb (is_ascii c)) ch = true -> lower ch = ch.
Proof.
  induction ch as [|c ch IH]; [reflexivity|].
  cbn [forallb_str lower]. intros H. apply andb_true_iff in H as [Hc Hs].
  apply negb_true_iff in Hc.
  rewrite (IH Hs). f_equal. now apply digit_is_no_separator; right.
Qed.

(** A digit does not begin with a separator, and it has no upper case. *)
Lemma digit_char_first (ch : string) :
  digit_char db ch ->
  lower ch = ch
  /\ exists c ch', ch = String c ch' /\ ((c =? "-")%char || (c =? "_")%char) = false.
Proof.
  intros H. destruct (digit_char_decimal ch H) as [Hne D].
  destruct ch as [|c ch]; [congruence|].
  destruct ch as [|c2 ch].
  - cbn [is_decimal] in D.
    destruct (digit_is_no_separator c (or_introl D)) as [S L]. split.
    + cbn [lower]. now rewrite L.
    + now exists c, "".
  - change (is_decimal db (String c (String c2 ch)))
      with (forallb_str (fun c => negb (is_ascii c)) (String c (String c2 ch))
            && decimal db (String c (String c2 ch)))%bool in D.
    apply andb_true_iff in D as [D _]. split; [now apply lower_non_ascii|].
    exists c, (String c2 ch). split; [reflexivity|].
    cbn [forallb_str] in D. apply andb_true_iff in D as [D _].
    apply negb_true_iff in D. now apply digit_is_no_separator; right.
Qed.

Lemma lower_app (a b : string) : lower (a ++ b) = lower a ++ lower b.
Proof. induction a as [|c a IH]; simpl; [reflexivity | now rewrite IH]. Qed.

Lemma lower_glue (ds : list string) :
  Forall (digit_char db) ds -> lower (glue ds) = glue ds.
Proof.
  induction 1 as [|d ds Hd Hds IH]; [reflexivity|].
  cbn [glue fold_right]. rewrite lower_app. fold (glue ds).
  rewrite IH. now destruct (digit_char_first d Hd) as [-> _].
Qed.

Lemma take_digits_spec (n : nat) (s : string) :
  exists rest, s = glue (take_digits db n s) ++ rest
               /\ Forall (digit_char db) (take_digits db n s)
               /\ List.length (take_digits db n s) <= n
               /\ (List.length (take_digits db n s) = n \/ no_digit_ahead db rest).
Proof.
  revert s. induction n as [|n IH]; intros s.
  - exists s. repeat split; auto.
  - cbn [take_digits]. destruct (digit_ahead db s) as [[d r]|] eqn:E.
    + destruct (digit_ahead_inv _ _ _ E) as [-> Hd].
      destruct (IH r) as (rest & Hs & Hf & Hl & Hr).
      exists rest. cbn [glue fold_right List.length]. fold (glue (take_digits db n r)).
      split; [rewrite append_assoc; now rewrite <- Hs|].
      split; [now constructor|]. split; [lia|].
      destruct Hr as [Hr|Hr]; [left; lia | now right].
    + exists s. repeat split; auto with arith.
Qed.

Lemma take_digits_exact (n : nat) (ds : list string) (rest : string) :
  Forall (digit_char db) ds -> List.length ds <= n ->
  List.length ds = n \/ no_digit_ahead db rest ->
  take_digits db n (glue ds ++ rest) = ds.
Proof.
  revert ds. induction n as [|n IH]; intros ds Hd Hl Hr.
  - destruct ds; simpl in *; [reflexivity | lia].
  - destruct Hd as [|d ds Hd Hds].
    + destruct Hr as [Hr|Hr]; [simpl in Hr; lia|].
      cbn [glue fold_right append take_digits]. unfold no_digit_ahead in Hr.
      now rewrite Hr.
    + cbn [glue fold_right take_digits]. fold (glue ds).
      rewrite append_assoc, (digit_ahead_app d _ Hd). f_equal.
      apply IH; [exact Hds | simpl in Hl; lia|].
      destruct Hr as [Hr|Hr]; [left; simpl in Hr; lia | now right].
Qed.

Lemma match_digits_iff (s d : string) :
  match_digits db s = Some d <-> digits_at db s d.
Proof.
  unfold match_digits, digits_at. split.
  - destruct (Nat.leb 3 (List.length (take_digits db 4 s))) eqn:Hl; [|discriminate].
    intros H. inversion H; subst. apply Nat.leb_le in Hl.
    destruct (take_digits_spec 4 s) as (rest & Hs & Hd & Hn & Hr).
    exists (take_digits db 4 s), rest. auto.
  - intros (ds & rest & -> & Hd & Hl & Hr & ->).
    rewrite (take_digits_exact 4 ds rest Hd ltac:(lia) Hr).
    destruct (Nat.leb_spec 3 (List.length ds)); [reflexivity | lia].
Qed.

(** A run of digits begins with no separator. *)
Lemma digits_at_first (s d : string) :
  digits_at db s d ->
  exists c s', s = String c s' /\ ((c =? "-")%char || (c =? "_")%char) = false.
Proof.
  intros (ds & rest & -> & Hd & Hl & _ & _).
  destruct Hd as [|x ds Hx Hds]; [simpl in Hl; lia|].
  destruct (digit_char_first x Hx) as (_ & c & ch & -> & Hc).
  exists c, (ch ++ glue ds ++ rest). split; [|exact Hc].
  cbn [glue fold_right]. fold (glue ds). now rewrite append_assoc.
Qed.

Lemma match_separator_digits_iff (s d : string) :
  match_separator_digits db s = Some d
  <-> exists sep r, s = sep ++ r /\ is_separator sep /\ digits_at db r d.
Proof.
  split.
  - unfold match_separator_digits. intros H.
    assert (Hplain : match_digits db s = Some d ->
              exists sep r, s = sep ++ r /\ is_separator sep /\ digits_at db r d).
    { intros Ht. exists "", s. split; [reflexivity|]. split; [now left|].
      now apply match_digits_iff. }
    destruct s as [|c s]; [now apply Hplain|].
    match type of H with context [if ?b then _ else _] => destruct b eqn:Hc end;
      [|now apply Hplain].
    destruct (match_digits db s) as [d'|] eqn:Hs; [|now apply Hplain].
    inversion H; subst d'. apply match_digits_iff in Hs.
    apply orb_true_iff in Hc as [Hc|Hc]; apply Ascii.eqb_eq in Hc; subst c.
    + exists "-", s. unfold is_separator. auto.
    + exists "_", s. unfold is_separator. auto.
  - intros (sep & r & -> & Hsep & Hr).
    pose proof (proj2 (match_digits_iff r d) Hr) as Hm.
    destruct Hsep as [ -> | [ -> | -> ] ].
    + destruct (digits_at_first r d Hr) as (c & s' & -> & Hc).
      change ("" ++ String c s') with (String c s').
      unfold match_separator_digits. rewrite Hc. exact Hm.
    + change ("-" ++ r) with (String "-" r).
      unfold match_separator_digits. cbn [Ascii.eqb Bool.eqb orb]. now rewrite Hm.
    + change ("_" ++ r) with (String "_" r).
      unfold match_separator_digits. cbn [Ascii.eqb Bool.eqb orb]. now rewrite Hm.
Qed.

Lemma match_vida_iff (t d : string) : match_vida db t = Some d <-> ticket_at db t d.
Proof.
  unfold match_vida, ticket_at. split.
  - destruct (match_text_lit "vida" t) as [r|] eqn:Ht; [|discriminate].
    apply match_text_lit_inv in Ht. subst t. intros H.
    apply match_separator_digits_iff in H as (sep & r' & -> & Hs & Hd).
    now exists sep, r'.
  - intros (sep & r & -> & Hs & Hd). rewrite match_text_lit_app.
    apply match_separator_digits_iff. now exists sep, r.
Qed.

Lemma search_unfold (s : string) :
  search db s = match match_vida db s with
                | Some d => Some d
                | None => match s with
                          | EmptyString => None
                          | String _ s' => search db s'
                          end
                end.
Proof. destruct s; reflexivity. Qed.

(** [search] gives the digits of the first ticket of the text. *)
Lemma search_iff (s d : string) : search db s = Some d <-> captured db s d.
Proof.
  split.
  - induction s as [|c s IH]; rewrite search_unfold.
    + destruct (match_vida db "") as [d'|] eqn:Hm; [|discriminate].
      intros H. inversion H; subst d'. exists "", "". split; [reflexivity|].
      split; [now apply match_vida_iff|].
      intros p1 p2 d' E Hne. destruct p1; destruct p2; simpl in E; congruence.
    + destruct (match_vida db (String c s)) as [d'|] eqn:Hm.
      * intros H. inversion H; subst d'. exists "", (String c s).
        split; [reflexivity|]. split; [now apply match_vida_iff|].
        intros p1 p2 d' E Hne. destruct p1; destruct p2; simpl in E; congruence.
      * intros H. destruct (IH H) as (pre & t & -> & Ht & Hfirst).
        exists (String c pre), t. split; [reflexivity|]. split; [exact Ht|].
        intros p1 p2 d' E Hne Hd'. destruct p1 as [|c1 p1].
        -- simpl in E. subst p2. apply match_vida_iff in Hd'.
           change (String c pre ++ t) with (String c (pre ++ t)) in Hd'. congruence.
        -- simpl in E. inversion E; subst. now apply (Hfirst p1 p2 d').
  - intros (pre & t & -> & Ht & Hfirst).
    induction pre as [|c pre IH]; rewrite search_unfold.
    + change ("" ++ t) with t. now rewrite (proj2 (match_vida_iff t d) Ht).
    + destruct (match_vida db (String c pre ++ t)) as [d'|] eqn:Hm.
      * exfalso. apply match_vida_iff in Hm.
        apply (Hfirst "" (String c pre) d'); [reflexivity | discriminate | exact Hm].
      * change (String c pre ++ t) with (String c (pre ++ t)). cbv iota.
        apply IH. intros p1 p2 d' E Hne. apply (Hfirst (String c p1) p2 d'); [|exact Hne].
        simpl. now rewrite E.
Qed.

Lemma search_complete (s : string) : has_ticket db s -> search db s <> None.
Proof.
  intros (pre & sep & d1 & d2 & d3 & rest & -> & Hsep & H1 & H2 & H3).
  assert (Hhere : exists d, ticket_at db ("vida" ++ sep ++ d1 ++ d2 ++ d3 ++ rest) d).
  { destruct (digit_ahead db rest) as [[d4 rest']|] eqn:E.
    - destruct (digit_ahead_inv _ _ _ E) as [-> H4].
      exists (glue [d1; d2; d3; d4]), sep, (d1 ++ d2 ++ d3 ++ d4 ++ rest').
      split; [reflexivity|]. split; [exact Hsep|].
      exists [d1; d2; d3; d4], rest'. cbn [glue fold_right List.length].
      rewrite append_nil_r, !append_assoc. repeat split; auto.
    - exists (glue [d1; d2; d3]), sep, (d1 ++ d2 ++ d3 ++ rest).
      split; [reflexivity|]. split; [exact Hsep|].
      exists [d1; d2; d3], rest. cbn [glue fold_right List.length].
      rewrite append_nil_r, !append_assoc. repeat split; auto. }
  destruct Hhere as [d Hd]. apply match_vida_iff in Hd.
  induction pre as [|c pre IH]; rewrite search_unfold.
  - change ("" ++ "vida" ++ sep ++ d1 ++ d2 ++ d3 ++ rest)
      with ("vida" ++ sep ++ d1 ++ d2 ++ d3 ++ rest).
    rewrite Hd. discriminate.
  - destruct (match_vida db (String c pre ++ "vida" ++ sep ++ d1 ++ d2 ++ d3 ++ rest));
      [discriminate|].
    exact IH.
Qed.

Lemma captured_normalised (s d : string) :
  captured db s d -> normalised db ("vida-" ++ d).
Proof.
  intros (pre & t & _ & (sep & r & _ & _ & ds & rest & _ & Hd & Hl & _ & ->) & _).
  now exists ds.
Qed.

Lemma captured_has_ticket (s d : string) : captured db s d -> has_ticket db s.
Proof.
  intros (pre & t & -> & (sep & r & -> & Hsep & ds & rest & -> & Hd & Hl & _ & _) & _).
  destruct ds as [|d1 [|d2 [|d3 ds]]]; simpl in Hl; try lia.
  inversion Hd as [|? ? H1 Hd1]; subst. inversion Hd1 as [|? ? H2 Hd2]; subst.
  inversion Hd2 as [|? ? H3 Hd3]; subst.
  exists pre, sep, d1, d2, d3, (glue ds ++ rest).
  split; [|auto]. cbn [glue fold_right]. fold (glue ds).
  now rewrite !append_assoc.
Qed.

Lemma search_None_iff (s : string) : search db s = None <-> ~ has_ticket db s.
Proof.
  split.
  - intros H Hh. now apply (search_complete s Hh).
  - intros H. destruct (search db s) as [d|] eqn:E; [|reflexivity].
    destruct H. apply (captured_has_ticket s d). now apply search_iff.
Qed.

(** What [get_jira_ticket_id] returns, from what the pattern finds. *)
Lemma get_jira_ticket_id_search (s : string) (w : World) :
  fst (get_jira_ticket_id db s w) = Ok (option_map (append "vida-") (search db s)).
Proof. unfold get_jira_ticket_id. now destruct (search db s). Qed.

Lemma init_spec (token title : string) (w : World) :
  exists w', init db token title w
             = (Ok {| jira_domain := "jira.aledade.com";
                      jira_token := token;
                      ticket_id := option_map (append "vida-") (search db (lower title)) |},
                w')
             /\ requests w' = requests w.
Proof.
  unfold init, get_jira_ticket_id, IO.bind, IO.ret, print.
  destruct (search db (lower title)); simpl; eexists; split; reflexivity.
Qed.

Lemma identifier_of_search (s : string) :
  identifier_of db s (option_map (append "vida-") (search db s)).
Proof.
  destruct (search db s) as [d|] eqn:E; cbn [option_map identifier_of].
  - exists d. split; [now apply search_iff | reflexivity].
  - now apply search_None_iff.
Qed.

(** C10. [get_jira_ticket_id] raises nothing. It returns [vida-] and the
    digits [d] exactly when [d] is what the first ticket of its argument
    gives: the argument holds [vida], an optional [-] or [_] and a run of
    three digits or more, no such text begins before this one, and [d] is
    the first three digits of the run, or its first four when the run has
    four or more. It returns [None] exactly when its argument holds no
    [vida] with an optional separator and three digits. A digit is a
    decimal digit of any script. The identifier that [UpdateJira] stores is
    what [get_jira_ticket_id] returns on the lower-cased title, so it is
    [None] or [vida-] and three or four digits, whatever the separator and
    the case of the letters in the title. *)
Theorem get_jira_ticket_id_normalises (token title s : string) (w : World) :
  (exists o, fst (get_jira_ticket_id db s w) = Ok o /\ identifier_of db s o)
  /\ (forall r, fst (get_jira_ticket_id db s w) = Ok (Some r)
                <-> exists d, captured db s d /\ r = "vida-" ++ d)
  /\ (fst (get_jira_ticket_id db s w) = Ok None <-> ~ has_ticket db s)
  /\ (has_ticket db s <-> exists d, captured db s d)
  /\ (forall d, captured db s d -> normalised db ("vida-" ++ d))
  /\ exists self w',
       init db token title w = (Ok self, w')
       /\ Ok (ticket_id self) = fst (get_jira_ticket_id db (lower title) w)
       /\ identifier_of db (lower title) (ticket_id self)
       /\ match ticket_id self with
          | Some r => normalised db r
          | None => True
          end.
Proof.
  split; [|split; [|split; [|split; [|split]]]].
  - eexists. split; [apply get_jira_ticket_id_search | apply identifier_of_search].
  - intros r. rewrite get_jira_ticket_id_search. split.
    + destruct (search db s) as [d|] eqn:E; cbn [option_map]; [|discriminate].
      intros H. exists d. split; [now apply search_iff | congruence].
    + intros (d & Hd & ->). apply search_iff in Hd. now rewrite Hd.
  - rewrite get_jira_ticket_id_search, <- search_None_iff.
    destruct (search db s); cbn [option_map]; split; congruence.
  - split.
    + intros Hh. destruct (search db s) as [d|] eqn:E.
      * exists d. now apply search_iff.
      * now apply search_None_iff in E.
    + intros [d Hd]. now apply (captured_has_ticket s d).
  - apply captured_normalised.
  - destruct (init_spec token title w) as (w' & Hi & _).
    eexists. exists w'. split; [exact Hi|]. cbn [ticket_id].
    split; [now rewrite get_jira_ticket_id_search|].
    split; [apply identifier_of_search|].
    destruct (search db (lower title)) as [d|] eqn:E; cbn [option_map]; [|exact I].
    apply (captured_normalised (lower title)). now apply search_iff.
Qed.

End Tickets.

Section TicketExamples.
Import jira_automation.

Lemma get_jira_ticket_id_normalises_witness :
  fst (get_jira_ticket_id arabic_indic ("feature/vida_" ++ arabic_indic_123 ++ "-fix") quiet)
  = Ok (Some ("vida-" ++ arabic_indic_123))
  /\ (exists d, captured arabic_indic ("feature/vida_" ++ arabic_indic_123 ++ "-fix") d
                /\ "vida-" ++ arabic_indic_123 = "vida-" ++ d)
  /\ ~ has_ticket ascii_digits_only ("feature/vida_" ++ arabic_indic_123 ++ "-fix")
  /\ (exists d, captured ascii_digits_only "vida12 vida-98765" d
                /\ "vida-9876" = "vida-" ++ d)
  /\ ~ has_ticket arabic_indic "VIDA-1234".
Proof.
  split; [reflexivity|]. split; [|split; [|split]].
  - apply (proj1 (proj1 (proj2 (get_jira_ticket_id_normalises arabic_indic "token" ""
                                  ("feature/vida_" ++ arabic_indic_123 ++ "-fix") quiet))
                        ("vida-" ++ arabic_indic_123))).
    reflexivity.
  - apply (proj1 (proj1 (proj2 (proj2 (get_jira_ticket_id_normalises ascii_digits_only
                                         "token" ""
                                         ("feature/vida_" ++ arabic_indic_123 ++ "-fix")
                                         quiet))))).
    reflexivity.
  - apply (proj1 (proj1 (proj2 (get_jira_ticket_id_normalises ascii_digits_only "token" ""
                                  "vida12 vida-98765" quiet))
                        "vida-9876")).
    reflexivity.
  - apply (proj1 (proj1 (proj2 (proj2 (get_jira_ticket_id_normalises arabic_indic
                                         "token" "" "VIDA-1234" quiet))))).
    reflexivity.
Defined.

(** Whatever the case of the letters and the separator. *)
Example init_lowers_the_title :
  option_map ticket_id
    (match fst (init ascii_digits_only "token" "Feature/VIDA_1234-fix" quiet) with
     | Ok self => Some self
     | Raise _ => None
     end)
  = Some (Some "vida-1234")
  /\ fst (get_jira_ticket_id ascii_digits_only "VIDA-1234" quiet) = Ok None
  /\ fst (get_jira_ticket_id ascii_digits_only "vida12 vida-98765" quiet)
     = Ok (Some "vida-9876")
  /\ option_map ticket_id
       (match fst (init arabic_indic "token" ("VIDA-" ++ arabic_indic_123) quiet) with
        | Ok self => Some self
        | Raise _ => None
        end)
     = Some (Some ("vida-" ++ arabic_indic_123)).
Proof. repeat split; reflexivity. Qed.

End TicketExamples.

Section TicketStatus.
Import jira_automation.

Lemma get_ticket_info_requests (env : Env) (self : UpdateJira) (w : World) :
  exists url, requests (snd (get_ticket_info env self w)) = (requests w ++ [GET url])%list.
Proof.
  unfold get_ticket_info, get, IO.bind, IO.try, send, IO.lift, IO.ret, print.
  eexists. simpl.
  destruct (requests_get env _) as [resp|e]; simpl.
  - unfold raise_for_status.
    destruct (_ && _)%bool; simpl.
    + reflexivity.
    + destruct (json resp) as [data|]; simpl; [|reflexivity].
      destruct (issuetype_name data); simpl; [|reflexivity].
      destruct (status_name data); reflexivity.
  - destruct e; reflexivity.
Qed.

(** When the request fails, when the answer is an error status, and when
    the body lacks the expected fields, [get_ticket_info] returns [None]. *)
Lemma get_ticket_info_absent (env : Env) (self : UpdateJira) (w : World) :
  (forall url,
     match requests_get env url with
     | Raise e => e = RequestException
     | Ok resp =>
         (400 <= status_code resp < 600)%Z
         \/ match json resp with
            | None => True
            | Some data => issuetype_name data = None \/ status_name data = None
            end
     end) ->
  fst (get_ticket_info env self w) = Ok None.
Proof.
  intros H.
  unfold get_ticket_info, get, IO.bind, IO.try, send, IO.lift, IO.ret, print.
  simpl.
  match goal with |- context [requests_get env ?u] => specialize (H u) end.
  destruct (requests_get env _) as [resp|e]; simpl.
  - unfold raise_for_status.
    destruct ((400 <=? status_code resp)%Z && (status_code resp <? 600)%Z)%bool eqn:Hc;
      simpl; [reflexivity|].
    destruct H as [H|H]; [apply andb_false_iff in Hc as [Hc|Hc]; lia|].
    destruct (json resp) as [data|]; simpl; [|reflexivity].
    destruct H as [-> | H]; simpl; [reflexivity|].
    destruct (issuetype_name data); simpl; [|reflexivity].
    rewrite H. reflexivity.
  - subst e. reflexivity.
Qed.

Lemma change_status_raises_without_ticket_info_aux
    (env : Env) (self : UpdateJira) (w w' : World) :
  get_ticket_info env self w = (Ok None, w') ->
  change_status_to_in_progress env self w = (Raise TypeError, w')
  /\ change_status_to_needs_review env self w = (Raise TypeError, w').
Proof.
  intros H.
  unfold change_status_to_in_progress, change_status_to_needs_review, IO.bind.
  rewrite H. split; reflexivity.
Qed.

(** C9. When [get_ticket_info] yields [None], both status changes raise
    [TypeError]: [has_ticket_issue] subscripts the absent ticket before the
    test [if ticket_info] is reached. The world is the one [get_ticket_info]
    left, so nothing is posted. *)
Theorem change_status_raises_without_ticket_info
    (env : Env) (self : UpdateJira) (w w' : World) :
  get_ticket_info env self w = (Ok None, w') ->
  change_status_to_in_progress env self w = (Raise TypeError, w')
  /\ change_status_to_needs_review env self w = (Raise TypeError, w').
Proof. apply change_status_raises_without_ticket_info_aux. Qed.

(** Nothing is posted on the way to that exception. *)
Lemma change_status_without_ticket_info_no_post
    (env : Env) (self : UpdateJira) (w w' : World) :
  get_ticket_info env self w = (Ok None, w') ->
  no_post w ->
  no_post (snd (change_status_to_in_progress env self w))
  /\ no_post (snd (change_status_to_needs_review env self w)).
Proof.
  intros H Hw.
  destruct (change_status_raises_without_ticket_info_aux env self w w' H) as [-> ->].
  simpl.
  assert (Hw' : no_post w').
  { destruct (get_ticket_info_requests env self w) as [url Hr].
    rewrite H in Hr. simpl in Hr. intros u i Hin. rewrite Hr in Hin.
    apply in_app_or in Hin as [Hin|[Hin|[]]]; [now apply (Hw u i) | discriminate]. }
  split; exact Hw'.
Qed.

Lemma change_status_raises_without_ticket_info_witness :
  get_ticket_info unreachable_tracker vida_123 quiet
  = (Ok None,
     {| console := ["Error with response"; "Error"];
        requests := [GET "https://jira.aledade.com/rest/api/2/issue/vida-123"] |})
  /\ change_status_to_in_progress unreachable_tracker vida_123 quiet
     = (Raise TypeError,
        {| console := ["Error with response"; "Error"];
           requests := [GET "https://jira.aledade.com/rest/api/2/issue/vida-123"] |})
  /\ change_status_to_needs_review no_issue_tracker vida_123 quiet
     = (Raise TypeError,
        {| console := ["Response status for get"; "Error"];
           requests := [GET "https://jira.aledade.com/rest/api/2/issue/vida-123"] |}).
Proof.
  split; [reflexivity|]. split.
  - apply (change_status_raises_without_ticket_info unreachable_tracker vida_123 quiet).
    reflexivity.
  - apply (change_status_raises_without_ticket_info no_issue_tracker vida_123 quiet).
    reflexivity.
Defined.

End TicketStatus.

(** ** The change detector *)

Lemma find_app {A : Type} (p : A -> bool) (l1 l2 : list A) :
  find p (l1 ++ l2)%list = match find p l1 with
                           | Some a => Some a
                           | None => find p l2
                           end.
Proof.
  induction l1 as [|x l1 IH]; simpl; [reflexivity|].
  destruct (p x); [reflexivity | exact IH].
Qed.

Lemma Combination_eqb_spec (a b : Combination) : reflect (a = b) (Combination_eqb a b).
Proof.
  destruct a as [k1 p1 pc1 pi1 n1 nc1 d1], b as [k2 p2 pc2 pi2 n2 nc2 d2].
  unfold Combination_eqb. simpl.
  destruct (String.eqb_spec k1 k2); [|right; congruence].
  destruct (String.eqb_spec p1 p2); [|right; congruence].
  destruct (String.eqb_spec pc1 pc2); [|right; congruence].
  destruct (String.eqb_spec pi1 pi2); [|right; congruence].
  destruct (String.eqb_spec n1 n2); [|right; congruence].
  destruct (String.eqb_spec nc1 nc2); [|right; congruence].
  destruct (String.eqb_spec d1 d2); [|right; congruence].
  left. congruence.
Qed.

Section Dict.
Context {V : Type}.
Implicit Types (d : dict V) (k : string) (v : V).

Lemma dict_get_set d k v k' :
  dict_get (dict_set d k v) k' = if k =? k' then Some v else dict_get d k'.
Proof.
  induction d as [|[k0 v0] d IH]; simpl.
  - reflexivity.
  - destruct (String.eqb_spec k0 k) as [->|Hk]; simpl.
    + destruct (String.eqb_spec k k'); reflexivity.
    + destruct (String.eqb_spec k0 k') as [->|Hk']; [|exact IH].
      destruct (String.eqb_spec k k'); [congruence | reflexivity].
Qed.

Lemma dict_get_None d k : dict_get d k = None <-> ~ In k (map fst d).
Proof.
  induction d as [|[k0 v0] d IH]; simpl.
  - tauto.
  - destruct (String.eqb_spec k0 k) as [->|Hk].
    + split; [discriminate | tauto].
    + rewrite IH. tauto.
Qed.

Lemma dict_get_In d k v : dict_get d k = Some v -> In (k, v) d.
Proof.
  induction d as [|[k0 v0] d IH]; simpl; [discriminate|].
  destruct (String.eqb_spec k0 k) as [->|Hk]; intros H.
  - inversion H. now left.
  - right. now apply IH.
Qed.

Lemma In_dict_get d k v : NoDup (map fst d) -> In (k, v) d -> dict_get d k = Some v.
Proof.
  induction d as [|[k0 v0] d IH]; simpl; [tauto|].
  intros Hnd [Heq|Hin].
  - inversion Heq; subst. now rewrite String.eqb_refl.
  - inversion Hnd as [|? ? Hnotin Hnd']; subst.
    destruct (String.eqb_spec k0 k) as [->|Hk]; [|now apply IH].
    exfalso. apply Hnotin. now apply (in_map fst _ (k, v)).
Qed.

Lemma dict_set_fresh d k v : ~ In k (map fst d) -> dict_set d k v = (d ++ [(k, v)])%list.
Proof.
  induction d as [|[k0 v0] d IH]; simpl; intros H; [reflexivity|].
  destruct (String.eqb_spec k0 k) as [->|Hk]; [tauto|].
  rewrite IH; tauto.
Qed.

Lemma dict_set_keys d k v :
  map fst (dict_set d k v)
  = if in_dec string_dec k (map fst d) then map fst d else (map fst d ++ [k])%list.
Proof.
  induction d as [|[k0 v0] d IH]; simpl; [reflexivity|].
  destruct (String.eqb_spec k0 k) as [->|Hk]; simpl.
  - destruct (string_dec k k); [reflexivity | congruence].
  - rewrite IH. destruct (string_dec k0 k); [congruence|].
    destruct (in_dec string_dec k (map fst d)); reflexivity.
Qed.

Lemma dict_set_In d k v k' v' :
  In (k', v') (dict_set d k v) -> (k' = k /\ v' = v) \/ In (k', v') d.
Proof.
  induction d as [|[k0 v0] d IH]; simpl.
  - intros [H|[]]. inversion H. auto.
  - destruct (String.eqb_spec k0 k) as [->|Hk]; simpl.
    + intros [H|H]; [inversion H|]; auto.
    + intros [H|H]; [auto|]. destruct (IH H); auto.
Qed.

End Dict.

Lemma dict_set_keyed (d : dict Combination) (v : Combination) :
  keyed d -> keyed (dict_set d (key v) v).
Proof.
  intros [Hnd Hk]. split.
  - rewrite dict_set_keys.
    destruct (in_dec string_dec (key v) (map fst d)) as [|Hn]; [exact Hnd|].
    apply NoDup_rev in Hnd. rewrite <- (rev_involutive (_ ++ _)%list).
    apply NoDup_rev. rewrite rev_app_distr. simpl. constructor; [|exact Hnd].
    now rewrite <- in_rev.
  - apply Forall_forall. intros [k' v'] Hin.
    destruct (dict_set_In _ _ _ _ _ Hin) as [[-> ->]|Hin']; [reflexivity|].
    rewrite Forall_forall in Hk. exact (Hk _ Hin').
Qed.

Lemma fold_dict_set_keyed (l : list Combination) (d : dict Combination) :
  keyed d -> keyed (fold_left (fun d ver => dict_set d (key ver) ver) l d).
Proof.
  revert d. induction l as [|x l IH]; intros d Hd; simpl; [exact Hd|].
  apply IH. now apply dict_set_keyed.
Qed.

Lemma by_key_keyed (l : list Combination) : keyed (by_key l).
Proof.
  apply fold_dict_set_keyed. split; [constructor | constructor].
Qed.

Lemma fold_dict_set_get (l : list Combination) (d : dict Combination) (k : string) :
  dict_get (fold_left (fun d ver => dict_set d (key ver) ver) l d) k
  = match entry l k with
    | Some v => Some v
    | None => dict_get d k
    end.
Proof.
  revert d. induction l as [|x l IH]; intros d; simpl; [reflexivity|].
  rewrite IH. unfold entry. simpl. rewrite find_app.
  destruct (find _ (rev l)); [reflexivity|].
  rewrite dict_get_set. simpl.
  destruct (key x =? k); reflexivity.
Qed.

(** The dict of a sequence holds, under each key, the last row with that
    key. *)
Lemma by_key_get (l : list Combination) (k : string) :
  dict_get (by_key l) k = entry l k.
Proof.
  unfold by_key. rewrite fold_dict_set_get. simpl. now destruct (entry l k).
Qed.

Lemma entry_None (l : list Combination) (k : string) :
  entry l k = None <-> ~ In k (map key l).
Proof.
  rewrite <- by_key_get, dict_get_None.
  split; intros H Hin; apply H; clear H.
  - apply in_map_iff in Hin as (v & <- & Hv).
    assert (Hs : dict_get (by_key l) (key v) <> None).
    { rewrite by_key_get. unfold entry. intros Hf.
      pose proof (find_none _ _ Hf v (proj1 (in_rev l v) Hv)) as Hx.
      simpl in Hx. now rewrite String.eqb_refl in Hx. }
    destruct (dict_get (by_key l) (key v)) as [b|] eqn:Hg; [|congruence].
    apply dict_get_In in Hg. now apply (in_map fst _ (key v, b)).
  - apply in_map_iff in Hin as ([k' v] & Hk & Hv). simpl in Hk. subst k'.
    destruct (by_key_keyed l) as [Hnd Hkeys].
    pose proof (In_dict_get _ _ _ Hnd Hv) as Hg. rewrite by_key_get in Hg.
    unfold entry in Hg. apply find_some in Hg as [Hin Heq].
    apply String.eqb_eq in Heq. rewrite <- Heq. apply in_map. now apply in_rev.
Qed.

Lemma entry_Some (l : list Combination) (k : string) (v : Combination) :
  entry l k = Some v -> In v l /\ key v = k.
Proof.
  unfold entry. intros H. apply find_some in H as [Hin Heq].
  split; [now apply in_rev | now apply String.eqb_eq].
Qed.

(** A sequence without repeated key is its own index. *)
Lemma fold_dict_set_fresh (l : list Combination) (d : dict Combination) :
  NoDup (map fst d ++ map key l) ->
  fold_left (fun d ver => dict_set d (key ver) ver) l d
  = (d ++ map (fun v => (key v, v)) l)%list.
Proof.
  revert d. induction l as [|x l IH]; intros d Hnd; simpl.
  - now rewrite app_nil_r.
  - simpl in Hnd. rewrite dict_set_fresh.
    + rewrite IH; [now rewrite <- app_assoc|].
      rewrite map_app. simpl. rewrite <- app_assoc. exact Hnd.
    + apply NoDup_remove_2 in Hnd. intros Hin. apply Hnd. apply in_or_app. now left.
Qed.

Lemma by_key_NoDup (l : list Combination) :
  NoDup (map key l) -> by_key l = map (fun v => (key v, v)) l.
Proof. intros H. unfold by_key. now rewrite fold_dict_set_fresh. Qed.

Lemma entry_NoDup (l : list Combination) (c : Combination) :
  NoDup (map key l) -> (entry l (key c) = Some c <-> In c l).
Proof.
  intros Hnd. rewrite <- by_key_get. split.
  - intros H. apply dict_get_In in H. rewrite (by_key_NoDup l Hnd) in H.
    apply in_map_iff in H as (v & Hv & Hin). now inversion Hv; subst.
  - intros Hin. apply In_dict_get; [apply by_key_keyed|].
    rewrite (by_key_NoDup l Hnd). apply in_map_iff. now exists c.
Qed.

Lemma is_new_or_updated_spec (B : list Combination) (force : bool) (c : Combination) :
  is_new_or_updated (by_key B) force (key c, c) = true
  <-> changed B c \/ force = true.
Proof.
  unfold is_new_or_updated, changed. rewrite by_key_get.
  destruct (entry B (key c)) as [b|] eqn:Hb.
  - simpl. destruct (Combination_eqb_spec c b) as [->|Hne]; simpl.
    + split; [now right|]. intros [[Hn|(b' & Hb' & Hne)]|Hf]; [| congruence | exact Hf].
      apply entry_Some in Hb as [Hin Hk].
      exfalso. apply Hn. apply in_map_iff. now exists b.
    + split; [|reflexivity]. intros _. left. right. exists b. split; congruence.
  - simpl. split; [|reflexivity]. intros _. left. left. now apply entry_None.
Qed.

(** Whatever the keys of the new sequence, the change detector keeps the
    rows of its index, that is the last row under each key, that are new or
    updated, or all of them when forced. *)
Lemma new_or_updated_In (B N : list Combination) (force : bool) (c : Combination) :
  In c (new_or_updated B N force)
  <-> entry N (key c) = Some c /\ (changed B c \/ force = true).
Proof.
  unfold new_or_updated. rewrite in_map_iff.
  destruct (by_key_keyed N) as [Hnd Hkeys]. rewrite Forall_forall in Hkeys.
  split.
  - intros ([k v] & Hv & Hin). simpl in Hv. subst v.
    apply filter_In in Hin as [Hin Hp].
    pose proof (Hkeys _ Hin) as Hk. simpl in Hk. subst k.
    split; [|now apply is_new_or_updated_spec].
    rewrite <- by_key_get. now apply In_dict_get.
  - intros [He Hp]. exists (key c, c). split; [reflexivity|].
    apply filter_In. split; [|now apply is_new_or_updated_spec].
    apply dict_get_In. now rewrite by_key_get.
Qed.

Lemma new_or_updated_NoDup (B N : list Combination) (force : bool) :
  NoDup (map key N) ->
  new_or_updated B N force
  = filter (fun c => is_new_or_updated (by_key B) force (key c, c)) N.
Proof.
  intros Hnd. unfold new_or_updated. rewrite (by_key_NoDup N Hnd).
  generalize (is_new_or_updated (by_key B) force). intros p. clear Hnd.
  induction N as [|x N IH]; simpl; [reflexivity|].
  destruct (p (key x, x)); simpl; now rewrite IH.
Qed.

(** C3. For a new sequence [N] indexed by its keys (no key occurs twice), a
    row of [N] is among the new or updated rows exactly when its key is not a
    key of the baseline, or the baseline's entry under its key is another
    row, or the detector is forced; and when forced the new or updated rows
    are all of [N], in the order of [N]. *)
Theorem new_or_updated_iff (B N : list Combination) (force : bool) :
  NoDup (map key N) ->
  (forall c, In c (new_or_updated B N force)
             <-> In c N /\ (~ In (key c) (map key B)
                            \/ (exists b, entry B (key c) = Some b /\ b <> c)
                            \/ force = true))
  /\ (force = true -> new_or_updated B N force = N).
Proof.
  intros Hnd. split.
  - intros c. rewrite new_or_updated_In, (entry_NoDup N c Hnd).
    unfold changed. tauto.
  - intros ->. rewrite (new_or_updated_NoDup B N true Hnd).
    clear Hnd. induction N as [|x N IH]; [reflexivity|].
    cbn [filter]. rewrite IH.
    assert (Hx : is_new_or_updated (by_key B) true (key x, x) = true).
    { unfold is_new_or_updated. apply orb_true_r. }
    now rewrite Hx.
Qed.

Lemma new_or_updated_iff_witness :
  NoDup (map key [py39_node18; py38_node18])
  /\ new_or_updated [py39_node18_old; py38_node18] [py39_node18; py38_node18] false
     = [py39_node18]
  /\ (In py39_node18
        (new_or_updated [py39_node18_old; py38_node18] [py39_node18; py38_node18] false)
      <-> In py39_node18 [py39_node18; py38_node18]
          /\ (~ In (key py39_node18) (map key [py39_node18_old; py38_node18])
              \/ (exists b, entry [py39_node18_old; py38_node18] (key py39_node18) = Some b
                            /\ b <> py39_node18)
              \/ false = true))
  /\ new_or_updated [py39_node18_old; py38_node18] [py39_node18; py38_node18] true
     = [py39_node18; py38_node18].
Proof.
  assert (Hnd : NoDup (map key [py39_node18; py38_node18])).
  { repeat constructor; simpl; intuition discriminate. }
  split; [exact Hnd|]. split; [reflexivity|]. split.
  - apply (proj1 (new_or_updated_iff [py39_node18_old; py38_node18]
                    [py39_node18; py38_node18] false Hnd)).
  - apply (proj2 (new_or_updated_iff [py39_node18_old; py38_node18]
                    [py39_node18; py38_node18] true Hnd)). reflexivity.
Defined.

(** ** Runs of the pipeline *)

Section Keeps.
Context {X : Type} (f : World -> X).

Lemma keeps_ret {A : Type} (a : A) : keeps f (IO.ret a).
Proof. intros w. reflexivity. Qed.

Lemma keeps_raise {A : Type} (e : exn) : keeps f (@IO.raise World A e).
Proof. intros w. reflexivity. Qed.

Lemma keeps_lift {A : Type} (r : result A) : keeps f (IO.lift r).
Proof. intros w. reflexivity. Qed.

Lemma keeps_bind {A B : Type} (m : IO.t World A) (k : A -> IO.t World B) :
  keeps f m -> (forall a, keeps f (k a)) -> keeps f (IO.bind m k).
Proof.
  intros Hm Hk w. unfold IO.bind. specialize (Hm w).
  destruct (m w) as [[a|e] w1]; simpl in *; [|exact Hm].
  now rewrite (Hk a w1).
Qed.

Lemma keeps_when (c : bool) (m : IO.t World unit) :
  keeps f m -> keeps f (IO.when c m).
Proof. intros Hm. destruct c; [exact Hm | apply keeps_ret]. Qed.

Lemma keeps_try {A : Type} (m : IO.t World A) (h : exn -> option (IO.t World A)) :
  keeps f m -> (forall e k, h e = Some k -> keeps f k) -> keeps f (IO.try m h).
Proof.
  intros Hm Hh w. unfold IO.try. specialize (Hm w).
  destruct (m w) as [[a|e] w1]; simpl in *; [exact Hm|].
  destruct (h e) as [k|] eqn:He; simpl; [|exact Hm].
  now rewrite (Hh e k He w1).
Qed.

Lemma keeps_collect {A B : Type} (body : A -> IO.t World (list B)) (l : list A) :
  (forall a, keeps f (body a)) -> keeps f (IO.collect body l).
Proof.
  intros Hb. induction l as [|x l IH]; simpl.
  - apply keeps_ret.
  - apply keeps_bind; [apply Hb|]. intros ys.
    apply keeps_bind; [exact IH|]. intros zs. apply keeps_ret.
Qed.

Lemma keeps_for_each {A : Type} (body : A -> IO.t World unit) (l : list A) :
  (forall a, keeps f (body a)) -> keeps f (IO.for_each body l).
Proof.
  intros Hb. induction l as [|x l IH]; simpl.
  - apply keeps_ret.
  - apply keeps_bind; [apply Hb | intros _; exact IH].
Qed.

Lemma keeps_read_file {A : Type} (file : World -> option A) : keeps f (read_file file).
Proof. intros w. unfold read_file. now destruct (file w). Qed.

End Keeps.

Lemma keeps_print {X : Type} (f : World -> X) (msg : string) :
  beside_console f -> keeps f (print msg).
Proof. intros Hf w. unfold print. simpl. apply Hf. Qed.

Lemma beside_console_versions_json : beside_console versions_json.
Proof. intros w c. reflexivity. Qed.

Lemma beside_console_readme_md : beside_console readme_md.
Proof. intros w c. reflexivity. Qed.

Lemma beside_console_debug_files : beside_console debug_files.
Proof. intros w c. reflexivity. Qed.

Lemma beside_console_docker : beside_console docker.
Proof. intros w c. reflexivity. Qed.

Create HintDb pipeline.

#[local] Hint Resolve beside_console_versions_json beside_console_readme_md
  beside_console_debug_files beside_console_docker : pipeline.
#[local] Hint Resolve keeps_ret keeps_raise keeps_lift keeps_print keeps_read_file
  : pipeline.

Ltac keeps_step :=
  first [ apply keeps_bind; [|intros ?]
        | apply keeps_collect; intros ?
        | apply keeps_for_each; intros ?
        | apply keeps_when
        | apply keeps_lift
        | apply keeps_ret
        | apply keeps_raise
        | apply keeps_read_file
        | apply keeps_print; solve [auto with pipeline]
        | match goal with |- keeps _ (if ?c then _ else _) => destruct c end ].

Lemma decide_python_versions_keeps {X : Type} (f : World -> X)
    (env : Env) (distros : list string) :
  beside_console f -> keeps f (decide_python_versions env distros).
Proof. intros Hf. unfold decide_python_versions. repeat keeps_step. Qed.

Lemma decide_nodejs_versions_keeps {X : Type} (f : World -> X) (env : Env) :
  beside_console f -> keeps f (decide_nodejs_versions env).
Proof. intros Hf. unfold decide_nodejs_versions. repeat keeps_step. Qed.

(** Up to the computation of the new sequence the run reads and prints, and
    nothing else. *)
Lemma plan_keeps {X : Type} (f : World -> X) (env : Env) (distros : list string) :
  beside_console f -> keeps f (plan env distros).
Proof.
  intros Hf. unfold plan, load_versions.
  apply keeps_bind; [apply keeps_read_file | intros B].
  apply keeps_bind; [now apply decide_python_versions_keeps | intros pys].
  apply keeps_bind; [now apply decide_nodejs_versions_keeps | intros nodes].
  repeat keeps_step.
Qed.

Lemma plan_loads (env : Env) (distros : list string) (w w1 : World)
    (B N : list Combination) :
  plan env distros w = (Ok (B, N), w1) -> versions_json w = Some B.
Proof.
  unfold plan, load_versions, read_file, IO.bind.
  destruct (versions_json w) as [B0|]; [|discriminate].
  destruct (decide_python_versions _ _ _) as [[pys|e] w0]; [|discriminate].
  destruct (decide_nodejs_versions _ _) as [[nodes|e] w2]; [|discriminate].
  unfold IO.lift, IO.ret.
  destruct (version_combinations nodes pys); [|discriminate].
  intros H. now inversion H.
Qed.

(** [main] is the plan followed by the publication. *)
Lemma main_plan_publish (env : Env) (distros : list string)
    (dry_run debug force : bool) (w : World) :
  main env distros dry_run debug force w
  = match plan env distros w with
    | (Ok (B, N), w1) => publish env B N dry_run debug force w1
    | (Raise e, w1) => (Raise e, w1)
    end.
Proof.
  unfold main, plan, publish, IO.bind.
  destruct (load_versions w) as [[B|e] w0]; [|reflexivity].
  destruct (decide_python_versions _ _ _) as [[pys|e] w1]; [|reflexivity].
  destruct (decide_nodejs_versions _ _) as [[nodes|e] w2]; [|reflexivity].
  unfold IO.lift, IO.ret.
  destruct (version_combinations nodes pys); reflexivity.
Qed.

Lemma persist_versions_spec (N : list Combination) (dry_run : bool) (w : World) :
  exists w', persist_versions N dry_run w = (Ok tt, w')
             /\ versions_json w' = (if dry_run then versions_json w else Some N)
             /\ readme_md w' = readme_md w
             /\ debug_files w' = debug_files w
             /\ console w' = console w
             /\ docker w' = docker w.
Proof.
  unfold persist_versions. destruct dry_run; eexists; split; try reflexivity; auto.
Qed.

(** The README update touches the README only, and not even it in a dry
    run. *)
Lemma update_readme_tags_table_frame (env : Env) (N : list Combination)
    (dry_run : bool) (w : World) :
  let w' := snd (update_readme_tags_table env N dry_run w) in
  versions_json w' = versions_json w
  /\ debug_files w' = debug_files w
  /\ console w' = console w
  /\ docker w' = docker w
  /\ (dry_run = true -> readme_md w' = readme_md w).
Proof.
  unfold update_readme_tags_table, IO.bind, read_file, IO.lift, IO.when.
  destruct (readme_md w) as [readme|] eqn:Hr; simpl; [|now rewrite Hr].
  destruct (compile_template env _) as [expand|e]; simpl; [|now rewrite Hr].
  destruct (negb (readme =? sub expand readme) && negb dry_run)%bool eqn:Hc; simpl.
  - repeat split; auto. intros ->. now rewrite andb_false_r in Hc.
  - now rewrite Hr.
Qed.

(** With nothing new or updated, the change detector prints its message and
    returns: no call on the Docker client, no file written. *)
Lemma build_new_or_updated_nothing (env : Env) (B N : list Combination)
    (dry_run debug force : bool) (w : World) :
  new_or_updated B N force = [] ->
  build_new_or_updated env B N dry_run debug force w
  = (Ok tt, {| versions_json := versions_json w;
               readme_md := readme_md w;
               debug_files := debug_files w;
               console := (console w ++ [nothing_to_do])%list;
               docker := docker w |}).
Proof. intros H. unfold build_new_or_updated. rewrite H. reflexivity. Qed.

(** C5, as the code has it. In a run of [main] in which nothing is new or
    updated, no call is made on the Docker client and no debug file is
    written, and, when the README update went through, the run ends normally
    with the message that there is nothing to do. The state file is left as
    it was in a dry run only: otherwise it has been rewritten with the new
    sequence before the change detection. *)
Theorem nothing_to_do_run (env : Env) (distros : list string)
    (dry_run debug force : bool) (w w1 : World) (B N : list Combination) :
  plan env distros w = (Ok (B, N), w1) ->
  new_or_updated B N force = [] ->
  let run := main env distros dry_run debug force w in
  docker (snd run) = docker w
  /\ debug_files (snd run) = debug_files w
  /\ versions_json (snd run) = (if dry_run then versions_json w else Some N)
  /\ (dry_run = true -> readme_md (snd run) = readme_md w)
  /\ (fst run = Ok tt ->
      exists printed, console (snd run) = (printed ++ [nothing_to_do])%list).
Proof.
  intros Hplan Hnone. simpl.
  rewrite main_plan_publish, Hplan. unfold publish, IO.bind.
  pose proof (plan_keeps docker env distros beside_console_docker w) as Hd.
  pose proof (plan_keeps debug_files env distros beside_console_debug_files w) as Hg.
  pose proof (plan_keeps versions_json env distros beside_console_versions_json w) as Hv.
  pose proof (plan_keeps readme_md env distros beside_console_readme_md w) as Hr.
  rewrite Hplan in Hd, Hg, Hv, Hr. simpl in Hd, Hg, Hv, Hr.
  destruct (persist_versions_spec N dry_run w1) as (w2 & -> & Pv & Pr & Pg & Pc & Pd).
  pose proof (update_readme_tags_table_frame env N dry_run w2) as (Uv & Ug & Uc & Ud & Ur).
  destruct (update_readme_tags_table env N dry_run w2) as [[[]|e] w3]; simpl in *.
  - rewrite (build_new_or_updated_nothing env B N dry_run debug force w3 Hnone). simpl.
    repeat split.
    + congruence.
    + congruence.
    + rewrite Uv, Pv. destruct dry_run; congruence.
    + intros Hdry. rewrite (Ur Hdry). congruence.
    + intros _. now exists (console w3).
  - repeat split.
    + congruence.
    + congruence.
    + rewrite Uv, Pv. destruct dry_run; congruence.
    + intros Hdry. rewrite (Ur Hdry). congruence.
    + discriminate.
Qed.

Lemma nothing_to_do_run_witness :
  plan november_2024 ["buster"] after_previous_run
  = (Ok ([py39_node18_now; py38_node18_now], [py39_node18_now]), after_previous_run)
  /\ new_or_updated [py39_node18_now; py38_node18_now] [py39_node18_now] false = []
  /\ (let run := main november_2024 ["buster"] false false false after_previous_run in
      docker (snd run) = docker after_previous_run
      /\ debug_files (snd run) = debug_files after_previous_run
      /\ versions_json (snd run) = Some [py39_node18_now]
      /\ (false = true -> readme_md (snd run) = readme_md after_previous_run)
      /\ (fst run = Ok tt ->
          exists printed, console (snd run) = (printed ++ [nothing_to_do])%list)).
Proof.
  assert (Hplan : plan november_2024 ["buster"] after_previous_run
            = (Ok ([py39_node18_now; py38_node18_now], [py39_node18_now]),
               after_previous_run)) by (vm_compute; reflexivity).
  assert (Hnone : new_or_updated [py39_node18_now; py38_node18_now] [py39_node18_now] false
                  = []) by (vm_compute; reflexivity).
  split; [exact Hplan|]. split; [exact Hnone|].
  exact (nothing_to_do_run november_2024 ["buster"] false false false
           after_previous_run after_previous_run _ _ Hplan Hnone).
Defined.

(** C5, as it is stated, fails: on a day on which Python 3.8 has left the
    supported versions, nothing is new or updated and the run says so, and
    the state file, which held the 3.8 row, has been rewritten without
    it. *)
Lemma nothing_to_do_rewrites_state_file :
  let run := main november_2024 ["buster"] false false false after_previous_run in
  new_or_updated [py39_node18_now; py38_node18_now] [py39_node18_now] false = []
  /\ fst run = Ok tt
  /\ console (snd run) = [nothing_to_do]
  /\ docker (snd run) = []
  /\ versions_json after_previous_run = Some [py39_node18_now; py38_node18_now]
  /\ versions_json (snd run) = Some [py39_node18_now]
  /\ versions_json (snd run) <> versions_json after_previous_run.
Proof.
  vm_compute. repeat split; try reflexivity. discriminate.
Qed.

(** When the login raises an API error, the change detector prints its two
    lines and exits with status 1; the login is the only call it has made on
    the Docker client. *)
Lemma build_new_or_updated_login_refused (env : Env) (B N : list Combination)
    (dry_run debug force : bool) (w : World) :
  new_or_updated B N force <> [] ->
  docker_from_env env = Ok tt ->
  docker_login env (getenv env "DOCKERHUB_USERNAME") (getenv env "DOCKERHUB_PASSWORD")
  = Raise APIError ->
  exists w',
    build_new_or_updated env B N dry_run debug force w = (Raise (SystemExit 1), w')
    /\ docker w' = (docker w ++ [Login (getenv env "DOCKERHUB_USERNAME")
                                       (getenv env "DOCKERHUB_PASSWORD")])%list
    /\ versions_json w' = versions_json w
    /\ readme_md w' = readme_md w
    /\ debug_files w' = debug_files w.
Proof.
  intros Hsome Henv Hlogin. unfold build_new_or_updated.
  destruct (new_or_updated B N force) as [|v vs]; [congruence|].
  unfold IO.bind, IO.lift, IO.try, docker_do. rewrite Henv, Hlogin. simpl.
  eexists. split; [reflexivity|]. simpl. auto.
Qed.

(** C8, as the code has it. When a run reaches the login and the login
    raises an API error, the run ends with exit status 1, and of the Docker
    client only the login has been called: no image is built or pushed. *)
Theorem login_failure_is_fatal (env : Env) (distros : list string)
    (dry_run debug force : bool) (w w1 : World) (B N : list Combination) :
  plan env distros w = (Ok (B, N), w1) ->
  fst (update_readme_tags_table env N dry_run (snd (persist_versions N dry_run w1)))
  = Ok tt ->
  new_or_updated B N force <> [] ->
  docker_from_env env = Ok tt ->
  docker_login env (getenv env "DOCKERHUB_USERNAME") (getenv env "DOCKERHUB_PASSWORD")
  = Raise APIError ->
  let run := main env distros dry_run debug force w in
  fst run = Raise (SystemExit 1)
  /\ exit_status (fst run) = 1%Z
  /\ docker (snd run) = (docker w ++ [Login (getenv env "DOCKERHUB_USERNAME")
                                            (getenv env "DOCKERHUB_PASSWORD")])%list.
Proof.
  intros Hplan Hreadme Hsome Henv Hlogin. simpl.
  rewrite main_plan_publish, Hplan. unfold publish, IO.bind.
  pose proof (plan_keeps docker env distros beside_console_docker w) as Hd.
  rewrite Hplan in Hd. simpl in Hd.
  destruct (persist_versions_spec N dry_run w1) as (w2 & Hp & _ & _ & _ & _ & Pd).
  rewrite Hp in *. simpl in Hreadme.
  pose proof (update_readme_tags_table_frame env N dry_run w2) as (_ & _ & _ & Ud & _).
  destruct (update_readme_tags_table env N dry_run w2) as [[[]|e] w3];
    simpl in *; [|discriminate].
  destruct (build_new_or_updated_login_refused env B N dry_run debug force w3
              Hsome Henv Hlogin) as (w' & -> & Hdocker & _).
  simpl. repeat split. rewrite Hdocker. congruence.
Qed.

Lemma login_failure_is_fatal_witness :
  let run := main login_refused ["buster"] false false false older_baseline in
  fst run = Raise (SystemExit 1)
  /\ exit_status (fst run) = 1%Z
  /\ docker (snd run) = [Login None None].
Proof.
  apply (login_failure_is_fatal login_refused ["buster"] false false false
           older_baseline older_baseline [py39_node18_old] [py39_node18_now]).
  - vm_compute. reflexivity.
  - vm_compute. reflexivity.
  - vm_compute. discriminate.
  - reflexivity.
  - reflexivity.
Defined.

(** C8, as it is stated, fails in its second half: the process also ends
    with a nonzero status when no login fails. Without a state file the run
    stops before any login; with a build that fails it stops after a login
    that went through. *)
Lemma nonzero_exit_without_login_failure :
  (let run := main november_2024 ["buster"] false false false no_state_file in
   fst run = Raise FileNotFoundError
   /\ exit_status (fst run) = 1%Z
   /\ docker (snd run) = [])
  /\ (let run := main build_fails ["buster"] false false false older_baseline in
      docker_login build_fails None None = Ok tt
      /\ fst run = Raise OtherError
      /\ exit_status (fst run) = 1%Z
      /\ docker (snd run)
         = [Login None None;
            Build "nikolaik/python-nodejs:python3.9-nodejs18" "FROM python"]).
Proof.
  vm_compute. repeat split; reflexivity.
Qed.

(** ** Sorting *)

Lemma mapM_Ok {A B : Type} (f : A -> result B) (g : A -> B) (l : list A) :
  (forall a, In a l -> f a = Ok (g a)) -> mapM f l = Ok (map g l).
Proof.
  induction l as [|x l IH]; intros H; simpl; [reflexivity|].
  rewrite (H x (or_introl eq_refl)). simpl.
  rewrite IH; [reflexivity|]. intros a Ha. apply H. now right.
Qed.

Lemma hd_rev {A : Type} (d : A) (l : list A) : hd d (rev l) = last l d.
Proof.
  induction l as [|x l IH] using rev_ind; [reflexivity|].
  rewrite rev_app_distr, last_last. reflexivity.
Qed.

Lemma last_In {A : Type} (d : A) (l : list A) : l <> [] -> In (last l d) l.
Proof.
  induction l as [|a [|b l] IH]; intros Hn; [congruence | now left |].
  right. apply IH. discriminate.
Qed.

Lemma StronglySorted_app {A : Type} (R : A -> A -> Prop) (l1 l2 : list A) :
  StronglySorted R l1 -> StronglySorted R l2 ->
  (forall a b, In a l1 -> In b l2 -> R a b) ->
  StronglySorted R (l1 ++ l2)%list.
Proof.
  intros H1 H2 H12. induction H1 as [|x l1 Hl1 IH Hx]; simpl; [exact H2|].
  constructor.
  - apply IH. intros a b Ha Hb. apply H12; [now right | exact Hb].
  - apply Forall_app. split; [exact Hx|].
    apply Forall_forall. intros b Hb. apply H12; [now left | exact Hb].
Qed.

Lemma StronglySorted_rev {A : Type} (R : A -> A -> Prop) (l : list A) :
  StronglySorted R l -> StronglySorted (fun a b => R b a) (rev l).
Proof.
  intros H. induction H as [|x l Hl IH Hx]; simpl; [constructor|].
  apply StronglySorted_app; [exact IH | repeat constructor |].
  intros a b Ha [<-|[]]. apply in_rev in Ha.
  rewrite Forall_forall in Hx. now apply Hx.
Qed.

Lemma StronglySorted_impl {A : Type} (R S : A -> A -> Prop) (l : list A) :
  (forall a b, In a l -> In b l -> R a b -> S a b) ->
  StronglySorted R l -> StronglySorted S l.
Proof.
  intros HRS H. induction H as [|x l Hl IH Hx]; constructor.
  - apply IH. intros a b Ha Hb. apply HRS; now right.
  - rewrite Forall_forall in *. intros b Hb.
    apply HRS; [now left | now right | now apply Hx].
Qed.

Section SortedByFacts.
Context {A : Type}.
Variable ltb : A -> A -> bool.
Variable P : A -> Prop.
Hypothesis Hsw : strict_weak ltb P.

Lemma ltb_asym (a b : A) : P a -> P b -> ltb a b = true -> ltb b a = false.
Proof. apply Hsw. Qed.

Lemma ltb_negtrans (a b c : A) :
  P a -> P b -> P c -> ltb a b = false -> ltb b c = false -> ltb a c = false.
Proof. apply Hsw. Qed.

Lemma ltb_irrefl (a : A) : P a -> ltb a a = false.
Proof.
  intros Ha. destruct (ltb a a) eqn:H; [|reflexivity].
  now rewrite (ltb_asym a a Ha Ha H) in H.
Qed.

Lemma ltb_trans (a b c : A) :
  P a -> P b -> P c -> ltb a b = true -> ltb b c = true -> ltb a c = true.
Proof.
  intros Ha Hb Hc Hab Hbc. destruct (ltb a c) eqn:Hac; [reflexivity|].
  pose proof (ltb_asym b c Hb Hc Hbc) as Hcb.
  pose proof (ltb_negtrans a c b Ha Hc Hb Hac Hcb). congruence.
Qed.

(** Smaller than an element that is not smaller than a third: smaller than
    the third. *)
Lemma ltb_trans_le (a b c : A) :
  P a -> P b -> P c -> ltb a b = true -> ltb c b = false -> ltb a c = true.
Proof.
  intros Ha Hb Hc Hab Hcb. destruct (ltb a c) eqn:Hac; [reflexivity|].
  pose proof (ltb_negtrans a c b Ha Hc Hb Hac). destruct (ltb c b) eqn:E.
  - discriminate.
  - rewrite H in Hab; [discriminate | reflexivity].
Qed.

Lemma ltb_le_trans (a b c : A) :
  P a -> P b -> P c -> ltb b a = false -> ltb b c = true -> ltb a c = true.
Proof.
  intros Ha Hb Hc Hba Hbc. destruct (ltb a c) eqn:Hac; [reflexivity|].
  pose proof (ltb_negtrans b a c Hb Ha Hc Hba Hac). congruence.
Qed.

Lemma insert_by_Permutation (x : A) (l : list A) :
  Permutation (insert_by ltb x l) (x :: l).
Proof.
  induction l as [|y l IH]; simpl; [reflexivity|].
  destruct (ltb y x); [|reflexivity].
  rewrite IH. apply perm_swap.
Qed.

Lemma isort_by_Permutation (l : list A) : Permutation (isort_by ltb l) l.
Proof.
  induction l as [|x l IH]; simpl; [reflexivity|].
  rewrite insert_by_Permutation. now constructor.
Qed.

Lemma sorted_by_Permutation (reverse : bool) (l : list A) :
  Permutation (sorted_by ltb reverse l) l.
Proof.
  unfold sorted_by. destruct reverse; [|apply isort_by_Permutation].
  rewrite <- Permutation_rev, isort_by_Permutation. symmetry. apply Permutation_rev.
Qed.

Lemma sorted_by_In (reverse : bool) (l : list A) (a : A) :
  In a (sorted_by ltb reverse l) <-> In a l.
Proof.
  split; apply Permutation_in;
    [apply sorted_by_Permutation | symmetry; apply sorted_by_Permutation].
Qed.

(** A stable insertion: [x] goes before the elements that are not smaller,
    and the order of the list, [R], is kept among equal keys. *)
Lemma insert_by_sorted (R : A -> A -> Prop) (x : A) (l : list A) :
  P x -> Forall P l ->
  Forall (R x) l ->
  StronglySorted (ascending ltb R) l ->
  StronglySorted (ascending ltb R) (insert_by ltb x l).
Proof.
  intros Hx HP HR Hs. induction Hs as [|y l Hl IH Hy]; simpl.
  - repeat constructor.
  - inversion HP as [|? ? Py Pl]; subst. inversion HR as [|? ? Rxy Rxl]; subst.
    destruct (ltb y x) eqn:Hyx.
    + constructor; [now apply IH|].
      apply (Permutation_Forall (Permutation_sym (insert_by_Permutation x l))).
      constructor; [|exact Hy]. split; [now apply ltb_asym|]. congruence.
    + constructor; [now constructor|].
      constructor; [now split|].
      rewrite Forall_forall in *. intros z Hz.
      destruct (Hy z Hz) as [Hzy _]. split; [|intros _; now apply Rxl].
      apply (ltb_negtrans z y x); auto.
Qed.

Lemma isort_by_sorted (R : A -> A -> Prop) (l : list A) :
  Forall P l -> StronglySorted R l ->
  StronglySorted (ascending ltb R) (isort_by ltb l).
Proof.
  intros HP Hs. induction Hs as [|x l Hl IH Hx]; simpl; [constructor|].
  inversion HP as [|? ? Px Pl]; subst.
  apply insert_by_sorted; auto.
  - now apply (Permutation_Forall (Permutation_sym (isort_by_Permutation l))).
  - now apply (Permutation_Forall (Permutation_sym (isort_by_Permutation l))).
Qed.

(** The stable sort, ascending or descending. *)
Lemma sorted_by_sorted (R : A -> A -> Prop) (reverse : bool) (l : list A) :
  Forall P l -> StronglySorted R l ->
  StronglySorted (if reverse then descending ltb R else ascending ltb R)
                 (sorted_by ltb reverse l).
Proof.
  intros HP Hs. unfold sorted_by. destruct reverse.
  - apply StronglySorted_rev in Hs.
    apply (isort_by_sorted _ (rev l)) in Hs; [|now apply Forall_rev].
    apply StronglySorted_rev in Hs.
    revert Hs. apply StronglySorted_impl.
    intros a b _ _ [H1 H2]. split; assumption.
  - now apply isort_by_sorted.
Qed.

Lemma last_insert_by (x d : A) (l : list A) :
  P x -> Forall P l -> l <> [] ->
  StronglySorted (fun a b => ltb b a = false) l ->
  last (insert_by ltb x l) d = if ltb (last l d) x then x else last l d.
Proof.
  intros Hx HP Hne Hs. induction Hs as [|y l Hl IH Hy]; [congruence|].
  inversion HP as [|? ? Py Pl]; subst. clear Hne.
  destruct l as [|z l].
  - simpl. destruct (ltb y x); reflexivity.
  - specialize (IH Pl ltac:(discriminate)).
    change (insert_by ltb x (y :: z :: l))
      with (if ltb y x then y :: insert_by ltb x (z :: l) else x :: y :: z :: l).
    destruct (ltb y x) eqn:Hyx.
    + change (last (y :: z :: l) d) with (last (z :: l) d). rewrite <- IH.
      destruct (insert_by ltb x (z :: l)) eqn:E; [|reflexivity].
      exfalso. pose proof (insert_by_Permutation x (z :: l)) as Hp.
      rewrite E in Hp. now apply Permutation_nil in Hp.
    + change (last (x :: y :: z :: l) d) with (last (z :: l) d).
      change (last (y :: z :: l) d) with (last (z :: l) d).
      assert (Hin : In (last (z :: l) d) (z :: l)) by (apply last_In; discriminate).
      rewrite Forall_forall in Hy, Pl.
      rewrite (ltb_negtrans (last (z :: l) d) y x); auto.
Qed.

Lemma isort_by_ascending (l : list A) :
  Forall P l -> StronglySorted (fun a b => ltb b a = false) (isort_by ltb l).
Proof.
  intros HP.
  assert (Hs : StronglySorted (fun _ _ : A => True) l).
  { clear. induction l; constructor; [assumption|]. now apply Forall_forall. }
  apply (isort_by_sorted _ l HP) in Hs. revert Hs.
  apply StronglySorted_impl. now intros a b _ _ [H _].
Qed.

Lemma first_max_snoc (x y : A) (l : list A) :
  first_max ltb x (l ++ [y])
  = if ltb (first_max ltb x l) y then y else first_max ltb x l.
Proof. unfold first_max. now rewrite fold_left_app. Qed.

Lemma last_isort_by (d x : A) (l : list A) :
  Forall P (x :: l) -> last (isort_by ltb (rev l ++ [x])) d = first_max ltb x l.
Proof.
  induction l as [|y l IH] using rev_ind; intros HP; [reflexivity|].
  assert (HP' : Forall P (x :: l)).
  { inversion HP; subst. constructor; [assumption|].
    apply Forall_app in H2. tauto. }
  assert (Py : P y).
  { inversion HP; subst. apply Forall_app in H2 as [_ H2]. now inversion H2. }
  rewrite rev_app_distr. simpl rev. simpl app. simpl isort_by.
  assert (HPs : Forall P (rev l ++ [x])).
  { apply Forall_app. split; [apply Forall_rev; now inversion HP' | ].
    constructor; [now inversion HP' | constructor]. }
  rewrite last_insert_by.
  - rewrite (IH HP'). now rewrite first_max_snoc.
  - exact Py.
  - now apply (Permutation_Forall (Permutation_sym (isort_by_Permutation _))).
  - intros E. pose proof (isort_by_Permutation (rev l ++ [x])) as Hp.
    rewrite E in Hp. apply Permutation_nil in Hp.
    now destruct (rev l).
  - now apply isort_by_ascending.
Qed.

(** The head of a descending stable sort is the first of the greatest
    elements. *)
Lemma hd_sorted_by_reverse (d x : A) (l : list A) :
  Forall P (x :: l) -> hd d (sorted_by ltb true (x :: l)) = first_max ltb x l.
Proof.
  intros HP. unfold sorted_by. rewrite hd_rev. simpl rev. now apply last_isort_by.
Qed.

(** Where the first of the greatest elements stands: everything before it
    is smaller, nothing after it is greater. *)
Lemma first_max_split_gen (l l1 l2 : list A) (x : A) :
  Forall P (l1 ++ x :: l2 ++ l) ->
  Forall (fun u => ltb u x = true) l1 ->
  Forall (fun u => ltb x u = false) l2 ->
  exists l1' l2',
    (l1 ++ x :: l2 ++ l)%list = (l1' ++ first_max ltb x l :: l2')%list
    /\ Forall (fun u => ltb u (first_max ltb x l) = true) l1'
    /\ Forall (fun u => ltb (first_max ltb x l) u = false) l2'.
Proof.
  revert l1 l2 x. induction l as [|y l IH]; intros l1 l2 x HP H1 H2.
  - exists l1, l2. rewrite app_nil_r. auto.
  - assert (Px : P x).
    { apply Forall_app in HP as [_ HP]. now inversion HP. }
    assert (Py : P y).
    { apply Forall_app in HP as [_ HP]. inversion HP as [|? ? _ HP']; subst.
      apply Forall_app in HP' as [_ HP']. now inversion HP'. }
    assert (P1 : Forall P l1) by (apply Forall_app in HP; tauto).
    assert (P2 : Forall P l2).
    { apply Forall_app in HP as [_ HP]. inversion HP as [|? ? _ HP']; subst.
      apply Forall_app in HP'. tauto. }
    change (first_max ltb x (y :: l))
      with (first_max ltb (if ltb x y then y else x) l).
    destruct (ltb x y) eqn:Hxy.
    + specialize (IH (l1 ++ x :: l2)%list [] y).
      simpl in IH. rewrite <- app_assoc in IH. simpl in IH.
      apply IH; [exact HP | | constructor].
      apply Forall_app. split; [|constructor].
      * rewrite Forall_forall in *. intros u Hu.
        apply (ltb_trans u x y); auto.
      * exact Hxy.
      * rewrite Forall_forall in *. intros u Hu.
        apply (ltb_le_trans u x y); auto.
    + specialize (IH l1 (l2 ++ [y])%list x).
      rewrite <- app_assoc in IH. simpl in IH.
      apply IH; [exact HP | exact H1 |].
      apply Forall_app. split; [exact H2 | now repeat constructor].
Qed.

Lemma first_max_split (x : A) (l : list A) :
  Forall P (x :: l) ->
  exists l1 l2,
    x :: l = (l1 ++ first_max ltb x l :: l2)%list
    /\ Forall (fun u => ltb u (first_max ltb x l) = true) l1
    /\ Forall (fun u => ltb (first_max ltb x l) u = false) l2.
Proof.
  intros HP. apply (first_max_split_gen l [] [] x); [exact HP | constructor | constructor].
Qed.

End SortedByFacts.

(** *** [Py.sorted] on keys and comparisons that do not raise *)

Section SortedPure.
Context {A K : Type}.
Variable key : A -> result K.
Variable lt : K -> K -> result bool.
Variable keyf : A -> K.
Variable ltb : K -> K -> bool.

Lemma insert_pure (x : A) (l : list A) :
  (forall a b, In a (x :: l) -> In b (x :: l) ->
               lt (keyf a) (keyf b) = Ok (ltb (keyf a) (keyf b))) ->
  Py.insert lt (keyf x, x) (map (fun a => (keyf a, a)) l)
  = Ok (map (fun a => (keyf a, a))
            (insert_by (fun a b => ltb (keyf a) (keyf b)) x l)).
Proof.
  induction l as [|y l IH]; intros H; simpl; [reflexivity|].
  rewrite (H y x); [|right; now left | now left]. simpl.
  destruct (ltb (keyf y) (keyf x)); [|reflexivity].
  rewrite IH; [reflexivity|].
  intros a b Ha Hb. apply H; simpl in *; tauto.
Qed.

Lemma isort_pure (l : list A) :
  (forall a b, In a l -> In b l -> lt (keyf a) (keyf b) = Ok (ltb (keyf a) (keyf b))) ->
  Py.isort lt (map (fun a => (keyf a, a)) l)
  = Ok (map (fun a => (keyf a, a))
            (isort_by (fun a b => ltb (keyf a) (keyf b)) l)).
Proof.
  induction l as [|x l IH]; intros H; simpl; [reflexivity|].
  rewrite IH; [|intros a b Ha Hb; apply H; now right]. simpl.
  apply insert_pure. intros a b Ha Hb.
  assert (Hin : forall c,
            In c (x :: isort_by (fun a b => ltb (keyf a) (keyf b)) l) ->
            In c (x :: l)).
  { intros c [->|Hc]; [now left | right].
    now apply (Permutation_in _
                 (isort_by_Permutation (fun a b => ltb (keyf a) (keyf b)) l)). }
  apply H; now apply Hin.
Qed.

(** When the keys are computed without exception and the comparison of any
    two of them returns, [sorted] returns the stable sort. *)
Lemma sorted_pure (reverse : bool) (l : list A) :
  (forall a, In a l -> key a = Ok (keyf a)) ->
  (forall a b, In a l -> In b l -> lt (keyf a) (keyf b) = Ok (ltb (keyf a) (keyf b))) ->
  Py.sorted key lt reverse l
  = Ok (sorted_by (fun a b => ltb (keyf a) (keyf b)) reverse l).
Proof.
  intros Hk Hlt. unfold Py.sorted.
  rewrite (mapM_Ok _ (fun a => (keyf a, a))); [|intros a Ha; now rewrite (Hk a Ha)].
  simpl. unfold sorted_by. destruct reverse.
  - rewrite <- map_rev, isort_pure.
    + simpl. rewrite <- map_rev, map_map. simpl. now rewrite map_id.
    + intros a b Ha Hb. apply Hlt; now apply in_rev.
  - rewrite isort_pure; [|exact Hlt].
    simpl. rewrite map_map. simpl. now rewrite map_id.
Qed.

End SortedPure.

(** *** [Py.sorted] on a comparison that raises on some keys *)

Section SortedRaises.
Context {A K : Type}.
Variable key : A -> result K.
Variable lt : K -> K -> result bool.
Variable keyf : A -> K.
Variable ltb : K -> K -> bool.
Variable good : K -> Prop.
Variable e : exn.
Hypothesis good_dec : forall k, good k \/ ~ good k.
Hypothesis lt_good : forall a b, good a -> good b -> lt a b = Ok (ltb a b).
Hypothesis lt_bad : forall a b, ~ good a \/ ~ good b -> lt a b = Raise e.

Lemma Forall_or_Exists_bad (l : list A) :
  Forall (fun a => good (keyf a)) l \/ Exists (fun a => ~ good (keyf a)) l.
Proof.
  induction l as [|x l [IH|IH]].
  - left. constructor.
  - destruct (good_dec (keyf x)) as [H|H].
    + left. now constructor.
    + right. now left.
  - right. now right.
Qed.

Lemma isort_raises (l : list A) :
  Exists (fun a => ~ good (keyf a)) l -> 2 <= List.length l ->
  Py.isort lt (map (fun a => (keyf a, a)) l) = Raise e.
Proof.
  induction l as [|x xs IH]; intros Hbad Hlen; [simpl in Hlen; lia|].
  cbn [map Py.isort]. destruct (Forall_or_Exists_bad xs) as [Hgood|Hbad'].
  - assert (Hx : ~ good (keyf x)).
    { inversion Hbad as [? ? H|? ? H]; subst; [exact H|].
      exfalso. apply Exists_exists in H as (a & Ha & Hna).
      rewrite Forall_forall in Hgood. exact (Hna (Hgood a Ha)). }
    rewrite (isort_pure key lt keyf ltb xs).
    + simpl.
      destruct (isort_by (fun a b => ltb (keyf a) (keyf b)) xs) as [|r0 rs] eqn:E.
      * pose proof (isort_by_Permutation (fun a b => ltb (keyf a) (keyf b)) xs) as Hp.
        rewrite E in Hp. apply Permutation_nil in Hp. subst xs. simpl in Hlen. lia.
      * simpl. rewrite lt_bad; [reflexivity | now right].
    + intros a b Ha Hb. rewrite Forall_forall in Hgood. apply lt_good; auto.
  - destruct xs as [|y [|z xs]].
    + inversion Hbad'.
    + simpl. rewrite lt_bad; [reflexivity|]. left.
      inversion Hbad' as [? ? H|? ? H]; subst; [exact H | inversion H].
    + rewrite IH; [reflexivity | exact Hbad' | simpl; lia].
Qed.

(** With two elements or more, a key on which the comparison raises makes
    [sorted] raise. *)
Lemma sorted_raises (reverse : bool) (l : list A) :
  (forall a, In a l -> key a = Ok (keyf a)) ->
  Exists (fun a => ~ good (keyf a)) l -> 2 <= List.length l ->
  Py.sorted key lt reverse l = Raise e.
Proof.
  intros Hk Hbad Hlen. unfold Py.sorted.
  rewrite (mapM_Ok _ (fun a => (keyf a, a))); [|intros a Ha; now rewrite (Hk a Ha)].
  simpl. destruct reverse.
  - rewrite <- map_rev, isort_raises; [reflexivity | | now rewrite length_rev].
    apply Exists_exists in Hbad as (a & Ha & Hna).
    apply Exists_exists. exists a. split; [now apply -> in_rev | exact Hna].
  - now rewrite isort_raises.
Qed.

End SortedRaises.

(** ** The order of semantic versions *)

Lemma cmp_order_lex {A : Type} (P : A -> Prop) (c1 c2 : A -> A -> Z) :
  cmp_order P c1 -> cmp_order P c2 ->
  cmp_order P (fun a b => if negb (c1 a b =? 0)%Z then c1 a b else c2 a b).
Proof.
  intros [A1 T1] [A2 T2]. split.
  - intros a b Ha Hb. rewrite (A1 a b Ha Hb).
    destruct (Z.eqb_spec (c1 a b) 0) as [E|E];
      destruct (Z.eqb_spec (- c1 a b) 0) as [E'|E']; simpl; try lia.
    now apply A2.
  - intros a b d Ha Hb Hd.
    pose proof (A1 a b Ha Hb). pose proof (A1 b d Hb Hd). pose proof (A1 a d Ha Hd).
    pose proof (T1 a b d Ha Hb Hd). pose proof (T1 b d a Hb Hd Ha).
    pose proof (T1 d a b Hd Ha Hb). pose proof (T1 d b a Hd Hb Ha).
    pose proof (T2 a b d Ha Hb Hd).
    destruct (Z.eqb_spec (c1 a b) 0); destruct (Z.eqb_spec (c1 b d) 0);
      destruct (Z.eqb_spec (c1 a d) 0); simpl; lia.
Qed.

Lemma cmp_order_pull {A B : Type} (f : B -> A) (P : A -> Prop) (Q : B -> Prop)
    (c : A -> A -> Z) :
  (forall b, Q b -> P (f b)) -> cmp_order P c ->
  cmp_order Q (fun a b => c (f a) (f b)).
Proof.
  intros HQ [A1 T1]. split.
  - intros a b Ha Hb. apply A1; now apply HQ.
  - intros a b d Ha Hb Hd. apply T1; now apply HQ.
Qed.

Lemma cmp_order_ext {A : Type} (P : A -> Prop) (c c' : A -> A -> Z) :
  (forall a b, P a -> P b -> c' a b = c a b) -> cmp_order P c -> cmp_order P c'.
Proof.
  intros E [A1 T1]. split.
  - intros a b Ha Hb. rewrite !E by assumption. now apply A1.
  - intros a b d Ha Hb Hd. rewrite !E by assumption. now apply T1.
Qed.

(** A comparison that is an order gives a strict weak order. *)
Lemma cmp_order_strict_weak {A : Type} (P : A -> Prop) (c : A -> A -> Z) :
  cmp_order P c -> strict_weak (fun a b => (c a b <? 0)%Z) P.
Proof.
  intros [A1 T1]. split.
  - intros a b Ha Hb H. apply Z.ltb_lt in H. apply Z.ltb_ge.
    rewrite (A1 a b Ha Hb). lia.
  - intros a b d Ha Hb Hd H1 H2. apply Z.ltb_ge in H1, H2. apply Z.ltb_ge.
    pose proof (A1 a b Ha Hb). pose proof (A1 b d Hb Hd). pose proof (A1 a d Ha Hd).
    pose proof (T1 d b a Hd Hb Ha). lia.
Qed.

Lemma cmp_N_order : cmp_order (fun _ : N => True) semver.cmp_N.
Proof.
  unfold semver.cmp_N. split.
  - intros a b _ _. rewrite (N.compare_antisym a b).
    now destruct (a ?= b)%N.
  - intros a b d _ _ _.
    destruct (N.compare_spec a b), (N.compare_spec b d), (N.compare_spec a d);
      simpl; lia.
Qed.

Lemma cmp_N_eq (a b : N) : semver.cmp_N a b = 0%Z <-> a = b.
Proof.
  unfold semver.cmp_N. destruct (N.compare_spec a b); simpl; split; try lia; discriminate.
Qed.

Lemma cmp_str_eq (a b : string) : semver.cmp_str a b = 0%Z <-> a = b.
Proof.
  unfold semver.cmp_str. rewrite <- String_as_OT.cmp_eq. unfold String_as_OT.cmp.
  destruct (a ?= b)%string; simpl; split; try reflexivity; discriminate.
Qed.

Lemma cmp_str_order : cmp_order (fun _ : string => True) semver.cmp_str.
Proof.
  unfold semver.cmp_str. split.
  - intros a b _ _. pose proof (String_as_OT.cmp_antisym b a) as H.
    unfold String_as_OT.cmp in H. rewrite H.
    now destruct (a ?= b)%string.
  - intros a b d _ _ _ Hab Hbd.
    assert (Hle : forall x y, (sign (x ?= y)%string <= 0)%Z ->
                              x = y \/ String_as_OT.lt x y).
    { intros x y H. destruct (x ?= y)%string eqn:E; simpl in H; try lia.
      - left. now apply String_as_OT.cmp_eq.
      - right. now apply String_as_OT.cmp_lt. }
    destruct (Hle _ _ Hab) as [->|H1]; [exact Hbd|].
    destruct (Hle _ _ Hbd) as [<-|H2]; [exact Hab|].
    pose proof (String_as_OT.lt_trans _ _ _ H1 H2) as H3.
    apply String_as_OT.cmp_lt in H3. unfold String_as_OT.cmp in H3. now rewrite H3.
Qed.

(** *** Numbers written in digits *)

Lemma is_digit_range (c : ascii) :
  is_digit c = true -> (48 <= N_of_ascii c <= 57)%N.
Proof.
  unfold is_digit, Ascii.leb, Ascii.compare. intros H.
  apply andb_true_iff in H as [H1 H2].
  change (N_of_ascii "0") with 48%N in H1. change (N_of_ascii "9") with 57%N in H2.
  destruct (N.compare_spec 48 (N_of_ascii c)); try discriminate;
    destruct (N.compare_spec (N_of_ascii c) 57); try discriminate; lia.
Qed.

Lemma digit_value_inj (c c' : ascii) :
  is_digit c = true -> is_digit c' = true ->
  digit_value c = digit_value c' -> c = c'.
Proof.
  intros H H' E. apply is_digit_range in H, H'. unfold digit_value in E.
  rewrite <- (ascii_N_embedding c), <- (ascii_N_embedding c').
  f_equal. lia.
Qed.

Lemma pow10_cons (c : ascii) (s : string) : pow10 (String c s) = (10 * pow10 s)%N.
Proof.
  unfold pow10. simpl String.length. rewrite Nat2N.inj_succ. apply N.pow_succ_r'.
Qed.

Lemma pow10_pos (s : string) : (0 < pow10 s)%N.
Proof. unfold pow10. apply N.neq_0_lt_0. now apply N.pow_nonzero. Qed.

Lemma int_acc_spec (acc : N) (s : string) :
  int_acc acc s = (acc * pow10 s + int s)%N.
Proof.
  unfold int. revert acc. induction s as [|c s IH]; intros acc.
  - unfold pow10. simpl. lia.
  - change (int_acc acc (String c s)) with (int_acc (acc * 10 + digit_value c) s).
    change (int_acc 0 (String c s)) with (int_acc (digit_value c) s).
    rewrite (IH (acc * 10 + digit_value c)%N), (IH (digit_value c)).
    rewrite pow10_cons. lia.
Qed.

Lemma int_cons (c : ascii) (s : string) :
  int (String c s) = (digit_value c * pow10 s + int s)%N.
Proof.
  unfold int at 1. change (int_acc 0 (String c s)) with (int_acc (digit_value c) s).
  apply int_acc_spec.
Qed.

Lemma int_bound (s : string) : digits s -> (int s < pow10 s)%N.
Proof.
  unfold digits. induction s as [|c s IH]; intros H.
  - unfold pow10. simpl. unfold int. simpl. lia.
  - simpl in H. apply andb_true_iff in H as [Hc Hs].
    rewrite int_cons, pow10_cons. specialize (IH Hs).
    apply is_digit_range in Hc. unfold digit_value. nia.
Qed.

Lemma int_inj_same_length (a b : string) :
  digits a -> digits b -> String.length a = String.length b ->
  int a = int b -> a = b.
Proof.
  revert b. induction a as [|c a IH]; intros [|c' b] Ha Hb Hl E;
    try discriminate; [reflexivity|].
  unfold digits in Ha, Hb. simpl in Ha, Hb, Hl.
  apply andb_true_iff in Ha as [Hc Ha]. apply andb_true_iff in Hb as [Hc' Hb].
  rewrite !int_cons in E.
  assert (Hp : pow10 a = pow10 b) by (unfold pow10; congruence).
  pose proof (int_bound a Ha). pose proof (int_bound b Hb). rewrite Hp in *.
  assert (digit_value c = digit_value c' /\ int a = int b) as [E1 E2].
  { destruct (N.lt_trichotomy (digit_value c) (digit_value c')) as [L|[L|L]].
    - assert ((digit_value c + 1) * pow10 b <= digit_value c' * pow10 b)%N
        by (apply N.mul_le_mono_r; lia). lia.
    - rewrite L in E. split; [exact L | lia].
    - assert ((digit_value c' + 1) * pow10 b <= digit_value c * pow10 b)%N
        by (apply N.mul_le_mono_r; lia). lia. }
  rewrite (digit_value_inj c c' Hc Hc' E1).
  f_equal. apply IH; auto.
Qed.

Lemma all_digits_digits (s : string) : semver.all_digits s = true -> digits s.
Proof. unfold semver.all_digits. intros H. now apply andb_true_iff in H. Qed.

Lemma pow10_le (a b : string) :
  String.length a <= String.length b -> (pow10 a <= pow10 b)%N.
Proof. intros H. unfold pow10. apply N.pow_le_mono_r; lia. Qed.

(** A number has one writing without leading zero. *)
Lemma numeric_int_inj (a b : string) :
  semver.numeric a = true -> semver.numeric b = true -> int a = int b -> a = b.
Proof.
  assert (Hlow : forall s, semver.numeric s = true -> 2 <= String.length s ->
                           exists c s', s = String c s' /\ (pow10 s' <= int s)%N).
  { intros s Hs Hl. unfold semver.numeric in Hs. apply andb_true_iff in Hs as [Hd Hz].
    destruct s as [|c s']; [simpl in Hl; lia|]. exists c, s'. split; [reflexivity|].
    apply all_digits_digits in Hd. unfold digits in Hd. simpl in Hd.
    apply andb_true_iff in Hd as [Hc _]. rewrite int_cons.
    apply is_digit_range in Hc.
    assert (Hc0 : c <> "0"%char).
    { intros ->. destruct s'; [simpl in Hl; lia | discriminate]. }
    assert (N_of_ascii c <> 48%N).
    { intros E. apply Hc0. rewrite <- (ascii_N_embedding c), E. reflexivity. }
    unfold digit_value. pose proof (pow10_pos s'). nia. }
  assert (Hlt : forall s t, semver.numeric s = true -> semver.numeric t = true ->
                            String.length s < String.length t -> (int s < int t)%N).
  { intros s t Hs Ht Hl.
    assert (Hds : digits s).
    { apply all_digits_digits. unfold semver.numeric in Hs.
      now apply andb_true_iff in Hs. }
    assert (Hne : 1 <= String.length s).
    { unfold semver.numeric, semver.all_digits in Hs. destruct s; [discriminate|].
      simpl. lia. }
    destruct (Hlow t Ht ltac:(lia)) as (c & t' & -> & Hb).
    pose proof (int_bound s Hds). simpl in Hl.
    pose proof (pow10_le s t' ltac:(lia)). lia. }
  intros Ha Hb E.
  destruct (Nat.lt_trichotomy (String.length a) (String.length b)) as [H|[H|H]].
  - pose proof (Hlt a b Ha Hb H). lia.
  - apply int_inj_same_length; auto; apply all_digits_digits;
      unfold semver.numeric in *; [apply andb_true_iff in Ha | apply andb_true_iff in Hb];
      tauto.
  - pose proof (Hlt b a Hb Ha H). lia.
Qed.

(** *** Prereleases *)

Lemma identifier_int_numeric (p : string) :
  semver.prerelease_identifier p = true -> semver.is_int p = true ->
  semver.numeric p = true.
Proof.
  unfold semver.prerelease_identifier, semver.is_int. intros H Hi.
  rewrite Hi in H. simpl in H. now apply andb_true_iff in H.
Qed.

Lemma identifier_nonempty (p : string) :
  semver.prerelease_identifier p = true -> p <> "".
Proof. intros H ->. discriminate. Qed.

Lemma cmp_prerelease_tag_eq (a b : string) :
  semver.prerelease_identifier a = true -> semver.prerelease_identifier b = true ->
  (semver.cmp_prerelease_tag a b = 0%Z <-> a = b).
Proof.
  intros Ha Hb. unfold semver.cmp_prerelease_tag.
  destruct (semver.is_int a) eqn:Ia, (semver.is_int b) eqn:Ib; simpl.
  - rewrite cmp_N_eq. split; [|congruence].
    apply numeric_int_inj; now apply identifier_int_numeric.
  - split; [discriminate | intros ->; congruence].
  - split; [discriminate | intros ->; congruence].
  - apply cmp_str_eq.
Qed.

Lemma cmp_prerelease_tag_order :
  cmp_order (fun p => semver.prerelease_identifier p = true) semver.cmp_prerelease_tag.
Proof.
  destruct cmp_N_order as [AN TN]. destruct cmp_str_order as [AS TS].
  unfold semver.cmp_prerelease_tag. split.
  - intros a b _ _.
    destruct (semver.is_int a), (semver.is_int b); simpl; auto.
  - intros a b d _ _ _.
    pose proof (TN (int a) (int b) (int d) I I I). pose proof (TS a b d I I I).
    destruct (semver.is_int a), (semver.is_int b), (semver.is_int d); simpl; lia.
Qed.

Lemma cmp_identifiers_order : cmp_order identifiers cmp_identifiers.
Proof.
  destruct cmp_prerelease_tag_order as [AT TT]. split.
  - induction a as [|x a IH]; intros [|y b] Ha Hb; simpl; try reflexivity.
    inversion Ha; subst. inversion Hb; subst.
    rewrite (AT x y) by assumption.
    destruct (Z.eqb_spec (semver.cmp_prerelease_tag x y) 0) as [E|E];
      destruct (Z.eqb_spec (- semver.cmp_prerelease_tag x y) 0) as [E'|E']; try lia.
    now apply IH.
  - induction a as [|x a IH]; intros [|y b] [|z d] Ha Hb Hd; simpl; try lia.
    inversion Ha; subst. inversion Hb; subst. inversion Hd; subst.
    pose proof (cmp_prerelease_tag_eq x y ltac:(assumption) ltac:(assumption)) as Exy.
    pose proof (cmp_prerelease_tag_eq y z ltac:(assumption) ltac:(assumption)) as Eyz.
    pose proof (cmp_prerelease_tag_eq x z ltac:(assumption) ltac:(assumption)) as Exz.
    pose proof (TT x y z ltac:(assumption) ltac:(assumption) ltac:(assumption)) as Txyz.
    pose proof (AT x y ltac:(assumption) ltac:(assumption)) as Axy.
    destruct (Z.eqb_spec (semver.cmp_prerelease_tag x y) 0) as [E1|E1].
    + apply Exy in E1. subst y.
      destruct (Z.eqb_spec (semver.cmp_prerelease_tag x z) 0); [|tauto].
      now apply IH.
    + destruct (Z.eqb_spec (semver.cmp_prerelease_tag y z) 0) as [E2|E2].
      * apply Eyz in E2. subst z.
        destruct (Z.eqb_spec (semver.cmp_prerelease_tag x y) 0); [contradiction|].
        intros; assumption.
      * intros Hle1 Hle2.
        destruct (Z.eqb_spec (semver.cmp_prerelease_tag x z) 0) as [E3|E3];
          [|now apply Txyz].
        apply Exz in E3. subst z. lia.
Qed.

Lemma joined_length_split (sep : ascii) (s : string) :
  joined_length (split sep s) = S (String.length s).
Proof.
  induction s as [|c s IH]; [reflexivity|].
  simpl split. destruct (c =? sep)%char.
  - simpl. now rewrite IH.
  - destruct (split sep s) as [|p ps]; [discriminate|].
    simpl in *. lia.
Qed.

Lemma cmp_nat_shift (k a b : nat) : semver.cmp_nat (k + a) (k + b) = semver.cmp_nat a b.
Proof.
  unfold semver.cmp_nat.
  destruct (Nat.compare_spec (k + a) (k + b)), (Nat.compare_spec a b);
    try reflexivity; lia.
Qed.

(** On identifiers, the loop of [_nat_cmp] and its final comparison of the
    lengths of the texts is the order of prereleases. *)
Lemma nat_cmp_parts_identifiers (a b : list string) (k : nat) :
  identifiers a -> identifiers b ->
  semver.nat_cmp_parts a b (k + joined_length a) (k + joined_length b)
  = cmp_identifiers a b.
Proof.
  revert b k. induction a as [|x a IH]; intros [|y b] k Ha Hb; simpl.
  - rewrite cmp_nat_shift. reflexivity.
  - rewrite cmp_nat_shift. unfold semver.cmp_nat.
    destruct (Nat.compare_spec 0 (S (String.length y + joined_length b)));
      try reflexivity; lia.
  - rewrite cmp_nat_shift. unfold semver.cmp_nat.
    destruct (Nat.compare_spec (S (String.length x + joined_length a)) 0);
      try reflexivity; lia.
  - inversion Ha; subst. inversion Hb; subst.
    destruct (Z.eqb_spec (semver.cmp_prerelease_tag x y) 0) as [E|E]; [|reflexivity].
    apply cmp_prerelease_tag_eq in E; auto. subst y.
    replace (k + S (String.length x + joined_length a))
      with ((k + S (String.length x)) + joined_length a) by lia.
    replace (k + S (String.length x + joined_length b))
      with ((k + S (String.length x)) + joined_length b) by lia.
    now apply IH.
Qed.

Lemma _nat_cmp_Some (p q : string) :
  identifiers (split "." p) -> identifiers (split "." q) ->
  semver._nat_cmp (Some p) (Some q) = cmp_identifiers (split "." p) (split "." q).
Proof.
  intros Hp Hq. unfold semver._nat_cmp. simpl semver.or_empty.
  rewrite <- (nat_cmp_parts_identifiers _ _ 0 Hp Hq).
  rewrite !joined_length_split. simpl.
  clear. generalize (String.length p), (String.length q).
  generalize (split "." p), (split "." q).
  induction l as [|x a IH]; intros [|y b] n m; simpl;
    try (unfold semver.cmp_nat; simpl; reflexivity).
  destruct (semver.cmp_prerelease_tag x y =? 0)%Z; [apply IH | reflexivity].
Qed.

Lemma identifiers_split_nonempty (p : string) :
  identifiers (split "." p) -> p <> "".
Proof. intros H ->. simpl in H. inversion H. discriminate. Qed.

Lemma cmp_identifiers_cons_nil (x : string) (l : list string) (q : string) :
  semver.prerelease_identifier x = true ->
  semver.nat_cmp_parts [""] (x :: l) 0 (String.length q) <> 0%Z
  /\ semver.nat_cmp_parts (x :: l) [""] (String.length q) 0 <> 0%Z.
Proof.
  intros Hx. simpl. unfold semver.cmp_prerelease_tag.
  change (semver.is_int "") with false. simpl.
  destruct (semver.is_int x) eqn:Ix; simpl; [split; discriminate|].
  assert (Hne : x <> "") by now apply identifier_nonempty.
  assert (semver.cmp_str "" x <> 0%Z) by (rewrite cmp_str_eq; congruence).
  assert (semver.cmp_str x "" <> 0%Z) by (rewrite cmp_str_eq; congruence).
  split.
  - destruct (Z.eqb_spec (semver.cmp_str "" x) 0); [contradiction | assumption].
  - destruct (Z.eqb_spec (semver.cmp_str x "") 0); [contradiction | assumption].
Qed.

Lemma falsy_Some (p : string) : p <> "" -> semver.falsy (Some p) = false.
Proof. intros H. destruct p; [congruence | reflexivity]. Qed.

(** On versions whose prerelease is made of identifiers, [compare] orders by
    major, minor and patch number, then by prerelease. *)
Lemma compare_info_lex (v1 v2 : semver.VersionInfo) :
  well_formed v1 -> well_formed v2 ->
  semver.compare_info v1 v2
  = let x := semver.cmp_triple (semver.major v1, semver.minor v1, semver.patch v1)
                               (semver.major v2, semver.minor v2, semver.patch v2) in
    if negb (x =? 0)%Z then x
    else cmp_prerelease (semver.prerelease v1) (semver.prerelease v2).
Proof.
  unfold well_formed, semver.compare_info. intros H1 H2. cbv zeta.
  destruct (negb _); [reflexivity|].
  destruct (semver.prerelease v1) as [p|], (semver.prerelease v2) as [q|]; simpl cmp_prerelease.
  - rewrite (_nat_cmp_Some p q H1 H2).
    rewrite (falsy_Some p (identifiers_split_nonempty p H1)).
    rewrite (falsy_Some q (identifiers_split_nonempty q H2)).
    destruct (Z.eqb_spec (cmp_identifiers (split "." p) (split "." q)) 0); congruence.
  - unfold semver._nat_cmp. simpl semver.or_empty.
    pose proof (identifiers_split_nonempty p H1) as Hne.
    destruct (split "." p) as [|x l] eqn:E; [inversion H1; now destruct p|].
    inversion H1; subst.
    destruct (cmp_identifiers_cons_nil x l p ltac:(assumption)) as [_ Hc].
    change (split "." "") with [""]. change (String.length "") with 0.
    destruct (Z.eqb_spec (semver.nat_cmp_parts (x :: l) [""] (String.length p) 0) 0);
      [contradiction|].
    now rewrite (falsy_Some p Hne).
  - unfold semver._nat_cmp. simpl semver.or_empty.
    destruct (split "." q) as [|x l] eqn:E; [inversion H2; now destruct q|].
    inversion H2; subst.
    destruct (cmp_identifiers_cons_nil x l q ltac:(assumption)) as [Hc _].
    change (split "." "") with [""]. change (String.length "") with 0.
    destruct (Z.eqb_spec (semver.nat_cmp_parts [""] (x :: l) 0 (String.length q)) 0);
      [contradiction|].
    reflexivity.
  - reflexivity.
Qed.

Lemma cmp_prerelease_order :
  cmp_order (fun o => match o with
                      | Some p => identifiers (split "." p)
                      | None => True
                      end) cmp_prerelease.
Proof.
  destruct cmp_identifiers_order as [AI TI]. split.
  - intros [p|] [q|] Hp Hq; simpl; try reflexivity. now apply AI.
  - intros [p|] [q|] [r|] Hp Hq Hr; simpl; try lia. now apply TI.
Qed.

Lemma cmp_triple_order : cmp_order (fun _ : N * N * N => True) semver.cmp_triple.
Proof.
  pose proof (cmp_order_pull (fun t : N * N * N => fst (fst t)) _ (fun _ => True)
                semver.cmp_N (fun _ _ => I) cmp_N_order) as O1.
  pose proof (cmp_order_pull (fun t : N * N * N => snd (fst t)) _ (fun _ => True)
                semver.cmp_N (fun _ _ => I) cmp_N_order) as O2.
  pose proof (cmp_order_pull (fun t : N * N * N => snd t) _ (fun _ => True)
                semver.cmp_N (fun _ _ => I) cmp_N_order) as O3.
  pose proof (cmp_order_lex _ _ _ O1 (cmp_order_lex _ _ _ O2 O3)) as O.
  revert O. apply cmp_order_ext.
  intros [[a1 b1] c1] [[a2 b2] c2] _ _. reflexivity.
Qed.

Lemma compare_info_order : cmp_order well_formed semver.compare_info.
Proof.
  pose proof (cmp_order_pull
                (fun v => (semver.major v, semver.minor v, semver.patch v))
                _ well_formed semver.cmp_triple (fun _ _ => I) cmp_triple_order) as O1.
  pose proof (cmp_order_pull semver.prerelease _ well_formed cmp_prerelease
                (fun v H => H) cmp_prerelease_order) as O2.
  pose proof (cmp_order_lex _ _ _ O1 O2) as O.
  revert O. apply cmp_order_ext.
  intros v1 v2 H1 H2. now rewrite compare_info_lex.
Qed.

Lemma forallb_identifiers (parts : list string) :
  forallb semver.prerelease_identifier parts = true -> identifiers parts.
Proof. intros H. apply Forall_forall. now apply forallb_forall. Qed.

Lemma parse_well_formed (s : string) (v : semver.VersionInfo) :
  semver.parse s = Ok v -> well_formed v.
Proof.
  unfold semver.parse.
  destruct (semver.partition "+" _) as [core_pre bld].
  destruct (semver.partition "-" core_pre) as [core pre].
  destruct (split "." core) as [|ma [|mi [|pa [|]]]]; try discriminate.
  destruct (_ && _)%bool eqn:E; [|discriminate].
  intros H. inversion H; subst. unfold well_formed. simpl.
  destruct pre as [p|]; [|exact I].
  apply andb_true_iff in E as [E _]. apply andb_true_iff in E as [_ E].
  now apply forallb_identifiers.
Qed.

Lemma valid_parsed (s : string) : valid s -> semver.parse s = Ok (parsed s).
Proof. intros [v H]. unfold parsed. now rewrite H. Qed.

Lemma valid_well_formed (s : string) : valid s -> well_formed (parsed s).
Proof. intros H. apply (parse_well_formed s). now apply valid_parsed. Qed.

Lemma compare_valid (a b : string) :
  valid a -> valid b ->
  semver.compare a b = Ok (semver.compare_info (parsed a) (parsed b)).
Proof.
  intros Ha Hb. unfold semver.compare.
  now rewrite (valid_parsed a Ha), (valid_parsed b Hb).
Qed.

(** On valid texts the comparison of [by_semver_key] returns. *)
Lemma by_semver_lt_valid (a b : string) :
  valid a -> valid b -> by_semver_lt a b = Ok (semver_ltb a b).
Proof.
  intros Ha Hb. unfold by_semver_lt, semver_ltb.
  now rewrite (compare_valid a b Ha Hb).
Qed.

Lemma parse_raises (s : string) (e : exn) :
  semver.parse s = Raise e -> e = ValueError.
Proof.
  unfold semver.parse.
  destruct (semver.partition "+" _) as [core_pre bld].
  destruct (semver.partition "-" core_pre) as [core pre].
  destruct (split "." core) as [|ma [|mi [|pa [|]]]]; try congruence.
  destruct (_ && _)%bool; congruence.
Qed.

(** It raises as soon as one of the two texts is not valid. *)
Lemma by_semver_lt_invalid (a b : string) :
  ~ valid a \/ ~ valid b -> by_semver_lt a b = Raise ValueError.
Proof.
  unfold by_semver_lt, semver.compare. intros H.
  destruct (semver.parse a) as [va|ea] eqn:Ea; simpl.
  - destruct (semver.parse b) as [vb|eb] eqn:Eb; simpl.
    + exfalso. destruct H as [H|H]; apply H; eexists; eassumption.
    + now rewrite (parse_raises b eb Eb).
  - now rewrite (parse_raises a ea Ea).
Qed.

(** [semver.compare(a, b) < 0] is a strict weak order on the valid texts. *)
Lemma semver_ltb_strict_weak : strict_weak semver_ltb valid.
Proof.
  pose proof (cmp_order_pull parsed _ valid semver.compare_info
                valid_well_formed compare_info_order) as O.
  apply cmp_order_strict_weak in O. destruct O as [As Nt].
  assert (E : forall a b, valid a -> valid b ->
                semver_ltb a b
                = (semver.compare_info (parsed a) (parsed b) <? 0)%Z).
  { intros a b Ha Hb. unfold semver_ltb. now rewrite compare_valid. }
  split.
  - intros a b Ha Hb. rewrite !E by assumption. now apply As.
  - intros a b c Ha Hb Hc. rewrite !E by assumption. now apply Nt.
Qed.

(** ** The latest patch *)

Lemma startswith_spec (s p : string) :
  startswith s p = true <-> exists r, s = p ++ r.
Proof.
  unfold startswith. revert s. induction p as [|c p IH]; intros s.
  - destruct s; simpl; split; eauto.
  - destruct s as [|x s]; simpl.
    + split; [discriminate | intros [r H]; discriminate].
    + destruct (ascii_dec c x) as [->|Hne].
      * rewrite IH. split; intros [r H]; exists r; [now rewrite H | now inversion H].
      * split; [discriminate | intros [r H]; inversion H; congruence].
Qed.

Lemma endswith_spec (s suffix : string) :
  endswith s suffix = true <-> exists r, s = r ++ suffix.
Proof.
  induction s as [|x s IH].
  - change (endswith "" suffix) with (("" =? suffix) || false)%bool.
    destruct (String.eqb_spec "" suffix) as [E|E]; simpl.
    + split; [|reflexivity]. intros _. exists "". exact E.
    + split; [discriminate|]. intros [r H]. destruct r; simpl in H; congruence.
  - change (endswith (String x s) suffix)
      with ((String x s =? suffix) || endswith s suffix)%bool.
    destruct (String.eqb_spec (String x s) suffix) as [E|E]; simpl.
    + split; [|reflexivity]. intros _. exists "". exact E.
    + rewrite IH. split.
      * intros [r H]. exists (String x r). simpl. now rewrite H.
      * intros [[|y r] H]; simpl in H; [congruence|].
        inversion H. now exists r.
Qed.

(** The survivors are the tags that start with the prefix, end with
    [-<distro>] and match the pattern. *)
Lemma survivors_In (tags : list string) (ver : string) (patch_pattern : pattern)
    (distro tag : string) :
  In tag (survivors tags ver patch_pattern distro)
  <-> In tag tags
      /\ (exists r, tag = ver ++ r)
      /\ (exists r, tag = r ++ "-" ++ distro)
      /\ patch_pattern tag = true.
Proof.
  unfold survivors. rewrite filter_In, !andb_true_iff, startswith_spec, endswith_spec.
  tauto.
Qed.

Lemma semver_ltb_lt (a b : string) :
  valid a -> valid b -> semver_ltb a b = true -> semver_lt a b.
Proof.
  intros Ha Hb H. unfold semver_ltb in H. rewrite (compare_valid a b Ha Hb) in H.
  eexists. split; [now apply compare_valid|]. now apply Z.ltb_lt.
Qed.

Lemma semver_ltb_le (a b : string) :
  valid a -> valid b -> semver_ltb b a = false -> semver_le a b.
Proof.
  intros Ha Hb H. unfold semver_ltb in H. rewrite (compare_valid b a Hb Ha) in H.
  eexists. split; [now apply compare_valid|]. apply Z.ltb_ge in H.
  destruct compare_info_order as [As _].
  rewrite (As (parsed b) (parsed a)); [lia | |]; now apply valid_well_formed.
Qed.

Lemma semver_lt_le (a b : string) : semver_lt a b -> semver_le a b.
Proof. intros (c & H & Hc). exists c. split; [exact H | lia]. Qed.

(** On valid survivors [_latest_patch] returns the first of the greatest. *)
Lemma _latest_patch_first_max (tags : list string) (ver : string)
    (patch_pattern : pattern) (distro : string) (x : string) (l : list string) :
  survivors tags ver patch_pattern distro = x :: l ->
  Forall valid (x :: l) ->
  _latest_patch tags ver patch_pattern distro = Ok (first_max semver_ltb x l).
Proof.
  intros HS Hv. unfold _latest_patch. fold (survivors tags ver patch_pattern distro).
  rewrite HS.
  rewrite (sorted_pure (fun tag => Ok tag) by_semver_lt (fun tag => tag) semver_ltb).
  - simpl. f_equal.
    apply (hd_sorted_by_reverse semver_ltb valid semver_ltb_strict_weak "" x l Hv).
  - reflexivity.
  - intros a b Ha Hb. rewrite Forall_forall in Hv. apply by_semver_lt_valid; auto.
Qed.

Lemma _latest_patch_split (tags : list string) (ver : string)
    (patch_pattern : pattern) (distro : string) :
  Forall valid (survivors tags ver patch_pattern distro) ->
  survivors tags ver patch_pattern distro <> [] ->
  exists before m after,
    survivors tags ver patch_pattern distro = (before ++ m :: after)%list
    /\ _latest_patch tags ver patch_pattern distro = Ok m
    /\ Forall (fun t => semver_lt t m) before
    /\ Forall (fun t => semver_le t m) after.
Proof.
  intros Hv Hne.
  destruct (survivors tags ver patch_pattern distro) as [|x l] eqn:HS; [congruence|].
  destruct (first_max_split semver_ltb valid semver_ltb_strict_weak x l Hv)
    as (l1 & l2 & Hsplit & H1 & H2).
  exists l1, (first_max semver_ltb x l), l2.
  split; [exact Hsplit|].
  split; [now apply (_latest_patch_first_max tags ver patch_pattern distro)|].
  rewrite Hsplit in Hv. apply Forall_app in Hv as [V1 V2].
  inversion V2 as [|? ? Vm V2']; subst.
  split; apply Forall_forall; intros t Ht.
  - apply semver_ltb_lt; auto.
    + rewrite Forall_forall in V1. now apply V1.
    + rewrite Forall_forall in H1. now apply H1.
  - apply semver_ltb_le; auto.
    + rewrite Forall_forall in V2'. now apply V2'.
    + rewrite Forall_forall in H2. now apply H2.
Qed.

Lemma valid_dec (s : string) : valid s \/ ~ valid s.
Proof.
  unfold valid. destruct (semver.parse s) as [v|e].
  - left. now exists v.
  - right. intros [v H]. discriminate.
Qed.

(** With two survivors or more, one of which is not a semantic version, the
    comparison raises and so does [_latest_patch]. *)
Lemma _latest_patch_raises (tags : list string) (ver : string)
    (patch_pattern : pattern) (distro : string) :
  2 <= List.length (survivors tags ver patch_pattern distro) ->
  ~ Forall valid (survivors tags ver patch_pattern distro) ->
  _latest_patch tags ver patch_pattern distro = Raise ValueError.
Proof.
  intros Hlen Hbad. unfold _latest_patch. fold (survivors tags ver patch_pattern distro).
  destruct (survivors tags ver patch_pattern distro) as [|x l] eqn:HS;
    [simpl in Hlen; lia|].
  rewrite (sorted_raises (fun tag => Ok tag) by_semver_lt (fun tag => tag)
             semver_ltb valid ValueError valid_dec by_semver_lt_valid
             by_semver_lt_invalid true (x :: l)).
  - reflexivity.
  - reflexivity.
  - destruct (Forall_or_Exists_bad (fun tag : string => tag) valid valid_dec (x :: l))
      as [H|H]; [contradiction | exact H].
  - exact Hlen.
Qed.

(** C1, as the code has it. Without a survivor [_latest_patch] returns the
    empty text. When the tags that survive the filter are semantic versions,
    it returns one of them that no survivor exceeds in the order of
    [semver.compare]. A single survivor is returned as it is. With two
    survivors or more, one of which is not a semantic version, it raises
    [ValueError]. For the tags [3.9.1-buster], [3.9.2-buster],
    [3.10.0-buster], the prefix [3.9] and the distro [buster] it returns
    [3.9.2-buster]. *)
Theorem _latest_patch_maximum :
  (forall (tags : list string) (ver : string) (patch_pattern : pattern)
          (distro : string),
     (survivors tags ver patch_pattern distro = [] ->
      _latest_patch tags ver patch_pattern distro = Ok "")
     /\ (Forall valid (survivors tags ver patch_pattern distro) ->
         survivors tags ver patch_pattern distro <> [] ->
         exists m,
           _latest_patch tags ver patch_pattern distro = Ok m
           /\ In m (survivors tags ver patch_pattern distro)
           /\ forall t, In t (survivors tags ver patch_pattern distro) ->
                        semver_le t m)
     /\ (forall t, survivors tags ver patch_pattern distro = [t] ->
                   _latest_patch tags ver patch_pattern distro = Ok t)
     /\ (2 <= List.length (survivors tags ver patch_pattern distro) ->
         ~ Forall valid (survivors tags ver patch_pattern distro) ->
         _latest_patch tags ver patch_pattern distro = Raise ValueError))
  /\ _latest_patch ["3.9.1-buster"; "3.9.2-buster"; "3.10.0-buster"] "3.9"
                   (wanted_tag_pattern ["buster"]) "buster"
     = Ok "3.9.2-buster".
Proof.
  split; [|reflexivity].
  intros tags ver patch_pattern distro. split; [|split; [|split]].
  - intros HS. unfold _latest_patch. fold (survivors tags ver patch_pattern distro).
    now rewrite HS.
  - intros Hv Hne.
    destruct (_latest_patch_split tags ver patch_pattern distro Hv Hne)
      as (before & m & after & Hsplit & Hm & Hb & Ha).
    exists m. split; [exact Hm|].
    rewrite Hsplit. split.
    + apply in_or_app. right. now left.
    + intros t Ht. rewrite Forall_forall in Hb, Ha.
      apply in_app_or in Ht as [Ht|[<-|Ht]].
      * apply semver_lt_le. now apply Hb.
      * rewrite Hsplit in Hv. apply Forall_app in Hv as [_ Hv].
        inversion Hv; subst. apply semver_ltb_le; auto.
        apply (ltb_irrefl semver_ltb valid semver_ltb_strict_weak); assumption.
      * now apply Ha.
  - intros t HS. unfold _latest_patch. fold (survivors tags ver patch_pattern distro).
    rewrite HS. reflexivity.
  - apply _latest_patch_raises.
Qed.

Lemma _latest_patch_maximum_witness :
  Forall valid (survivors ["3.9.1-buster"; "3.9.2-buster"; "3.10.0-buster"; "3.9-slim"]
                          "3.9" (wanted_tag_pattern ["buster"; "slim"]) "buster")
  /\ survivors ["3.9.1-buster"; "3.9.2-buster"; "3.10.0-buster"; "3.9-slim"]
               "3.9" (wanted_tag_pattern ["buster"; "slim"]) "buster" <> []
  /\ exists m,
       _latest_patch ["3.9.1-buster"; "3.9.2-buster"; "3.10.0-buster"; "3.9-slim"]
                     "3.9" (wanted_tag_pattern ["buster"; "slim"]) "buster" = Ok m
       /\ m = "3.9.2-buster".
Proof.
  assert (Hv : Forall valid
                 (survivors ["3.9.1-buster"; "3.9.2-buster"; "3.10.0-buster"; "3.9-slim"]
                            "3.9" (wanted_tag_pattern ["buster"; "slim"]) "buster")).
  { repeat constructor; eexists; vm_compute; reflexivity. }
  assert (Hne : survivors ["3.9.1-buster"; "3.9.2-buster"; "3.10.0-buster"; "3.9-slim"]
                          "3.9" (wanted_tag_pattern ["buster"; "slim"]) "buster" <> []).
  { vm_compute. discriminate. }
  split; [exact Hv|]. split; [exact Hne|].
  destruct (proj1 (proj2 (proj1 _latest_patch_maximum _ _ _ _)) Hv Hne) as (m & Hm & _).
  exists m. split; [exact Hm|].
  vm_compute in Hm. now inversion Hm.
Defined.

(** C1, as it is stated for every tag list and every pattern, fails: with a
    pattern that lets every tag through, the tag [3.9-buster] survives next
    to [3.9.1-buster] and the comparison raises; with the pattern of
    [decide_python_versions], so does a tag whose patch number has a leading
    zero. *)
Lemma _latest_patch_raises_on_non_semver :
  survivors ["3.9-buster"; "3.9.1-buster"] "3.9" (fun _ => true) "buster"
  = ["3.9-buster"; "3.9.1-buster"]
  /\ _latest_patch ["3.9-buster"; "3.9.1-buster"] "3.9" (fun _ => true) "buster"
     = Raise ValueError
  /\ survivors ["3.9.01-buster"; "3.9.2-buster"] "3.9" (wanted_tag_pattern ["buster"]) "buster"
     = ["3.9.01-buster"; "3.9.2-buster"]
  /\ _latest_patch ["3.9.01-buster"; "3.9.2-buster"] "3.9"
                   (wanted_tag_pattern ["buster"]) "buster"
     = Raise ValueError.
Proof. repeat split; reflexivity. Qed.

(** C7, as the code has it. When the surviving tags are semantic versions,
    the tag that [_latest_patch] returns is the first of the greatest
    survivors in the order of the tag list: every survivor before it is
    strictly smaller, no survivor after it is greater. Among survivors with
    the same version numbers that are the greatest, the first in the list is
    returned. *)
Theorem _latest_patch_tie (tags : list string) (ver : string)
    (patch_pattern : pattern) (distro : string) :
  Forall valid (survivors tags ver patch_pattern distro) ->
  survivors tags ver patch_pattern distro <> [] ->
  exists before m after,
    survivors tags ver patch_pattern distro = (before ++ m :: after)%list
    /\ _latest_patch tags ver patch_pattern distro = Ok m
    /\ Forall (fun t => semver_lt t m) before
    /\ Forall (fun t => semver_le t m) after.
Proof. apply _latest_patch_split. Qed.

Lemma _latest_patch_tie_witness :
  (exists before m after,
     survivors ["3.9.2-buster"; "3.9.1-buster"; "3.9.2-buster"; "3.9.2-slim"]
               "3.9" (wanted_tag_pattern ["buster"; "slim"]) "buster"
     = (before ++ m :: after)%list
     /\ _latest_patch ["3.9.2-buster"; "3.9.1-buster"; "3.9.2-buster"; "3.9.2-slim"]
                      "3.9" (wanted_tag_pattern ["buster"; "slim"]) "buster" = Ok m
     /\ Forall (fun t => semver_lt t m) before
     /\ Forall (fun t => semver_le t m) after)
  /\ semver.compare "3.9.2+first-buster" "3.9.2+second-buster" = Ok 0%Z
  /\ _latest_patch ["3.9.1-buster"; "3.9.2+first-buster"; "3.9.2+second-buster";
                    "3.8.0-buster"]
                   "3.9" (fun _ => true) "buster" = Ok "3.9.2+first-buster"
  /\ exists before m after,
       survivors ["3.9.1-buster"; "3.9.2+first-buster"; "3.9.2+second-buster"; "3.8.0-buster"]
                 "3.9" (fun _ => true) "buster"
       = (before ++ m :: after)%list
       /\ _latest_patch ["3.9.1-buster"; "3.9.2+first-buster"; "3.9.2+second-buster";
                         "3.8.0-buster"]
                        "3.9" (fun _ => true) "buster" = Ok m
       /\ Forall (fun t => semver_lt t m) before
       /\ Forall (fun t => semver_le t m) after.
Proof.
  split; [|split; [reflexivity | split; [reflexivity|]]].
  - apply (_latest_patch_tie
             ["3.9.2-buster"; "3.9.1-buster"; "3.9.2-buster"; "3.9.2-slim"]
             "3.9" (wanted_tag_pattern ["buster"; "slim"]) "buster").
    + repeat constructor; eexists; vm_compute; reflexivity.
    + vm_compute. discriminate.
  - apply (_latest_patch_tie
             ["3.9.1-buster"; "3.9.2+first-buster"; "3.9.2+second-buster"; "3.8.0-buster"]
             "3.9" (fun _ => true) "buster").
    + repeat constructor; eexists; vm_compute; reflexivity.
    + vm_compute. discriminate.
Defined.

(** C7, as it is stated for every tag list with two survivors of the same
    version numbers, fails: the tags [3.9.2-buster] and [3.9.02-buster] pass
    the pattern of [decide_python_versions] and survive for the prefix
    [3.9], their numbers are the same, and the comparison raises on the
    leading zero, in either order of the list. *)
Lemma _latest_patch_tie_raises :
  survivors ["3.9.2-buster"; "3.9.02-buster"] "3.9" (wanted_tag_pattern ["buster"]) "buster"
  = ["3.9.2-buster"; "3.9.02-buster"]
  /\ _latest_patch ["3.9.2-buster"; "3.9.02-buster"] "3.9"
                   (wanted_tag_pattern ["buster"]) "buster"
     = Raise ValueError
  /\ _latest_patch ["3.9.02-buster"; "3.9.2-buster"] "3.9"
                   (wanted_tag_pattern ["buster"]) "buster"
     = Raise ValueError.
Proof. repeat split; reflexivity. Qed.

(** ** The combination builder *)

Lemma strict_weak_pull {A B : Type} (f : B -> A) (ltb : A -> A -> bool)
    (P : A -> Prop) :
  strict_weak ltb P ->
  strict_weak (fun a b => ltb (f a) (f b)) (fun a => P (f a)).
Proof.
  intros [As Nt]. split.
  - intros a b. apply As.
  - intros a b c. apply Nt.
Qed.

Lemma nat_ltb_strict_weak : strict_weak Nat.ltb (fun _ => True).
Proof.
  split.
  - intros a b _ _ H. apply Nat.ltb_lt in H. apply Nat.ltb_ge. lia.
  - intros a b c _ _ _ H1 H2. apply Nat.ltb_ge in H1, H2. apply Nat.ltb_ge. lia.
Qed.

Lemma index_position (distro : string) :
  In distro DISTROS -> index DISTROS distro = Ok (position distro).
Proof.
  unfold position. intros H.
  assert (Hi : forall l, In distro l -> exists i, index l distro = Ok i).
  { induction l as [|y l IH]; intros Hin; [destruct Hin|].
    simpl. destruct (String.eqb_spec y distro) as [->|Hne]; [now exists 0|].
    destruct Hin as [->|Hin]; [congruence|].
    destruct (IH Hin) as [i Hi]. rewrite Hi. now exists (S i). }
  destruct (Hi DISTROS H) as [i E]. now rewrite E.
Qed.

Lemma cross_product_In (nodes : list NodejsVersion) (pys : list PythonVersion)
    (c : Combination) :
  In c (cross_product nodes pys)
  <-> exists p n, In p pys /\ In n nodes /\ c = combination p n.
Proof.
  unfold cross_product. rewrite in_flat_map. split.
  - intros (p & Hp & Hc). apply in_map_iff in Hc as (n & <- & Hn). now exists p, n.
  - intros (p & n & Hp & Hn & ->). exists p. split; [exact Hp|].
    apply in_map_iff. now exists n.
Qed.

(** On resolved versions [version_combinations] returns: the three sorts in
    sequence. *)
Lemma version_combinations_sorted (nodes : list NodejsVersion)
    (pys : list PythonVersion) :
  Forall resolved_python pys -> Forall resolved_nodejs nodes ->
  version_combinations nodes pys
  = Ok (sorted_by by_python true
          (sorted_by by_nodejs true
             (sorted_by by_distro false (cross_product nodes pys)))).
Proof.
  intros Hp Hn. rewrite Forall_forall in Hp, Hn.
  assert (Hc : forall c, In c (cross_product nodes pys) ->
                 In (distro c) DISTROS /\ valid (nodejs_canonical c)
                 /\ valid (python_canonical c)).
  { intros c Hc. apply cross_product_In in Hc as (p & n & Pp & Pn & ->).
    destruct (Hp p Pp) as [Hv Hd]. simpl. split; [exact Hd|]. split; [apply Hn|]; auto. }
  unfold version_combinations.
  rewrite (sorted_pure (fun v => index DISTROS (distro v)) int_lt
             (fun v => position (distro v)) Nat.ltb).
  2: { intros a Ha. apply index_position. now apply Hc. }
  2: { reflexivity. }
  cbn [Py.bind].
  rewrite (sorted_pure (fun v => Ok (nodejs_canonical v)) by_semver_lt
             nodejs_canonical semver_ltb).
  2: { reflexivity. }
  2: { intros a b Ha Hb. apply sorted_by_In in Ha, Hb.
       apply by_semver_lt_valid; now apply Hc. }
  cbn [Py.bind].
  rewrite (sorted_pure (fun v => Ok (python_canonical v)) by_semver_lt
             python_canonical semver_ltb).
  2: { reflexivity. }
  2: { intros a b Ha Hb. apply sorted_by_In in Ha, Hb. apply sorted_by_In in Ha, Hb.
       apply by_semver_lt_valid; now apply Hc. }
  reflexivity.
Qed.

(** C2. On resolved versions [version_combinations] returns the rows of the
    cross product, each as often as it occurs there, in the order of the
    contract: the sorts by distro, by Node.js version and by Python version
    are applied in this sequence and each is stable, so that the Python
    version, sorted last, dominates, then the Node.js version, then the
    position of the distro, then the order of the cross product. The result
    is a function of the two lists. *)
Theorem version_combinations_contract (nodes : list NodejsVersion)
    (pys : list PythonVersion) :
  Forall resolved_python pys -> Forall resolved_nodejs nodes ->
  exists versions,
    version_combinations nodes pys = Ok versions
    /\ versions = sorted_by by_python true
                    (sorted_by by_nodejs true
                       (sorted_by by_distro false (cross_product nodes pys)))
    /\ Permutation versions (cross_product nodes pys)
    /\ forall R, StronglySorted R (cross_product nodes pys) ->
                 StronglySorted (contract R) versions.
Proof.
  intros Hp Hn. eexists. split; [now apply version_combinations_sorted|].
  split; [reflexivity|]. split.
  - now rewrite !sorted_by_Permutation.
  - intros R HR. rewrite Forall_forall in Hp, Hn.
    assert (Hc : Forall (fun c => valid (nodejs_canonical c) /\ valid (python_canonical c))
                        (cross_product nodes pys)).
    { apply Forall_forall. intros c Hc.
      apply cross_product_In in Hc as (p & n & Pp & Pn & ->).
      destruct (Hp p Pp) as [Hv _]. simpl. split; [apply Hn|]; auto. }
    rewrite Forall_forall in Hc.
    assert (S1 : StronglySorted (ascending by_distro R)
                   (sorted_by by_distro false (cross_product nodes pys))).
    { apply (sorted_by_sorted by_distro (fun _ => True)
               (strict_weak_pull (fun c => position (distro c)) Nat.ltb _
                  nat_ltb_strict_weak) R false); [|exact HR].
      apply Forall_forall. auto. }
    assert (S2 : StronglySorted (descending by_nodejs (ascending by_distro R))
                   (sorted_by by_nodejs true
                      (sorted_by by_distro false (cross_product nodes pys)))).
    { apply (sorted_by_sorted by_nodejs (fun c => valid (nodejs_canonical c))
               (strict_weak_pull nodejs_canonical semver_ltb valid
                  semver_ltb_strict_weak) _ true); [|exact S1].
      apply Forall_forall. intros c Hin. apply sorted_by_In in Hin.
      now apply Hc. }
    apply (sorted_by_sorted by_python (fun c => valid (python_canonical c))
             (strict_weak_pull python_canonical semver_ltb valid
                semver_ltb_strict_weak) _ true); [|exact S2].
    apply Forall_forall. intros c Hin. apply sorted_by_In in Hin.
    apply sorted_by_In in Hin. now apply Hc.
Qed.

(** The contract, spelled out. *)
Lemma contract_unfold (R : Combination -> Combination -> Prop) (a b : Combination) :
  contract R a b
  <-> by_python a b = false
      /\ (by_python b a = false ->
          by_nodejs a b = false
          /\ (by_nodejs b a = false ->
              position (distro a) <= position (distro b)
              /\ (position (distro b) <= position (distro a) -> R a b))).
Proof.
  unfold contract, descending, ascending, by_distro.
  rewrite !Nat.ltb_ge. reflexivity.
Qed.

Lemma semver_le_ltb (a b : string) : semver_le a b -> semver_ltb b a = false.
Proof.
  intros (c & Hc & Hle).
  assert (Ha : valid a).
  { unfold semver.compare in Hc. destruct (semver.parse a) as [v|] eqn:E; [|discriminate].
    now exists v. }
  assert (Hb : valid b).
  { unfold semver.compare in Hc. destruct (semver.parse a); [|discriminate].
    simpl in Hc. destruct (semver.parse b) as [v|] eqn:E; [|discriminate].
    now exists v. }
  rewrite (compare_valid a b Ha Hb) in Hc. inversion Hc; subst.
  unfold semver_ltb. rewrite (compare_valid b a Hb Ha). apply Z.ltb_ge.
  destruct compare_info_order as [As _].
  rewrite (As (parsed a) (parsed b)); [lia | |]; now apply valid_well_formed.
Qed.

(** The contract in the order of [semver.compare]: Python version
    descending, then Node.js version descending, then the position of the
    distro, then the order [R]. *)
Lemma contract_reading (R : Combination -> Combination -> Prop) (a b : Combination) :
  valid (python_canonical a) -> valid (python_canonical b) ->
  valid (nodejs_canonical a) -> valid (nodejs_canonical b) ->
  contract R a b ->
  semver_le (python_canonical b) (python_canonical a)
  /\ (semver_le (python_canonical a) (python_canonical b) ->
      semver_le (nodejs_canonical b) (nodejs_canonical a)
      /\ (semver_le (nodejs_canonical a) (nodejs_canonical b) ->
          position (distro a) <= position (distro b)
          /\ (position (distro b) <= position (distro a) -> R a b))).
Proof.
  intros Pa Pb Na Nb H. apply contract_unfold in H as [H1 H2].
  unfold by_python, by_nodejs in *.
  split; [now apply semver_ltb_le|]. intros L1.
  destruct (H2 (semver_le_ltb _ _ L1)) as [H3 H4].
  split; [now apply semver_ltb_le|]. intros L2.
  exact (H4 (semver_le_ltb _ _ L2)).
Qed.

Lemma version_combinations_contract_witness :
  Forall resolved_python [python_3_9_slim; python_3_9_buster; python_3_10_buster]
  /\ Forall resolved_nodejs [nodejs_16; nodejs_18]
  /\ exists versions,
       version_combinations [nodejs_16; nodejs_18]
         [python_3_9_slim; python_3_9_buster; python_3_10_buster] = Ok versions
       /\ map key versions
          = ["python3.10-nodejs18"; "python3.10-nodejs16";
             "python3.9-nodejs18"; "python3.9-nodejs18-slim";
             "python3.9-nodejs16"; "python3.9-nodejs16-slim"]
       /\ StronglySorted (contract (fun _ _ => True)) versions.
Proof.
  assert (Hp : Forall resolved_python
                 [python_3_9_slim; python_3_9_buster; python_3_10_buster]).
  { repeat constructor; try (eexists; vm_compute; reflexivity); simpl; tauto. }
  assert (Hn : Forall resolved_nodejs [nodejs_16; nodejs_18]).
  { repeat constructor; eexists; vm_compute; reflexivity. }
  split; [exact Hp|]. split; [exact Hn|].
  destruct (version_combinations_contract [nodejs_16; nodejs_18]
              [python_3_9_slim; python_3_9_buster; python_3_10_buster] Hp Hn)
    as (versions & Hv & Heq & _ & Hs).
  exists versions. split; [exact Hv|]. split.
  - rewrite Heq. vm_compute. reflexivity.
  - apply Hs. generalize (cross_product [nodejs_16; nodejs_18]
                            [python_3_9_slim; python_3_9_buster; python_3_10_buster]).
    induction l; constructor; [assumption | now apply Forall_forall].
Defined.

(** *** Keys *)


Lemma dash_free_cons (c : ascii) (s : string) :
  dash_free (String c s) <-> c <> "-"%char /\ dash_free s.
Proof.
  unfold dash_free. simpl. rewrite andb_true_iff, negb_true_iff, Ascii.eqb_neq.
  reflexivity.
Qed.

(** A text without [-] ends where the first [-] stands. *)
Lemma split_at_dash (a b x y : string) :
  dash_free a -> dash_free b ->
  a ++ "-" ++ x = b ++ "-" ++ y -> a = b /\ x = y.
Proof.
  revert b. induction a as [|c a IH]; intros [|c' b] Ha Hb H; simpl in H.
  - inversion H. auto.
  - inversion H; subst. apply dash_free_cons in Hb. tauto.
  - inversion H; subst. apply dash_free_cons in Ha. tauto.
  - inversion H; subst. apply dash_free_cons in Ha, Hb.
    destruct (IH b) as [-> ->]; tauto.
Qed.

Lemma dash_free_no_dash (a b y : string) : dash_free a -> a <> b ++ "-" ++ y.
Proof.
  revert a. induction b as [|c b IH]; intros [|c' a] Ha H; simpl in H;
    try discriminate.
  - inversion H; subst. apply dash_free_cons in Ha. tauto.
  - inversion H as [[Hc Ht]]. apply dash_free_cons in Ha. apply (IH a); tauto.
Qed.




Lemma cross_product_length (nodes : list NodejsVersion) (pys : list PythonVersion) :
  List.length (cross_product nodes pys) = List.length pys * List.length nodes.
Proof.
  unfold cross_product. induction pys as [|p pys IH]; [reflexivity|].
  cbn [flat_map]. rewrite length_app, length_map, IH. reflexivity.
Qed.




(** ** The README update *)

Lemma match_text_refl (pat x : string) : match_text pat (pat ++ x) = Some x.
Proof.
  induction pat as [|p pat IH]; simpl; [reflexivity|].
  now rewrite Ascii.eqb_refl, orb_true_r.
Qed.

Lemma match_text_cons (p c : ascii) (pat s : string) :
  match_text (String p pat) (String c s)
  = if ((p =? ".")%char || (p =? c)%char)%bool then match_text pat s else None.
Proof. reflexivity. Qed.

Lemma match_text_length (pat s r : string) :
  match_text pat s = Some r ->
  String.length s = String.length pat + String.length r.
Proof.
  revert s. induction pat as [|p pat IH]; intros s H; simpl in *.
  - now inversion H.
  - destruct s as [|c s]; [discriminate|].
    destruct (_ || _)%bool; [|discriminate].
    simpl. now rewrite (IH s H).
Qed.

Lemma match_text_skip (pat s r : string) :
  match_text pat s = Some r -> skip (String.length pat) s = Some r.
Proof.
  revert s. induction pat as [|p pat IH]; intros s H; simpl in *.
  - exact H.
  - destruct s as [|c s]; [discriminate|].
    destruct (_ || _)%bool; [|discriminate]. now apply IH.
Qed.

(** A text that matches [q] and the text of [q] itself begin alike for any
    pattern that is not longer than [q]: where [q] has a wildcard its text
    has a [.], which only a wildcard matches. *)
Lemma match_text_window (q pat s x : string) :
  String.length pat <= String.length q ->
  match_text q s <> None ->
  match_text pat (q ++ x) <> None ->
  match_text pat s <> None.
Proof.
  revert pat s. induction q as [|q0 q IH]; intros pat s Hl Hq Hp.
  - destruct pat; [discriminate | simpl in Hl; lia].
  - destruct pat as [|p pat]; [discriminate|].
    destruct s as [|s0 s]; [simpl in Hq; congruence|].
    simpl in Hq, Hp, Hl |- *.
    destruct ((q0 =? ".")%char || (q0 =? s0)%char)%bool eqn:E0; [|congruence].
    destruct ((p =? ".")%char || (p =? q0)%char)%bool eqn:E1; [|congruence].
    assert (E2 : ((p =? ".")%char || (p =? s0)%char)%bool = true).
    { destruct (Ascii.eqb_spec p "."); [reflexivity|]. simpl in *.
      apply Ascii.eqb_eq in E1. subst q0.
      destruct (Ascii.eqb_spec p "."); [contradiction|]. exact E0. }
    rewrite E2. apply IH; [lia | exact Hq | exact Hp].
Qed.

Lemma lazy_until_unfold (close s : string) :
  lazy_until close s
  = match match_text close s with
    | Some rest => Some (EmptyString, rest)
    | None =>
        match s with
        | EmptyString => None
        | String c s' =>
            match lazy_until close s' with
            | Some (g, rest) => Some (String c g, rest)
            | None => None
            end
        end
    end.
Proof. destruct s; reflexivity. Qed.

Lemma lazy_until_length (close s g rest : string) :
  lazy_until close s = Some (g, rest) ->
  String.length s = String.length g + String.length close + String.length rest.
Proof.
  revert g. induction s as [|c s IH]; intros g; rewrite lazy_until_unfold.
  - destruct (match_text close "") eqn:E; [|discriminate].
    intros H. inversion H; subst. apply match_text_length in E. simpl in *. lia.
  - destruct (match_text close (String c s)) eqn:E.
    + intros H. inversion H; subst. apply match_text_length in E. simpl in *. lia.
    + destruct (lazy_until close s) as [[g' rest']|]; [|discriminate].
      intros H. inversion H; subst. simpl. rewrite (IH g' eq_refl). lia.
Qed.

(** The shortest text that [close] follows is [g] when [close] does not
    begin inside [g]. *)
Lemma lazy_until_app (close g t : string) :
  (forall g1 g2, g = g1 ++ g2 -> g2 <> "" -> match_text close (g2 ++ close ++ t) = None) ->
  lazy_until close (g ++ close ++ t) = Some (g, t).
Proof.
  induction g as [|c g IH]; intros H.
  - simpl append. rewrite lazy_until_unfold. now rewrite match_text_refl.
  - rewrite lazy_until_unfold.
    rewrite (H "" (String c g) eq_refl ltac:(discriminate)).
    simpl append. cbv beta iota. rewrite IH; [reflexivity|].
    intros g1 g2 E Hne. apply (H (String c g1) g2); [now rewrite E | exact Hne].
Qed.

Lemma match_here_Some (s g rest : string) :
  match_here s = Some (g, rest) ->
  match_text start s <> None
  /\ has_end_after (S (String.length start)) s = true
  /\ String.length rest < String.length s.
Proof.
  unfold match_here. destruct (match_text start s) as [[|c s']|] eqn:E; try discriminate.
  destruct (lazy_until end_ s') as [[g' rest']|] eqn:L; [|discriminate].
  intros H. inversion H; subst. split; [discriminate|]. split.
  - unfold has_end_after. apply match_text_skip in E.
    assert (Hs : forall k s0 c0 r, skip k s0 = Some (String c0 r) -> skip (S k) s0 = Some r).
    { induction k as [|k IHk]; intros [|x s0] c0 r Hk; simpl in *; try discriminate.
      - now inversion Hk.
      - now apply IHk in Hk. }
    rewrite (Hs _ _ _ _ E). unfold has_end. now rewrite L.
  - apply match_text_length in E. apply lazy_until_length in L.
    simpl in E. lia.
Qed.

Lemma match_here_iff (s : string) :
  match_here s <> None
  <-> match_text start s <> None /\ has_end_after (S (String.length start)) s = true.
Proof.
  split.
  - destruct (match_here s) as [[g rest]|] eqn:E; [|congruence].
    intros _. apply match_here_Some in E. tauto.
  - intros [Hm He]. unfold match_here.
    destruct (match_text start s) as [r|] eqn:E; [|congruence].
    unfold has_end_after in He. apply match_text_skip in E.
    assert (Hs : forall k s0 r0 r1, skip k s0 = Some r0 -> skip (S k) s0 = Some r1 ->
                                    exists c, r0 = String c r1).
    { induction k as [|k IHk]; intros [|x s0] r0 r1 H0 H1; simpl in *; try discriminate.
      - inversion H0; subst. inversion H1; subst. now exists x.
      - now apply (IHk s0). }
    destruct (skip (S (String.length start)) s) as [r1|] eqn:E1; [|discriminate].
    destruct (Hs _ _ _ _ E E1) as [c ->].
    unfold has_end in He. destruct (lazy_until end_ r1) as [[g rest]|]; [|discriminate].
    discriminate.
Qed.

Section Sub.
Variable expand : string -> string.

Lemma match_here_empty : match_here "" = None.
Proof. reflexivity. Qed.

Lemma sub_steps_enough (n m : nat) (s : string) :
  String.length s <= n -> String.length s <= m ->
  sub_steps n expand s = sub_steps m expand s.
Proof.
  revert m s. induction n as [|n IH]; intros m s Hn Hm.
  - destruct s; [|simpl in Hn; lia]. destruct m; reflexivity.
  - destruct m as [|m].
    + destruct s; [reflexivity | simpl in Hm; lia].
    + simpl. destruct (match_here s) as [[g rest]|] eqn:E.
      * apply match_here_Some in E as (_ & _ & Hl).
        rewrite (IH m rest); [reflexivity | lia | lia].
      * destruct s as [|c s]; [reflexivity|].
        simpl in Hn, Hm. rewrite (IH m s); [reflexivity | lia | lia].
Qed.

(** The substitution, step by step. *)
Lemma sub_eq (s : string) :
  sub expand s
  = match match_here s with
    | Some (g, rest) => expand g ++ sub expand rest
    | None =>
        match s with
        | EmptyString => EmptyString
        | String c s' => String c (sub expand s')
        end
    end.
Proof.
  unfold sub. destruct s as [|c s]; [reflexivity|].
  change (sub_steps (String.length (String c s)) expand (String c s))
    with (match match_here (String c s) with
          | Some (g, rest) => expand g ++ sub_steps (String.length s) expand rest
          | None => String c (sub_steps (String.length s) expand s)
          end).
  destruct (match_here (String c s)) as [[g rest]|] eqn:E; [|reflexivity].
  apply match_here_Some in E as (_ & _ & Hl). simpl in Hl.
  rewrite (sub_steps_enough (String.length s) (String.length rest) rest); [reflexivity | lia | lia].
Qed.

(** The text before the first match is copied, and a text without match is
    left as it is. *)
Lemma sub_before_first_match (pre r : string) :
  no_match_before pre r -> sub expand (pre ++ r) = pre ++ sub expand r.
Proof.
  induction pre as [|c pre IH]; intros H; [reflexivity|].
  rewrite sub_eq. rewrite (H "" (String c pre) eq_refl ltac:(discriminate)).
  simpl. rewrite IH; [reflexivity|].
  intros p1 p2 E Hne. apply (H (String c p1) p2); [now rewrite E | exact Hne].
Qed.

Lemma sub_no_match (r : string) : no_match r -> sub expand r = r.
Proof.
  induction r as [|c r IH]; intros H; rewrite sub_eq.
  - reflexivity.
  - rewrite (H "" (String c r) eq_refl). rewrite IH; [reflexivity|].
    intros r1 r2 E. apply (H (String c r1) r2). now rewrite E.
Qed.

End Sub.

Section Idempotence.
Variable T : string.
Hypothesis T_lines : no_line_with_L T = true.

Lemma no_line_with_L_suffix (g1 g2 : string) :
  no_line_with_L (g1 ++ g2) = true -> no_line_with_L g2 = true.
Proof.
  induction g1 as [|c g1 IH]; intros H; [exact H|].
  simpl in H. apply andb_true_iff in H as [_ H]. now apply IH.
Qed.

Lemma end_not_inside (g2 t : string) :
  no_line_with_L g2 = true -> g2 <> "" ->
  match_text end_ (g2 ++ end_ ++ t) = None.
Proof.
  intros H Hne. destruct g2 as [|c g2]; [congruence|].
  cbn [no_line_with_L] in H. apply andb_true_iff in H as [H _].
  change end_ with (String "010" (String "L" "ovely!")) at 1.
  change (String c g2 ++ end_ ++ t) with (String c (g2 ++ end_ ++ t)).
  rewrite match_text_cons. change (("010" =? ".")%char) with false.
  cbn [orb]. destruct (Ascii.eqb_spec "010" c) as [<-|]; [|reflexivity].
  rewrite Ascii.eqb_refl in H.
  destruct g2 as [|c2 g2].
  - change ("" ++ end_ ++ t) with (String "010" ("Lovely!" ++ t)).
    rewrite match_text_cons. reflexivity.
  - change (String c2 g2 ++ end_ ++ t) with (String c2 (g2 ++ end_ ++ t)).
    rewrite match_text_cons. change (("L" =? ".")%char) with false. cbn [orb].
    destruct (Ascii.eqb_spec "L" c2) as [<-|]; [discriminate | reflexivity].
Qed.

(** In the replacement text the pattern finds the table it has just
    written. *)
Lemma match_here_replacement (t : string) :
  match_here (replacement_of T ++ t) = Some (newline ++ T, t).
Proof.
  unfold match_here, replacement_of. rewrite append_assoc, match_text_refl.
  unfold newline at 1. simpl append at 1.
  rewrite append_assoc.
  rewrite lazy_until_app; [reflexivity|].
  intros g1 g2 E Hne. apply end_not_inside; [|exact Hne].
  apply (no_line_with_L_suffix g1). now rewrite <- E.
Qed.

Lemma sub_length_lt (s g rest : string) :
  match_here s = Some (g, rest) -> String.length rest < String.length s.
Proof. intros H. now apply match_here_Some in H. Qed.

(** The substitution creates no match of a pattern that is not longer than
    [start] at the place where it stands. *)
Lemma match_text_sub (n : nat) (pat s : string) :
  String.length s <= n ->
  String.length pat <= String.length start ->
  match_text pat (sub (fun _ => replacement_of T) s) <> None -> match_text pat s <> None.
Proof.
  revert pat s. induction n as [|n IH]; intros pat s Hn Hl; rewrite sub_eq.
  - destruct s; [|simpl in Hn; lia]. now rewrite match_here_empty.
  - destruct (match_here s) as [[g rest]|] eqn:E.
    + unfold replacement_of. rewrite !append_assoc.
      apply match_text_window; [exact Hl|]. apply match_here_Some in E. tauto.
    + destruct s as [|c s]; [tauto|].
      destruct pat as [|p pat]; [discriminate|].
      simpl. destruct (_ || _)%bool; [|tauto].
      apply IH; simpl in *; lia.
Qed.

Lemma skip_monotone (k : nat) (s : string) :
  has_end_after (S k) s = true -> has_end_after k s = true.
Proof.
  unfold has_end_after. revert s. induction k as [|k IH]; intros s.
  - destruct s as [|c s]; [discriminate|]. simpl.
    unfold has_end. rewrite (lazy_until_unfold end_ (String c s)).
    destruct (match_text end_ (String c s)); [reflexivity|].
    now destruct (lazy_until end_ s) as [[g r]|].
  - destruct s as [|c s]; [discriminate|]. apply (IH s).
Qed.

Lemma has_end_after_le (j k : nat) (s : string) :
  j <= k -> has_end_after k s = true -> has_end_after j s = true.
Proof.
  induction 1 as [|k Hle IH]; [tauto|].
  intros H. apply IH. now apply skip_monotone.
Qed.

(** Nor does it bring an [end] where there was none. *)
Lemma has_end_after_sub (n k : nat) (s : string) :
  String.length s <= n ->
  k <= S (String.length start) ->
  has_end_after k (sub (fun _ => replacement_of T) s) = true -> has_end_after k s = true.
Proof.
  revert k s. induction n as [|n IH]; intros k s Hn Hk; rewrite sub_eq.
  - destruct s; [|simpl in Hn; lia]. now rewrite match_here_empty.
  - destruct (match_here s) as [[g rest]|] eqn:E.
    + intros _. apply (has_end_after_le k (S (String.length start))); [exact Hk|].
      apply match_here_Some in E. tauto.
    + destruct s as [|c s]; [tauto|]. simpl in Hn.
      destruct k as [|k].
      * unfold has_end_after. simpl skip. unfold has_end.
        rewrite (lazy_until_unfold end_ (String c (sub (fun _ => replacement_of T) s))).
        rewrite (lazy_until_unfold end_ (String c s)).
        destruct (match_text end_ (String c (sub (fun _ => replacement_of T) s))) as [r|] eqn:M.
        -- intros _.
           assert (Hm : match_text end_ (String c s) <> None).
           { assert (Hs : sub (fun _ => replacement_of T) (String c s)
                          = String c (sub (fun _ => replacement_of T) s)).
             { rewrite sub_eq. now rewrite E. }
             apply (match_text_sub (S n) end_ (String c s)); [simpl; lia | simpl; lia |].
             rewrite Hs, M. discriminate. }
           now destruct (match_text end_ (String c s)).
        -- destruct (match_text end_ (String c s)); [reflexivity|].
           assert (H0 : has_end (sub (fun _ => replacement_of T) s) = true -> has_end s = true)
             by (apply (IH 0 s); lia).
           unfold has_end in H0.
           destruct (lazy_until end_ (sub (fun _ => replacement_of T) s)) as [[g r]|];
             [|discriminate].
           intros _. specialize (H0 eq_refl).
           now destruct (lazy_until end_ s) as [[g' r']|].
      * change (has_end_after (S k) (String c (sub (fun _ => replacement_of T) s)))
          with (has_end_after k (sub (fun _ => replacement_of T) s)).
        change (has_end_after (S k) (String c s)) with (has_end_after k s).
        apply IH; lia.
Qed.

(** Where the pattern did not match, it does not match after the
    substitution. *)
Lemma match_here_sub (s : string) :
  match_here s = None -> match_here (sub (fun _ => replacement_of T) s) = None.
Proof.
  intros H.
  destruct (match_here (sub (fun _ => replacement_of T) s)) as [[g rest]|] eqn:E;
    [|reflexivity].
  exfalso.
  assert (Hs : match_here (sub (fun _ => replacement_of T) s) <> None) by congruence.
  apply match_here_iff in Hs as [Hm He].
  apply (match_text_sub (String.length s)) in Hm; [|lia|lia].
  apply (has_end_after_sub (String.length s)) in He; [|lia|lia].
  assert (match_here s <> None) by (apply match_here_iff; tauto).
  congruence.
Qed.

(** Substituting twice is substituting once. *)
Lemma sub_idempotent_bounded (n : nat) (s : string) :
  String.length s <= n ->
  sub (fun _ => replacement_of T) (sub (fun _ => replacement_of T) s)
  = sub (fun _ => replacement_of T) s.
Proof.
  revert s. induction n as [|n IH]; intros s Hn.
  - destruct s; [reflexivity | simpl in Hn; lia].
  - rewrite (sub_eq (fun _ => replacement_of T) s).
    destruct (match_here s) as [[g rest]|] eqn:E.
    + rewrite sub_eq, match_here_replacement. rewrite IH; [reflexivity|].
      apply sub_length_lt in E. lia.
    + destruct s as [|c s]; [reflexivity|].
      assert (Hs : sub (fun _ => replacement_of T) (String c s)
                   = String c (sub (fun _ => replacement_of T) s)).
      { rewrite sub_eq. now rewrite E. }
      pose proof (match_here_sub _ E) as Hn'. rewrite Hs in Hn'.
      rewrite sub_eq, Hn'. rewrite IH; [reflexivity | simpl in Hn; lia].
Qed.

Lemma sub_idempotent (s : string) :
  sub (fun _ => replacement_of T) (sub (fun _ => replacement_of T) s)
  = sub (fun _ => replacement_of T) s.
Proof. now apply (sub_idempotent_bounded (String.length s)). Qed.

End Idempotence.

(** *** The table *)

Lemma forallb_str_app (p : ascii -> bool) (a b : string) :
  forallb_str p (a ++ b) = (forallb_str p a && forallb_str p b)%bool.
Proof.
  induction a as [|c a IH]; simpl; [reflexivity|].
  now rewrite IH, andb_assoc.
Qed.

Lemma forallb_str_concat (p : ascii -> bool) (sep : string) (l : list string) :
  forallb_str p sep = true -> Forall (fun x => forallb_str p x = true) l ->
  forallb_str p (String.concat sep l) = true.
Proof.
  intros Hsep H. induction H as [|x l Hx Hl IH]; [reflexivity|].
  destruct l as [|y l]; [exact Hx|].
  change (String.concat sep (x :: y :: l)) with (x ++ sep ++ String.concat sep (y :: l)).
  now rewrite !forallb_str_app, Hx, Hsep, IH.
Qed.

Lemma forallb_str_impl (p q : ascii -> bool) (s : string) :
  (forall c, p c = true -> q c = true) ->
  forallb_str p s = true -> forallb_str q s = true.
Proof.
  intros Hpq. induction s as [|c s IH]; simpl; [reflexivity|].
  intros H. apply andb_true_iff in H as [Hc Hs].
  now rewrite (Hpq c Hc), IH.
Qed.

Lemma no_backslash_contains (s : string) :
  forallb_str no_backslash s = true -> contains "\" s = false.
Proof.
  induction s as [|c s IH]; [reflexivity|].
  cbn [forallb_str]. intros H. apply andb_true_iff in H as [Hc Hs].
  change (contains "\" (String c s))
    with (String.prefix "\" (String c s) || contains "\" s)%bool.
  rewrite (IH Hs), orb_false_r.
  unfold no_backslash in Hc. apply negb_true_iff in Hc.
  cbn [String.prefix]. destruct (ascii_dec "\" c) as [<-|Hne]; [|reflexivity].
  now rewrite Ascii.eqb_refl in Hc.
Qed.

Lemma plain_no_line_with_L (s : string) : plain s -> no_line_with_L s = true.
Proof.
  unfold plain. induction s as [|c s IH]; [reflexivity|].
  cbn [forallb_str no_line_with_L]. intros H. apply andb_true_iff in H as [Hc Hs].
  rewrite (IH Hs), andb_true_r.
  unfold plain_char in Hc. apply andb_true_iff in Hc as [Hc _].
  apply negb_true_iff in Hc. now rewrite Hc.
Qed.

Lemma no_line_with_L_app (a b : string) :
  no_line_with_L a = true -> no_line_with_L b = true -> not_L b ->
  no_line_with_L (a ++ b) = true.
Proof.
  intros Ha Hb HL. induction a as [|c a IH]; [exact Hb|].
  cbn [no_line_with_L] in Ha. apply andb_true_iff in Ha as [Hc Ha].
  change (String c a ++ b) with (String c (a ++ b)). cbn [no_line_with_L].
  rewrite (IH Ha), andb_true_r.
  destruct (c =? "010")%char; [|reflexivity].
  destruct a as [|c2 a]; [|exact Hc].
  simpl append. destruct b as [|b0 b]; [reflexivity|].
  unfold not_L in HL. revert HL.
  destruct b0 as [[] [] [] [] [] [] [] []]; try reflexivity. contradiction.
Qed.

Lemma not_L_app (a b : string) : not_L a -> a <> "" -> not_L (a ++ b).
Proof. intros H Hne. destruct a as [|c a]; [congruence | exact H]. Qed.

(** Lines that hold no line break and do not begin with [L], joined by line
    breaks. *)
Lemma lines_no_line_with_L (lines : list string) :
  Forall (fun l => plain l /\ not_L l) lines ->
  no_line_with_L (String.concat newline lines) = true
  /\ not_L (String.concat newline lines).
Proof.
  intros H. induction H as [|x l [Px Lx] Hl [IH1 IH2]]; [split; [reflexivity | exact I]|].
  destruct l as [|y l]; [split; [now apply plain_no_line_with_L | exact Lx]|].
  change (String.concat newline (x :: y :: l))
    with (x ++ newline ++ String.concat newline (y :: l)).
  split.
  - apply no_line_with_L_app; [now apply plain_no_line_with_L | | exact I].
    apply (no_line_with_L_app newline); [reflexivity | exact IH1 | exact IH2].
  - destruct x as [|c x]; [exact I | exact Lx].
Qed.

Lemma row_line (v : Combination) :
  String.concat " | " (table_row v)
  = "`" ++ key v ++ "`" ++ " | " ++ python_canonical v ++ " | "
    ++ nodejs_canonical v ++ " | " ++ distro v.
Proof. unfold table_row. cbn [String.concat]. now rewrite !append_assoc. Qed.

Lemma row_line_plain (v : Combination) :
  plain_row v ->
  plain (String.concat " | " (table_row v))
  /\ not_L (String.concat " | " (table_row v)).
Proof.
  intros (Hk & Hp & Hn & Hd). rewrite row_line. split; [|exact I].
  unfold plain in *. rewrite !forallb_str_app, Hk, Hp, Hn, Hd. reflexivity.
Qed.

Lemma body_lines (versions : list Combination) :
  Forall plain_row versions ->
  Forall (fun l => plain l /\ not_L l)
         (map (String.concat " | ") (map table_row versions)).
Proof.
  intros H. induction H as [|v l Hv Hl IH]; simpl; constructor; [|exact IH].
  now apply row_line_plain.
Qed.

(** The table of plain rows has no line that begins with [L] after its
    first, and no backslash. *)
Lemma table_no_line_with_L (versions : list Combination) :
  Forall plain_row versions -> no_line_with_L (table versions) = true.
Proof.
  intros H. unfold table.
  destruct (lines_no_line_with_L _ (body_lines versions H)) as [B1 B2].
  set (body := String.concat newline (map (String.concat " | ") (map table_row versions))) in *.
  set (head := String.concat " | " headings ++ newline
               ++ String.concat " | " (map (fun _ : string => "---") headings)).
  apply no_line_with_L_app; [reflexivity | | exact I].
  apply (no_line_with_L_app newline); [reflexivity | |].
  - apply no_line_with_L_app; [exact B1 | reflexivity | exact I].
  - destruct body as [|c body]; [exact I | exact B2].
Qed.

Lemma table_no_backslash (versions : list Combination) :
  Forall plain_row versions -> forallb_str no_backslash (table versions) = true.
Proof.
  intros H. unfold table.
  assert (Hb : forallb_str no_backslash
                 (String.concat newline (map (String.concat " | ") (map table_row versions)))
               = true).
  { apply forallb_str_concat; [reflexivity|].
    apply Forall_forall. intros l Hl.
    pose proof (body_lines versions H) as Hbl. rewrite Forall_forall in Hbl.
    destruct (Hbl l Hl) as [Hp _]. revert Hp. apply forallb_str_impl.
    intros c Hc. unfold plain_char in Hc. apply andb_true_iff in Hc as [_ Hc].
    now apply andb_true_iff in Hc. }
  rewrite !forallb_str_app, Hb. reflexivity.
Qed.

(** Nor has it a carriage return: the text that is written reads back as it
    is. *)
Lemma table_no_carriage_return (versions : list Combination) :
  Forall plain_row versions -> no_carriage_return (table versions).
Proof.
  intros H. unfold no_carriage_return, table.
  assert (Hb : forallb_str no_cr
                 (String.concat newline (map (String.concat " | ") (map table_row versions)))
               = true).
  { apply forallb_str_concat; [reflexivity|].
    apply Forall_forall. intros l Hl.
    pose proof (body_lines versions H) as Hbl. rewrite Forall_forall in Hbl.
    destruct (Hbl l Hl) as [Hp _]. revert Hp. apply forallb_str_impl.
    intros c Hc. unfold plain_char in Hc. apply andb_true_iff in Hc as [_ Hc].
    now apply andb_true_iff in Hc. }
  rewrite !forallb_str_app, Hb. reflexivity.
Qed.

Lemma universal_newlines_id (s : string) :
  no_carriage_return s -> universal_newlines s = s.
Proof.
  unfold no_carriage_return. induction s as [|c s IH]; [reflexivity|].
  cbn [forallb_str]. intros H. apply andb_true_iff in H as [Hc Hs].
  unfold no_cr in Hc. apply negb_true_iff in Hc.
  cbn [universal_newlines]. rewrite Hc. now rewrite (IH Hs).
Qed.

Lemma match_text_forallb (p : ascii -> bool) (pat s r : string) :
  match_text pat s = Some r -> forallb_str p s = true -> forallb_str p r = true.
Proof.
  revert s. induction pat as [|q pat IH]; intros s H Hs; simpl in H.
  - now inversion H; subst.
  - destruct s as [|c s]; [discriminate|].
    destruct (_ || _)%bool; [|discriminate].
    cbn [forallb_str] in Hs. apply andb_true_iff in Hs as [_ Hs]. now apply (IH s).
Qed.

Lemma lazy_until_forallb (p : ascii -> bool) (close s g rest : string) :
  lazy_until close s = Some (g, rest) ->
  forallb_str p s = true -> forallb_str p rest = true.
Proof.
  revert g. induction s as [|c s IH]; intros g; rewrite lazy_until_unfold.
  - destruct (match_text close "") eqn:E; [|discriminate].
    intros H Hs. inversion H; subst. now apply (match_text_forallb p close "").
  - destruct (match_text close (String c s)) eqn:E.
    + intros H Hs. inversion H; subst. now apply (match_text_forallb p close (String c s)).
    + destruct (lazy_until close s) as [[g' rest']|]; [|discriminate].
      intros H Hs. inversion H; subst.
      cbn [forallb_str] in Hs. apply andb_true_iff in Hs as [_ Hs]. now apply (IH g').
Qed.

Lemma match_here_forallb (p : ascii -> bool) (s g rest : string) :
  match_here s = Some (g, rest) ->
  forallb_str p s = true -> forallb_str p rest = true.
Proof.
  unfold match_here. destruct (match_text start s) as [[|c s']|] eqn:E; try discriminate.
  destruct (lazy_until end_ s') as [[g' rest']|] eqn:L; [|discriminate].
  intros H Hs. inversion H; subst.
  apply (match_text_forallb p) in E; [|exact Hs].
  cbn [forallb_str] in E. apply andb_true_iff in E as [_ E].
  now apply (lazy_until_forallb p end_ s' g').
Qed.

(** The substitution brings in the characters of the replacement only. *)
Lemma sub_forallb (p : ascii -> bool) (R : string) (n : nat) (s : string) :
  String.length s <= n ->
  forallb_str p R = true -> forallb_str p s = true ->
  forallb_str p (sub (fun _ => R) s) = true.
Proof.
  intros Hn HR. revert s Hn. induction n as [|n IH]; intros s Hn Hs; rewrite sub_eq.
  - destruct s; [|simpl in Hn; lia]. now rewrite match_here_empty.
  - destruct (match_here s) as [[g rest]|] eqn:E.
    + rewrite forallb_str_app, HR. cbn [andb]. apply IH.
      * apply match_here_Some in E. lia.
      * now apply (match_here_forallb p s g rest).
    + destruct s as [|c s]; [reflexivity|].
      cbn [forallb_str] in Hs |- *. apply andb_true_iff in Hs as [Hc Hs].
      rewrite Hc. cbn [andb]. apply IH; [simpl in Hn; lia | exact Hs].
Qed.

Lemma sub_no_carriage_return (versions : list Combination) (readme : string) :
  Forall plain_row versions -> no_carriage_return readme ->
  no_carriage_return (sub (fun _ => replacement versions) readme).
Proof.
  intros Hp Hr. unfold no_carriage_return.
  apply (sub_forallb no_cr _ (String.length readme)); [lia | | exact Hr].
  unfold replacement, replacement_of.
  rewrite !forallb_str_app, (table_no_carriage_return versions Hp). reflexivity.
Qed.

Lemma compile_template_plain (env : Env) (versions : list Combination) :
  Forall plain_row versions ->
  compile_template env (start ++ newline ++ table versions ++ end_)
  = Ok (fun _ => replacement versions).
Proof.
  intros H. unfold compile_template. rewrite no_backslash_contains; [reflexivity|].
  rewrite !forallb_str_app, (table_no_backslash versions H). reflexivity.
Qed.

(** *** The update *)

Lemma with_readme_same (text : string) (w : World) :
  readme_md w = Some text -> with_readme text w = w.
Proof. intros H. destruct w. unfold with_readme. simpl in *. now rewrite H. Qed.

(** What the update leaves: in a dry run the world as it was, otherwise the
    README after the substitution. *)
Lemma update_readme_tags_table_spec (env : Env) (versions : list Combination)
    (dry_run : bool) (w : World) (readme : string) :
  Forall plain_row versions -> readme_md w = Some readme ->
  no_carriage_return readme ->
  update_readme_tags_table env versions dry_run w
  = (Ok tt, if dry_run then w
            else with_readme (sub (fun _ => replacement versions) readme) w).
Proof.
  intros Hp Hr Hcr. unfold update_readme_tags_table, IO.bind, read_file, IO.lift.
  rewrite Hr, (compile_template_plain env versions Hp).
  unfold IO.when, IO.ret, write_readme.
  rewrite (universal_newlines_id _ (sub_no_carriage_return versions readme Hp Hcr)).
  destruct (String.eqb_spec readme (sub (fun _ => replacement versions) readme)) as [E|E];
    simpl.
  - destruct dry_run; [reflexivity|]. now rewrite <- E, with_readme_same.
  - destruct dry_run; reflexivity.
Qed.

(** The first update rewrites the region and nothing else: the text before
    the match and the text after it are kept. *)
Lemma update_readme_tags_table_region (env : Env) (versions : list Combination)
    (w : World) (pre g post : string) :
  Forall plain_row versions ->
  readme_md w = Some (pre ++ start ++ g ++ end_ ++ post) ->
  no_carriage_return (pre ++ start ++ g ++ end_ ++ post) ->
  no_match_before pre (start ++ g ++ end_ ++ post) ->
  match_here (start ++ g ++ end_ ++ post) = Some (g, post) ->
  no_match post ->
  readme_md (snd (update_readme_tags_table env versions false w))
  = Some (pre ++ start ++ newline ++ table versions ++ end_ ++ post).
Proof.
  intros Hp Hr Hcr Hpre Hm Hpost.
  rewrite (update_readme_tags_table_spec env versions false w _ Hp Hr Hcr).
  cbn [snd with_readme readme_md].
  rewrite (sub_before_first_match _ pre _ Hpre).
  rewrite sub_eq, Hm, (sub_no_match _ post Hpost).
  unfold replacement, replacement_of. now rewrite !append_assoc.
Qed.

(** C6, as the code has it. With rows whose fields hold no line feed, no
    carriage return and no backslash, and a README that exists and is a
    text as a read gives it (no carriage return), the update returns, and
    updating twice with the same rows leaves the world that updating once
    leaves: the second update writes nothing, so the table and the text
    around it stay as the first update left them. The first update itself
    keeps the text before and after the region it rewrites. *)
Theorem update_readme_tags_table_idempotent (env : Env)
    (versions : list Combination) (dry_run : bool) (w : World) (readme : string) :
  Forall plain_row versions -> readme_md w = Some readme ->
  no_carriage_return readme ->
  let once := update_readme_tags_table env versions dry_run w in
  let twice := update_readme_tags_table env versions dry_run (snd once) in
  fst once = Ok tt
  /\ twice = once
  /\ readme_md (snd twice) = readme_md (snd once)
  /\ (forall pre g post,
        readme = pre ++ start ++ g ++ end_ ++ post ->
        no_match_before pre (start ++ g ++ end_ ++ post) ->
        match_here (start ++ g ++ end_ ++ post) = Some (g, post) ->
        no_match post ->
        dry_run = false ->
        readme_md (snd once)
        = Some (pre ++ start ++ newline ++ table versions ++ end_ ++ post)).
Proof.
  intros Hp Hr Hcr. cbv zeta.
  assert (Hregion : forall pre g post,
            readme = pre ++ start ++ g ++ end_ ++ post ->
            no_match_before pre (start ++ g ++ end_ ++ post) ->
            match_here (start ++ g ++ end_ ++ post) = Some (g, post) ->
            no_match post ->
            dry_run = false ->
            readme_md (snd (update_readme_tags_table env versions dry_run w))
            = Some (pre ++ start ++ newline ++ table versions ++ end_ ++ post)).
  { intros pre g post E H1 H2 H3 ->. subst readme.
    now apply (update_readme_tags_table_region env versions w pre g post). }
  rewrite (update_readme_tags_table_spec env versions dry_run w readme Hp Hr Hcr) in *.
  simpl in *. split; [reflexivity|].
  assert (Htwice : update_readme_tags_table env versions dry_run
                     (if dry_run then w
                      else with_readme (sub (fun _ => replacement versions) readme) w)
                   = (Ok tt, if dry_run then w
                             else with_readme (sub (fun _ => replacement versions) readme) w)).
  { destruct dry_run.
    - now rewrite (update_readme_tags_table_spec env versions true w readme Hp Hr Hcr).
    - rewrite (update_readme_tags_table_spec env versions false
                 (with_readme (sub (fun _ => replacement versions) readme) w)
                 (sub (fun _ => replacement versions) readme) Hp eq_refl
                 (sub_no_carriage_return versions readme Hp Hcr)).
      unfold replacement.
      rewrite (sub_idempotent (table versions) (table_no_line_with_L versions Hp)).
      reflexivity. }
  rewrite Htwice. split; [reflexivity|]. split; [reflexivity | exact Hregion].
Qed.

Lemma update_readme_tags_table_idempotent_witness :
  let once := update_readme_tags_table november_2024 [py39_node18_now] false
                after_previous_run in
  let twice := update_readme_tags_table november_2024 [py39_node18_now] false
                 (snd once) in
  Forall plain_row [py39_node18_now]
  /\ readme_md after_previous_run = Some readme_text
  /\ no_carriage_return readme_text
  /\ fst once = Ok tt
  /\ twice = once
  /\ readme_md (snd once)
     = Some ("# Images" ++ newline ++ "See " ++ start ++ newline
             ++ table [py39_node18_now] ++ end_ ++ newline)
  /\ readme_md (snd once) <> readme_md after_previous_run.
Proof.
  assert (Hp : Forall plain_row [py39_node18_now]).
  { repeat constructor. }
  pose proof (update_readme_tags_table_idempotent november_2024 [py39_node18_now]
                false after_previous_run readme_text Hp eq_refl eq_refl) as H.
  cbv zeta in *. destruct H as (H1 & H2 & _).
  split; [exact Hp|]. split; [reflexivity|]. split; [reflexivity|].
  split; [exact H1|]. split; [exact H2|].
  split; [vm_compute; reflexivity | vm_compute; discriminate].
Defined.

(** C6, the case left out. A field of a row that holds a line break and
    then [Lovely!] closes the region early: the second update, with the same
    rows, finds a shorter region and writes a longer README. So does a field
    with a carriage return in place of the line feed, which the README
    gives back as a line feed. *)
Lemma update_readme_tags_table_grows :
  let update versions := update_readme_tags_table november_2024 versions false in
  let length_of w := option_map String.length (readme_md w) in
  let line_feed := [row "3.9" "3.9.2" "18" "18.1.0" ("x" ++ newline ++ "Lovely!")] in
  let carriage_return :=
    [row "3.9" "3.9.2" "18" "18.1.0" ("x" ++ String "013" "Lovely!")] in
  let once versions := update versions after_previous_run in
  let twice versions := update versions (snd (once versions)) in
  let thrice versions := update versions (snd (twice versions)) in
  (fst (once line_feed) = Ok tt
   /\ fst (twice line_feed) = Ok tt
   /\ twice line_feed <> once line_feed
   /\ length_of (snd (once line_feed)) = Some 198
   /\ length_of (snd (twice line_feed)) = Some 237
   /\ length_of (snd (thrice line_feed)) = Some 276)
  /\ (fst (once carriage_return) = Ok tt
      /\ fst (twice carriage_return) = Ok tt
      /\ twice carriage_return <> once carriage_return
      /\ length_of (snd (once carriage_return)) = Some 198
      /\ length_of (snd (twice carriage_return)) = Some 237
      /\ length_of (snd (thrice carriage_return)) = Some 276).
Proof.
  cbv zeta. repeat split; try (vm_compute; reflexivity); vm_compute; discriminate.
Qed.

(** ** More on the ticket automation *)

Section TicketRequests.
Import jira_automation.

Lemma lower_char_idem (c : ascii) : lower_char (lower_char c) = lower_char c.
Proof.
  destruct c as [[] [] [] [] [] [] [] []]; reflexivity.
Qed.

Lemma lower_idem (s : string) : lower (lower s) = lower s.
Proof.
  induction s as [|c s IH]; simpl; [reflexivity|].
  now rewrite lower_char_idem, IH.
Qed.

Lemma accepted_status (resp : Response) :
  accepted resp <-> raise_for_status resp = Ok tt.
Proof.
  unfold accepted, raise_for_status.
  destruct ((400 <=? status_code resp)%Z && (status_code resp <? 600)%Z) eqn:Hc.
  - apply andb_true_iff in Hc as [H1 H2]. split; [lia | discriminate].
  - apply andb_false_iff in Hc. split; [reflexivity | lia].
Qed.

Lemma refused_status (resp : Response) :
  ~ accepted resp -> raise_for_status resp = Raise RequestException.
Proof.
  intros H. unfold raise_for_status.
  destruct ((400 <=? status_code resp)%Z && (status_code resp <? 600)%Z) eqn:Hc;
    [reflexivity|].
  exfalso. apply H. apply accepted_status. unfold raise_for_status. now rewrite Hc.
Qed.

Lemma accepted_dec (resp : Response) : accepted resp \/ ~ accepted resp.
Proof. unfold accepted. lia. Qed.

(** What [get] does: one request, and the response when it is accepted. *)
Lemma get_spec (env : Env) (self : UpdateJira) (url : string) (w : World) :
  requests (snd (get env self url w)) = (requests w ++ [GET url])%list
  /\ match requests_get env url with
     | Ok resp =>
         (accepted resp -> fst (get env self url w) = Ok (Some resp))
         /\ (~ accepted resp -> fst (get env self url w) = Ok None)
     | Raise e =>
         (e = RequestException -> fst (get env self url w) = Ok None)
         /\ (e <> RequestException -> fst (get env self url w) = Raise e)
     end.
Proof.
  unfold get, IO.bind, IO.try, send, IO.lift, IO.ret, print. simpl.
  destruct (requests_get env url) as [resp|e]; simpl.
  - destruct (accepted_dec resp) as [Ha|Ha].
    + rewrite (proj1 (accepted_status resp) Ha). simpl. split; [reflexivity|].
      split; [reflexivity | contradiction].
    + rewrite (refused_status resp Ha). simpl. split; [reflexivity|].
      split; [contradiction | reflexivity].
  - destruct e; simpl; (split; [reflexivity|]); split; intros H;
      try reflexivity; try discriminate; contradiction.
Qed.

Lemma post_spec (env : Env) (self : UpdateJira) (url id : string) (w : World) :
  post_fails_softly env ->
  requests (snd (post env self url id w)) = (requests w ++ [POST url id])%list
  /\ exists r, fst (post env self url id w) = Ok r.
Proof.
  intros Hsoft.
  unfold post, IO.bind, IO.try, send, IO.lift, IO.ret, print. simpl.
  destruct (requests_post env url id) as [resp|e] eqn:E; simpl.
  - destruct (raise_for_status resp) as [[]|e] eqn:Er; simpl.
    + split; [reflexivity | eauto].
    + unfold raise_for_status in Er. destruct (_ && _)%bool; [|discriminate].
      inversion Er; subst e. simpl. split; [reflexivity | eauto].
  - rewrite (Hsoft _ _ _ E). simpl. split; [reflexivity | eauto].
Qed.

Lemma read_ticket_Some (r : option Response) (info : TicketInfo) :
  read_ticket r = Ok info <->
  exists resp issuetype status,
    r = Some resp
    /\ json resp = Some {| issuetype_name := Some issuetype; status_name := Some status |}
    /\ info = {| issue_name := lower issuetype; status := lower status |}.
Proof.
  unfold read_ticket. split.
  - destruct r as [resp|]; [|discriminate].
    destruct (json resp) as [[[ty|] [st|]]|] eqn:Ej; simpl; try discriminate.
    intros H. inversion H. exists resp, ty, st. auto.
  - intros (resp & ty & st & -> & Ej & ->). rewrite Ej. reflexivity.
Qed.

Lemma read_ticket_no_exit (r : option Response) (code : Z) :
  read_ticket r <> Raise (SystemExit code).
Proof.
  unfold read_ticket. destruct r as [resp|]; [|discriminate].
  destruct (json resp) as [[[ty|] [st|]]|]; simpl; discriminate.
Qed.

(** [get_ticket_info] after [get]. *)
Lemma get_ticket_info_after_get (env : Env) (self : UpdateJira) (w : World) :
  requests (snd (get_ticket_info env self w))
  = requests (snd (get env self (issue_url self) w))
  /\ match fst (get env self (issue_url self) w) with
     | Ok r =>
         match read_ticket r with
         | Ok info => fst (get_ticket_info env self w) = Ok (Some info)
         | Raise _ => fst (get_ticket_info env self w) = Ok None
         end
     | Raise e => fst (get_ticket_info env self w) = Raise e
     end.
Proof.
  unfold get_ticket_info, IO.bind, IO.try, IO.lift, IO.ret, print.
  fold (issue_url self).
  destruct (get env self (issue_url self) w) as [[r|e] w1]; simpl; [|auto].
  pose proof (read_ticket_no_exit r) as Hx.
  destruct (read_ticket r) as [info|e']; simpl; [auto|].
  destruct e'; simpl; auto. now destruct (Hx code).
Qed.

(** X1. [get_ticket_info] sends one GET for the issue. It returns the two
    names, in lower case, exactly when the tracker answers without an error
    status and with a body that holds both; it raises exactly when the
    request raises something else than a [RequestException]; in every other
    case it returns [None]. *)
Theorem get_ticket_info_returns (env : Env) (self : UpdateJira) (w : World) :
  (forall info,
     fst (get_ticket_info env self w) = Ok (Some info) <->
     exists resp issuetype status,
       requests_get env (issue_url self) = Ok resp /\ accepted resp
       /\ json resp = Some {| issuetype_name := Some issuetype;
                              status_name := Some status |}
       /\ info = {| issue_name := lower issuetype; status := lower status |})
  /\ (forall e,
        fst (get_ticket_info env self w) = Raise e <->
        requests_get env (issue_url self) = Raise e /\ e <> RequestException)
  /\ requests (snd (get_ticket_info env self w))
     = (requests w ++ [GET (issue_url self)])%list.
Proof.
  destruct (get_ticket_info_after_get env self w) as [Hreq Hres].
  destruct (get_spec env self (issue_url self) w) as [Hgreq Hget].
  split; [|split].
  - intros info. split.
    + intros H.
      destruct (requests_get env (issue_url self)) as [resp|e] eqn:E.
      * destruct Hget as [Hacc Hrej].
        destruct (accepted_dec resp) as [Ha|Ha].
        -- rewrite (Hacc Ha) in Hres.
           destruct (read_ticket (Some resp)) as [info'|e'] eqn:Er;
             [|rewrite Hres in H; discriminate].
           rewrite Hres in H. inversion H; subst info'.
           apply read_ticket_Some in Er as (resp' & ty & st & Hr & Hj & Hi).
           inversion Hr; subst resp'. exists resp, ty, st. auto.
        -- rewrite (Hrej Ha) in Hres. simpl in Hres. rewrite Hres in H. discriminate.
      * destruct Hget as [Hsoft Hhard].
        destruct e; try (rewrite (Hhard ltac:(discriminate)) in Hres;
                         rewrite Hres in H; discriminate).
        rewrite (Hsoft eq_refl) in Hres. simpl in Hres. rewrite Hres in H. discriminate.
    + intros (resp & ty & st & E & Ha & Hj & Hi).
      rewrite E in Hget. destruct Hget as [Hacc _]. rewrite (Hacc Ha) in Hres.
      assert (Er : read_ticket (Some resp) = Ok info).
      { apply read_ticket_Some. exists resp, ty, st. auto. }
      now rewrite Er in Hres.
  - intros e. split.
    + intros H.
      destruct (requests_get env (issue_url self)) as [resp|e0] eqn:E.
      * destruct Hget as [Hacc Hrej].
        destruct (accepted_dec resp) as [Ha|Ha].
        -- rewrite (Hacc Ha) in Hres.
           destruct (read_ticket (Some resp)); rewrite Hres in H; discriminate.
        -- rewrite (Hrej Ha) in Hres. simpl in Hres. rewrite Hres in H. discriminate.
      * destruct Hget as [Hsoft Hhard].
        assert (Hd : e0 = RequestException \/ e0 <> RequestException)
          by (destruct e0; auto; right; discriminate).
        destruct Hd as [->|Hd].
        -- rewrite (Hsoft eq_refl) in Hres. simpl in Hres. rewrite Hres in H. discriminate.
        -- rewrite (Hhard Hd) in Hres. rewrite Hres in H. inversion H; subst. auto.
    + intros [E Hd]. rewrite E in Hget. destruct Hget as [_ Hhard].
      rewrite (Hhard Hd) in Hres. exact Hres.
  - now rewrite Hreq.
Qed.

Lemma get_ticket_info_present (env : Env) (self : UpdateJira) (w : World)
    (resp : Response) (issuetype state : string) :
  requests_get env (issue_url self) = Ok resp -> accepted resp ->
  json resp = Some {| issuetype_name := Some issuetype; status_name := Some state |} ->
  fst (get_ticket_info env self w)
  = Ok (Some {| issue_name := lower issuetype; status := lower state |})
  /\ requests (snd (get_ticket_info env self w))
     = (requests w ++ [GET (issue_url self)])%list.
Proof.
  intros E Ha Hj.
  destruct (get_ticket_info_after_get env self w) as [Hreq Hres].
  destruct (get_spec env self (issue_url self) w) as [Hgreq Hget].
  rewrite E in Hget. destruct Hget as [Hacc _]. rewrite (Hacc Ha) in Hres.
  assert (Er : read_ticket (Some resp)
               = Ok {| issue_name := lower issuetype; status := lower state |}).
  { apply read_ticket_Some. exists resp, issuetype, state. auto. }
  rewrite Er in Hres. split; [exact Hres | now rewrite Hreq].
Qed.

Lemma has_ticket_issue_lowered (self : UpdateJira) (issuetype state : string) :
  has_ticket_issue self (Some {| issue_name := lower issuetype; status := lower state |})
  = Ok (story_or_bug issuetype).
Proof.
  unfold has_ticket_issue, story_or_bug. simpl.
  now rewrite lower_idem, orb_false_r.
Qed.

Lemma change_status_to_in_progress_run (env : Env) (self : UpdateJira)
    (w : World) (resp : Response) (issuetype state : string) :
  requests_get env (issue_url self) = Ok resp -> accepted resp ->
  json resp = Some {| issuetype_name := Some issuetype; status_name := Some state |} ->
  post_fails_softly env ->
  exists w',
    change_status_to_in_progress env self w = (Ok tt, w')
    /\ requests w'
       = (requests w ++ GET (issue_url self)
            :: map (POST (transitions_url self))
                   (in_progress_transition issuetype state))%list.
Proof.
  intros E Ha Hj Hsoft.
  destruct (get_ticket_info_present env self w resp issuetype state E Ha Hj)
    as [Hres Hreq].
  unfold change_status_to_in_progress, IO.bind, IO.lift, IO.ret.
  destruct (get_ticket_info env self w) as [r w1]. simpl in Hres, Hreq. subst r.
  rewrite has_ticket_issue_lowered.
  unfold in_progress_transition. cbn [status].
  assert (Hpost : forall id,
            exists w2, (let (r1, w'0) := post env self (transitions_url self) id w1 in
                        match r1 with
                        | Ok _ => (Ok tt, w'0)
                        | Raise e => (Raise e, w'0)
                        end) = (Ok tt, w2)
                       /\ requests w2
                          = (requests w ++ [GET (issue_url self);
                                            POST (transitions_url self) id])%list).
  { intros id.
    destruct (post_spec env self (transitions_url self) id w1 Hsoft) as [Hp [r Hr]].
    destruct (post env self (transitions_url self) id w1) as [r' w2].
    simpl in *. subst r'. exists w2. split; [reflexivity|].
    rewrite Hp, Hreq, <- app_assoc. reflexivity. }
  destruct (story_or_bug issuetype).
  - destruct (contains "backlog" (lower state)); [apply Hpost|].
    destruct (contains "selected" (lower state)); [apply Hpost|].
    exists w1. split; [reflexivity | exact Hreq].
  - exists w1. split; [reflexivity | exact Hreq].
Qed.

(** X2. When the tracker answers with an issue, [change_status_to_in_progress]
    returns, after the GET and at most one POST: for a story or a bug,
    whatever the case of the letters, transition 121 when the status holds
    [backlog], otherwise transition 21 when it holds [selected]; for every
    other issue type and status nothing is posted. A POST that the tracker
    refuses does not make the call fail. *)
Theorem change_status_to_in_progress_posts (env : Env) (self : UpdateJira)
    (w : World) (resp : Response) (issuetype state : string) :
  requests_get env (issue_url self) = Ok resp -> accepted resp ->
  json resp = Some {| issuetype_name := Some issuetype; status_name := Some state |} ->
  post_fails_softly env ->
  fst (change_status_to_in_progress env self w) = Ok tt
  /\ requests (snd (change_status_to_in_progress env self w))
     = (requests w ++ GET (issue_url self)
          :: map (POST (transitions_url self))
                 (in_progress_transition issuetype state))%list.
Proof.
  intros E Ha Hj Hsoft.
  destruct (change_status_to_in_progress_run env self w resp issuetype state
              E Ha Hj Hsoft) as (w' & -> & Hw).
  split; [reflexivity | exact Hw].
Qed.

Lemma change_status_to_in_progress_posts_witness :
  change_status_to_in_progress (tracker_with "Story" "Selected for Development")
    vida_123 quiet
  = (Ok tt,
     {| console := ["Response status for get"; "Response status for post"];
        requests := [GET "https://jira.aledade.com/rest/api/2/issue/vida-123";
                     POST "https://jira.aledade.com/rest/api/2/issue/vida-123/transitions"
                          "21"] |})
  /\ fst (change_status_to_in_progress (tracker_with "Story" "Selected for Development")
            vida_123 quiet) = Ok tt
  /\ requests (snd (change_status_to_in_progress
                      (tracker_with "Story" "Selected for Development") vida_123 quiet))
     = ([] ++ GET (issue_url vida_123)
          :: map (POST (transitions_url vida_123))
                 (in_progress_transition "Story" "Selected for Development"))%list.
Proof.
  split; [reflexivity|].
  apply (change_status_to_in_progress_posts
           (tracker_with "Story" "Selected for Development") vida_123 quiet
           {| status_code := 200;
              json := Some {| issuetype_name := Some "Story";
                              status_name := Some "Selected for Development" |} |}
           "Story" "Selected for Development").
  - reflexivity.
  - unfold accepted. simpl. lia.
  - reflexivity.
  - intros url id e H. discriminate.
Defined.

Lemma change_status_to_needs_review_run (env : Env) (self : UpdateJira)
    (w : World) (resp : Response) (issuetype state : string) :
  requests_get env (issue_url self) = Ok resp -> accepted resp ->
  json resp = Some {| issuetype_name := Some issuetype; status_name := Some state |} ->
  post_fails_softly env ->
  exists w',
    change_status_to_needs_review env self w = (Ok tt, w')
    /\ requests w'
       = (requests w ++ GET (issue_url self)
            :: map (POST (transitions_url self))
                   (needs_review_transition issuetype state))%list.
Proof.
  intros E Ha Hj Hsoft.
  destruct (get_ticket_info_present env self w resp issuetype state E Ha Hj)
    as [Hres Hreq].
  unfold change_status_to_needs_review, IO.bind, IO.lift, IO.ret.
  destruct (get_ticket_info env self w) as [r w1]. simpl in Hres, Hreq. subst r.
  rewrite has_ticket_issue_lowered.
  unfold needs_review_transition. cbn [status].
  destruct (story_or_bug issuetype); cbn [andb];
    [|exists w1; split; [reflexivity | exact Hreq]].
  destruct (contains "progress" (lower state));
    [|exists w1; split; [reflexivity | exact Hreq]].
  destruct (post_spec env self (transitions_url self) "151" w1 Hsoft) as [Hp [r Hr]].
  destruct (post env self (transitions_url self) "151" w1) as [r' w2].
  simpl in *. subst r'. exists w2. split; [reflexivity|].
  rewrite Hp, Hreq, <- app_assoc. reflexivity.
Qed.

(** X3. When the tracker answers with an issue, [change_status_to_needs_review]
    returns, after the GET and at most one POST: transition 151 for a story or
    a bug whose status holds [progress], whatever the case of the letters,
    and nothing otherwise. A POST that the tracker refuses does not make the
    call fail. *)
Theorem change_status_to_needs_review_posts (env : Env) (self : UpdateJira)
    (w : World) (resp : Response) (issuetype state : string) :
  requests_get env (issue_url self) = Ok resp -> accepted resp ->
  json resp = Some {| issuetype_name := Some issuetype; status_name := Some state |} ->
  post_fails_softly env ->
  fst (change_status_to_needs_review env self w) = Ok tt
  /\ requests (snd (change_status_to_needs_review env self w))
     = (requests w ++ GET (issue_url self)
          :: map (POST (transitions_url self))
                 (needs_review_transition issuetype state))%list.
Proof.
  intros E Ha Hj Hsoft.
  destruct (change_status_to_needs_review_run env self w resp issuetype state
              E Ha Hj Hsoft) as (w' & -> & Hw).
  split; [reflexivity | exact Hw].
Qed.

Lemma change_status_to_needs_review_posts_witness :
  change_status_to_needs_review (tracker_with "BUG" "In Progress") vida_123 quiet
  = (Ok tt,
     {| console := ["Response status for get"; "Response status for post"];
        requests := [GET "https://jira.aledade.com/rest/api/2/issue/vida-123";
                     POST "https://jira.aledade.com/rest/api/2/issue/vida-123/transitions"
                          "151"] |})
  /\ fst (change_status_to_needs_review (tracker_with "BUG" "In Progress")
            vida_123 quiet) = Ok tt
  /\ requests (snd (change_status_to_needs_review
                      (tracker_with "BUG" "In Progress") vida_123 quiet))
     = ([] ++ GET (issue_url vida_123)
          :: map (POST (transitions_url vida_123))
                 (needs_review_transition "BUG" "In Progress"))%list.
Proof.
  split; [reflexivity|].
  apply (change_status_to_needs_review_posts
           (tracker_with "BUG" "In Progress") vida_123 quiet
           {| status_code := 200;
              json := Some {| issuetype_name := Some "BUG";
                              status_name := Some "In Progress" |} |}
           "BUG" "In Progress").
  - reflexivity.
  - unfold accepted. simpl. lia.
  - reflexivity.
  - intros url id e H. discriminate.
Defined.

(** Whether it returns or raises, a status change sends the GET for the
    issue first. *)
Lemma post_requests (env : Env) (self : UpdateJira) (url id : string) (w : World) :
  requests (snd (post env self url id w)) = (requests w ++ [POST url id])%list.
Proof.
  unfold post, IO.bind, IO.try, send, IO.lift, IO.ret, print. simpl.
  destruct (requests_post env url id) as [resp|e]; simpl.
  - destruct (raise_for_status resp) as [[]|e] eqn:Er; simpl; [reflexivity|].
    unfold raise_for_status in Er. destruct (_ && _)%bool; [|discriminate].
    inversion Er; subst e. reflexivity.
  - destruct e; reflexivity.
Qed.

Lemma then_post_requests (env : Env) (self : UpdateJira) (url id : string) (w : World) :
  requests (snd ((post env self url id ;;; IO.ret tt) w))
  = (requests w ++ [POST url id])%list.
Proof.
  pose proof (post_requests env self url id w) as H.
  unfold IO.bind, IO.ret.
  destruct (post env self url id w) as [[r|e] w']; exact H.
Qed.

Lemma change_status_requests (env : Env) (self : UpdateJira) (w : World) :
  (exists more,
     requests (snd (change_status_to_in_progress env self w))
     = (requests w ++ GET (issue_url self) :: more)%list)
  /\ (exists more,
        requests (snd (change_status_to_needs_review env self w))
        = (requests w ++ GET (issue_url self) :: more)%list).
Proof.
  destruct (get_ticket_info_after_get env self w) as [Hreq _].
  destruct (get_spec env self (issue_url self) w) as [Hgreq _].
  rewrite Hgreq in Hreq. clear Hgreq.
  split.
  - unfold change_status_to_in_progress. unfold IO.bind at 1 2.
    destruct (get_ticket_info env self w) as [[ti|e] w1]; simpl in Hreq;
      [|exists []; exact Hreq].
    unfold IO.lift. destruct (has_ticket_issue self ti) as [b|e];
      [|exists []; exact Hreq].
    destruct ti as [info|]; [|exists []; exact Hreq].
    destruct b; [|exists []; exact Hreq].
    destruct (contains "backlog" (status info)).
    { rewrite then_post_requests, Hreq, <- app_assoc. eexists. reflexivity. }
    destruct (contains "selected" (status info)).
    { rewrite then_post_requests, Hreq, <- app_assoc. eexists. reflexivity. }
    exists []. exact Hreq.
  - unfold change_status_to_needs_review. unfold IO.bind at 1 2.
    destruct (get_ticket_info env self w) as [[ti|e] w1]; simpl in Hreq;
      [|exists []; exact Hreq].
    unfold IO.lift. destruct (has_ticket_issue self ti) as [b|e];
      [|exists []; exact Hreq].
    destruct ti as [info|]; [|exists []; exact Hreq].
    destruct b; [|exists []; exact Hreq].
    destruct (contains "progress" (status info)).
    { rewrite then_post_requests, Hreq, <- app_assoc. eexists. reflexivity. }
    exists []. exact Hreq.
Qed.

(** *** The identifier *)

Lemma search_at_the_beginning (db : Unicode) (sep : string) (ds : list string)
    (rest : string) :
  is_separator sep -> Forall (digit_char db) ds -> 3 <= List.length ds <= 4 ->
  List.length ds = 4 \/ no_digit_ahead db rest ->
  search db ("vida" ++ sep ++ glue ds ++ rest) = Some (glue ds).
Proof.
  intros Hsep Hd Hl Hr. rewrite search_unfold.
  assert (Ht : ticket_at db ("vida" ++ sep ++ glue ds ++ rest) (glue ds)).
  { exists sep, (glue ds ++ rest). split; [reflexivity|]. split; [exact Hsep|].
    now exists ds, rest. }
  now rewrite (proj2 (match_vida_iff db _ _) Ht).
Qed.

Lemma digit_utf8_length (c : ascii) : is_digit c = true -> utf8_length c = 1.
Proof. destruct c as [[] [] [] [] [] [] [] []]; try discriminate; reflexivity. Qed.

(** A text of ASCII digits is a run of digits, one for each character. *)
Lemma ascii_digits_run (db : Unicode) (d : string) :
  digits d ->
  exists ds, d = glue ds /\ Forall (digit_char db) ds
             /\ List.length ds = String.length d.
Proof.
  unfold digits. induction d as [|c d IH]; intros H.
  - exists []. repeat split. constructor.
  - cbn [forallb_str] in H. apply andb_true_iff in H as [Hc Hd].
    destruct (IH Hd) as (ds & -> & Hf & Hl).
    exists (String c "" :: ds). split; [reflexivity|]. split; [|simpl; now rewrite Hl].
    constructor; [|exact Hf].
    unfold digit_char, digit_ahead, next_char.
    rewrite (digit_utf8_length c Hc). cbn [split_at is_decimal]. now rewrite Hc.
Qed.

(** X4. The identifier that [get_jira_ticket_id] returns is a fixed point:
    from it, [get_jira_ticket_id] returns it again, and so does the
    construction of an [UpdateJira]. *)
Theorem get_jira_ticket_id_fixed_point (db : Unicode) (s r token : string)
    (w w' : World) :
  fst (get_jira_ticket_id db s w) = Ok (Some r) ->
  fst (get_jira_ticket_id db r w') = Ok (Some r)
  /\ exists self, fst (init db token r w') = Ok self /\ ticket_id self = Some r.
Proof.
  intros H. rewrite get_jira_ticket_id_search in H.
  destruct (search db s) as [d|] eqn:Hs; [|discriminate].
  assert (Hr : r = "vida-" ++ d) by (cbn [option_map] in H; congruence).
  subst r. clear H.
  apply search_iff in Hs. destruct (captured_normalised db s d Hs) as (ds & E & Hd & Hl).
  assert (Ed : d = glue ds) by (simpl in E; congruence). subst d.
  assert (Hfix : search db ("vida-" ++ glue ds) = Some (glue ds)).
  { pose proof (search_at_the_beginning db "-" ds "") as Hx.
    rewrite append_nil_r in Hx. apply Hx; auto.
    - unfold is_separator. auto.
    - right. reflexivity. }
  assert (Hlow : lower ("vida-" ++ glue ds) = "vida-" ++ glue ds).
  { change (lower ("vida-" ++ glue ds)) with ("vida-" ++ lower (glue ds)).
    now rewrite (lower_glue db ds Hd). }
  split.
  - rewrite get_jira_ticket_id_search, Hfix. reflexivity.
  - destruct (init_spec db token ("vida-" ++ glue ds) w') as (w2 & Hi & _).
    rewrite Hi, Hlow, Hfix. eexists. split; reflexivity.
Qed.

Lemma get_jira_ticket_id_fixed_point_witness :
  fst (get_jira_ticket_id ascii_digits_only "feature/vida_4321-new-page" quiet)
  = Ok (Some "vida-4321")
  /\ fst (get_jira_ticket_id ascii_digits_only "vida-4321" quiet) = Ok (Some "vida-4321")
  /\ exists self, fst (init ascii_digits_only "token" "vida-4321" quiet) = Ok self
                  /\ ticket_id self = Some "vida-4321".
Proof.
  split; [reflexivity|].
  apply (get_jira_ticket_id_fixed_point ascii_digits_only "feature/vida_4321-new-page"
           "vida-4321" "token" quiet quiet).
  reflexivity.
Defined.

(** X5. Of a number of more than four digits the first four are kept: when
    the text begins with [vida], an optional [-] or [_] and four ASCII
    digits, the identifier is made of these four digits, whatever
    follows. *)
Theorem get_jira_ticket_id_keeps_four_digits (db : Unicode) (sep d rest : string)
    (w : World) :
  is_separator sep -> digits d -> String.length d = 4 ->
  fst (get_jira_ticket_id db ("vida" ++ sep ++ d ++ rest) w) = Ok (Some ("vida-" ++ d)).
Proof.
  intros Hsep Hd Hl. rewrite get_jira_ticket_id_search.
  destruct (ascii_digits_run db d Hd) as (ds & -> & Hf & Hn).
  rewrite (search_at_the_beginning db sep ds rest Hsep Hf ltac:(lia) ltac:(left; lia)).
  reflexivity.
Qed.

Lemma get_jira_ticket_id_keeps_four_digits_witness :
  fst (get_jira_ticket_id ascii_digits_only ("vida" ++ "-" ++ "1234" ++ "5-fix") quiet)
  = Ok (Some ("vida-" ++ "1234")).
Proof.
  apply (get_jira_ticket_id_keeps_four_digits ascii_digits_only "-" "1234" "5-fix" quiet).
  - unfold is_separator. auto.
  - reflexivity.
  - reflexivity.
Defined.

(** *** The script *)

(** X6. The value that follows [--move-to-review] does not matter, as long
    as it is not empty: with [False] the script does what it does with
    [True], and the other flag is not looked at. *)
Theorem script_review_flag_value (env : Env) (db : Unicode)
    (environ : string -> option string)
    (branch : option string) (value value' : string)
    (progress progress' : option string) (w : World) :
  value <> "" -> value' <> "" ->
  script env db environ {| branch_name := branch; should_review := Some value;
                           move_to_in_progress := progress |} w
  = script env db environ {| branch_name := branch; should_review := Some value';
                             move_to_in_progress := progress' |} w.
Proof.
  intros Hv Hv'. unfold script. simpl.
  destruct value; [contradiction|]. destruct value'; [contradiction|].
  reflexivity.
Qed.

Lemma script_review_flag_value_witness :
  script (tracker_with "Story" "In Progress") ascii_digits_only workflow_environ
    {| branch_name := Some "vida-123"; should_review := Some "False";
       move_to_in_progress := None |} quiet
  = script (tracker_with "Story" "In Progress") ascii_digits_only workflow_environ
      {| branch_name := Some "vida-123"; should_review := Some "True";
         move_to_in_progress := Some "True" |} quiet
  /\ requests (snd (script (tracker_with "Story" "In Progress") ascii_digits_only workflow_environ
                      {| branch_name := Some "vida-123"; should_review := Some "False";
                         move_to_in_progress := None |} quiet))
     = [GET "https://jira.aledade.com/rest/api/2/issue/vida-123";
        POST "https://jira.aledade.com/rest/api/2/issue/vida-123/transitions" "151"].
Proof.
  split; [|reflexivity].
  apply (script_review_flag_value (tracker_with "Story" "In Progress") ascii_digits_only
           workflow_environ
           (Some "vida-123") "False" "True" None (Some "True") quiet);
    discriminate.
Defined.

(** X7. The script sends no request when a variable of the environment is
    not set, when no branch name is given, and when neither flag holds a
    value that is not empty; it raises [KeyError] in the first case,
    [AttributeError] in the second and returns in the third. *)
Theorem script_sends_nothing (env : Env) (db : Unicode)
    (environ : string -> option string) (args : Args) (w : World) :
  environ "PR_TITLE" = None \/ environ "JIRA_TOKEN" = None
  \/ branch_name args = None
  \/ (truthy (should_review args) = false /\ truthy (move_to_in_progress args) = false) ->
  requests (snd (script env db environ args w)) = requests w
  /\ fst (script env db environ args w)
     = match environ "PR_TITLE", environ "JIRA_TOKEN", branch_name args with
       | Some _, Some _, Some _ => Ok tt
       | Some _, Some _, None => Raise AttributeError
       | _, _, _ => Raise KeyError
       end.
Proof.
  intros H. unfold script.
  destruct (environ "PR_TITLE") as [title|]; [|split; reflexivity].
  destruct (environ "JIRA_TOKEN") as [token|]; [|split; reflexivity].
  destruct (branch_name args) as [b|]; [|split; reflexivity].
  destruct H as [H|[H|[H|[H1 H2]]]]; try discriminate.
  rewrite H1, H2.
  destruct (init_spec db token b w) as (w' & Hi & Hr).
  unfold IO.bind. rewrite Hi. simpl. auto.
Qed.

Lemma script_sends_nothing_witness :
  requests (snd (script unreachable_tracker ascii_digits_only workflow_environ
                   {| branch_name := Some "vida-123"; should_review := Some "";
                      move_to_in_progress := None |} quiet))
  = requests quiet
  /\ fst (script unreachable_tracker ascii_digits_only workflow_environ
            {| branch_name := Some "vida-123"; should_review := Some "";
               move_to_in_progress := None |} quiet)
     = match workflow_environ "PR_TITLE", workflow_environ "JIRA_TOKEN",
             branch_name {| branch_name := Some "vida-123"; should_review := Some "";
                            move_to_in_progress := None |} with
       | Some _, Some _, Some _ => Ok tt
       | Some _, Some _, None => Raise AttributeError
       | _, _, _ => Raise KeyError
       end.
Proof.
  apply (script_sends_nothing unreachable_tracker ascii_digits_only workflow_environ
           {| branch_name := Some "vida-123"; should_review := Some "";
              move_to_in_progress := None |} quiet).
  right. right. right. split; reflexivity.
Defined.

(** X8. A branch name without an identifier does not stop the script: when
    the lower-cased branch name holds no [vida] with an optional separator
    and three decimal digits, of whatever script, and one of the flags is
    set, the script asks the tracker for the issue [None]. *)
Theorem script_without_ticket_asks_for_None (env : Env) (db : Unicode)
    (environ : string -> option string) (args : Args) (branch : string) (w : World) :
  environ "PR_TITLE" <> None -> environ "JIRA_TOKEN" <> None ->
  branch_name args = Some branch -> ~ has_ticket db (lower branch) ->
  truthy (should_review args) = true \/ truthy (move_to_in_progress args) = true ->
  exists more,
    requests (snd (script env db environ args w))
    = (requests w ++ GET "https://jira.aledade.com/rest/api/2/issue/None" :: more)%list.
Proof.
  intros Ht Hj Hb Hno Hflag. unfold script.
  destruct (environ "PR_TITLE") as [title|]; [|contradiction].
  destruct (environ "JIRA_TOKEN") as [token|]; [|contradiction].
  rewrite Hb.
  destruct (init_spec db token branch w) as (w' & Hi & Hr).
  assert (Hs : search db (lower branch) = None) by now apply search_None_iff.
  rewrite Hs in Hi. simpl in Hi.
  unfold IO.bind at 1. rewrite Hi.
  match goal with |- context [change_status_to_needs_review env ?i] =>
    destruct (change_status_requests env i w') as [[m1 H1] [m2 H2]] end.
  rewrite Hr in H1, H2.
  destruct (truthy (should_review args)).
  - exists m2. exact H2.
  - destruct Hflag as [Hflag|Hflag]; [discriminate|]. rewrite Hflag.
    exists m1. exact H1.
Qed.

Lemma script_without_ticket_asks_for_None_witness :
  (exists more,
     requests (snd (script unreachable_tracker arabic_indic workflow_environ
                      {| branch_name := Some "main"; should_review := None;
                         move_to_in_progress := Some "True" |} quiet))
     = (requests quiet
          ++ GET "https://jira.aledade.com/rest/api/2/issue/None" :: more)%list)
  /\ (exists more,
        requests (snd (script unreachable_tracker ascii_digits_only workflow_environ
                         {| branch_name := Some ("vida-" ++ arabic_indic_123);
                            should_review := None;
                            move_to_in_progress := Some "True" |} quiet))
        = (requests quiet
             ++ GET "https://jira.aledade.com/rest/api/2/issue/None" :: more)%list)
  /\ requests (snd (script unreachable_tracker arabic_indic workflow_environ
                      {| branch_name := Some ("vida-" ++ arabic_indic_123);
                         should_review := None;
                         move_to_in_progress := Some "True" |} quiet))
     = [GET ("https://jira.aledade.com/rest/api/2/issue/vida-" ++ arabic_indic_123)].
Proof.
  split; [|split; [|reflexivity]].
  - apply (script_without_ticket_asks_for_None unreachable_tracker arabic_indic
             workflow_environ
             {| branch_name := Some "main"; should_review := None;
                move_to_in_progress := Some "True" |} "main" quiet).
    + discriminate.
    + discriminate.
    + reflexivity.
    + apply search_None_iff. reflexivity.
    + right. reflexivity.
  - apply (script_without_ticket_asks_for_None unreachable_tracker ascii_digits_only
             workflow_environ
             {| branch_name := Some ("vida-" ++ arabic_indic_123); should_review := None;
                move_to_in_progress := Some "True" |}
             ("vida-" ++ arabic_indic_123) quiet).
    + discriminate.
    + discriminate.
    + reflexivity.
    + apply search_None_iff. reflexivity.
    + right. reflexivity.
Defined.

End TicketRequests.

(** ** More on sorting: what [Py.sorted] returns and raises in general *)

Section SortedAny.
Context {A K : Type}.
Variable key : A -> result K.
Variable lt : K -> K -> result bool.

Lemma insert_Ok_Permutation (x : K * A) (l r : list (K * A)) :
  Py.insert lt x l = Ok r -> Permutation r (x :: l).
Proof.
  revert r. induction l as [|y l IH]; intros r H; simpl in H.
  - inversion H. reflexivity.
  - destruct (lt (fst y) (fst x)) as [[]|e]; simpl in H; try discriminate.
    + destruct (Py.insert lt x l) as [r'|e]; simpl in H; [|discriminate].
      inversion H; subst r. rewrite (IH r' eq_refl). apply perm_swap.
    + inversion H. reflexivity.
Qed.

Lemma isort_Ok_Permutation (l r : list (K * A)) :
  Py.isort lt l = Ok r -> Permutation r l.
Proof.
  revert r. induction l as [|x l IH]; intros r H; simpl in H.
  - inversion H. reflexivity.
  - destruct (Py.isort lt l) as [r'|e]; simpl in H; [|discriminate].
    rewrite (insert_Ok_Permutation _ _ _ H). constructor. now apply IH.
Qed.

Lemma mapM_keys (l : list A) (ks : list (K * A)) :
  mapM (fun a => k <- key a ;; Ok (k, a)) l = Ok ks ->
  map snd ks = l /\ Forall (fun a => exists k, key a = Ok k) l.
Proof.
  revert ks. induction l as [|x l IH]; intros ks H; simpl in H.
  - inversion H. split; [reflexivity | constructor].
  - destruct (key x) as [k|e] eqn:Ek; simpl in H; [|discriminate].
    destruct (mapM _ l) as [ks'|e]; simpl in H; [|discriminate].
    inversion H; subst ks. destruct (IH ks' eq_refl) as [Hm Hf].
    simpl. rewrite Hm. split; [reflexivity|]. constructor; [eauto | exact Hf].
Qed.

(** When [sorted] returns, it returns a rearrangement of its argument, and
    the key of every element was computed. *)
Lemma sorted_Ok (reverse : bool) (l r : list A) :
  Py.sorted key lt reverse l = Ok r ->
  Permutation r l /\ Forall (fun a => exists k, key a = Ok k) l.
Proof.
  unfold Py.sorted. intros H.
  destruct (mapM _ l) as [ks|e] eqn:Ek; simpl in H; [|discriminate].
  destruct (mapM_keys l ks Ek) as [Hm Hf]. split; [|exact Hf].
  destruct reverse.
  - destruct (Py.isort lt (rev ks)) as [r'|e] eqn:Es; simpl in H; [|discriminate].
    inversion H; subst r. apply isort_Ok_Permutation in Es.
    rewrite <- Hm. apply Permutation_map.
    rewrite <- Permutation_rev, Es. symmetry. apply Permutation_rev.
  - destruct (Py.isort lt ks) as [r'|e] eqn:Es; simpl in H; [|discriminate].
    inversion H; subst r. apply isort_Ok_Permutation in Es.
    rewrite <- Hm. now apply Permutation_map.
Qed.

(** [sorted] raises what the key or the comparison raise. *)
Variable P : exn -> Prop.
Hypothesis key_raises : forall a e, key a = Raise e -> P e.
Hypothesis lt_raises : forall a b e, lt a b = Raise e -> P e.

Lemma insert_Raise (x : K * A) (l : list (K * A)) (e : exn) :
  Py.insert lt x l = Raise e -> P e.
Proof.
  induction l as [|y l IH]; simpl; [discriminate|].
  destruct (lt (fst y) (fst x)) as [[]|e'] eqn:El; simpl.
  - destruct (Py.insert lt x l) as [r'|e']; simpl; [discriminate|].
    intros H. inversion H; subst. now apply IH.
  - discriminate.
  - intros H. inversion H; subst. eapply lt_raises; eassumption.
Qed.

Lemma isort_Raise (l : list (K * A)) (e : exn) :
  Py.isort lt l = Raise e -> P e.
Proof.
  induction l as [|x l IH]; simpl; [discriminate|].
  destruct (Py.isort lt l) as [r'|e']; simpl.
  - apply insert_Raise.
  - intros H. inversion H; subst. now apply IH.
Qed.

Lemma sorted_Raise (reverse : bool) (l : list A) (e : exn) :
  Py.sorted key lt reverse l = Raise e -> P e.
Proof.
  unfold Py.sorted.
  destruct (mapM _ l) as [ks|e'] eqn:Ek; simpl.
  - destruct reverse.
    + destruct (Py.isort lt (rev ks)) as [r'|e'] eqn:Es; simpl; [discriminate|].
      intros H. inversion H; subst. now apply (isort_Raise _ _ Es).
    + destruct (Py.isort lt ks) as [r'|e'] eqn:Es; simpl; [discriminate|].
      intros H. inversion H; subst. now apply (isort_Raise _ _ Es).
  - intros H. inversion H; subst. clear H.
    induction l as [|x l IH]; simpl in Ek; [discriminate|].
    destruct (key x) as [k|e'] eqn:Ex; simpl in Ek.
    + destruct (mapM _ l) as [ks'|e']; simpl in Ek; [discriminate|].
      inversion Ek; subst. now apply IH.
    + inversion Ek; subst. eapply key_raises; eassumption.
Qed.

End SortedAny.

(** ** More on the latest patch *)

Lemma endswith_nonempty (s suffix : string) :
  endswith s suffix = true -> suffix <> "" -> s <> "".
Proof.
  intros H Hs ->. simpl in H. rewrite orb_false_r in H.
  destruct suffix; [now apply Hs | discriminate].
Qed.

Lemma by_semver_lt_raises (a b : string) (e : exn) :
  by_semver_lt a b = Raise e -> e = ValueError.
Proof.
  unfold by_semver_lt, semver.compare.
  destruct (semver.parse a) as [va|ea] eqn:Ea; simpl.
  - destruct (semver.parse b) as [vb|eb] eqn:Eb; simpl; [discriminate|].
    intros H. inversion H; subst. now apply (parse_raises b).
  - intros H. inversion H; subst. now apply (parse_raises a).
Qed.

Lemma _latest_patch_Ok (tags : list string) (ver : string)
    (patch_pattern : pattern) (distro r : string) :
  _latest_patch tags ver patch_pattern distro = Ok r ->
  (r = "" /\ survivors tags ver patch_pattern distro = [])
  \/ (r <> "" /\ In r tags /\ startswith r ver = true
      /\ endswith r ("-" ++ distro) = true /\ patch_pattern r = true).
Proof.
  unfold _latest_patch. fold (survivors tags ver patch_pattern distro).
  destruct (survivors tags ver patch_pattern distro) as [|t ts] eqn:Hs.
  - intros H. inversion H. now left.
  - intros H.
    destruct (sorted _ by_semver_lt true (t :: ts)) as [l|e] eqn:El;
      simpl in H; [|discriminate].
    inversion H; subst r. clear H. right.
    apply sorted_Ok in El as [Hp _].
    assert (Hin : In (hd "" l) (survivors tags ver patch_pattern distro)).
    { rewrite Hs. apply (Permutation_in _ Hp).
      destruct l as [|x l]; [|now left].
      apply Permutation_nil in Hp. discriminate. }
    unfold survivors in Hin. apply filter_In in Hin as [Hi Hc].
    apply andb_true_iff in Hc as [Hc Hm]. apply andb_true_iff in Hc as [Hv Hd].
    repeat split; auto.
    apply (endswith_nonempty _ _ Hd). discriminate.
Qed.

Lemma _latest_patch_Raise (tags : list string) (ver : string)
    (patch_pattern : pattern) (distro : string) (e : exn) :
  _latest_patch tags ver patch_pattern distro = Raise e -> e = ValueError.
Proof.
  unfold _latest_patch.
  destruct (filter _ tags) as [|t ts]; [discriminate|].
  intros H.
  destruct (sorted _ by_semver_lt true (t :: ts)) as [l|e'] eqn:El;
    simpl in H; [discriminate|].
  inversion H; subst e'.
  apply (sorted_Raise (fun tag : string => Ok tag) by_semver_lt
           (fun e => e = ValueError)) in El; auto.
  - intros a e0 H0. discriminate.
  - intros a b e0. apply by_semver_lt_raises.
Qed.

(** X9. Whenever [_latest_patch] returns, it returns the empty text when no
    tag passes its filter, and otherwise one of the tags that pass it, which
    is not empty: the empty text stands for no tag and for nothing else.
    When it raises, it raises [ValueError]. *)
Theorem _latest_patch_returns_a_survivor (tags : list string) (ver : string)
    (patch_pattern : pattern) (distro : string) :
  (forall r, _latest_patch tags ver patch_pattern distro = Ok r ->
     (r = "" /\ survivors tags ver patch_pattern distro = [])
     \/ (r <> "" /\ In r tags /\ startswith r ver = true
         /\ endswith r ("-" ++ distro) = true /\ patch_pattern r = true))
  /\ (forall e, _latest_patch tags ver patch_pattern distro = Raise e -> e = ValueError).
Proof.
  split.
  - intros r. apply _latest_patch_Ok.
  - intros e. apply _latest_patch_Raise.
Qed.

(** ** More on the combination builder *)

Lemma index_raises (l : list string) (x : string) (e : exn) :
  index l x = Raise e -> e = ValueError.
Proof.
  induction l as [|y l IH]; simpl.
  - intros H. now inversion H.
  - destruct (y =? x); [discriminate|].
    destruct (index l x) as [i|e']; simpl; [discriminate|].
    intros H. inversion H; subst. now apply IH.
Qed.

Lemma index_Ok_In (l : list string) (x : string) (i : nat) :
  index l x = Ok i -> In x l.
Proof.
  revert i. induction l as [|y l IH]; intros i; simpl; [discriminate|].
  destruct (String.eqb_spec y x) as [->|Hne]; [now left|].
  destruct (index l x) as [j|e] eqn:E; simpl; [|discriminate].
  intros _. right. now apply (IH j).
Qed.

Lemma int_lt_raises (a b : nat) (e : exn) : int_lt a b = Raise e -> e = ValueError.
Proof. discriminate. Qed.

(** X10. Whenever [version_combinations] returns, it returns a rearrangement
    of the cross product of its arguments: every pair of a Python and a
    Node.js version stands in it once, and it has as many rows as there are
    pairs. When it raises, it raises [ValueError]. *)
Theorem version_combinations_rearranges (nodes : list NodejsVersion)
    (pys : list PythonVersion) :
  match version_combinations nodes pys with
  | Ok versions =>
      Permutation versions (cross_product nodes pys)
      /\ List.length versions = List.length pys * List.length nodes
  | Raise e => e = ValueError
  end.
Proof.
  unfold version_combinations.
  destruct (sorted (fun v => index DISTROS (distro v)) int_lt false
              (cross_product nodes pys)) as [r1|e] eqn:E1; cbn [Py.bind].
  2: { apply (sorted_Raise _ _ (fun e => e = ValueError)) in E1; auto.
       - intros a e0. apply index_raises.
       - intros a b e0. apply int_lt_raises. }
  destruct (sorted (fun v => Ok (nodejs_canonical v)) by_semver_lt true r1)
    as [r2|e] eqn:E2; cbn [Py.bind].
  2: { apply (sorted_Raise _ _ (fun e => e = ValueError)) in E2; auto.
       - intros a e0 H0. discriminate.
       - intros a b e0. apply by_semver_lt_raises. }
  destruct (sorted (fun v => Ok (python_canonical v)) by_semver_lt true r2)
    as [r3|e] eqn:E3; cbn [Py.bind].
  2: { apply (sorted_Raise _ _ (fun e => e = ValueError)) in E3; auto.
       - intros a e0 H0. discriminate.
       - intros a b e0. apply by_semver_lt_raises. }
  apply sorted_Ok in E1 as [P1 _], E2 as [P2 _], E3 as [P3 _].
  assert (Hp : Permutation r3 (cross_product nodes pys)).
  { now rewrite P3, P2. }
  split; [exact Hp|].
  rewrite (Permutation_length Hp). apply cross_product_length.
Qed.

Lemma cross_product_no_nodes (pys : list PythonVersion) : cross_product [] pys = [].
Proof. unfold cross_product. induction pys as [|p pys IH]; simpl; auto. Qed.

Lemma valid_pythons_rows (nodes : list NodejsVersion) (pys : list PythonVersion) :
  nodes <> [] ->
  Forall (fun c => valid (python_canonical c)) (cross_product nodes pys) ->
  valid_pythons pys.
Proof.
  intros Hn H. apply Forall_forall. intros p Hp.
  destruct nodes as [|n nodes]; [contradiction|].
  rewrite Forall_forall in H.
  apply (H (combination p n)). apply cross_product_In. exists p, n.
  repeat split; auto. now left.
Qed.

Lemma valid_nodejs_rows (nodes : list NodejsVersion) (pys : list PythonVersion) :
  pys <> [] ->
  Forall (fun c => valid (nodejs_canonical c)) (cross_product nodes pys) ->
  valid_nodejs nodes.
Proof.
  intros Hn H. apply Forall_forall. intros n Hin.
  destruct pys as [|p pys]; [contradiction|].
  rewrite Forall_forall in H.
  apply (H (combination p n)). apply cross_product_In. exists p, n.
  repeat split; auto. now left.
Qed.

(** With two rows or more, [sorted] by a canonical version returns only
    when every canonical version is valid. *)
Lemma sorted_by_semver_Ok {A : Type} (keyf : A -> string) (l r : list A) :
  sorted (fun v => Ok (keyf v)) by_semver_lt true l = Ok r ->
  2 <= List.length l -> Forall (fun v => valid (keyf v)) l.
Proof.
  intros H Hl.
  destruct (Forall_or_Exists_bad keyf valid valid_dec l) as [Hg|Hb]; [exact Hg|].
  rewrite (sorted_raises (fun v => Ok (keyf v)) by_semver_lt keyf semver_ltb valid
             ValueError valid_dec by_semver_lt_valid by_semver_lt_invalid true l) in H;
    [discriminate | reflexivity | exact Hb | exact Hl].
Qed.

(** X11. [version_combinations] returns in these cases and in no other: one
    of the two lists is empty; or every Python distro is one of [DISTROS]
    and either there is one row only or every canonical version is a valid
    semantic version. *)
Theorem version_combinations_returns_iff (nodes : list NodejsVersion)
    (pys : list PythonVersion) :
  (exists versions, version_combinations nodes pys = Ok versions)
  <-> pys = [] \/ nodes = []
      \/ (Forall known_distro pys
          /\ ((List.length pys = 1 /\ List.length nodes = 1)
              \/ (valid_pythons pys /\ valid_nodejs nodes))).
Proof.
  split.
  - intros [r H].
    destruct pys as [|p0 pys']; [now left|].
    destruct nodes as [|n0 nodes']; [right; now left|].
    right. right.
    set (pys := p0 :: pys') in *. set (nodes := n0 :: nodes') in *.
    unfold version_combinations in H.
    destruct (sorted (fun v => index DISTROS (distro v)) int_lt false
                (cross_product nodes pys)) as [r1|e] eqn:E1; cbn [Py.bind] in H;
      [|discriminate].
    destruct (sorted (fun v => Ok (nodejs_canonical v)) by_semver_lt true r1)
      as [r2|e] eqn:E2; cbn [Py.bind] in H; [|discriminate].
    destruct (sorted (fun v => Ok (python_canonical v)) by_semver_lt true r2)
      as [r3|e] eqn:E3; cbn [Py.bind] in H; [|discriminate].
    pose proof (sorted_Ok _ _ _ _ _ E1) as [P1 K1].
    pose proof (sorted_Ok _ _ _ _ _ E2) as [P2 _].
    split.
    + apply Forall_forall. intros p Hp. rewrite Forall_forall in K1.
      destruct (K1 (combination p n0)) as [k Hk].
      { apply cross_product_In. exists p, n0. repeat split; auto. now left. }
      cbn [combination distro] in Hk. now apply index_Ok_In in Hk.
    + pose proof (cross_product_length nodes pys) as Hlen.
      destruct (Nat.le_gt_cases 2 (List.length (cross_product nodes pys))) as [H2|H1].
      * right. split.
        -- apply (valid_pythons_rows nodes); [discriminate|].
           apply (Permutation_Forall (x := r2)); [now rewrite P2|].
           apply (sorted_by_semver_Ok python_canonical r2 r3 E3).
           now rewrite (Permutation_length P2), (Permutation_length P1).
        -- apply (valid_nodejs_rows nodes pys); [discriminate|].
           apply (Permutation_Forall (x := r1)); [exact P1|].
           apply (sorted_by_semver_Ok nodejs_canonical r1 r2 E2).
           now rewrite (Permutation_length P1).
      * left. subst pys nodes. simpl in *. destruct pys', nodes'; simpl in *; nia.
  - intros [->|[->|[Hk Hv]]].
    + eexists. reflexivity.
    + unfold version_combinations. rewrite cross_product_no_nodes.
      eexists. reflexivity.
    + destruct Hv as [[Hp Hn]|[Hp Hn]].
      * destruct pys as [|p [|]]; try discriminate.
        destruct nodes as [|n [|]]; try discriminate.
        inversion Hk as [|? ? Hd _]; subst. unfold known_distro in Hd.
        unfold version_combinations, cross_product, sorted.
        cbn [flat_map map app mapM Py.bind combination distro].
        rewrite (index_position _ Hd). eexists. reflexivity.
      * rewrite version_combinations_sorted; [eexists; reflexivity | | exact Hn].
        apply Forall_forall. intros p Hin. unfold valid_pythons in Hp.
        rewrite Forall_forall in Hp, Hk. split; [now apply Hp | now apply Hk].
Qed.

(** ** The decision functions *)

Lemma collect_In {A B : Type} (body : A -> IO.t World (list B)) (l : list A)
    (w w' : World) (r : list B) (v : B) :
  IO.collect body l w = (Ok r, w') -> In v r ->
  exists x w1 w2 ys, In x l /\ body x w1 = (Ok ys, w2) /\ In v ys.
Proof.
  revert w r. induction l as [|x l IH]; intros w r H Hv.
  - inversion H; subst. destruct Hv.
  - cbn [IO.collect] in H. unfold IO.bind at 1 in H.
    destruct (body x w) as [[ys|e] w1] eqn:Eb; [|discriminate].
    unfold IO.bind in H.
    destruct (IO.collect body l w1) as [[zs|e] w2] eqn:Ec; [|discriminate].
    unfold IO.ret in H. inversion H; subst.
    apply in_app_or in Hv as [Hv|Hv].
    + exists x, w, w1, ys. repeat split; auto. now left.
    + destruct (IH w1 zs Ec Hv) as (x' & wa & wb & ys' & Hx & Hb & Hy).
      exists x', wa, wb, ys'. repeat split; auto. now right.
Qed.

(** A loop in which every round either produces or prints: what is
    produced and what is printed add up. *)
Lemma collect_count {A B : Type} (body : A -> IO.t World (list B)) (n : nat)
    (Q : string -> Prop) (l : list A) :
  (forall x w r w', In x l -> body x w = (Ok r, w') ->
     exists msgs, console w' = (console w ++ msgs)%list
                  /\ List.length r + List.length msgs = n /\ Forall Q msgs) ->
  forall w r w', IO.collect body l w = (Ok r, w') ->
    exists msgs, console w' = (console w ++ msgs)%list
                 /\ List.length r + List.length msgs = List.length l * n
                 /\ Forall Q msgs.
Proof.
  induction l as [|x l IH]; intros Hb w r w' H.
  - inversion H; subst. exists []. rewrite app_nil_r. auto.
  - cbn [IO.collect] in H. unfold IO.bind at 1 in H.
    destruct (body x w) as [[ys|e] w1] eqn:Eb; [|discriminate].
    unfold IO.bind in H.
    destruct (IO.collect body l w1) as [[zs|e] w2] eqn:Ec; [|discriminate].
    unfold IO.ret in H. inversion H; subst.
    destruct (Hb x w ys w1 (or_introl eq_refl) Eb) as (m1 & C1 & L1 & Q1).
    destruct (IH (fun y wa ra wb Hy => Hb y wa ra wb (or_intror Hy)) w1 zs w' Ec)
      as (m2 & C2 & L2 & Q2).
    exists (m1 ++ m2)%list. repeat split.
    + now rewrite C2, C1, app_assoc.
    + rewrite !length_app. simpl. lia.
    + apply Forall_app. auto.
Qed.

Lemma resolve_python_Ok (tags : list string) (patch_pattern : pattern)
    (ver distro : string) (w w' : World) (r : list PythonVersion) :
  resolve_python tags patch_pattern ver distro w = (Ok r, w') ->
  (exists msg, r = [] /\ not_good msg /\ console w' = (console w ++ [msg])%list)
  \/ (exists image,
        _latest_patch tags ver patch_pattern distro = Ok image /\ image <> ""
        /\ r = [ {| p_canonical_version := replace image ("-" ++ distro) "";
                    p_image := image; p_key := ver; p_distro := distro |} ]
        /\ w' = w).
Proof.
  unfold resolve_python, IO.bind, IO.lift, IO.ret, print.
  destruct (_latest_patch tags ver patch_pattern distro) as [image|e]; [|discriminate].
  destruct (String.eqb_spec image "") as [->|Hne]; intros H; inversion H; subst.
  - left. refine (ex_intro _ _ (conj eq_refl (conj _ eq_refl))). reflexivity.
  - right. exists image. auto.
Qed.

Lemma resolve_nodejs_Ok (tags : list string) (patch_pattern : pattern)
    (window : ReleaseWindow) (w w' : World) (r : list NodejsVersion) :
  resolve_nodejs tags patch_pattern window w = (Ok r, w') ->
  (exists msg, r = [] /\ not_good msg /\ console w' = (console w ++ [msg])%list)
  \/ (exists image,
        _latest_patch tags (tail_str (rw_version window)) patch_pattern DEFAULT_DISTRO
        = Ok image /\ image <> ""
        /\ r = [ {| n_canonical_version := replace image ("-" ++ DEFAULT_DISTRO) "";
                    n_key := tail_str (rw_version window) |} ]
        /\ w' = w).
Proof.
  unfold resolve_nodejs, IO.bind, IO.lift, IO.ret, print.
  destruct (_latest_patch tags _ patch_pattern DEFAULT_DISTRO) as [image|e];
    [|discriminate].
  destruct (String.eqb_spec image "") as [->|Hne]; intros H; inversion H; subst.
  - left. refine (ex_intro _ _ (conj eq_refl (conj _ eq_refl))). reflexivity.
  - right. exists image. auto.
Qed.

(** The steps of [decide_python_versions] when it returns. *)
Lemma decide_python_versions_run (env : Env) (distros : list string)
    (w w' : World) (l : list PythonVersion) :
  decide_python_versions env distros w = (Ok l, w') ->
  exists fetched scraped versions,
    _fetch_tags env "python" = Ok fetched
    /\ scrape_supported_python_versions env = Ok scraped
    /\ IO.collect (fun window =>
         IO.collect (resolve_python (filter (wanted_tag_pattern distros) fetched)
                       (wanted_tag_pattern distros) (rw_version window)) distros)
         (filter (supported (todays_date env)) scraped) w = (Ok versions, w')
    /\ sorted (fun v => Ok (p_canonical_version v)) by_semver_lt true versions = Ok l.
Proof.
  unfold decide_python_versions. unfold IO.bind at 1, IO.lift at 1.
  destruct (_fetch_tags env "python") as [fetched|e]; [|discriminate].
  unfold IO.bind at 1, IO.lift at 1.
  destruct (scrape_supported_python_versions env) as [scraped|e]; [|discriminate].
  unfold IO.bind at 1.
  fold (resolve_python (filter (wanted_tag_pattern distros) fetched)
          (wanted_tag_pattern distros)).
  match goal with |- context [IO.collect ?b ?l w] =>
    destruct (IO.collect b l w) as [[versions|e] w1] eqn:Ec end; [|discriminate].
  unfold IO.lift. intros H.
  destruct (sorted _ by_semver_lt true versions) as [l'|e] eqn:Es; [|discriminate].
  inversion H; subst. exists fetched, scraped, versions. auto.
Qed.

Lemma decide_nodejs_versions_run (env : Env) (w w' : World) (l : list NodejsVersion) :
  decide_nodejs_versions env w = (Ok l, w') ->
  exists fetched schedule versions,
    _fetch_tags env "node" = Ok fetched
    /\ fetch_supported_nodejs_versions env = Ok schedule
    /\ IO.collect (resolve_nodejs (filter (wanted_tag_pattern [DEFAULT_DISTRO]) fetched)
                     (wanted_tag_pattern [DEFAULT_DISTRO]))
         (filter (supported (todays_date env)) schedule) w = (Ok versions, w')
    /\ sorted (fun v => Ok (n_canonical_version v)) by_semver_lt true versions = Ok l.
Proof.
  unfold decide_nodejs_versions. unfold IO.bind at 1, IO.lift at 1.
  destruct (_fetch_tags env "node") as [fetched|e]; [|discriminate].
  unfold IO.bind at 1, IO.lift at 1.
  destruct (fetch_supported_nodejs_versions env) as [schedule|e]; [|discriminate].
  unfold IO.bind at 1.
  fold (resolve_nodejs (filter (wanted_tag_pattern [DEFAULT_DISTRO]) fetched)
          (wanted_tag_pattern [DEFAULT_DISTRO])).
  match goal with |- context [IO.collect ?b ?l w] =>
    destruct (IO.collect b l w) as [[versions|e] w1] eqn:Ec end; [|discriminate].
  unfold IO.lift. intros H.
  destruct (sorted _ by_semver_lt true versions) as [l'|e] eqn:Es; [|discriminate].
  inversion H; subst. exists fetched, schedule, versions. auto.
Qed.

Lemma decide_python_versions_from (env : Env) (distros : list string)
    (w w' : World) (l : list PythonVersion) :
  decide_python_versions env distros w = (Ok l, w') ->
  exists fetched scraped,
    _fetch_tags env "python" = Ok fetched
    /\ scrape_supported_python_versions env = Ok scraped
    /\ Forall (python_from (todays_date env) fetched scraped distros) l.
Proof.
  intros H.
  destruct (decide_python_versions_run env distros w w' l H)
    as (fetched & scraped & versions & Hf & Hs & Hc & Hsort).
  exists fetched, scraped. repeat split; auto.
  apply sorted_Ok in Hsort as [Hp _].
  apply Forall_forall. intros v Hv.
  apply (Permutation_in _ Hp) in Hv.
  destruct (collect_In _ _ _ _ _ _ Hc Hv) as (window & w1 & w2 & ys & Hw & Hin & Hy).
  destruct (collect_In _ _ _ _ _ _ Hin Hy) as (distro & w3 & w4 & zs & Hd & Hr & Hz).
  apply filter_In in Hw as [Hw Hsup].
  apply resolve_python_Ok in Hr as [(msg & -> & _)|(image & Hl & Hne & -> & _)];
    [destruct Hz|].
  destruct Hz as [<-|[]].
  apply _latest_patch_Ok in Hl as [[-> _]|(_ & Hi & Hv' & He & Hm)]; [contradiction|].
  apply filter_In in Hi as [Hi _].
  unfold python_from. simpl. repeat split; auto.
  exists window. auto.
Qed.

Lemma decide_nodejs_versions_from (env : Env) (w w' : World) (l : list NodejsVersion) :
  decide_nodejs_versions env w = (Ok l, w') ->
  exists fetched schedule,
    _fetch_tags env "node" = Ok fetched
    /\ fetch_supported_nodejs_versions env = Ok schedule
    /\ Forall (nodejs_from (todays_date env) fetched schedule) l.
Proof.
  intros H.
  destruct (decide_nodejs_versions_run env w w' l H)
    as (fetched & schedule & versions & Hf & Hs & Hc & Hsort).
  exists fetched, schedule. repeat split; auto.
  apply sorted_Ok in Hsort as [Hp _].
  apply Forall_forall. intros v Hv.
  apply (Permutation_in _ Hp) in Hv.
  destruct (collect_In _ _ _ _ _ _ Hc Hv) as (window & w1 & w2 & ys & Hw & Hr & Hy).
  apply filter_In in Hw as [Hw Hsup].
  apply resolve_nodejs_Ok in Hr as [(msg & -> & _)|(image & Hl & Hne & -> & _)];
    [destruct Hy|].
  destruct Hy as [<-|[]].
  apply _latest_patch_Ok in Hl as [[-> _]|(_ & Hi & Hv' & He & Hm)]; [contradiction|].
  apply filter_In in Hi as [Hi _].
  unfold nodejs_from. simpl. split.
  - exists window. auto.
  - exists image. auto.
Qed.

(** X12. Every Python version that [decide_python_versions] returns stands
    for a tag of the registry: its distro is one of the distros asked for,
    its key is the version of a release that is supported today, its image
    is a fetched tag that matches the pattern, begins with the key and ends
    with the distro, and its canonical version is the image without the
    distro. *)
Theorem decide_python_versions_members (env : Env) (distros : list string)
    (w w' : World) (l : list PythonVersion) :
  decide_python_versions env distros w = (Ok l, w') ->
  exists fetched scraped,
    _fetch_tags env "python" = Ok fetched
    /\ scrape_supported_python_versions env = Ok scraped
    /\ Forall (python_from (todays_date env) fetched scraped distros) l.
Proof. apply decide_python_versions_from. Qed.

Lemma decide_python_versions_members_witness :
  exists fetched scraped,
    _fetch_tags november_2024 "python" = Ok fetched
    /\ scrape_supported_python_versions november_2024 = Ok scraped
    /\ Forall (python_from (todays_date november_2024) fetched scraped
                 ["buster"; "slim"; "alpine"])
         [ {| p_canonical_version := "3.9.20"; p_image := "3.9.20-buster";
              p_key := "3.9"; p_distro := "buster" |};
           {| p_canonical_version := "3.9.20"; p_image := "3.9.20-slim";
              p_key := "3.9"; p_distro := "slim" |} ].
Proof.
  apply (decide_python_versions_members november_2024 ["buster"; "slim"; "alpine"]
           after_previous_run
           (snd (decide_python_versions november_2024 ["buster"; "slim"; "alpine"]
                   after_previous_run))).
  reflexivity.
Defined.

(** X13. Every Node.js version that [decide_nodejs_versions] returns stands
    for a tag of the registry: its key is the version of a release of the
    schedule that is supported today, without its first character, and its
    canonical version is, without the default distro, a fetched tag that
    matches the pattern, begins with the key and ends with the default
    distro. *)
Theorem decide_nodejs_versions_members (env : Env) (w w' : World)
    (l : list NodejsVersion) :
  decide_nodejs_versions env w = (Ok l, w') ->
  exists fetched schedule,
    _fetch_tags env "node" = Ok fetched
    /\ fetch_supported_nodejs_versions env = Ok schedule
    /\ Forall (nodejs_from (todays_date env) fetched schedule) l.
Proof. apply decide_nodejs_versions_from. Qed.

Lemma decide_nodejs_versions_members_witness :
  exists fetched schedule,
    _fetch_tags november_2024 "node" = Ok fetched
    /\ fetch_supported_nodejs_versions november_2024 = Ok schedule
    /\ Forall (nodejs_from (todays_date november_2024) fetched schedule)
         [ {| n_canonical_version := "18.20.4"; n_key := "18" |} ].
Proof.
  apply (decide_nodejs_versions_members november_2024 after_previous_run
           (snd (decide_nodejs_versions november_2024 after_previous_run))).
  reflexivity.
Defined.

Lemma StronglySorted_short {A : Type} (R : A -> A -> Prop) (l : list A) :
  List.length l < 2 -> StronglySorted R l.
Proof.
  destruct l as [|x [|y l]]; simpl; intros H; try lia; repeat constructor.
Qed.

Lemma StronglySorted_True {A : Type} (l : list A) :
  StronglySorted (fun _ _ : A => True) l.
Proof.
  induction l as [|x l IH]; constructor; [exact IH|].
  apply Forall_forall. auto.
Qed.

(** What a sort by canonical version returns: the newest first, and valid
    versions only as soon as there are two. *)
Lemma sorted_by_semver_newest_first {A : Type} (canonical : A -> string)
    (l r : list A) :
  sorted (fun v => Ok (canonical v)) by_semver_lt true l = Ok r ->
  newest_first canonical r
  /\ (2 <= List.length r -> Forall (fun v => valid (canonical v)) r).
Proof.
  intros H. pose proof (sorted_Ok _ _ _ _ _ H) as [Hp _].
  destruct (Nat.le_gt_cases 2 (List.length l)) as [H2|H1].
  - pose proof (sorted_by_semver_Ok canonical l r H H2) as Hv.
    split; [|intros _; now apply (Permutation_Forall (Permutation_sym Hp))].
    rewrite (sorted_pure (fun v => Ok (canonical v)) by_semver_lt canonical semver_ltb)
      in H.
    + assert (Hr : r = sorted_by (fun a b => semver_ltb (canonical a) (canonical b))
                         true l) by congruence.
      subst r. clear H.
      pose proof (sorted_by_sorted (fun a b => semver_ltb (canonical a) (canonical b))
                    (fun a => valid (canonical a))
                    (strict_weak_pull canonical semver_ltb valid semver_ltb_strict_weak)
                    (fun _ _ => True) true l Hv (StronglySorted_True l)) as Hs.
      unfold newest_first. revert Hs. apply StronglySorted_impl.
      intros a b _ _ [Hab _]. exact Hab.
    + reflexivity.
    + intros a b Ha Hb. rewrite Forall_forall in Hv.
      apply by_semver_lt_valid; now apply Hv.
  - rewrite <- (Permutation_length Hp) in H1. split; [|lia].
    now apply StronglySorted_short.
Qed.

(** X14. The two decision functions return their versions newest first: no
    canonical version is smaller than a later one in the order of
    [semver.compare]; and a list of two versions or more that they return
    holds valid semantic versions only. *)
Theorem decisions_newest_first (env : Env) (distros : list string)
    (w w1 w2 : World) (pys : list PythonVersion) (nodes : list NodejsVersion) :
  decide_python_versions env distros w = (Ok pys, w1) ->
  decide_nodejs_versions env w1 = (Ok nodes, w2) ->
  newest_first p_canonical_version pys
  /\ newest_first n_canonical_version nodes
  /\ (2 <= List.length pys -> valid_pythons pys)
  /\ (2 <= List.length nodes -> valid_nodejs nodes).
Proof.
  intros Hp Hn.
  destruct (decide_python_versions_run env distros w w1 pys Hp)
    as (_ & _ & vp & _ & _ & _ & Sp).
  destruct (decide_nodejs_versions_run env w1 w2 nodes Hn)
    as (_ & _ & vn & _ & _ & _ & Sn).
  apply sorted_by_semver_newest_first in Sp as [Sp Vp], Sn as [Sn Vn].
  auto.
Qed.

Lemma decisions_newest_first_witness :
  newest_first p_canonical_version
    [ {| p_canonical_version := "3.9.20"; p_image := "3.9.20-buster";
         p_key := "3.9"; p_distro := "buster" |};
      {| p_canonical_version := "3.9.20"; p_image := "3.9.20-slim";
         p_key := "3.9"; p_distro := "slim" |} ]
  /\ newest_first n_canonical_version
       [ {| n_canonical_version := "18.20.4"; n_key := "18" |} ]
  /\ (2 <= 2 -> valid_pythons
                  [ {| p_canonical_version := "3.9.20"; p_image := "3.9.20-buster";
                       p_key := "3.9"; p_distro := "buster" |};
                    {| p_canonical_version := "3.9.20"; p_image := "3.9.20-slim";
                       p_key := "3.9"; p_distro := "slim" |} ])
  /\ (2 <= 1 -> valid_nodejs [ {| n_canonical_version := "18.20.4"; n_key := "18" |} ]).
Proof.
  apply (decisions_newest_first november_2024 ["buster"; "slim"; "alpine"]
           after_previous_run
           (snd (decide_python_versions november_2024 ["buster"; "slim"; "alpine"]
                   after_previous_run))
           (snd (decide_nodejs_versions november_2024
                   (snd (decide_python_versions november_2024
                           ["buster"; "slim"; "alpine"] after_previous_run))))).
  - reflexivity.
  - reflexivity.
Defined.

Lemma sorted_length {A K : Type} (key : A -> result K) (lt : K -> K -> result bool)
    (reverse : bool) (l r : list A) :
  sorted key lt reverse l = Ok r -> List.length r = List.length l.
Proof. intros H. apply sorted_Ok in H as [Hp _]. now apply Permutation_length. Qed.

(** X15. [decide_python_versions] accounts for every pair of a supported
    release and a distro: the pair is resolved to a version or reported on
    the console, so that the versions returned and the messages printed
    are as many as the pairs; and [decide_nodejs_versions] does the same for
    every supported release of the schedule. Nothing else is printed. *)
Theorem decisions_account_for_every_release (env : Env) (distros : list string)
    (w w1 w2 : World) (pys : list PythonVersion) (nodes : list NodejsVersion) :
  decide_python_versions env distros w = (Ok pys, w1) ->
  decide_nodejs_versions env w1 = (Ok nodes, w2) ->
  exists scraped schedule reports reports',
    scrape_supported_python_versions env = Ok scraped
    /\ fetch_supported_nodejs_versions env = Ok schedule
    /\ console w1 = (console w ++ reports)%list
    /\ console w2 = (console w1 ++ reports')%list
    /\ Forall not_good reports /\ Forall not_good reports'
    /\ List.length pys + List.length reports
       = List.length (filter (supported (todays_date env)) scraped)
         * List.length distros
    /\ List.length nodes + List.length reports'
       = List.length (filter (supported (todays_date env)) schedule).
Proof.
  intros Hp Hn.
  destruct (decide_python_versions_run env distros w w1 pys Hp)
    as (fetched & scraped & vp & _ & Hs & Cp & Sp).
  destruct (decide_nodejs_versions_run env w1 w2 nodes Hn)
    as (fetched' & schedule & vn & _ & Hs' & Cn & Sn).
  apply sorted_length in Sp, Sn.
  exists scraped, schedule.
  assert (Hin : forall tags pat ver wa ra wb,
            IO.collect (resolve_python tags pat ver) distros wa = (Ok ra, wb) ->
            exists msgs, console wb = (console wa ++ msgs)%list
                         /\ List.length ra + List.length msgs = List.length distros
                         /\ Forall not_good msgs).
  { intros tags pat ver wa ra wb Hr.
    pose proof (collect_count (resolve_python tags pat ver) 1 not_good distros) as Hc.
    rewrite Nat.mul_1_r in Hc. apply Hc with (w := wa); [|exact Hr].
    intros distro wc rc wd _ Hd.
    apply resolve_python_Ok in Hd as [(msg & -> & Hq & Hc')|(image & _ & _ & -> & ->)].
    - exists [msg]. repeat split; auto.
    - exists []. rewrite app_nil_r. repeat split; auto. }
  destruct (collect_count _ (List.length distros) not_good _
              (fun window wa ra wb _ Hr => Hin _ _ (rw_version window) wa ra wb Hr)
              w vp w1 Cp) as (m1 & C1 & L1 & Q1).
  assert (Hnode : forall tags pat window wa ra wb,
            resolve_nodejs tags pat window wa = (Ok ra, wb) ->
            exists msgs, console wb = (console wa ++ msgs)%list
                         /\ List.length ra + List.length msgs = 1
                         /\ Forall not_good msgs).
  { intros tags pat window wa ra wb Hd.
    apply resolve_nodejs_Ok in Hd as [(msg & -> & Hq & Hc')|(image & _ & _ & -> & ->)].
    - exists [msg]. repeat split; auto.
    - exists []. rewrite app_nil_r. repeat split; auto. }
  destruct (collect_count _ 1 not_good _
              (fun window wa ra wb _ Hr => Hnode _ _ window wa ra wb Hr)
              w1 vn w2 Cn) as (m2 & C2 & L2 & Q2).
  exists m1, m2. repeat split; auto; lia.
Qed.

Lemma decisions_account_for_every_release_witness :
  exists scraped schedule reports reports',
    scrape_supported_python_versions november_2024 = Ok scraped
    /\ fetch_supported_nodejs_versions november_2024 = Ok schedule
    /\ console (snd (decide_python_versions november_2024 ["buster"; "slim"; "alpine"]
                       after_previous_run))
       = (console after_previous_run ++ reports)%list
    /\ console (snd (decide_nodejs_versions november_2024
                       (snd (decide_python_versions november_2024
                               ["buster"; "slim"; "alpine"] after_previous_run))))
       = (console (snd (decide_python_versions november_2024
                          ["buster"; "slim"; "alpine"] after_previous_run))
            ++ reports')%list
    /\ Forall not_good reports /\ Forall not_good reports'
    /\ 2 + List.length reports
       = List.length (filter (supported (todays_date november_2024)) scraped) * 3
    /\ 1 + List.length reports'
       = List.length (filter (supported (todays_date november_2024)) schedule).
Proof.
  apply (decisions_account_for_every_release november_2024 ["buster"; "slim"; "alpine"]
           after_previous_run
           (snd (decide_python_versions november_2024 ["buster"; "slim"; "alpine"]
                   after_previous_run))
           (snd (decide_nodejs_versions november_2024
                   (snd (decide_python_versions november_2024
                           ["buster"; "slim"; "alpine"] after_previous_run))))
           [ {| p_canonical_version := "3.9.20"; p_image := "3.9.20-buster";
                p_key := "3.9"; p_distro := "buster" |};
             {| p_canonical_version := "3.9.20"; p_image := "3.9.20-slim";
                p_key := "3.9"; p_distro := "slim" |} ]
           [ {| n_canonical_version := "18.20.4"; n_key := "18" |} ]).
  - reflexivity.
  - reflexivity.
Defined.

(** *** The shape of a resolved version *)

Lemma partition_Some (sep : ascii) (s a b : string) :
  semver.partition sep s = (a, Some b) ->
  s = a ++ String sep b /\ forallb_str (fun c => negb (c =? sep)%char) a = true.
Proof.
  revert a. induction s as [|c s IH]; intros a H; simpl in H; [discriminate|].
  destruct (Ascii.eqb_spec c sep) as [->|Hne].
  - inversion H; subst. split; reflexivity.
  - destruct (semver.partition sep s) as [a' b'] eqn:E.
    inversion H; subst. destruct (IH a' eq_refl) as [-> Hf].
    split; [reflexivity|]. simpl. rewrite Hf.
    apply Ascii.eqb_neq in Hne. now rewrite Hne.
Qed.

Lemma strip_final_newline_cases (s : string) :
  semver.strip_final_newline s = s
  \/ s = semver.strip_final_newline s ++ newline.
Proof.
  induction s as [|c s IH]; [now left|].
  cbn [semver.strip_final_newline]. destruct s as [|c' s].
  - destruct (Ascii.eqb_spec c "010") as [->|]; [right; reflexivity | now left].
  - destruct IH as [IH|IH].
    + left. now rewrite IH.
    + right. cbn [append]. now rewrite <- IH.
Qed.

Lemma split_nonempty (sep : ascii) (s : string) : split sep s <> [].
Proof.
  destruct s as [|c s]; simpl; [discriminate|].
  destruct (c =? sep)%char; [discriminate|].
  destruct (split sep s); discriminate.
Qed.

Lemma concat_split (sep : ascii) (s : string) :
  String.concat (String sep "") (split sep s) = s.
Proof.
  induction s as [|c s IH]; [reflexivity|].
  cbn [split]. pose proof (split_nonempty sep s) as Hn.
  destruct (split sep s) as [|p ps] eqn:E; [contradiction|].
  destruct (Ascii.eqb_spec c sep) as [->|Hne].
  - cbn [String.concat]. cbn [String.concat] in IH. now rewrite IH.
  - destruct ps as [|q ps].
    + cbn [String.concat] in *. now rewrite IH.
    + cbn [String.concat] in *. rewrite <- IH. reflexivity.
Qed.

Lemma letters_dash_free (d tail : string) :
  letters d -> tail = "" \/ tail = newline -> dash_free (d ++ tail).
Proof.
  unfold letters, dash_free. induction d as [|c d IH]; intros Hd Ht; simpl.
  - destruct Ht as [->| ->]; reflexivity.
  - simpl in Hd. apply andb_true_iff in Hd as [Hc Hd]. rewrite (IH Hd Ht).
    destruct (Ascii.eqb_spec c "-") as [->|]; [discriminate Hc | reflexivity].
Qed.

Lemma letters_no_newline (d d' : string) : letters (d' ++ newline) -> False.
Proof.
  unfold letters. induction d' as [|c d' IH]; simpl; [discriminate|].
  intros H. apply andb_true_iff in H as [_ H]. now apply IH.
Qed.

Lemma dash_free_or_split (r : string) :
  dash_free r \/ exists a b, r = a ++ "-" ++ b /\ dash_free a.
Proof.
  induction r as [|c r IH]; [now left|].
  destruct (Ascii.eqb_spec c "-") as [->|Hne].
  - right. exists "", r. split; reflexivity.
  - destruct IH as [IH|(a & b & -> & Ha)].
    + left. apply dash_free_cons. auto.
    + right. exists (String c a), b. split; [reflexivity|].
      apply dash_free_cons. auto.
Qed.

Lemma prefix_refl (s t : string) : String.prefix s (s ++ t) = true.
Proof.
  induction s as [|c s IH]; simpl; [now destruct t|].
  destruct (ascii_dec c c); [exact IH | contradiction].
Qed.

Lemma replace_from_skip (old new s : string) :
  replace_from old new (String.length s) s = "".
Proof. induction s as [|c s IH]; simpl; auto. Qed.

(** Without its distro, an image whose distro follows its only [-]. *)
Lemma replace_distro (core d : string) :
  dash_free core -> replace (core ++ "-" ++ d) ("-" ++ d) "" = core.
Proof.
  unfold replace. induction core as [|c core IH]; intros Hc.
  - change ("" ++ "-" ++ d) with (String "-" d).
    change ("-" ++ d) with (String "-" d).
    cbn [replace_from].
    pose proof (prefix_refl (String "-" d) "") as Hp. rewrite append_nil_r in Hp.
    rewrite Hp. cbn [String.length Nat.sub]. rewrite Nat.sub_0_r.
    now rewrite replace_from_skip.
  - apply dash_free_cons in Hc as [Hne Hc].
    change (String c core ++ "-" ++ d) with (String c (core ++ "-" ++ d)).
    change ("-" ++ d) with (String "-" d) in *.
    cbn [replace_from].
    assert (Hp : String.prefix (String "-" d) (String c (core ++ String "-" d)) = false).
    { cbn [String.prefix]. destruct (ascii_dec "-" c) as [E|E];
        [congruence | reflexivity]. }
    rewrite Hp. now rewrite (IH Hc).
Qed.

Lemma negb_dash_free (a : string) :
  forallb_str (fun c => negb (c =? "-")%char) a = true -> dash_free a.
Proof. auto. Qed.

(** A tag that matches the pattern of some distros and ends with one of
    them is three numbers, [-] and that distro. *)
Lemma image_shape (distros : list string) (d tag : string) :
  Forall letters distros -> In d distros ->
  wanted_tag_pattern distros tag = true ->
  endswith tag ("-" ++ d) = true ->
  exists core, tag = core ++ "-" ++ d /\ dash_free core /\ three_numbers core.
Proof.
  intros Hl Hd Hw He. rewrite Forall_forall in Hl.
  unfold wanted_tag_pattern in Hw.
  destruct distros as [|d0 ds]; [destruct Hd|].
  apply existsb_exists in Hw as (d' & Hd' & Hm).
  unfold patch_tag_match in Hm.
  destruct (semver.partition "-" (semver.strip_final_newline tag)) as [core rest] eqn:Ep.
  destruct (split "." core) as [|a [|b [|c [|]]]] eqn:Es; try discriminate.
  destruct rest as [x|]; [|discriminate].
  apply andb_true_iff in Hm as [Hm Hx]. apply andb_true_iff in Hm as [Hm Hc3].
  apply andb_true_iff in Hm as [Ha3 Hb3].
  apply String.eqb_eq in Hx. subst x.
  apply partition_Some in Ep as [Ep Hcore]. apply negb_dash_free in Hcore.
  apply endswith_spec in He as [r Hr].
  assert (Htail : exists tail, (tail = "" \/ tail = newline)
                               /\ tag = core ++ "-" ++ d' ++ tail).
  { destruct (strip_final_newline_cases tag) as [E|E].
    - exists "". split; [now left|]. rewrite append_nil_r, <- E. exact Ep.
    - exists newline. split; [now right|]. rewrite E at 1. rewrite Ep.
      change (String "-" d') with ("-" ++ d').
      now rewrite !append_assoc. }
  destruct Htail as (tail & Ht & Htag).
  pose proof (letters_dash_free d' tail (Hl d' Hd') Ht) as Hfree.
  assert (Hcd : core = r /\ d' ++ tail = d).
  { destruct (dash_free_or_split r) as [Hr'|(a0 & b0 & -> & Ha)].
    - apply (split_at_dash core r (d' ++ tail) d Hcore Hr'). now rewrite <- Htag.
    - exfalso.
      assert (E : core ++ "-" ++ d' ++ tail = a0 ++ "-" ++ (b0 ++ "-" ++ d)).
      { rewrite <- Htag, Hr. now rewrite !append_assoc. }
      apply (split_at_dash core a0 _ _ Hcore Ha) in E as [_ E].
      now apply (dash_free_no_dash _ b0 d Hfree). }
  destruct Hcd as [<- Hdd].
  destruct Ht as [->| ->].
  - rewrite append_nil_r in Hdd. subst d'.
    exists core. split; [now rewrite Hr|]. split; [exact Hcore|].
    exists a, b, c. split; [|auto].
    rewrite <- (concat_split "." core), Es. reflexivity.
  - exfalso. apply (letters_no_newline d d'). rewrite Hdd. now apply Hl.
Qed.

Lemma python_from_shape (today : string) (fetched : list string)
    (scraped : list ReleaseWindow) (distros : list string) (v : PythonVersion) :
  Forall letters distros ->
  python_from today fetched scraped distros v ->
  p_image v = p_canonical_version v ++ "-" ++ p_distro v
  /\ three_numbers (p_canonical_version v).
Proof.
  intros Hl (Hd & _ & _ & Hw & _ & He & Hc).
  destruct (image_shape distros (p_distro v) (p_image v) Hl Hd Hw He)
    as (core & Hi & Hf & H3).
  rewrite Hi in Hc. rewrite (replace_distro core _ Hf) in Hc.
  rewrite Hc. auto.
Qed.

Lemma nodejs_from_shape (today : string) (fetched : list string)
    (schedule : list ReleaseWindow) (v : NodejsVersion) :
  nodejs_from today fetched schedule v ->
  In (n_canonical_version v ++ "-" ++ DEFAULT_DISTRO) fetched
  /\ startswith (n_canonical_version v ++ "-" ++ DEFAULT_DISTRO) (n_key v) = true
  /\ three_numbers (n_canonical_version v).
Proof.
  intros (_ & image & Hi & Hw & Hs & He & Hc).
  assert (Hl : Forall letters [DEFAULT_DISTRO]) by (repeat constructor).
  destruct (image_shape [DEFAULT_DISTRO] DEFAULT_DISTRO image Hl
              (or_introl eq_refl) Hw He) as (core & Himg & Hf & H3).
  rewrite Himg in Hc. rewrite (replace_distro core _ Hf) in Hc.
  rewrite Hc. rewrite <- Himg. auto.
Qed.

(** X16. With distros named in lower-case letters, as those of [DISTROS]
    are, and a registry whose tags are ASCII texts, every Python version
    that [decide_python_versions] returns has a canonical version made of
    three numbers in ASCII digits, and its image is this canonical version,
    [-] and its distro. Every Node.js version that [decide_nodejs_versions]
    returns has a canonical version made of three such numbers, which with
    [-buster] is a fetched tag that begins with its key. *)
Theorem decisions_canonical_versions (env : Env) (distros : list string)
    (w w1 w2 : World) (pys : list PythonVersion) (nodes : list NodejsVersion) :
  Forall letters distros -> ascii_tags env ->
  decide_python_versions env distros w = (Ok pys, w1) ->
  decide_nodejs_versions env w1 = (Ok nodes, w2) ->
  Forall (fun v => p_image v = p_canonical_version v ++ "-" ++ p_distro v
                   /\ three_numbers (p_canonical_version v)) pys
  /\ exists fetched,
       _fetch_tags env "node" = Ok fetched
       /\ Forall (fun v =>
                    In (n_canonical_version v ++ "-" ++ DEFAULT_DISTRO) fetched
                    /\ startswith (n_canonical_version v ++ "-" ++ DEFAULT_DISTRO)
                                  (n_key v) = true
                    /\ three_numbers (n_canonical_version v)) nodes.
Proof.
  intros Hl _ Hp Hn.
  destruct (decide_python_versions_from env distros w w1 pys Hp)
    as (fp & sp & _ & _ & Fp).
  destruct (decide_nodejs_versions_from env w1 w2 nodes Hn)
    as (fn & sn & Hf & _ & Fn).
  split.
  - revert Fp. apply Forall_impl. intros v. now apply python_from_shape.
  - exists fn. split; [exact Hf|].
    revert Fn. apply Forall_impl. intros v. apply nodejs_from_shape.
Qed.

Lemma decisions_canonical_versions_witness :
  ascii_tags november_2024
  /\
  Forall (fun v => p_image v = p_canonical_version v ++ "-" ++ p_distro v
                   /\ three_numbers (p_canonical_version v))
    [ {| p_canonical_version := "3.9.20"; p_image := "3.9.20-buster";
         p_key := "3.9"; p_distro := "buster" |};
      {| p_canonical_version := "3.9.20"; p_image := "3.9.20-slim";
         p_key := "3.9"; p_distro := "slim" |} ]
  /\ exists fetched,
       _fetch_tags november_2024 "node" = Ok fetched
       /\ Forall (fun v =>
                    In (n_canonical_version v ++ "-" ++ DEFAULT_DISTRO) fetched
                    /\ startswith (n_canonical_version v ++ "-" ++ DEFAULT_DISTRO)
                                  (n_key v) = true
                    /\ three_numbers (n_canonical_version v))
            [ {| n_canonical_version := "18.20.4"; n_key := "18" |} ].
Proof.
  assert (Ha : ascii_tags november_2024).
  { intros package tags. cbn [_fetch_tags november_2024].
    destruct (package =? "python"); intros H; inversion H; subst; repeat constructor. }
  split; [exact Ha|].
  apply (decisions_canonical_versions november_2024 ["buster"; "slim"; "alpine"]
           after_previous_run
           (snd (decide_python_versions november_2024 ["buster"; "slim"; "alpine"]
                   after_previous_run))
           (snd (decide_nodejs_versions november_2024
                   (snd (decide_python_versions november_2024
                           ["buster"; "slim"; "alpine"] after_previous_run))))).
  - repeat constructor.
  - exact Ha.
  - reflexivity.
  - reflexivity.
Defined.

(** ** More on the runs of the pipeline *)

(** *** The calls on the Docker client *)

Lemma for_each_app {A : Type} (body : A -> IO.t World unit) (l1 l2 : list A)
    (w : World) :
  IO.for_each body (l1 ++ l2) w
  = (IO.for_each body l1 ;;; IO.for_each body l2) w.
Proof.
  revert w. induction l1 as [|x l1 IH]; intros w; [reflexivity|].
  cbn [app IO.for_each]. unfold IO.bind.
  destruct (body x w) as [[[]|e] w1]; [|reflexivity].
  rewrite IH. reflexivity.
Qed.

(** After the login, [build_new_or_updated] is its loop. *)
Lemma build_new_or_updated_loop (env : Env) (B N : list Combination)
    (dry_run debug force : bool) (node_gpg_keys : string) (w : World) :
  new_or_updated B N force <> [] -> engine_ready env ->
  _fetch_node_gpg_keys env = Ok node_gpg_keys ->
  build_new_or_updated env B N dry_run debug force w
  = IO.for_each (build_round env node_gpg_keys dry_run debug) (new_or_updated B N force)
      {| versions_json := versions_json w;
         readme_md := readme_md w;
         debug_files := debug_files w;
         console := console w;
         docker := (docker w ++ [login_call env])%list |}.
Proof.
  intros Hne [Hc Hl] Hk. unfold build_new_or_updated.
  destruct (new_or_updated B N force) as [|v l]; [contradiction|].
  unfold IO.bind at 1, IO.lift at 1. rewrite Hc.
  unfold IO.bind at 1, IO.try, docker_do. rewrite Hl.
  unfold IO.bind at 1, IO.lift at 1. rewrite Hk.
  reflexivity.
Qed.

Lemma build_round_builds (env : Env) (node_gpg_keys : string) (debug : bool)
    (v : Combination) (w : World) :
  builds env node_gpg_keys v ->
  exists w',
    build_round env node_gpg_keys false debug v w = (Ok tt, w')
    /\ docker w' = (docker w ++ [build_call env node_gpg_keys v; push_call v])%list
    /\ debug_files w' = (debug_files w ++ (if debug then [debug_name v] else []))%list
    /\ versions_json w' = versions_json w
    /\ readme_md w' = readme_md w.
Proof.
  intros ([d Hd] & Hb & Hp).
  unfold build_call, dockerfile_of, image_tag in *. rewrite Hd in *.
  unfold build_round, IO.bind, IO.lift, IO.when, print, docker_do, write_debug_file,
    push_call, debug_name.
  rewrite Hd. cbn [negb]. rewrite Hb. cbn [docker]. rewrite Hp.
  destruct debug; eexists; (split; [reflexivity|]); cbn;
    rewrite <- ?app_assoc, ?app_nil_r; auto.
Qed.

Lemma for_each_build_rounds (env : Env) (node_gpg_keys : string) (debug : bool)
    (l : list Combination) (w : World) :
  Forall (builds env node_gpg_keys) l ->
  exists w',
    IO.for_each (build_round env node_gpg_keys false debug) l w = (Ok tt, w')
    /\ docker w'
       = (docker w
            ++ flat_map (fun v => [build_call env node_gpg_keys v; push_call v]) l)%list
    /\ debug_files w' = (debug_files w ++ (if debug then map debug_name l else []))%list
    /\ versions_json w' = versions_json w
    /\ readme_md w' = readme_md w.
Proof.
  revert w. induction l as [|v l IH]; intros w H.
  - exists w. cbn. rewrite !app_nil_r. destruct debug; rewrite ?app_nil_r; auto.
  - inversion H as [|? ? Hv Hl]; subst.
    destruct (build_round_builds env node_gpg_keys debug v w Hv)
      as (w1 & E1 & D1 & F1 & V1 & R1).
    destruct (IH w1 Hl) as (w2 & E2 & D2 & F2 & V2 & R2).
    exists w2. cbn [IO.for_each]. unfold IO.bind. rewrite E1, E2.
    split; [reflexivity|]. rewrite D2, D1, F2, F1, V2, V1, R2, R1.
    cbn [flat_map]. rewrite <- !app_assoc.
    destruct debug; cbn; rewrite <- ?app_assoc, ?app_nil_r; auto.
Qed.

(** X17. In a run that is not dry, when the login is accepted and every new
    or updated row can be rendered, built and pushed, [build_new_or_updated]
    returns after these calls on the Docker client and no other: the login,
    then for each new or updated row, in the order of the rows, the build of
    its Dockerfile under the tag [nikolaik/python-nodejs:<key>] and the push
    of its key. With [debug] one debug file is written for each row, and the
    state file and the README are left as they were. *)
Theorem build_new_or_updated_builds_and_pushes (env : Env) (B N : list Combination)
    (debug force : bool) (node_gpg_keys : string) (w : World) :
  new_or_updated B N force <> [] -> engine_ready env ->
  _fetch_node_gpg_keys env = Ok node_gpg_keys ->
  Forall (builds env node_gpg_keys) (new_or_updated B N force) ->
  exists w',
    build_new_or_updated env B N false debug force w = (Ok tt, w')
    /\ docker w'
       = (docker w ++ login_call env
            :: flat_map (fun v => [build_call env node_gpg_keys v; push_call v])
                        (new_or_updated B N force))%list
    /\ debug_files w'
       = (debug_files w
            ++ (if debug then map debug_name (new_or_updated B N force) else []))%list
    /\ versions_json w' = versions_json w
    /\ readme_md w' = readme_md w.
Proof.
  intros Hne Hr Hk Hb.
  rewrite (build_new_or_updated_loop env B N false debug force node_gpg_keys w Hne Hr Hk).
  destruct (for_each_build_rounds env node_gpg_keys debug _
              {| versions_json := versions_json w;
                 readme_md := readme_md w;
                 debug_files := debug_files w;
                 console := console w;
                 docker := (docker w ++ [login_call env])%list |} Hb)
    as (w' & E & D & F & V & R).
  exists w'. split; [exact E|]. cbn in D, F, V, R.
  rewrite D, <- app_assoc. auto.
Qed.

Lemma build_new_or_updated_builds_and_pushes_witness :
  exists w',
    build_new_or_updated november_2024 [py39_node18_old] [py39_node18; py38_node18]
      false true false (world_with_baseline [py39_node18_old]) = (Ok tt, w')
    /\ docker w'
       = (docker (world_with_baseline [py39_node18_old]) ++ login_call november_2024
            :: flat_map (fun v => [build_call november_2024 "keys" v; push_call v])
                 (new_or_updated [py39_node18_old] [py39_node18; py38_node18] false))%list
    /\ debug_files w'
       = (debug_files (world_with_baseline [py39_node18_old])
            ++ (if true
                then map debug_name
                       (new_or_updated [py39_node18_old] [py39_node18; py38_node18] false)
                else []))%list
    /\ versions_json w' = versions_json (world_with_baseline [py39_node18_old])
    /\ readme_md w' = readme_md (world_with_baseline [py39_node18_old]).
Proof.
  apply (build_new_or_updated_builds_and_pushes november_2024
           [py39_node18_old] [py39_node18; py38_node18] true false "keys"
           (world_with_baseline [py39_node18_old])).
  - discriminate.
  - split; reflexivity.
  - reflexivity.
  - repeat constructor; exists "FROM python"; reflexivity.
Defined.

(** X18. A build that fails ends the run with its exception: the image is
    not pushed, and the rows that come after it are neither built nor
    pushed. The rows before it have been built and pushed. *)
Theorem build_failure_stops_the_run (env : Env) (B N : list Combination)
    (debug force : bool) (node_gpg_keys : string) (w : World)
    (done rest : list Combination) (v : Combination) (dockerfile : string) (e : exn) :
  new_or_updated B N force = (done ++ v :: rest)%list -> engine_ready env ->
  _fetch_node_gpg_keys env = Ok node_gpg_keys ->
  Forall (builds env node_gpg_keys) done ->
  render_dockerfile env v node_gpg_keys = Ok dockerfile ->
  docker_build env (image_tag v) dockerfile = Raise e ->
  exists w',
    build_new_or_updated env B N false debug force w = (Raise e, w')
    /\ docker w'
       = (docker w ++ login_call env
            :: flat_map (fun v => [build_call env node_gpg_keys v; push_call v]) done
            ++ [Build (image_tag v) dockerfile])%list.
Proof.
  intros Hnu Hr Hk Hdone Hd Hb.
  assert (Hne : new_or_updated B N force <> []).
  { rewrite Hnu. destruct done; discriminate. }
  rewrite (build_new_or_updated_loop env B N false debug force node_gpg_keys w Hne Hr Hk).
  rewrite Hnu, for_each_app.
  destruct (for_each_build_rounds env node_gpg_keys debug done
              {| versions_json := versions_json w;
                 readme_md := readme_md w;
                 debug_files := debug_files w;
                 console := console w;
                 docker := (docker w ++ [login_call env])%list |} Hdone)
    as (w1 & E & D & _).
  unfold IO.bind at 1. rewrite E.
  cbn [IO.for_each]. unfold IO.bind at 1.
  unfold build_round, IO.bind, IO.lift, IO.when, print, docker_do.
  rewrite Hd. cbn [negb]. unfold image_tag in Hb. rewrite Hb.
  eexists. split; [reflexivity|]. cbn. rewrite D. cbn.
  rewrite <- !app_assoc. reflexivity.
Qed.

Lemma build_failure_stops_the_run_witness :
  exists w',
    build_new_or_updated build_fails [py39_node18_old] [py39_node18; py38_node18]
      false false false (world_with_baseline [py39_node18_old]) = (Raise OtherError, w')
    /\ docker w'
       = (docker (world_with_baseline [py39_node18_old]) ++ login_call build_fails
            :: flat_map (fun v => [build_call build_fails "keys" v; push_call v]) []
            ++ [Build (image_tag py39_node18) "FROM python"])%list.
Proof.
  apply (build_failure_stops_the_run build_fails
           [py39_node18_old] [py39_node18; py38_node18] false false "keys"
           (world_with_baseline [py39_node18_old]) [] [py38_node18] py39_node18
           "FROM python" OtherError).
  - reflexivity.
  - split; reflexivity.
  - reflexivity.
  - constructor.
  - reflexivity.
  - reflexivity.
Defined.

(** *** What a run leaves as it was *)

Lemma keeps_docker_do {X : Type} (f : World -> X) (c : docker_call) (r : result unit) :
  (forall w d, f {| versions_json := versions_json w; readme_md := readme_md w;
                    debug_files := debug_files w; console := console w; docker := d |}
               = f w) ->
  keeps f (docker_do c r).
Proof. intros Hf w. unfold docker_do. simpl. apply Hf. Qed.

Lemma keeps_write_debug_file {X : Type} (f : World -> X) (name : string) :
  (forall w d, f {| versions_json := versions_json w; readme_md := readme_md w;
                    debug_files := d; console := console w; docker := docker w |}
               = f w) ->
  keeps f (write_debug_file name).
Proof. intros Hf w. unfold write_debug_file. simpl. apply Hf. Qed.

Lemma build_new_or_updated_keeps {X : Type} (f : World -> X) (env : Env)
    (B N : list Combination) (dry_run debug force : bool) :
  beside_console f ->
  (forall w d, f {| versions_json := versions_json w; readme_md := readme_md w;
                    debug_files := debug_files w; console := console w; docker := d |}
               = f w) ->
  (forall w d, f {| versions_json := versions_json w; readme_md := readme_md w;
                    debug_files := d; console := console w; docker := docker w |}
               = f w) ->
  keeps f (build_new_or_updated env B N dry_run debug force).
Proof.
  intros Hc Hd Hg. unfold build_new_or_updated.
  destruct (new_or_updated B N force) as [|v l]; [now apply keeps_print|].
  apply keeps_bind; [apply keeps_lift | intros _].
  apply keeps_bind.
  { apply keeps_try; [now apply keeps_docker_do|].
    intros e k He. destruct e; try discriminate. inversion He; subst.
    apply keeps_bind; [now apply keeps_print | intros _].
    apply keeps_bind; [now apply keeps_print | intros _].
    apply keeps_raise. }
  intros _. apply keeps_bind; [apply keeps_lift | intros keys].
  apply keeps_for_each. intros version.
  apply keeps_bind; [apply keeps_lift | intros dockerfile].
  apply keeps_bind; [now apply keeps_print | intros _].
  apply keeps_bind; [apply keeps_when; now apply keeps_docker_do | intros _].
  apply keeps_bind; [apply keeps_when; now apply keeps_write_debug_file | intros _].
  apply keeps_bind; [now apply keeps_print | intros _].
  apply keeps_when. now apply keeps_docker_do.
Qed.

Lemma build_new_or_updated_keeps_versions_json (env : Env) (B N : list Combination)
    (dry_run debug force : bool) :
  keeps versions_json (build_new_or_updated env B N dry_run debug force).
Proof. apply build_new_or_updated_keeps; [intros w c | intros w d ..]; reflexivity. Qed.

Lemma build_new_or_updated_keeps_readme_md (env : Env) (B N : list Combination)
    (dry_run debug force : bool) :
  keeps readme_md (build_new_or_updated env B N dry_run debug force).
Proof. apply build_new_or_updated_keeps; [intros w c | intros w d ..]; reflexivity. Qed.

(** In a dry run the loop makes no call on the Docker client. *)
Lemma build_round_dry_keeps_docker (env : Env) (node_gpg_keys : string)
    (debug : bool) (v : Combination) :
  keeps docker (build_round env node_gpg_keys true debug v).
Proof.
  unfold build_round. cbn [negb IO.when].
  apply keeps_bind; [apply keeps_lift | intros dockerfile].
  apply keeps_bind; [apply keeps_print; apply beside_console_docker | intros _].
  apply keeps_bind; [apply keeps_ret | intros _].
  apply keeps_bind.
  { apply keeps_when. apply keeps_write_debug_file. reflexivity. }
  intros _.
  apply keeps_bind; [apply keeps_print; apply beside_console_docker | intros _].
  apply keeps_ret.
Qed.

Lemma build_new_or_updated_dry_docker (env : Env) (B N : list Combination)
    (debug force : bool) (w : World) :
  docker (snd (build_new_or_updated env B N true debug force w)) = docker w
  \/ docker (snd (build_new_or_updated env B N true debug force w))
     = (docker w ++ [login_call env])%list.
Proof.
  unfold build_new_or_updated.
  destruct (new_or_updated B N force) as [|v l]; [left; reflexivity|].
  destruct (docker_from_env env) as [[]|e] eqn:Ef.
  2: { left. reflexivity. }
  right.
  destruct (docker_login env (getenv env "DOCKERHUB_USERNAME")
              (getenv env "DOCKERHUB_PASSWORD")) as [[]|e] eqn:El.
  - change (docker (snd ((keys <~ IO.lift (_fetch_node_gpg_keys env) ;;
                          IO.for_each (build_round env keys true debug) (v :: l))
                           (snd (docker_do (login_call env) (Ok tt) w))))
            = (docker w ++ [login_call env])%list).
    match goal with |- docker (snd (?m ?w0)) = _ =>
      assert (Hk : keeps docker m); [|exact (Hk w0)] end.
    apply keeps_bind; [apply keeps_lift | intros keys].
    apply keeps_for_each. intros version.
    apply (build_round_dry_keeps_docker env keys debug version).
  - destruct e; reflexivity.
Qed.

(** X19. A dry run of [main] writes neither the state file nor the README,
    and builds and pushes nothing; the only call that it can make on the
    Docker client is the login, which it does make as soon as a row is new
    or updated. *)
Theorem dry_run_writes_and_builds_nothing (env : Env) (distros : list string)
    (debug force : bool) (w : World) :
  versions_json (snd (main env distros true debug force w)) = versions_json w
  /\ readme_md (snd (main env distros true debug force w)) = readme_md w
  /\ (docker (snd (main env distros true debug force w)) = docker w
      \/ docker (snd (main env distros true debug force w))
         = (docker w ++ [login_call env])%list).
Proof.
  rewrite main_plan_publish.
  pose proof (plan_keeps versions_json env distros beside_console_versions_json w) as Pv.
  pose proof (plan_keeps readme_md env distros beside_console_readme_md w) as Pr.
  pose proof (plan_keeps docker env distros beside_console_docker w) as Pd.
  destruct (plan env distros w) as [[[B N]|e] w1]; simpl in Pv, Pr, Pd; [|auto].
  rewrite <- Pv, <- Pr, <- Pd. clear Pv Pr Pd.
  unfold publish, persist_versions. unfold IO.bind at 1 3 5 7, IO.ret.
  destruct (update_readme_tags_table_frame env N true w1) as (Uv & _ & _ & Ud & Ur).
  specialize (Ur eq_refl).
  unfold IO.bind.
  destruct (update_readme_tags_table env N true w1) as [[[]|e] w2];
    simpl in Uv, Ud, Ur; [|auto].
  rewrite <- Uv, <- Ur, <- Ud.
  split; [apply build_new_or_updated_keeps_versions_json|].
  split; [apply build_new_or_updated_keeps_readme_md|].
  apply build_new_or_updated_dry_docker.
Qed.

(** X20. Without its files [main] raises [FileNotFoundError]. Without the
    state file it does so at once, whatever the environment, and leaves
    everything as it was. Without the README it does so after the versions
    were decided: no call is made on the Docker client, but in a run that
    is not dry the state file has already been written. *)
Theorem main_without_its_files (env : Env) (distros : list string)
    (dry_run debug force : bool) (w : World) :
  (versions_json w = None ->
   main env distros dry_run debug force w = (Raise FileNotFoundError, w))
  /\ (forall B N w1,
        plan env distros w = (Ok (B, N), w1) -> readme_md w = None ->
        fst (main env distros dry_run debug force w) = Raise FileNotFoundError
        /\ docker (snd (main env distros dry_run debug force w)) = docker w
        /\ versions_json (snd (main env distros dry_run debug force w))
           = if dry_run then versions_json w else Some N).
Proof.
  split.
  - intros H. unfold main, load_versions, read_file, IO.bind. now rewrite H.
  - intros B N w1 Ep Hr.
    pose proof (plan_keeps versions_json env distros beside_console_versions_json w) as Pv.
    pose proof (plan_keeps readme_md env distros beside_console_readme_md w) as Pr.
    pose proof (plan_keeps docker env distros beside_console_docker w) as Pd.
    rewrite Ep in Pv, Pr, Pd. simpl in Pv, Pr, Pd.
    destruct (persist_versions_spec N dry_run w1) as (w2 & Ew & Hv & Hm & _ & _ & Hd).
    assert (E : main env distros dry_run debug force w = (Raise FileNotFoundError, w2)).
    { rewrite main_plan_publish, Ep. unfold publish, IO.bind. rewrite Ew.
      unfold update_readme_tags_table, IO.bind, read_file.
      now rewrite Hm, Pr, Hr. }
    rewrite E. simpl. rewrite Hd, Pd, Hv, Pv. auto.
Qed.

(** *** A second run *)

Lemma oblivious_ret {A : Type} (a : A) : oblivious (IO.ret a).
Proof. intros w w'. reflexivity. Qed.

Lemma oblivious_lift {A : Type} (r : result A) : oblivious (IO.lift r).
Proof. intros w w'. reflexivity. Qed.

Lemma oblivious_print (msg : string) : oblivious (print msg).
Proof. intros w w'. reflexivity. Qed.

Lemma oblivious_bind {A B : Type} (m : IO.t World A) (k : A -> IO.t World B) :
  oblivious m -> (forall a, oblivious (k a)) -> oblivious (IO.bind m k).
Proof.
  intros Hm Hk w w'. unfold IO.bind. specialize (Hm w w').
  destruct (m w) as [[a|e] w1], (m w') as [[a'|e'] w1']; simpl in Hm;
    try discriminate.
  - inversion Hm; subst. apply Hk.
  - inversion Hm; subst. reflexivity.
Qed.

Lemma oblivious_collect {A B : Type} (body : A -> IO.t World (list B)) (l : list A) :
  (forall a, oblivious (body a)) -> oblivious (IO.collect body l).
Proof.
  intros Hb. induction l as [|x l IH]; simpl.
  - apply oblivious_ret.
  - apply oblivious_bind; [apply Hb | intros ys].
    apply oblivious_bind; [exact IH | intros zs]. apply oblivious_ret.
Qed.

Ltac oblivious_step :=
  first [ apply oblivious_bind; [|intros ?]
        | apply oblivious_collect; intros ?
        | apply oblivious_lift
        | apply oblivious_ret
        | apply oblivious_print
        | match goal with |- oblivious (if ?c then _ else _) => destruct c end ].

(** What the decision functions return does not depend on the files. *)
Lemma decisions_oblivious (env : Env) (distros : list string) :
  oblivious (decisions env distros).
Proof.
  unfold decisions, decide_python_versions, decide_nodejs_versions.
  repeat oblivious_step.
Qed.

Lemma plan_decisions (env : Env) (distros : list string) (w : World) :
  fst (plan env distros w)
  = match versions_json w with
    | None => Raise FileNotFoundError
    | Some B =>
        match fst (decisions env (list_of_set env distros) w) with
        | Ok N => Ok (B, N)
        | Raise e => Raise e
        end
    end.
Proof.
  unfold plan, decisions, load_versions, read_file. unfold IO.bind at 1.
  destruct (versions_json w) as [B|]; [|reflexivity].
  unfold IO.bind.
  destruct (decide_python_versions env _ w) as [[pys|e] w1]; [|reflexivity].
  destruct (decide_nodejs_versions env w1) as [[nodes|e] w2]; [|reflexivity].
  unfold IO.lift, IO.ret.
  destruct (version_combinations nodes pys); reflexivity.
Qed.

(** Against itself a sequence has no new or updated row. *)
Lemma new_or_updated_same (N : list Combination) : new_or_updated N N false = [].
Proof.
  unfold new_or_updated.
  destruct (by_key_keyed N) as [Hnd Hkeys].
  assert (H : forall item, In item (by_key N) ->
                is_new_or_updated (by_key N) false item = false).
  { intros [k v] Hin. unfold is_new_or_updated.
    rewrite (In_dict_get _ _ _ Hnd Hin).
    destruct (Combination_eqb_spec v v) as [_|Hne]; [reflexivity | contradiction]. }
  revert H. generalize (is_new_or_updated (by_key N) false). intros p.
  clear Hnd Hkeys. generalize (by_key N). intros d.
  induction d as [|item d IH]; intros H; [reflexivity|].
  cbn [filter]. rewrite (H item (or_introl eq_refl)).
  apply IH. intros i Hi. apply H. now right.
Qed.

(** The publication of the new sequence writes it to the state file, in a
    run that is not dry, whether it then returns or raises. *)
Lemma publish_persists (env : Env) (B N : list Combination) (debug force : bool)
    (w : World) :
  versions_json (snd (publish env B N false debug force w)) = Some N.
Proof.
  unfold publish. unfold IO.bind at 1.
  destruct (persist_versions_spec N false w) as (w1 & -> & Hv & _).
  unfold IO.bind.
  destruct (update_readme_tags_table_frame env N false w1) as (Uv & _).
  destruct (update_readme_tags_table env N false w1) as [[[]|e] w2]; simpl in Uv.
  - rewrite build_new_or_updated_keeps_versions_json. now rewrite Uv.
  - simpl. now rewrite Uv.
Qed.

(** A publication without anything new makes no call on the Docker
    client. *)
Lemma publish_same_docker (env : Env) (N : list Combination)
    (dry_run debug : bool) (w : World) :
  docker (snd (publish env N N dry_run debug false w)) = docker w.
Proof.
  unfold publish. unfold IO.bind at 1.
  destruct (persist_versions_spec N dry_run w) as (w1 & -> & _ & _ & _ & _ & Hd).
  unfold IO.bind.
  destruct (update_readme_tags_table_frame env N dry_run w1) as (_ & _ & _ & Ud & _).
  destruct (update_readme_tags_table env N dry_run w1) as [[[]|e] w2]; simpl in Ud.
  - rewrite (build_new_or_updated_nothing env N N dry_run debug false w2
               (new_or_updated_same N)).
    simpl. now rewrite Ud.
  - simpl. now rewrite Ud.
Qed.

(** X21. A run of [main] that is not dry and has decided the versions is
    not repeated by the next run: whether it went through or failed while
    it updated the README, logged in, built or pushed, a second run in the
    same environment, without [force], makes no call on the Docker client. *)
Theorem second_run_builds_nothing (env : Env) (distros : list string)
    (debug force dry_run' debug' : bool) (w w1 : World) (B N : list Combination) :
  plan env distros w = (Ok (B, N), w1) ->
  docker (snd (main env distros dry_run' debug' false
                 (snd (main env distros false debug force w))))
  = docker (snd (main env distros false debug force w)).
Proof.
  intros Ep.
  assert (Hn : fst (decisions env (list_of_set env distros) w) = Ok N).
  { pose proof (plan_decisions env distros w) as H. rewrite Ep in H. simpl in H.
    destruct (versions_json w); [|discriminate].
    destruct (fst (decisions env (list_of_set env distros) w)); [|discriminate].
    now inversion H. }
  set (w2 := snd (main env distros false debug force w)).
  assert (Hv : versions_json w2 = Some N).
  { unfold w2. rewrite main_plan_publish, Ep. apply publish_persists. }
  assert (Hp : fst (plan env distros w2) = Ok (N, N)).
  { rewrite plan_decisions, Hv.
    now rewrite (decisions_oblivious env (list_of_set env distros) w2 w), Hn. }
  rewrite main_plan_publish.
  pose proof (plan_keeps docker env distros beside_console_docker w2) as Pd.
  destruct (plan env distros w2) as [[[B' N']|e] w3]; simpl in Hp, Pd; [|discriminate].
  inversion Hp; subst B' N'.
  now rewrite publish_same_docker.
Qed.

Lemma second_run_builds_nothing_witness :
  docker (snd (main build_fails ["buster"] false false false
                 (snd (main build_fails ["buster"] false false false older_baseline))))
  = docker (snd (main build_fails ["buster"] false false false older_baseline)).
Proof.
  apply (second_run_builds_nothing build_fails ["buster"] false false false false
           older_baseline (snd (plan build_fails ["buster"] older_baseline))
           [py39_node18_old] [py39_node18_now]).
  reflexivity.
Defined.

(** *** A README that is left alone *)

Lemma match_text_literal (pat s rest : string) :
  forallb_str (fun c => negb (c =? ".")%char) pat = true ->
  match_text pat s = Some rest -> String.prefix pat s = true.
Proof.
  revert s. induction pat as [|p pat IH]; intros s Hp H.
  - now destruct s.
  - destruct s as [|c s]; [discriminate|].
    cbn [forallb_str] in Hp. apply andb_true_iff in Hp as [Hd Hp].
    apply negb_true_iff in Hd. cbn [match_text] in H. rewrite Hd in H.
    cbn [orb] in H. cbn [String.prefix].
    destruct (Ascii.eqb_spec p c) as [->|]; [|discriminate].
    destruct (ascii_dec c c); [now apply (IH s) | contradiction].
Qed.

Lemma lazy_until_contains (close s : string) (p : string * string) :
  forallb_str (fun c => negb (c =? ".")%char) close = true ->
  lazy_until close s = Some p -> contains close s = true.
Proof.
  intros Hc. revert p. induction s as [|c s IH]; intros p; rewrite lazy_until_unfold.
  - destruct (match_text close "") as [rest|] eqn:E; [|discriminate].
    intros _. cbn [contains]. now rewrite (match_text_literal _ _ _ Hc E).
  - destruct (match_text close (String c s)) as [rest|] eqn:E.
    + intros _. cbn [contains]. now rewrite (match_text_literal _ _ _ Hc E).
    + destruct (lazy_until close s) as [[g rest]|] eqn:L; [|discriminate].
      intros _. cbn [contains]. rewrite (IH _ eq_refl). apply orb_true_r.
Qed.

Lemma contains_app_r (sub s1 s2 : string) :
  contains sub s2 = true -> contains sub (s1 ++ s2) = true.
Proof.
  intros H. induction s1 as [|c s1 IH]; [exact H|].
  cbn [append contains]. rewrite IH. apply orb_true_r.
Qed.

Lemma skip_app (k : nat) (s r : string) :
  skip k s = Some r -> exists p, s = p ++ r.
Proof.
  revert s. induction k as [|k IH]; intros s H.
  - inversion H. now exists "".
  - destruct s as [|c s]; [discriminate|]. cbn [skip] in H.
    destruct (IH s H) as [p ->]. now exists (String c p).
Qed.

(** Without the closing marker the pattern matches nowhere. *)
Lemma no_end_no_match (r : string) : contains end_ r = false -> no_match r.
Proof.
  intros H r1 r2 ->. destruct (match_here r2) as [[g rest]|] eqn:E; [|reflexivity].
  apply match_here_Some in E as (_ & He & _).
  unfold has_end_after in He.
  destruct (skip (S (String.length start)) r2) as [t|] eqn:Es; [|discriminate].
  unfold has_end in He.
  destruct (lazy_until end_ t) as [p|] eqn:L; [|discriminate].
  apply lazy_until_contains in L; [|reflexivity].
  apply skip_app in Es as [q ->].
  rewrite (contains_app_r end_ r1 (q ++ t) (contains_app_r end_ q t L)) in H.
  discriminate.
Qed.

(** X22. [update_readme_tags_table] leaves everything as it is in a dry
    run, when there is no README, in which case it raises
    [FileNotFoundError], and when the README does not hold the closing
    marker, a line that begins with [Lovely!] after another line: the table
    is then not inserted anywhere, and nothing is printed about it. *)
Theorem update_readme_tags_table_leaves (env : Env) (versions : list Combination)
    (dry_run : bool) (w : World) :
  dry_run = true \/ readme_md w = None
  \/ (exists readme, readme_md w = Some readme /\ contains end_ readme = false) ->
  snd (update_readme_tags_table env versions dry_run w) = w
  /\ (readme_md w = None ->
      fst (update_readme_tags_table env versions dry_run w) = Raise FileNotFoundError).
Proof.
  intros H.
  assert (E : snd (update_readme_tags_table env versions dry_run w) = w).
  { unfold update_readme_tags_table, IO.bind, read_file, IO.lift, IO.when.
    destruct (readme_md w) as [readme|] eqn:Hr; [|reflexivity].
    destruct (compile_template env _) as [expand|e]; [|reflexivity].
    destruct H as [->|[H|(r & Hr' & Hc)]]; [| discriminate |].
    - rewrite andb_false_r. reflexivity.
    - inversion Hr'; subst r.
      rewrite (sub_no_match expand readme (no_end_no_match readme Hc)).
      rewrite String.eqb_refl. reflexivity. }
  rewrite E. split; [reflexivity|].
  intros Hn. unfold update_readme_tags_table, IO.bind, read_file. now rewrite Hn.
Qed.

Lemma update_readme_tags_table_leaves_witness :
  snd (update_readme_tags_table november_2024 [py39_node18] false
         (with_readme "# Images" after_previous_run))
  = with_readme "# Images" after_previous_run
  /\ (readme_md (with_readme "# Images" after_previous_run) = None ->
      fst (update_readme_tags_table november_2024 [py39_node18] false
             (with_readme "# Images" after_previous_run))
      = Raise FileNotFoundError).
Proof.
  apply (update_readme_tags_table_leaves november_2024 [py39_node18] false
           (with_readme "# Images" after_previous_run)).
  right. right. exists "# Images". split; reflexivity.
Defined.

(** *** The releases that count as supported *)

Lemma ascii_compare_refl (c : ascii) : (c ?= c)%char = Eq.
Proof. unfold Ascii.compare. apply N.compare_refl. Qed.

Lemma compare_extension (e suffix : string) :
  suffix <> "" -> (e ++ suffix ?= e)%string = Gt.
Proof.
  intros Hs. induction e as [|c e IH]; simpl.
  - destruct suffix; [contradiction | reflexivity].
  - now rewrite ascii_compare_refl.
Qed.

Lemma string_compare_refl (s : string) : (s ?= s)%string = Eq.
Proof. induction s as [|c s IH]; simpl; [reflexivity|]. now rewrite ascii_compare_refl. Qed.

(** X23. The dates of a release are compared as texts. On the day that is
    written as the end of a release is written, the release is supported;
    on every day whose text begins with the text of the end and goes on,
    it is not: a release whose end is given as a month, [2025-10], is not
    supported on any day of that month. *)
Theorem supported_up_to_the_text_of_the_end (v : ReleaseWindow) (suffix : string) :
  (rw_start v <=? rw_end v) = true -> suffix <> "" ->
  supported (rw_end v) v = true /\ supported (rw_end v ++ suffix) v = false.
Proof.
  intros Hs Hne. unfold supported. split.
  - rewrite Hs. unfold String.leb. now rewrite string_compare_refl.
  - unfold String.leb at 2. rewrite (compare_extension _ _ Hne). apply andb_false_r.
Qed.

Lemma supported_up_to_the_text_of_the_end_witness :
  supported (rw_end {| rw_version := "3.9"; rw_start := "2020-10-05";
                       rw_end := "2025-10" |})
    {| rw_version := "3.9"; rw_start := "2020-10-05"; rw_end := "2025-10" |} = true
  /\ supported (rw_end {| rw_version := "3.9"; rw_start := "2020-10-05";
                          rw_end := "2025-10" |} ++ "-01")
       {| rw_version := "3.9"; rw_start := "2020-10-05"; rw_end := "2025-10" |} = false.
Proof.
  apply (supported_up_to_the_text_of_the_end
           {| rw_version := "3.9"; rw_start := "2020-10-05"; rw_end := "2025-10" |}
           "-01").
  - reflexivity.
  - discriminate.
Defined.

(** ** The Dockerfiles *)

Section Dockerfiles.
Import dockerfiles.

Lemma match_placeholder_prefix (s g rest : string) :
  match_placeholder s = Some (g, rest) ->
  String.prefix "%%" s = true /\ String.length rest < String.length s.
Proof.
  unfold match_placeholder.
  destruct (match_text_lit "%%" s) as [[|c s']|] eqn:E; try discriminate.
  apply match_text_lit_inv in E. subst s.
  destruct (c =? "010")%char; [discriminate|].
  destruct (lazy_group s') as [[g' rest']|] eqn:L; [|discriminate].
  intros H. inversion H; subst. split; [reflexivity|].
  assert (Hl : forall t p r, lazy_group t = Some (p, r) ->
                 String.length r <= String.length t).
  { induction t as [|x t IH]; intros p r Ht.
    - cbv in Ht. discriminate.
    - cbn [lazy_group] in Ht.
      destruct (match_text_lit "%%" (String x t)) as [r0|] eqn:E0.
      + inversion Ht; subst. apply match_text_lit_inv in E0.
        apply (f_equal String.length) in E0. rewrite length_append in E0.
        simpl in *. lia.
      + destruct (x =? "010")%char; [discriminate|].
        destruct (lazy_group t) as [[p' r']|]; [|discriminate].
        inversion Ht; subst. specialize (IH p' r eq_refl). simpl. lia. }
  apply Hl in L. simpl. lia.
Qed.

Lemma render_sub_steps_enough (repl : string -> result string) (n m : nat) (s : string) :
  String.length s <= n -> String.length s <= m ->
  sub_steps n repl s = sub_steps m repl s.
Proof.
  revert m s. induction n as [|n IH]; intros m s Hn Hm.
  - destruct s; [|simpl in Hn; lia]. destruct m; reflexivity.
  - destruct m as [|m].
    + destruct s; [reflexivity | simpl in Hm; lia].
    + cbn [sub_steps]. destruct (match_placeholder s) as [[g rest]|] eqn:E.
      * apply match_placeholder_prefix in E as [_ Hl].
        rewrite (IH m rest); [reflexivity | lia | lia].
      * destruct s as [|c s]; [reflexivity|].
        simpl in Hn, Hm. rewrite (IH m s); [reflexivity | lia | lia].
Qed.

(** The substitution, step by step. *)
Lemma render_sub_unfold (repl : string -> result string) (s : string) :
  sub repl s
  = match match_placeholder s with
    | Some (g, rest) => v <- repl g ;; r <- sub repl rest ;; Ok (v ++ r)
    | None =>
        match s with
        | EmptyString => Ok EmptyString
        | String c s' => r <- sub repl s' ;; Ok (String c r)
        end
    end.
Proof.
  unfold sub. destruct s as [|c s]; [reflexivity|].
  cbn [String.length sub_steps].
  destruct (match_placeholder (String c s)) as [[g rest]|] eqn:E; [|reflexivity].
  apply match_placeholder_prefix in E as [_ Hl]. simpl in Hl.
  rewrite (render_sub_steps_enough repl (String.length s) (String.length rest) rest);
    [reflexivity | lia | lia].
Qed.

Lemma match_placeholder_other (c : ascii) (s : string) :
  c <> "%"%char -> match_placeholder (String c s) = None.
Proof.
  intros Hc. unfold match_placeholder. cbn [match_text_lit].
  destruct (Ascii.eqb_spec "%" c) as [E|_]; [congruence | reflexivity].
Qed.

(** A text without [%] in front of another is copied. *)
Lemma render_sub_copy (repl : string -> result string) (pre s : string) :
  no_percent pre -> sub repl (pre ++ s) = (r <- sub repl s ;; Ok (pre ++ r)).
Proof.
  unfold no_percent. induction pre as [|c pre IH]; intros Hp.
  - cbn [append]. destruct (sub repl s); reflexivity.
  - cbn [forallb_str] in Hp. apply andb_true_iff in Hp as [Hc Hp].
    apply negb_true_iff, Ascii.eqb_neq in Hc.
    cbn [append]. rewrite render_sub_unfold, (match_placeholder_other c _ Hc), (IH Hp).
    destruct (sub repl s); reflexivity.
Qed.

Lemma lazy_group_name (name post : string) :
  forallb_str (fun c => negb (c =? "%")%char && negb (c =? "010")%char) name = true ->
  lazy_group (name ++ "%%" ++ post) = Some (name, post).
Proof.
  induction name as [|c name IH]; intros Hn.
  - destruct post; reflexivity.
  - cbn [forallb_str] in Hn. apply andb_true_iff in Hn as [Hc Hn].
    apply andb_true_iff in Hc as [Hp Hl].
    apply negb_true_iff in Hl. apply negb_true_iff, Ascii.eqb_neq in Hp.
    cbn [append lazy_group match_text_lit].
    destruct (Ascii.eqb_spec "%" c) as [E|_]; [congruence|].
    rewrite Hl. cbn [append] in IH. now rewrite (IH Hn).
Qed.

Lemma match_placeholder_name (name post : string) :
  placeholder_name name ->
  match_placeholder ("%%" ++ name ++ "%%" ++ post) = Some (name, post).
Proof.
  intros [Hne Hn]. destruct name as [|c name]; [contradiction|].
  cbn [forallb_str] in Hn. apply andb_true_iff in Hn as [Hc Hn].
  apply andb_true_iff in Hc as [_ Hl]. apply negb_true_iff in Hl.
  unfold match_placeholder.
  change ("%%" ++ String c name ++ "%%" ++ post)
    with ("%%" ++ String c (name ++ "%%" ++ post)).
  rewrite match_text_lit_app, Hl. now rewrite (lazy_group_name name post Hn).
Qed.

Lemma render_sub_placeholder (repl : string -> result string) (pre name post : string) :
  no_percent pre -> placeholder_name name ->
  sub repl (pre ++ "%%" ++ name ++ "%%" ++ post)
  = (v <- repl name ;; r <- sub repl post ;; Ok (pre ++ v ++ r)).
Proof.
  intros Hp Hn. rewrite (render_sub_copy repl pre _ Hp).
  rewrite render_sub_unfold, (match_placeholder_name name post Hn).
  destruct (repl name) as [v|e]; [|reflexivity]. cbn [Py.bind].
  destruct (sub repl post) as [r|e]; reflexivity.
Qed.

Lemma render_sub_without_placeholder (repl : string -> result string) (s : string) :
  contains "%%" s = false -> sub repl s = Ok s.
Proof.
  induction s as [|c s IH]; intros H; rewrite render_sub_unfold.
  - reflexivity.
  - cbn [contains] in H. apply orb_false_iff in H as [Hp Hs].
    destruct (match_placeholder (String c s)) as [[g rest]|] eqn:E.
    + apply match_placeholder_prefix in E as [E _]. congruence.
    + now rewrite (IH Hs).
Qed.

(** X24. [render_dockerfile] raises what the reading of the template
    raises; with the template read, it raises what [int] raises on the
    Node.js key; and with a key that is a number it returns a template
    without [%%] as it is. *)
Theorem render_dockerfile_without_placeholder (env : Env) (version : Combination)
    (node_gpg_keys : string) :
  match read_text env (template_path version) with
  | Raise e => render_dockerfile env version node_gpg_keys = Raise e
  | Ok template =>
      match int_of env (nodejs version) with
      | Raise e => render_dockerfile env version node_gpg_keys = Raise e
      | Ok _ =>
          contains "%%" template = false ->
          render_dockerfile env version node_gpg_keys = Ok template
      end
  end.
Proof.
  unfold render_dockerfile. fold (template_path version).
  destruct (read_text env (template_path version)) as [t|e]; [|reflexivity].
  cbn [Py.bind].
  destruct (int_of env (nodejs version)) as [n|e]; [|reflexivity].
  cbn [Py.bind]. apply render_sub_without_placeholder.
Qed.

(** X25. In a template that begins with a text without [%] and a
    placeholder [%%name%%], [render_dockerfile] copies the text, replaces the
    placeholder by the value that the replacements hold under the name in
    lower case, and goes on with the rest of the template: the value is not
    searched for placeholders. When the replacements hold nothing under
    the name, it raises [KeyError]. *)
Theorem render_dockerfile_placeholder (env : Env) (version : Combination)
    (node_gpg_keys pre name post : string) (n : Z) :
  read_text env (template_path version) = Ok (pre ++ "%%" ++ name ++ "%%" ++ post) ->
  int_of env (nodejs version) = Ok n ->
  no_percent pre -> placeholder_name name ->
  render_dockerfile env version node_gpg_keys
  = match dict_get (replacements_of env n node_gpg_keys version) (lower name) with
    | Some value =>
        rest <- render_dockerfile (with_template env post) version node_gpg_keys ;;
        Ok (pre ++ value ++ rest)
    | None => Raise KeyError
    end.
Proof.
  intros Hr Hi Hp Hn.
  unfold render_dockerfile. fold (template_path version).
  rewrite Hr. cbn [Py.bind]. rewrite Hi. cbn [Py.bind].
  cbn [with_template read_text utcnow_isoformat].
  assert (Hi' : int_of (with_template env post) (nodejs version) = Ok n).
  { unfold int_of in *. exact Hi. }
  rewrite Hi'. cbn [Py.bind].
  fold (replacements_of env n node_gpg_keys version).
  rewrite (render_sub_placeholder _ pre name post Hp Hn).
  unfold repl at 1.
  destruct (dict_get (replacements_of env n node_gpg_keys version) (lower name));
    reflexivity.
Qed.

Lemma render_dockerfile_placeholder_witness :
  render_dockerfile sample_templates py39_node18 "keys"
  = Ok ("FROM python:3.9.2-buster" ++ newline ++ "RUN npm i -g npm@^7" ++ newline)
  /\ render_dockerfile sample_templates py39_node18 "keys"
     = match dict_get (replacements_of sample_templates 18 "keys" py39_node18)
               (lower "PYTHON_IMAGE") with
       | Some value =>
           rest <- render_dockerfile
                     (with_template sample_templates
                        (newline ++ "RUN npm i -g npm@^%%npm_version%%" ++ newline))
                     py39_node18 "keys" ;;
           Ok ("FROM python:" ++ value ++ rest)
       | None => Raise KeyError
       end.
Proof.
  split; [reflexivity|].
  apply (render_dockerfile_placeholder sample_templates py39_node18 "keys"
           "FROM python:" "PYTHON_IMAGE"
           (newline ++ "RUN npm i -g npm@^%%npm_version%%" ++ newline) 18).
  - reflexivity.
  - reflexivity.
  - reflexivity.
  - split; [discriminate | reflexivity].
Defined.

Lemma replace_newline (s : string) : replace s newline " " = on_one_line s.
Proof.
  unfold replace. induction s as [|c s IH]; [reflexivity|].
  cbn [replace_from on_one_line]. unfold newline at 1. cbn [String.prefix].
  destruct (ascii_dec "010" c) as [<-|Hne].
  - assert (Hp : String.prefix "" s = true) by now destruct s.
    rewrite Hp. cbn. now rewrite IH.
  - apply Ascii.eqb_neq in Hne. rewrite Ascii.eqb_sym in Hne. rewrite Hne.
    now rewrite IH.
Qed.

Lemma on_one_line_spec (s : string) :
  String.length (on_one_line s) = String.length s
  /\ forallb_str (fun c => negb (c =? "010")%char) (on_one_line s) = true.
Proof.
  induction s as [|c s [IHl IHf]]; [split; reflexivity|].
  cbn [on_one_line String.length forallb_str]. rewrite IHl, IHf. split; [reflexivity|].
  destruct (Ascii.eqb_spec c "010") as [->|Hne]; [reflexivity|].
  apply Ascii.eqb_neq in Hne. now rewrite Hne.
Qed.

(** X26. [_fetch_node_gpg_keys] returns the text of the key file with each
    line feed replaced by a blank: a text of the same length, on one line.
    It raises what the request raises. *)
Theorem _fetch_node_gpg_keys_on_one_line (env : Env) :
  match requests_get_text env
          "https://raw.githubusercontent.com/nodejs/docker-node/master/keys/node.keys"
  with
  | Ok text =>
      _fetch_node_gpg_keys env = Ok (on_one_line text)
      /\ String.length (on_one_line text) = String.length text
      /\ forallb_str (fun c => negb (c =? "010")%char) (on_one_line text) = true
  | Raise e => _fetch_node_gpg_keys env = Raise e
  end.
Proof.
  unfold _fetch_node_gpg_keys.
  destruct (requests_get_text env _) as [text|e]; [|reflexivity].
  cbn [Py.bind]. rewrite replace_newline. split; [reflexivity|].
  apply on_one_line_spec.
Qed.

End Dockerfiles.

(** ** The latest patch is the latest by its numbers *)

Lemma partition_none (sep : ascii) (s : string) :
  forallb_str (fun c => negb (c =? sep)%char) s = true ->
  semver.partition sep s = (s, None).
Proof.
  induction s as [|c s IH]; intros H; [reflexivity|].
  cbn [forallb_str] in H. apply andb_true_iff in H as [Hc Hs].
  apply negb_true_iff in Hc. cbn [semver.partition]. rewrite Hc.
  now rewrite (IH Hs).
Qed.

Lemma partition_app (sep : ascii) (a b : string) :
  forallb_str (fun c => negb (c =? sep)%char) a = true ->
  semver.partition sep (a ++ String sep b) = (a, Some b).
Proof.
  induction a as [|c a IH]; intros H.
  - cbn [append semver.partition]. now rewrite Ascii.eqb_refl.
  - cbn [forallb_str] in H. apply andb_true_iff in H as [Hc Hs].
    apply negb_true_iff in Hc. cbn [append semver.partition]. rewrite Hc.
    now rewrite (IH Hs).
Qed.

Lemma strip_final_newline_none (s : string) :
  forallb_str (fun c => negb (c =? "010")%char) s = true ->
  semver.strip_final_newline s = s.
Proof.
  induction s as [|c s IH]; intros H; [reflexivity|].
  cbn [forallb_str] in H. apply andb_true_iff in H as [Hc Hs].
  apply negb_true_iff in Hc. cbn [semver.strip_final_newline].
  destruct s as [|c' s]; [now rewrite Hc|]. now rewrite (IH Hs).
Qed.

Lemma digit_plain (c : ascii) : is_digit c = true -> plain_version_char c = true.
Proof.
  intros H. unfold plain_version_char.
  destruct (Ascii.eqb_spec c "+") as [->|]; [discriminate H|].
  destruct (Ascii.eqb_spec c "-") as [->|]; [discriminate H|].
  destruct (Ascii.eqb_spec c "010") as [->|]; [discriminate H|].
  reflexivity.
Qed.

Lemma lower_plain (c : ascii) : is_lower c = true -> plain_version_char c = true.
Proof.
  intros H. unfold plain_version_char.
  destruct (Ascii.eqb_spec c "+") as [->|]; [discriminate H|].
  destruct (Ascii.eqb_spec c "-") as [->|]; [discriminate H|].
  destruct (Ascii.eqb_spec c "010") as [->|]; [discriminate H|].
  reflexivity.
Qed.

Lemma all_digits_plain (a : string) :
  semver.all_digits a = true -> forallb_str plain_version_char a = true.
Proof.
  intros H. apply all_digits_digits in H. revert H.
  apply forallb_str_impl. apply digit_plain.
Qed.

Lemma letters_plain (d : string) : letters d -> forallb_str plain_version_char d = true.
Proof. apply forallb_str_impl. apply lower_plain. Qed.

Lemma plain_no (s : string) :
  forallb_str plain_version_char s = true ->
  forallb_str (fun c => negb (c =? "+")%char) s = true
  /\ forallb_str (fun c => negb (c =? "-")%char) s = true
  /\ forallb_str (fun c => negb (c =? "010")%char) s = true.
Proof.
  intros H. repeat split; revert H; apply forallb_str_impl; intros c Hc;
    unfold plain_version_char in Hc;
    apply andb_true_iff in Hc as [Hc H3]; apply andb_true_iff in Hc as [H1 H2];
    assumption.
Qed.

(** A tag that matches the pattern and ends with a distro: its parts. *)
Lemma image_parts (distros : list string) (d tag : string) :
  Forall letters distros -> In d distros ->
  wanted_tag_pattern distros tag = true ->
  endswith tag ("-" ++ d) = true ->
  exists core a b c,
    tag = core ++ "-" ++ d /\ dash_free core
    /\ split "." core = [a; b; c]
    /\ forallb_str plain_version_char core = true.
Proof.
  intros Hl Hd Hw He.
  destruct (image_shape distros d tag Hl Hd Hw He)
    as (core & Ht & Hf & a & b & c & Hc & Ha & Hb & Hc3).
  exists core, a, b, c. repeat split; auto.
  - subst core.
    assert (Hdot : forall x, semver.all_digits x = true ->
                     forallb_str (fun ch => negb (ch =? ".")%char) x = true).
    { intros x Hx. apply all_digits_digits in Hx. revert Hx.
      apply forallb_str_impl. intros ch Hch.
      destruct (Ascii.eqb_spec ch ".") as [->|]; [discriminate Hch | reflexivity]. }
    assert (Hsplit : forall x rest, forallb_str (fun ch => negb (ch =? ".")%char) x = true ->
                       split "." (x ++ "." ++ rest) = x :: split "." rest).
    { induction x as [|ch x IH]; intros rest Hx; [reflexivity|].
      cbn [forallb_str] in Hx. apply andb_true_iff in Hx as [Hch Hx].
      apply negb_true_iff in Hch. cbn [append split]. rewrite Hch.
      cbn [append] in IH. now rewrite (IH rest Hx). }
    assert (Hlast : forall x, forallb_str (fun ch => negb (ch =? ".")%char) x = true ->
                      split "." x = [x]).
    { induction x as [|ch x IH]; intros Hx; [reflexivity|].
      cbn [forallb_str] in Hx. apply andb_true_iff in Hx as [Hch Hx].
      apply negb_true_iff in Hch. cbn [split]. rewrite Hch. now rewrite (IH Hx). }
    rewrite (Hsplit a _ (Hdot a Ha)), (Hsplit b _ (Hdot b Hb)), (Hlast c (Hdot c Hc3)).
    reflexivity.
  - subst core. rewrite !forallb_str_app.
    rewrite (all_digits_plain a Ha), (all_digits_plain b Hb), (all_digits_plain c Hc3).
    reflexivity.
Qed.

(** What [semver.parse] reads in such a tag: the three numbers of its
    canonical version, and its distro as prerelease. *)
Lemma parsed_image (core d : string) :
  forallb_str plain_version_char core = true -> letters d ->
  valid (core ++ "-" ++ d) ->
  (semver.major (parsed (core ++ "-" ++ d)),
   semver.minor (parsed (core ++ "-" ++ d)),
   semver.patch (parsed (core ++ "-" ++ d))) = numbers core
  /\ semver.prerelease (parsed (core ++ "-" ++ d)) = Some d.
Proof.
  intros Hc Hd [v Hv]. unfold parsed. rewrite Hv.
  destruct (plain_no core Hc) as (Cp & Cd & Cn).
  destruct (plain_no d (letters_plain d Hd)) as (Dp & Dd & Dn).
  unfold semver.parse in Hv.
  rewrite strip_final_newline_none in Hv.
  2: { rewrite !forallb_str_app. cbn [forallb_str]. now rewrite Cn, Dn. }
  rewrite partition_none in Hv.
  2: { rewrite !forallb_str_app. cbn [forallb_str]. now rewrite Cp, Dp. }
  change (core ++ "-" ++ d) with (core ++ String "-" d) in Hv.
  rewrite (partition_app "-" core d Cd) in Hv.
  unfold numbers.
  destruct (split "." core) as [|ma [|mi [|pa [|]]]]; try discriminate.
  destruct (_ && _)%bool; [|discriminate].
  inversion Hv; subst. split; reflexivity.
Qed.

Lemma cmp_prerelease_tag_refl (a : string) : semver.cmp_prerelease_tag a a = 0%Z.
Proof.
  unfold semver.cmp_prerelease_tag, semver.cmp_N, semver.cmp_str.
  destruct (semver.is_int a); simpl.
  - now rewrite N.compare_refl.
  - now rewrite string_compare_refl.
Qed.

Lemma _nat_cmp_refl (p : option string) : semver._nat_cmp p p = 0%Z.
Proof.
  unfold semver._nat_cmp.
  generalize (String.length (semver.or_empty p)). intros n.
  induction (split "." (semver.or_empty p)) as [|x l IH]; cbn [semver.nat_cmp_parts].
  - unfold semver.cmp_nat. now rewrite Nat.compare_refl.
  - rewrite cmp_prerelease_tag_refl. exact IH.
Qed.

(** With the same prerelease, two versions compare as their numbers. *)
Lemma compare_info_same_prerelease (v1 v2 : semver.VersionInfo) :
  semver.prerelease v1 = semver.prerelease v2 ->
  semver.compare_info v1 v2
  = semver.cmp_triple (semver.major v1, semver.minor v1, semver.patch v1)
                      (semver.major v2, semver.minor v2, semver.patch v2).
Proof.
  intros H. unfold semver.compare_info. rewrite H, _nat_cmp_refl.
  destruct (semver.cmp_triple _ _ =? 0)%Z eqn:E; [|reflexivity].
  apply Z.eqb_eq in E. now rewrite E.
Qed.

Lemma cmp_triple_le (x y : N * N * N) :
  (semver.cmp_triple x y <= 0)%Z -> numbers_le x y.
Proof.
  destruct x as [[a b] c], y as [[a' b'] c']. unfold semver.cmp_triple, numbers_le.
  unfold semver.cmp_N.
  destruct (N.compare_spec a a') as [->|Ha|Ha]; cbn; intros H; try lia.
  destruct (N.compare_spec b b') as [->|Hb|Hb]; cbn in *; try lia.
  destruct (N.compare_spec c c') as [->|Hc|Hc]; cbn in *; lia.
Qed.

(** X27. The latest patch is the latest by its numbers. With the pattern of
    the decision functions and distros named in lower-case letters, when
    the tags that pass the filter are valid semantic versions, the canonical
    version of the tag that [_latest_patch] returns is, number by number,
    not smaller than the canonical version of any tag that passes the
    filter: [3.9.10] comes after [3.9.9]. *)
Theorem _latest_patch_by_numbers (tags : list string) (ver : string)
    (distros : list string) (distro r : string) :
  Forall letters distros -> In distro distros ->
  Forall valid (survivors tags ver (wanted_tag_pattern distros) distro) ->
  _latest_patch tags ver (wanted_tag_pattern distros) distro = Ok r -> r <> "" ->
  Forall (fun tag => numbers_le (numbers (canonical_of distro tag))
                                (numbers (canonical_of distro r)))
         (survivors tags ver (wanted_tag_pattern distros) distro).
Proof.
  intros Hl Hd Hv Hr Hne.
  assert (Hs : survivors tags ver (wanted_tag_pattern distros) distro <> []).
  { intros E. unfold _latest_patch in Hr.
    fold (survivors tags ver (wanted_tag_pattern distros) distro) in Hr.
    rewrite E in Hr. inversion Hr. congruence. }
  destruct (_latest_patch_split tags ver _ distro Hv Hs)
    as (before & m & after & Hsplit & Hm & Hb & Ha).
  rewrite Hm in Hr. inversion Hr; subst m. clear Hr.
  assert (Hshape : forall t, In t (survivors tags ver (wanted_tag_pattern distros) distro) ->
            valid t
            /\ exists core, t = core ++ "-" ++ distro /\ canonical_of distro t = core
                            /\ forallb_str plain_version_char core = true).
  { intros t Ht. split; [now apply (proj1 (Forall_forall _ _) Hv)|].
    unfold survivors in Ht. apply filter_In in Ht as [_ Hc].
    apply andb_true_iff in Hc as [Hc Hp]. apply andb_true_iff in Hc as [_ He].
    destruct (image_parts distros distro t Hl Hd Hp He)
      as (core & a & b & c & -> & Hf & _ & Hc).
    exists core. repeat split; auto. unfold canonical_of. now apply replace_distro. }
  assert (Hle : forall t, In t (survivors tags ver (wanted_tag_pattern distros) distro) ->
            semver_le t r ->
            numbers_le (numbers (canonical_of distro t)) (numbers (canonical_of distro r))).
  { intros t Ht (c & Hc & Hc0).
    destruct (Hshape t Ht) as (Vt & ct & Et & Ct & Pt).
    destruct (Hshape r) as (Vr & cr & Er & Cr & Pr).
    { rewrite Hsplit. apply in_or_app. right. now left. }
    rewrite Ct, Cr.
    rewrite (compare_valid t r Vt Vr) in Hc. inversion Hc; subst c. clear Hc.
    assert (Hd' : letters distro) by now apply (proj1 (Forall_forall _ _) Hl).
    rewrite Et in Vt. rewrite Er in Vr.
    destruct (parsed_image ct distro Pt Hd' Vt) as [Nt Rt].
    destruct (parsed_image cr distro Pr Hd' Vr) as [Nr Rr].
    rewrite Et, Er in Hc0.
    rewrite compare_info_same_prerelease in Hc0 by now rewrite Rt, Rr.
    rewrite Nt, Nr in Hc0. now apply cmp_triple_le. }
  apply Forall_forall. intros t Ht. apply Hle; [exact Ht|].
  rewrite Hsplit in Ht. apply in_app_or in Ht as [Ht|[<-|Ht]].
  - apply semver_lt_le. now apply (proj1 (Forall_forall _ _) Hb).
  - assert (Vr : valid r).
    { apply (proj1 (Forall_forall _ _) Hv). rewrite Hsplit.
      apply in_or_app. right. now left. }
    exists (semver.compare_info (parsed r) (parsed r)). split.
    + now apply compare_valid.
    + rewrite compare_info_same_prerelease by reflexivity.
      destruct (parsed r) as [ma mi pa pre bld]. cbn.
      unfold semver.cmp_triple, semver.cmp_N. rewrite !N.compare_refl. cbn. lia.
  - now apply (proj1 (Forall_forall _ _) Ha).
Qed.

Lemma _latest_patch_by_numbers_witness :
  Forall (fun tag => numbers_le (numbers (canonical_of "buster" tag))
                                (numbers (canonical_of "buster" "3.9.10-buster")))
         (survivors ["3.9.9-buster"; "3.9.10-buster"; "3.9.10-slim"; "3.10.0-buster"]
            "3.9." (wanted_tag_pattern ["buster"; "slim"]) "buster").
Proof.
  apply (_latest_patch_by_numbers
           ["3.9.9-buster"; "3.9.10-buster"; "3.9.10-slim"; "3.10.0-buster"]
           "3.9." ["buster"; "slim"] "buster" "3.9.10-buster").
  - repeat constructor.
  - now left.
  - repeat constructor; eexists; reflexivity.
  - reflexivity.
  - discriminate.
Defined.

(** ** The requests of a status change *)

Section TicketBounds.
Import jira_automation.

(** X28. Whatever the tracker answers, and whether the call returns or
    raises, a status change sends the GET for the issue and after it at most
    one POST, to the transitions of the issue: transition 121 or 21 for
    [change_status_to_in_progress], transition 151 for
    [change_status_to_needs_review]. *)
Theorem change_status_sends_at_most_one_post (env : Env) (self : UpdateJira)
    (w : World) :
  (exists posts,
     requests (snd (change_status_to_in_progress env self w))
     = (requests w ++ GET (issue_url self) :: posts)%list
     /\ (posts = [] \/ posts = [POST (transitions_url self) "121"]
         \/ posts = [POST (transitions_url self) "21"]))
  /\ (exists posts,
        requests (snd (change_status_to_needs_review env self w))
        = (requests w ++ GET (issue_url self) :: posts)%list
        /\ (posts = [] \/ posts = [POST (transitions_url self) "151"])).
Proof.
  destruct (get_ticket_info_after_get env self w) as [Hreq _].
  destruct (get_spec env self (issue_url self) w) as [Hgreq _].
  rewrite Hgreq in Hreq. clear Hgreq.
  split.
  - unfold change_status_to_in_progress. unfold IO.bind at 1 2.
    destruct (get_ticket_info env self w) as [[ti|e] w1]; simpl in Hreq;
      [|exists []; auto].
    unfold IO.lift. destruct (has_ticket_issue self ti) as [b|e];
      [|exists []; auto].
    destruct ti as [info|]; [|exists []; auto].
    destruct b; [|exists []; auto].
    destruct (contains "backlog" (status info)).
    { rewrite then_post_requests, Hreq, <- app_assoc. eexists. split; [reflexivity|].
      auto. }
    destruct (contains "selected" (status info)).
    { rewrite then_post_requests, Hreq, <- app_assoc. eexists. split; [reflexivity|].
      auto. }
    exists []. auto.
  - unfold change_status_to_needs_review. unfold IO.bind at 1 2.
    destruct (get_ticket_info env self w) as [[ti|e] w1]; simpl in Hreq;
      [|exists []; auto].
    unfold IO.lift. destruct (has_ticket_issue self ti) as [b|e];
      [|exists []; auto].
    destruct ti as [info|]; [|exists []; auto].
    destruct b; [|exists []; auto].
    destruct (contains "progress" (status info)).
    { rewrite then_post_requests, Hreq, <- app_assoc. eexists. split; [reflexivity|].
      auto. }
    exists []. auto.
Qed.

End TicketBounds.

(** ** A run that goes through *)

(** X29. A run of [main] that is not dry and in which nothing fails, with a
    README as a read in text mode gives it (no carriage return) and rows
    whose fields hold no line break and no backslash. The baseline of the
    change detection is the state file as it was when the run began; the run
    ends with the new sequence in the state file, the table of the new
    sequence in the README, and on the Docker client the login and, for each
    row that is new or updated against that baseline, in order, its build
    and its push. *)
Theorem main_publishes (env : Env) (distros : list string) (debug force : bool)
    (w w1 : World) (B N : list Combination) (readme node_gpg_keys : string) :
  plan env distros w = (Ok (B, N), w1) ->
  readme_md w = Some readme -> no_carriage_return readme -> Forall plain_row N ->
  new_or_updated B N force <> [] -> engine_ready env ->
  _fetch_node_gpg_keys env = Ok node_gpg_keys ->
  Forall (builds env node_gpg_keys) (new_or_updated B N force) ->
  exists w',
    main env distros false debug force w = (Ok tt, w')
    /\ versions_json w = Some B
    /\ versions_json w' = Some N
    /\ readme_md w' = Some (sub (fun _ => replacement N) readme)
    /\ docker w'
       = (docker w ++ login_call env
            :: flat_map (fun v => [build_call env node_gpg_keys v; push_call v])
                        (new_or_updated B N force))%list.
Proof.
  intros Ep Hr Hcr Hplain Hne Hready Hk Hb.
  pose proof (plan_keeps readme_md env distros beside_console_readme_md w) as Pr.
  pose proof (plan_keeps docker env distros beside_console_docker w) as Pd.
  rewrite Ep in Pr, Pd. simpl in Pr, Pd.
  destruct (persist_versions_spec N false w1) as (w2 & Ew & Hv & Hm & _ & _ & Hd).
  assert (Hr2 : readme_md w2 = Some readme) by now rewrite Hm, Pr.
  pose proof (update_readme_tags_table_spec env N false w2 readme Hplain Hr2 Hcr) as Eu.
  cbv iota in Eu.
  set (w3 := with_readme (sub (fun _ => replacement N) readme) w2) in *.
  pose proof (build_new_or_updated_loop env B N false debug force node_gpg_keys w3
                Hne Hready Hk) as El.
  destruct (for_each_build_rounds env node_gpg_keys debug (new_or_updated B N force)
              {| versions_json := versions_json w3;
                 readme_md := readme_md w3;
                 debug_files := debug_files w3;
                 console := console w3;
                 docker := (docker w3 ++ [login_call env])%list |} Hb)
    as (w' & Ef & D & _ & V & R).
  exists w'. split; [|split; [|split; [|split]]].
  - rewrite main_plan_publish, Ep. unfold publish, IO.bind.
    rewrite Ew, Eu, El. exact Ef.
  - now apply (plan_loads env distros w w1 B N).
  - rewrite V. cbn. exact Hv.
  - rewrite R. reflexivity.
  - rewrite D. cbn. rewrite Hd, Pd, <- app_assoc. reflexivity.
Qed.

Lemma main_publishes_witness :
  exists w',
    main november_2024 ["buster"] false false false older_baseline = (Ok tt, w')
    /\ versions_json older_baseline = Some [py39_node18_old]
    /\ versions_json w' = Some [py39_node18_now]
    /\ readme_md w' = Some (sub (fun _ => replacement [py39_node18_now]) readme_text)
    /\ docker w'
       = (docker older_baseline ++ login_call november_2024
            :: flat_map (fun v => [build_call november_2024 "keys" v; push_call v])
                 (new_or_updated [py39_node18_old] [py39_node18_now] false))%list.
Proof.
  apply (main_publishes november_2024 ["buster"] false false older_baseline
           (snd (plan november_2024 ["buster"] older_baseline))
           [py39_node18_old] [py39_node18_now] readme_text "keys").
  - reflexivity.
  - reflexivity.
  - reflexivity.
  - repeat constructor.
  - discriminate.
  - split; reflexivity.
  - reflexivity.
  - repeat constructor; exists "FROM python"; reflexivity.
Defined.
